(** * VIPR: verifier, completer, incompletifier and width tool for MILP
      certificates

  A shallow embedding of the parts of [viprchk.cpp],
  [viprcomp_parallel.cpp], [incompletify.cpp] and [viprwidth.cpp] that
  decide the properties stated below, followed by the properties
  themselves.

  Conventions of the embedding.
  - A certificate is given section by section, each section as the
    sequence of fields that the C++ stream extraction [>>] delivers
    (labels, sense characters, rationals, index/value pairs, bracket
    tokens).  White space, comment lines and the failure of an extraction
    that the code does not test are below this level.
  - An [mpq_class] is a [Q]: numerator and positive denominator, not
    necessarily coprime.  Rationals read from a file are not
    canonicalised by GMP.
  - A [shared_ptr<SVectorGMP>] is an address into a heap of vectors; the
    objective vector lives at a fixed address, so that aliasing through
    the [OBJ] token is visible.
  - [std::map<int,bool>] assumption lists only ever store [true]; they are
    finite sets of indices. *)

From Stdlib Require Import ZArith QArith Qround Qcanon Lqa Ascii String.
From stdpp Require Import base option list gmap sets sorting strings.

Open Scope Z_scope.

(** * The rational kernel (GMP, [mpq_class]) *)

Module Rat.

(** [mpq_equal]: identical numerator and denominator. *)
Definition mpq_equal (a b : Q) : bool :=
  (Qnum a =? Qnum b) && (Qden a =? Qden b)%positive.

(** Comparison with the integer constant [0]. *)
Definition is_zero (a : Q) : bool := Qnum a =? 0.
Definition is_neg (a : Q) : bool := Qnum a <? 0.
Definition is_pos (a : Q) : bool := 0 <? Qnum a.

(** [sgn] *)
Definition sgn (a : Q) : Z := Z.sgn (Qnum a).

(** [mpq_cmp]: comparison by cross multiplication. *)
Definition lt (a b : Q) : bool :=
  match (a ?= b)%Q with Lt => true | _ => false end.
Definition gt (a b : Q) : bool := lt b a.
Definition le (a b : Q) : bool := negb (lt b a).
Definition ge (a b : Q) : bool := negb (lt a b).

(** Arithmetic returns canonical results. *)
Definition add (a b : Q) : Q := Qred (a + b).
Definition sub (a b : Q) : Q := Qred (a - b).
Definition mul (a b : Q) : Q := Qred (a * b).

(** [floor]: [mpz_fdiv_q] of numerator by denominator. *)
Definition floor (q : Q) : Q := inject_Z (Qfloor q).
(** [ceil]: [mpz_cdiv_q] of numerator by denominator. *)
Definition ceil (q : Q) : Q := inject_Z (Qceiling q).

(** [isInteger]: [q == floor(q)]. *)
Definition isInteger (q : Q) : bool := mpq_equal q (floor q).

(** Equality of representations is decidable. *)
#[global] Instance Q_eq_dec : EqDecision Q.
Proof. solve_decision. Defined.

End Rat.

(** * The verifier ([viprchk.cpp]) *)

Module Chk.
Import Rat.

Inductive DerivationType := ASM | LIN | RND | UNS | SOL | UNKNOWN.
Inductive RelationToProveType := INFEAS | RANGE.
Inductive ViprStatus := OKAY | ERROR.

(** [SVectorGMP]: [std::map<int, mpq_class>]. *)
Abbreviation SVectorGMP := (gmap Z Q).
(** [SVectorBool]: [std::map<int, bool>], every stored value is [true]. *)
Abbreviation SVectorBool := (gset Z).

(** Addresses of [SVectorGMP] objects held through [shared_ptr]. *)
Abbreviation ptr := nat.
(** The object behind the global [objectiveCoefficients]. *)
Definition objPtr : ptr := 0%nat.

(** Iteration over a [std::map] visits the keys in increasing order. *)
Definition key_le (x y : Z * Q) : Prop := x.1 ≤ y.1.
#[global] Instance key_le_dec : RelDecision key_le :=
  λ x y, decide (x.1 ≤ y.1).
Definition entries (v : SVectorGMP) : list (Z * Q) :=
  merge_sort key_le (map_to_list v).

(** [SVectorGMP::compactify] *)
Definition compactify (v : SVectorGMP) : SVectorGMP :=
  filter (λ kv, is_zero kv.2 = false) v.

(** [SVectorGMP::canonicalize] *)
Definition canonicalize (v : SVectorGMP) : SVectorGMP := Qred <$> v.

(** The comparison loop of [SVectorGMP::operator!=]. *)
Definition differs_at (cf2 : SVectorGMP) (e : Z * Q) : bool :=
  match cf2 !! e.1 with
  | None => negb (is_zero e.2)
  | Some b => negb (mpq_equal b e.2)
  end.

(** [SVectorGMP::operator!=]; the two operands are returned as the call
    leaves them. *)
Definition svec_neq (cf1 cf2 : SVectorGMP) : bool * SVectorGMP * SVectorGMP :=
  let resize := negb (size cf1 =? size cf2)%nat in
  let cf1 := if resize then compactify cf1 else cf1 in
  let cf2 := if resize then compactify cf2 else cf2 in
  if negb (size cf1 =? size cf2)%nat then (true, cf1, cf2)
  else (existsb (differs_at cf2) (entries cf1), cf1, cf2).

(** [scalarProduct] *)
Definition scalarProduct (u v : SVectorGMP) : Q :=
  fold_left (λ product e,
               match v !! e.1 with
               | Some b => add product (mul e.2 b)
               | None => product
               end) (entries u) (0:Q).

(** [class Constraint]; [_coefficients] is [None] for [nullptr]. *)
Record Constraint := mkConstraint {
  _label : string;
  _sense : Z;
  _rhs : Q;
  _coefficients : option ptr;
  _refIdx : Z;
  _isAssumption : bool;
  _assumptionList : SVectorBool;
  _falsehood : bool;
  _coefsEqualObj : bool;
  _trashed : bool
}.

(** A default-constructed [Constraint] with static storage. *)
Definition Constraint_default : Constraint :=
  mkConstraint EmptyString 0 0 None (-1) false ∅ false false false.

(** The global variables. *)
Record State := mkState {
  numberOfVariables : Z;
  numberOfConstraints : Z;
  numberOfSolutions : Z;
  isInt : list bool;
  variable : list string;
  constraint : list Constraint;
  relationToProveType : RelationToProveType;
  bestObjectiveValue : Q;
  lowerBound : Q;
  upperBound : Q;
  isMin : bool;
  checkLower : bool;
  checkUpper : bool;
  relationToProve : Constraint;
  objectiveIntegral : bool;
  heap : gmap ptr SVectorGMP;
  allocated : nat
}.

(** The state before [main]: zero-initialised globals and the empty
    objective vector. *)
Definition initial : State :=
  mkState 0 0 0 [] [] [] INFEAS 0 0 0 false false false
          Constraint_default false {[ objPtr := ∅ ]} 0.

(** ** Runs

    [Stuck] stands for a run that leaves what the program text defines:
    an element access outside a vector, a null dereference, an uncaught
    exception. *)
Inductive result (A : Type) : Type :=
| Done (a : A) (s : State)
| Stuck.
Arguments Done {A} a s.
Arguments Stuck {A}.

Definition M (A : Type) : Type := State → result A.

Definition ret {A} (a : A) : M A := λ s, Done a s.
Definition bind {A B} (m : M A) (k : A → M B) : M B :=
  λ s, match m s with Done a s' => k a s' | Stuck => Stuck end.
Definition stuck {A} : M A := λ _, Stuck.
Definition get : M State := λ s, Done s s.
Definition put (s : State) : M unit := λ _, Done tt s.
Definition modify (f : State → State) : M unit := λ s, Done tt (f s).
Definition lift {A} (o : option A) : M A :=
  match o with Some a => ret a | None => stuck end.

Notation "x <- m ;; k" := (bind m (λ x, k))
  (at level 100, m at next level, right associativity).
Notation "m ;;; k" := (bind m (λ _, k))
  (at level 100, right associativity).

(** [v[i]] on a [std::vector] *)
Definition vec_at {A} (v : list A) (i : Z) : option A :=
  if 0 <=? i then v !! Z.to_nat i else None.

Definition set_heap (h : gmap ptr SVectorGMP) (s : State) : State :=
  mkState (numberOfVariables s) (numberOfConstraints s) (numberOfSolutions s)
          (isInt s) (variable s) (constraint s) (relationToProveType s)
          (bestObjectiveValue s) (lowerBound s) (upperBound s) (isMin s)
          (checkLower s) (checkUpper s) (relationToProve s)
          (objectiveIntegral s) h (allocated s).

Definition set_constraint (cs : list Constraint) (s : State) : State :=
  mkState (numberOfVariables s) (numberOfConstraints s) (numberOfSolutions s)
          (isInt s) (variable s) cs (relationToProveType s)
          (bestObjectiveValue s) (lowerBound s) (upperBound s) (isMin s)
          (checkLower s) (checkUpper s) (relationToProve s)
          (objectiveIntegral s) (heap s) (allocated s).

(** [*p] *)
Definition deref (p : option ptr) : M SVectorGMP :=
  s <- get ;; lift (p ≫= λ a, heap s !! a).

(** [*p = v] *)
Definition store (p : ptr) (v : SVectorGMP) : M unit :=
  modify (λ s, set_heap (<[p := v]> (heap s)) s).

(** [make_shared<SVectorGMP>()] *)
Definition make_shared : M ptr :=
  s <- get ;;
  let p := S (allocated s) in
  put (mkState (numberOfVariables s) (numberOfConstraints s)
               (numberOfSolutions s) (isInt s) (variable s) (constraint s)
               (relationToProveType s) (bestObjectiveValue s) (lowerBound s)
               (upperBound s) (isMin s) (checkLower s) (checkUpper s)
               (relationToProve s) (objectiveIntegral s)
               (<[p := ∅]> (heap s)) p) ;;;
  ret p.

(** ** Methods of [Constraint] *)

Definition set_rhs (r : Q) (c : Constraint) : Constraint :=
  mkConstraint (_label c) (_sense c) r (_coefficients c) (_refIdx c)
               (_isAssumption c) (_assumptionList c) (_falsehood c)
               (_coefsEqualObj c) (_trashed c).

(** [Constraint::setassumptionList] *)
Definition setassumptionList (l : SVectorBool) (c : Constraint) : Constraint :=
  mkConstraint (_label c) (_sense c) (_rhs c) (_coefficients c) (_refIdx c)
               (_isAssumption c) l (_falsehood c) (_coefsEqualObj c)
               (_trashed c).

(** [Constraint::setMaxRefIdx] *)
Definition setMaxRefIdx (r : Z) (c : Constraint) : Constraint :=
  mkConstraint (_label c) (_sense c) (_rhs c) (_coefficients c) r
               (_isAssumption c) (_assumptionList c) (_falsehood c)
               (_coefsEqualObj c) (_trashed c).

(** [Constraint::markObjectiveCoefficients] *)
Definition markObjectiveCoefficients (c : Constraint) : Constraint :=
  mkConstraint (_label c) (_sense c) (_rhs c) (_coefficients c) (_refIdx c)
               (_isAssumption c) (_assumptionList c) (_falsehood c)
               true (_trashed c).

(** [Constraint::trash] *)
Definition trash (c : Constraint) : Constraint :=
  mkConstraint (_label c) (_sense c) 0 None (_refIdx c)
               (_isAssumption c) ∅ false (_coefsEqualObj c) true.

(** The sense and side test of [Constraint::_isFalsehood] and of
    [Constraint::isTautology]. *)
Definition falsehood_side (sense : Z) (rhs : Q) : bool :=
  ((sense <=? 0) && is_neg rhs) || ((0 <=? sense) && is_pos rhs).

(** [Constraint::_isFalsehood] *)
Definition _isFalsehood (c : Constraint) : M bool :=
  v <- deref (_coefficients c) ;;
  ret (if decide (v = ∅) then falsehood_side (_sense c) (_rhs c) else false).

(** The constructor [Constraint(label, sense, rhs, coefficients,
    isAssumptionCon, assumptionList)]. *)
Definition Constraint_new (label : string) (sense : Z) (rhs : Q)
    (coefficients : ptr) (isAssumptionCon : bool)
    (assumptionList : SVectorBool) : M Constraint :=
  v <- deref (Some coefficients) ;;
  store coefficients (compactify v) ;;;
  let c := mkConstraint label sense rhs (Some coefficients) (-1)
                        isAssumptionCon assumptionList false false false in
  f <- _isFalsehood c ;;
  ret (mkConstraint label sense rhs (Some coefficients) (-1)
                    isAssumptionCon assumptionList f false false).

(** [Constraint::canonicalize] *)
Definition Constraint_canonicalize (c : Constraint) : M unit :=
  v <- deref (_coefficients c) ;;
  p <- lift (_coefficients c) ;;
  store p (canonicalize v).

(** The loop of [Constraint::round] over the coefficients. *)
Fixpoint round_loop (isInt : list bool) (es : list (Z * Q)) : option bool :=
  match es with
  | [] => Some true
  | (j, a) :: es' =>
      match vec_at isInt j with
      | None => None
      | Some true => if isInteger a then round_loop isInt es' else Some false
      | Some false => round_loop isInt es'
      end
  end.

(** [Constraint::round]; the object is returned as the call leaves it. *)
Definition round (c : Constraint) : M (bool * Constraint) :=
  v <- deref (_coefficients c) ;;
  s <- get ;;
  returnStatement <- lift (round_loop (isInt s) (entries v)) ;;
  if returnStatement then
    if _sense c <? 0 then ret (true, set_rhs (floor (_rhs c)) c)
    else if 0 <? _sense c then ret (true, set_rhs (ceil (_rhs c)) c)
    else ret (true, c)
  else ret (false, c).

(** The sense and side test of [Constraint::dominates]. *)
Definition implies_side (this other : Constraint) : bool :=
  ((0 <? _sense other) && (0 <=? _sense this)
     && ge (_rhs this) (_rhs other))
  || ((_sense other <? 0) && (_sense this <=? 0)
        && le (_rhs this) (_rhs other))
  || ((_sense other =? 0) && (_sense this =? 0)
        && mpq_equal (_rhs this) (_rhs other)).

(** [*p1 == *p2] on two [shared_ptr<SVectorGMP>] *)
Definition svec_eq_at (p1 p2 : option ptr) : M bool :=
  cf1 <- deref p1 ;;
  cf2 <- deref p2 ;;
  a1 <- lift p1 ;;
  a2 <- lift p2 ;;
  let '(ne, cf1', cf2') := svec_neq cf1 cf2 in
  store a1 cf1' ;;;
  store a2 cf2' ;;;
  ret (negb ne).

(** [Constraint::dominates] *)
Definition dominates (this other : Constraint) : M bool :=
  if _falsehood this then ret true
  else
    same <- svec_eq_at (_coefficients this) (_coefficients other) ;;
    ret (same && implies_side this other).

(** [Constraint::isTautology] *)
Definition isTautology (c : Constraint) : M bool :=
  v <- deref (_coefficients c) ;;
  ret (if decide (v = ∅)
       then ((_sense c =? 0) && is_zero (_rhs c))
            || ((_sense c <? 0) && negb (is_neg (_rhs c)))
            || ((0 <? _sense c) && negb (is_pos (_rhs c)))
       else false).

(** ** The sections of a certificate, as the reader extracts them *)

(** A sparse vector: the token [OBJ], or [k i_1 v_1 ... i_k v_k]. *)
Inductive coef_tok :=
| OBJ_tok
| Vec_tok (pairs : list (Z * Q)).

(** [label sense rhs <sparse-vec>] *)
Record con_line := mkCon {
  cl_label : string;
  cl_senseChar : ascii;
  cl_rhs : Q;
  cl_coef : coef_tok
}.

(** A bound of [RTP range]: [-inf], [inf], or a number. *)
Inductive bound_tok :=
| Inf_tok (negative : bool)
| Num_tok (q : Q).

Inductive rtp_tok :=
| Infeas_tok
| Range_tok (lowerStr upperStr : bound_tok)
| Other_rtp (relationToProveTypeStr : string).

(** The reason of a derivation, after the token [kind]. *)
Inductive reason_tok :=
| Asm_tok
| Lin_tok (mult : list (Z * Q))
| Rnd_tok (mult : list (Z * Q))
| Uns_tok (con1 asm1 con2 asm2 : Z)
| Sol_tok
| Other_tok (kind : string).

(** [label sense rhs <sparse-vec> bracket kind ... bracket refIdx] *)
Record der_line := mkDer {
  dl_con : con_line;
  dl_open : string;
  dl_reason : reason_tok;
  dl_close : string;
  dl_refIdx : Z
}.

Record certificate := mkCert {
  cVER : Z * Z;
  cVAR : list string;
  cINT : list Z;
  cOBJ : string * coef_tok;
  cCON : list con_line;
  cRTP : rtp_tok;
  cSOL : list (string * coef_tok);
  cDER : list der_line
}.

(** ** Reading constraints *)

(** The loop of [readConstraintCoefficients] over the index/value pairs;
    [false] is the jump to [TERMINATE]. *)
Fixpoint read_pairs (coefficients : ptr) (pairs : list (Z * Q)) : M bool :=
  match pairs with
  | [] => ret true
  | (index, a) :: pairs' =>
      s <- get ;;
      if (index <? 0) || (numberOfVariables s <=? index) then ret false
      else
        v <- deref (Some coefficients) ;;
        store coefficients (<[index := a]> v) ;;;
        read_pairs coefficients pairs'
  end.

(** [readConstraintCoefficients(coefficients, coefEqualsObj)]; returns the
    return value, the pointer [coefficients] (passed by reference) and
    [coefEqualsObj]. *)
Definition readConstraintCoefficients (coefficients : ptr) (tok : coef_tok)
  : M (bool * ptr * bool) :=
  _ <- deref (Some coefficients) ;;
  store coefficients ∅ ;;;
  match tok with
  | OBJ_tok =>
      v <- deref (Some objPtr) ;;
      store objPtr (compactify v) ;;;
      ret (true, objPtr, true)
  | Vec_tok pairs =>
      ok <- read_pairs coefficients pairs ;;
      if ok then
        v <- deref (Some coefficients) ;;
        store coefficients (compactify v) ;;;
        ret (true, coefficients, false)
      else ret (false, coefficients, false)
  end.

Definition is_comment (label : string) : bool :=
  match label with
  | String c _ => Ascii.eqb c "%"
  | EmptyString => false
  end.

(** [readConstraint(label, sense, rhs, coefficients, coefEqualsObj)];
    returns the return value, [sense], [coefficients] and [coefEqualsObj].
    A label that starts with [%] makes the callers treat the line as a
    comment and skip to the end of the line, which is below the level of
    this model. *)
Definition readConstraint (l : con_line) (coefficients : ptr)
  : M (bool * Z * ptr * bool) :=
  if is_comment (cl_label l) then stuck
  else
    let read sense :=
      r <- readConstraintCoefficients coefficients (cl_coef l) ;;
      let '(ok, p, coefEqualsObj) := r in
      ret (ok, sense, p, coefEqualsObj) in
    if Ascii.eqb (cl_senseChar l) "E" then read 0
    else if Ascii.eqb (cl_senseChar l) "L" then read (-1)
    else if Ascii.eqb (cl_senseChar l) "G" then read 1
    else ret (false, 0, coefficients, false).

(** ** The sections before [SOL] *)

Section Build.

(** [VIPR_VERSION_MAJOR] and [VIPR_VERSION_MINOR] of [CMakeConfig.hpp], and
    whether [NDEBUG] is defined. *)
Variables (VIPR_VERSION_MAJOR VIPR_VERSION_MINOR : Z) (NDEBUG : bool).

(** [checkVersion], on the two numbers that [atoi] extracts. *)
Definition checkVersion (version : Z * Z) : bool :=
  (version.1 =? VIPR_VERSION_MAJOR) && (version.2 <=? VIPR_VERSION_MINOR).

(** [processVER] *)
Definition processVER (version : Z * Z) : M bool :=
  ret (checkVersion version).

Definition set_variables (names : list string) (s : State) : State :=
  mkState (Z.of_nat (length names)) (numberOfConstraints s)
          (numberOfSolutions s) (isInt s) names (constraint s)
          (relationToProveType s) (bestObjectiveValue s) (lowerBound s)
          (upperBound s) (isMin s) (checkLower s) (checkUpper s)
          (relationToProve s) (objectiveIntegral s) (heap s) (allocated s).

(** [processVAR] *)
Definition processVAR (names : list string) : M bool :=
  modify (set_variables names) ;;; ret true.

Definition set_isInt (v : list bool) (s : State) : State :=
  mkState (numberOfVariables s) (numberOfConstraints s) (numberOfSolutions s)
          v (variable s) (constraint s) (relationToProveType s)
          (bestObjectiveValue s) (lowerBound s) (upperBound s) (isMin s)
          (checkLower s) (checkUpper s) (relationToProve s)
          (objectiveIntegral s) (heap s) (allocated s).

(** The loop of [processINT]: [isInt[index] = true]. *)
Fixpoint mark_integers (v : list bool) (indices : list Z) : option (list bool) :=
  match indices with
  | [] => Some v
  | index :: rest =>
      match vec_at v index with
      | Some _ => mark_integers (<[Z.to_nat index := true]> v) rest
      | None => None
      end
  end.

(** [processINT] *)
Definition processINT (indices : list Z) : M bool :=
  s <- get ;;
  v <- lift (mark_integers (replicate (length (variable s)) false) indices) ;;
  modify (set_isInt v) ;;;
  ret true.

Definition set_objective (min integral : bool) (s : State) : State :=
  mkState (numberOfVariables s) (numberOfConstraints s) (numberOfSolutions s)
          (isInt s) (variable s) (constraint s) (relationToProveType s)
          (bestObjectiveValue s) (lowerBound s) (upperBound s) min
          (checkLower s) (checkUpper s) (relationToProve s)
          integral (heap s) (allocated s).

(** The loop of [processOBJ] that computes [objectiveIntegral]. *)
Fixpoint integral_loop (isInt : list bool) (es : list (Z * Q)) (acc : bool)
  : option bool :=
  match es with
  | [] => Some acc
  | (j, a) :: es' =>
      if negb (isInteger a) then integral_loop isInt es' false
      else match vec_at isInt j with
           | Some b => integral_loop isInt es' (if negb b then false else acc)
           | None => None
           end
  end.

(** [processOBJ] *)
Definition processOBJ (obj : string * coef_tok) : M bool :=
  let go min :=
    r <- readConstraintCoefficients objPtr obj.2 ;;
    let '(returnStatement, _, _) := r in
    v <- deref (Some objPtr) ;;
    s <- get ;;
    integral <- lift (integral_loop (isInt s) (entries v) true) ;;
    modify (set_objective min integral) ;;;
    ret returnStatement in
  if String.eqb obj.1 "min" then go true
  else if String.eqb obj.1 "max" then go false
  else ret false.

Definition push_constraint (c : Constraint) : M unit :=
  modify (λ s, set_constraint (constraint s ++ [c]) s).

(** The loop of [processCON]; [returnStatement] is [false] before the first
    constraint is read. *)
Fixpoint con_loop (lines : list con_line) (returnStatement : bool) : M bool :=
  match lines with
  | [] => ret returnStatement
  | l :: lines' =>
      coef <- make_shared ;;
      r <- readConstraint l coef ;;
      let '(ok, sense, coef, _) := r in
      if ok then
        c <- Constraint_new (cl_label l) sense (cl_rhs l) coef false ∅ ;;
        push_constraint c ;;;
        con_loop lines' true
      else ret false
  end.

Definition set_numberOfConstraints (n : Z) (s : State) : State :=
  mkState (numberOfVariables s) n (numberOfSolutions s)
          (isInt s) (variable s) (constraint s) (relationToProveType s)
          (bestObjectiveValue s) (lowerBound s) (upperBound s) (isMin s)
          (checkLower s) (checkUpper s) (relationToProve s)
          (objectiveIntegral s) (heap s) (allocated s).

(** [processCON] *)
Definition processCON (lines : list con_line) : M bool :=
  modify (set_numberOfConstraints (Z.of_nat (length lines))) ;;;
  con_loop lines false.

Definition set_rtp (t : RelationToProveType) (cl cu : bool) (lb ub : Q)
    (s : State) : State :=
  mkState (numberOfVariables s) (numberOfConstraints s) (numberOfSolutions s)
          (isInt s) (variable s) (constraint s) t
          (bestObjectiveValue s) lb ub (isMin s) cl cu (relationToProve s)
          (objectiveIntegral s) (heap s) (allocated s).

Definition set_relationToProve (c : Constraint) (s : State) : State :=
  mkState (numberOfVariables s) (numberOfConstraints s) (numberOfSolutions s)
          (isInt s) (variable s) (constraint s) (relationToProveType s)
          (bestObjectiveValue s) (lowerBound s) (upperBound s) (isMin s)
          (checkLower s) (checkUpper s) c
          (objectiveIntegral s) (heap s) (allocated s).

(** [processRTP].  [mpq_class(lowerStr)] throws on [inf], and
    [mpq_class(upperStr)] on [-inf]. *)
Definition processRTP (rtp : rtp_tok) : M bool :=
  match rtp with
  | Infeas_tok =>
      modify (λ s, set_rtp INFEAS (checkLower s) (checkUpper s)
                           (lowerBound s) (upperBound s) s) ;;;
      ret true
  | Other_rtp _ => ret false
  | Range_tok lowerStr upperStr =>
      s <- get ;;
      lo <- match lowerStr with
            | Inf_tok true => ret (false, lowerBound s)
            | Inf_tok false => stuck
            | Num_tok q => ret (true, q)
            end ;;
      up <- match upperStr with
            | Inf_tok false => ret (false, upperBound s)
            | Inf_tok true => stuck
            | Num_tok q => ret (true, q)
            end ;;
      modify (set_rtp RANGE lo.1 up.1 lo.2 up.2) ;;;
      if lo.1 && up.1 && gt lo.2 up.2 then ret false
      else
        (if isMin s && lo.1 then
           c <- Constraint_new "rtp" 1 lo.2 objPtr false ∅ ;;
           modify (set_relationToProve c)
         else if negb (isMin s) && up.1 then
           c <- Constraint_new "rtp" (-1) up.2 objPtr false ∅ ;;
           modify (set_relationToProve c)
         else ret tt) ;;;
        ret true
  end.

(** ** [processSOL] *)

(** The lambda [satisfies] of [processSOL]. *)
Definition satisfies (con : Constraint) (x : ptr) : M bool :=
  u <- deref (_coefficients con) ;;
  v <- deref (Some x) ;;
  let prod := scalarProduct u v in
  ret (if _sense con <? 0 then le prod (_rhs con)
       else if 0 <? _sense con then ge prod (_rhs con)
       else mpq_equal (_rhs con) prod).

(** The integrality loop over the entries of a solution; [false] is the
    jump to [TERMINATE]. *)
Fixpoint sol_integrality (isInt : list bool) (es : list (Z * Q)) : option bool :=
  match es with
  | [] => Some true
  | (j, a) :: es' =>
      match vec_at isInt j with
      | None => None
      | Some b => if b && negb (isInteger a) then Some false
                  else sol_integrality isInt es'
      end
  end.

(** The loop over the base constraints [constraint[j]]. *)
Fixpoint sol_constraints (x : ptr) (js : list Z) : M bool :=
  match js with
  | [] => ret true
  | j :: js' =>
      s <- get ;;
      con <- lift (vec_at (constraint s) j) ;;
      ok <- satisfies con x ;;
      if ok then sol_constraints x js' else ret false
  end.

Definition set_best (value : Q) (s : State) : State :=
  mkState (numberOfVariables s) (numberOfConstraints s) (numberOfSolutions s)
          (isInt s) (variable s) (constraint s) (relationToProveType s)
          value (lowerBound s) (upperBound s) (isMin s)
          (checkLower s) (checkUpper s) (relationToProve s)
          (objectiveIntegral s) (heap s) (allocated s).

(** The update of [bestObjectiveValue] for solution number [i]. *)
Definition update_best (first : bool) (value : Q) (s : State) : State :=
  if first then set_best value s
  else if isMin s && lt value (bestObjectiveValue s) then set_best value s
  else if negb (isMin s) && gt value (bestObjectiveValue s) then set_best value s
  else s.

(** The loop of [processSOL] over the solutions; [solutionSpecified] is the
    one [shared_ptr] declared before the loop. *)
Fixpoint sol_loop (sols : list (string * coef_tok)) (first : bool)
    (solutionSpecified : ptr) : M bool :=
  match sols with
  | [] => ret true
  | (label, tok) :: sols' =>
      r <- readConstraintCoefficients solutionSpecified tok ;;
      let '(ok, solutionSpecified, _) := r in
      if negb ok then ret false
      else
        x <- deref (Some solutionSpecified) ;;
        s <- get ;;
        integral <- lift (sol_integrality (isInt s) (entries x)) ;;
        if negb integral then ret false
        else
          sat <- sol_constraints solutionSpecified
                   (seqZ 0 (numberOfConstraints s)) ;;
          if negb sat then ret false
          else
            obj <- deref (Some objPtr) ;;
            modify (update_best first (scalarProduct obj x)) ;;;
            sol_loop sols' false solutionSpecified
  end.

Definition set_numberOfSolutions (n : Z) (s : State) : State :=
  mkState (numberOfVariables s) (numberOfConstraints s) n
          (isInt s) (variable s) (constraint s) (relationToProveType s)
          (bestObjectiveValue s) (lowerBound s) (upperBound s) (isMin s)
          (checkLower s) (checkUpper s) (relationToProve s)
          (objectiveIntegral s) (heap s) (allocated s).

Definition is_RANGE (t : RelationToProveType) : bool :=
  match t with RANGE => true | INFEAS => false end.

(** [processSOL] *)
Definition processSOL (sols : list (string * coef_tok)) : M bool :=
  modify (set_numberOfSolutions (Z.of_nat (length sols))) ;;;
  solutionSpecified <- make_shared ;;
  ok <- sol_loop sols true solutionSpecified ;;
  if negb ok then ret false
  else
    s <- get ;;
    if negb (numberOfSolutions s =? 0) then
      if isMin s && checkUpper s && gt (bestObjectiveValue s) (upperBound s)
      then ret false
      else if negb (isMin s) && checkLower s
              && lt (bestObjectiveValue s) (lowerBound s)
      then ret false
      else ret true
    else if is_RANGE (relationToProveType s)
            && ((isMin s && checkUpper s) || (negb (isMin s) && checkLower s))
    then ret false
    else ret true.

(** ** Linear combinations *)

(** The loop of [readMultipliers]; [false] is the jump to [TERMINATE].  In a
    build without [NDEBUG] the loop also checks the upper range of the index
    and prints the cited constraint, which dereferences its coefficients. *)
Fixpoint mult_loop (terms : list (Z * Q)) (sense : Z) (mult : SVectorGMP)
  : M (bool * Z * SVectorGMP) :=
  match terms with
  | [] => ret (true, sense, mult)
  | (index, a) :: terms' =>
      if index <? 0 then ret (false, sense, mult)
      else if is_zero a then mult_loop terms' sense mult
      else
        let mult := <[index := a]> mult in
        s <- get ;;
        if negb NDEBUG && (Z.of_nat (length (constraint s)) <=? index)
        then ret (false, sense, mult)
        else
          con <- lift (vec_at (constraint s) index) ;;
          (if NDEBUG then ret tt
           else _ <- deref (_coefficients con) ;; ret tt) ;;;
          if sense =? 0 then mult_loop terms' (_sense con * sgn a) mult
          else
            let tmp := _sense con * sgn a in
            if negb (tmp =? 0) && negb (sense =? tmp)
            then ret (false, sense, mult)
            else mult_loop terms' sense mult
  end.

(** [readMultipliers(sense, mult)] *)
Definition readMultipliers (terms : list (Z * Q)) : M (bool * Z * SVectorGMP) :=
  mult_loop terms 0 ∅.

Definition set_constraint_at (index : Z) (c : Constraint) (s : State) : State :=
  set_constraint (<[Z.to_nat index := c]> (constraint s)) s.

(** Adds [a * v] to the entry [k] of [coefficients], for every entry
    [(k, v)] of [c]. *)
Definition add_scaled (a : Q) (c coefficients : SVectorGMP) : SVectorGMP :=
  fold_left (λ acc e, <[e.1 := add (default (0:Q) (acc !! e.1)) (mul a e.2)]> acc)
            (entries c) coefficients.

(** The loop of [readLinComb] over the multipliers. *)
Fixpoint lincomb_loop (coefficients : ptr) (currentConstraintIndex : Z)
    (ms : list (Z * Q)) (returnStatement : bool) (rhs : Q)
    (assumptionList : SVectorBool) : M (bool * Q * SVectorBool) :=
  match ms with
  | [] => ret (returnStatement, rhs, assumptionList)
  | (index, a) :: ms' =>
      s <- get ;;
      con <- lift (vec_at (constraint s) index) ;;
      let assumptionList := assumptionList ∪ _assumptionList con in
      if _trashed con then
        lincomb_loop coefficients currentConstraintIndex ms' false rhs
                     assumptionList
      else
        c <- deref (_coefficients con) ;;
        v <- deref (Some coefficients) ;;
        store coefficients (add_scaled a c v) ;;;
        (if (_refIdx con <=? currentConstraintIndex) && (0 <=? _refIdx con)
         then modify (set_constraint_at index (trash con))
         else ret tt) ;;;
        lincomb_loop coefficients currentConstraintIndex ms' returnStatement
                     (add rhs (mul a (_rhs con))) assumptionList
  end.

(** [readLinComb(sense, rhs, coefficients, currentConstraintIndex,
    assumptionList)]; returns the return value, [sense], [rhs] and
    [assumptionList]. *)
Definition readLinComb (terms : list (Z * Q)) (coefficients : ptr)
    (currentConstraintIndex : Z) : M (bool * Z * Q * SVectorBool) :=
  r <- readMultipliers terms ;;
  let '(ok, sense, mult) := r in
  if negb ok then ret (false, sense, 0:Q, ∅)
  else
    store coefficients ∅ ;;;
    r <- lincomb_loop coefficients currentConstraintIndex (entries mult)
                      true 0 ∅ ;;
    let '(returnStatement, rhs, assumptionList) := r in
    ret (returnStatement, sense, rhs, assumptionList).

(** ** Unsplitting *)

(** The loop of [canUnsplit] over the coefficients of the first assumption;
    [false] is the jump to [TERMINATE]. *)
Fixpoint unsplit_integrality (isInt : list bool) (es : list (Z * Q))
  : option bool :=
  match es with
  | [] => Some true
  | (j, a) :: es' =>
      match vec_at isInt j with
      | None => None
      | Some b => if negb b then Some false
                  else if negb (isInteger a) then Some false
                  else unsplit_integrality isInt es'
      end
  end.

(** [canUnsplit(toDer, con1, a1, con2, a2, assumptionList)]; returns the
    return value and [assumptionList], which the caller passes empty. *)
Definition canUnsplit (toDer : Constraint) (con1 a1 con2 a2 : Z)
  : M (bool * SVectorBool) :=
  s <- get ;;
  c1 <- lift (vec_at (constraint s) con1) ;;
  c2 <- lift (vec_at (constraint s) con2) ;;
  branchAsm1 <- lift (vec_at (constraint s) a1) ;;
  branchAsm2 <- lift (vec_at (constraint s) a2) ;;
  if _trashed c1 then ret (false, ∅)
  else if _trashed c2 then ret (false, ∅)
  else
    d1 <- dominates c1 toDer ;;
    d2 <- (if d1 then dominates c2 toDer else ret false) ;;
    if d1 && d2 then
      let asm1 := _assumptionList c1 ∖ {[a1]} in
      let asm2 := _assumptionList c2 ∖ {[a2]} in
      let assumptionList := asm1 ∪ asm2 in
      if _trashed branchAsm1 then ret (false, assumptionList)
      else if _trashed c2 then ret (false, assumptionList)
      else if negb (-1 =? _sense branchAsm1 * _sense branchAsm2)
      then ret (false, assumptionList)
      else
        let stat :=
          if _sense branchAsm1 <? 0
          then mpq_equal (add (_rhs branchAsm1) 1) (_rhs branchAsm2)
          else mpq_equal (_rhs branchAsm1) (add (_rhs branchAsm2) 1) in
        if negb stat then ret (false, assumptionList)
        else
          let c1ptr := _coefficients branchAsm1 in
          let c2ptr := _coefficients branchAsm2 in
          same <- (if bool_decide (c1ptr = c2ptr) then ret true
                   else svec_eq_at c1ptr c2ptr) ;;
          if same then
            v <- deref c1ptr ;;
            ok <- lift (unsplit_integrality (isInt s) (entries v)) ;;
            ret (ok, assumptionList)
          else ret (false, assumptionList)
    else ret (false, ∅).

(** ** [processDER] *)

Definition is_close (bracket : string) : bool := String.eqb bracket "}".

(** The cases [LIN] and [RND] of the switch. *)
Definition derive_lin (rnd : bool) (terms : list (Z * Q)) (bracket : string)
    (toDer : Constraint) (newConIdx : Z) : M (bool * SVectorBool) :=
  coefDer <- make_shared ;;
  r <- readLinComb terms coefDer newConIdx ;;
  let '(ok, senseDer, rhsDer, assumptionList) := r in
  if negb ok then ret (false, assumptionList)
  else if negb (is_close bracket) then ret (false, assumptionList)
  else
    derived <- Constraint_new EmptyString senseDer rhsDer coefDer
                 (_isAssumption toDer) (_assumptionList toDer) ;;
    r <- (if rnd then round derived else ret (true, derived)) ;;
    let '(rounded, derived) := r in
    if negb rounded then ret (false, assumptionList)
    else
      d <- dominates derived toDer ;;
      (if negb d then
         Constraint_canonicalize derived ;;;
         Constraint_canonicalize toDer
       else ret tt) ;;;
      d <- dominates derived toDer ;;
      ret (d, assumptionList).

(** The case [SOL] of the switch. *)
Definition derive_sol (coef : ptr) (sense : Z) (rhs : Q) (bracket : string)
  : M (bool * SVectorBool) :=
  s <- get ;;
  let cutoffbound :=
    if objectiveIntegral s then sub (bestObjectiveValue s) 1
    else bestObjectiveValue s in
  if negb (bool_decide (coef = objPtr)) then ret (false, ∅)
  else if negb (sense =? -1) then ret (false, ∅)
  else if lt rhs cutoffbound then ret (false, ∅)
  else if negb (is_close bracket) then ret (false, ∅)
  else ret (true, ∅).

(** The switch over the derivation type. *)
Definition derive_reason (l : der_line) (toDer : Constraint) (sense : Z)
    (coef : ptr) (newConIdx : Z) : M (bool * SVectorBool) :=
  match dl_reason l with
  | Asm_tok => ret (is_close (dl_close l), {[ newConIdx ]})
  | Lin_tok terms => derive_lin false terms (dl_close l) toDer newConIdx
  | Rnd_tok terms => derive_lin true terms (dl_close l) toDer newConIdx
  | Uns_tok con1 asm1 con2 asm2 =>
      if (con1 <? 0) || (newConIdx <=? con1) then ret (false, ∅)
      else if (con2 <? 0) || (newConIdx <=? con2) then ret (false, ∅)
      else
        r <- canUnsplit toDer con1 asm1 con2 asm2 ;;
        if negb r.1 then ret (false, r.2)
        else ret (is_close (dl_close l), r.2)
  | Sol_tok => derive_sol coef sense (cl_rhs (dl_con l)) (dl_close l)
  | Other_tok _ => ret (false, ∅)
  end.

Definition is_Asm (r : reason_tok) : bool :=
  match r with Asm_tok => true | _ => false end.

(** One iteration of the loop of [processDER] up to [constraint.push_back]:
    the constraint that is about to be appended, or [None] for
    [return false]. *)
Definition derive (l : der_line) : M (option Constraint) :=
  coef <- make_shared ;;
  r <- readConstraint (dl_con l) coef ;;
  let '(ok, sense, coef, coefEqualsObj) := r in
  if negb ok then ret None
  else if negb (String.eqb (dl_open l) "{") then ret None
  else
    toDer <- Constraint_new (cl_label (dl_con l)) sense (cl_rhs (dl_con l))
               coef (is_Asm (dl_reason l)) ∅ ;;
    let toDer := if coefEqualsObj then markObjectiveCoefficients toDer
                 else toDer in
    s <- get ;;
    let newConIdx := Z.of_nat (length (constraint s)) in
    r <- derive_reason l toDer sense coef newConIdx ;;
    let '(accepted, assumptionList) := r in
    if negb accepted then ret None
    else ret (Some (setMaxRefIdx (dl_refIdx l)
                      (setassumptionList assumptionList toDer))).

(** The rest of the iteration: [Some b] is [return b], [None] goes on with
    the next derivation. *)
Definition commit (last : bool) (toDer : Constraint) : M (option bool) :=
  push_constraint toDer ;;;
  s <- get ;;
  proved <-
    (if bool_decide (_assumptionList toDer = ∅) then
       if negb (is_RANGE (relationToProveType s)) && _falsehood toDer
       then ret true
       else if is_RANGE (relationToProveType s) && _coefsEqualObj toDer
       then dominates toDer (relationToProve s)
       else ret false
     else ret false) ;;
  if proved then ret (Some true)
  else
    let refIdx := _refIdx toDer in
    (if negb last && (0 <=? refIdx)
        && (refIdx <? Z.of_nat (length (constraint s)))
     then modify (λ s, set_constraint_at (Z.of_nat (length (constraint s)) - 1)
                                        (trash toDer) s)
     else ret tt) ;;;
    ret None.

(** The loop of [processDER] and the code after it. *)
Fixpoint der_loop (lines : list der_line) : M bool :=
  match lines with
  | [] =>
      s <- get ;;
      _ <- lift (last (constraint s)) ;;
      ret false
  | l :: lines' =>
      r <- derive l ;;
      match r with
      | None => ret false
      | Some toDer =>
          r <- commit (bool_decide (lines' = [])) toDer ;;
          match r with
          | Some b => ret b
          | None => der_loop lines'
          end
      end
  end.

(** [processDER] *)
Definition processDER (lines : list der_line) : M bool :=
  s <- get ;;
  if is_RANGE (relationToProveType s)
     && ((isMin s && negb (checkLower s))
         || (negb (isMin s) && negb (checkUpper s)))
  then ret true
  else der_loop lines.

(** [main], after the certificate file has been opened. *)
Definition main (cert : certificate) : result ViprStatus :=
  let run :=
    ok <- processVER (cVER cert) ;;
    if negb ok then ret ERROR else
    ok <- processVAR (cVAR cert) ;;
    if negb ok then ret ERROR else
    ok <- processINT (cINT cert) ;;
    if negb ok then ret ERROR else
    ok <- processOBJ (cOBJ cert) ;;
    if negb ok then ret ERROR else
    ok <- processCON (cCON cert) ;;
    if negb ok then ret ERROR else
    ok <- processRTP (cRTP cert) ;;
    if negb ok then ret ERROR else
    ok <- processSOL (cSOL cert) ;;
    if negb ok then ret ERROR else
    ok <- processDER (cDER cert) ;;
    if negb ok then ret ERROR else ret OKAY in
  run initial.

End Build.

End Chk.

(** * Vocabulary for the properties of the verifier *)

Module ChkSpec.
Import Rat Chk.

(** A vector is compact when it stores no zero. *)
Definition compact (v : SVectorGMP) : Prop :=
  ∀ k a, v !! k = Some a → is_zero a = false.

(** The coefficient vector a constraint points to. *)
Definition coefs (s : State) (c : Constraint) : option SVectorGMP :=
  _coefficients c ≫= λ p, heap s !! p.

(** The class invariant that the constructor of [Constraint] establishes and
    that [round] and [canonicalize] keep: the coefficient vector exists and
    is compact, and [_falsehood] is what [_isFalsehood] computes. *)
Definition constructed (s : State) (c : Constraint) : Prop :=
  ∃ v, coefs s c = Some v ∧ compact v ∧
       _falsehood c = (if decide (v = ∅)
                       then falsehood_side (_sense c) (_rhs c) else false).

(** The call returns [b]. *)
Definition returns {A} (m : M A) (s : State) (b : A) : Prop :=
  ∃ s', m s = Done b s'.

(** The coefficient vectors of two constraints are equal after
    [canonicalize]. *)
Definition same_canonical (s : State) (a c : Constraint) : Prop :=
  canonicalize <$> coefs s a = canonicalize <$> coefs s c.

(** The verdict of a run, if it has one. *)
Definition verdict {A} (r : result A) : option A :=
  match r with Done a _ => Some a | Stuck => None end.

(** The state a run ends in. *)
Definition final {A} (r : result A) : option State :=
  match r with Done _ s => Some s | Stuck => None end.

(** The state after the sections [VAR], [INT], [OBJ], [CON] and [RTP] of a
    certificate, when each of them is read successfully. *)
Definition after_RTP (cert : certificate) : option State :=
  let run :=
    ok <- processVAR (cVAR cert) ;;
    if negb ok then stuck else
    ok <- processINT (cINT cert) ;;
    if negb ok then stuck else
    ok <- processOBJ (cOBJ cert) ;;
    if negb ok then stuck else
    ok <- processCON (cCON cert) ;;
    if negb ok then stuck else
    ok <- processRTP (cRTP cert) ;;
    if negb ok then stuck else ret tt in
  final (run initial).

(** What [round] does to a constraint when it succeeds. *)
Definition rounded (c : Constraint) : Constraint :=
  if _sense c <? 0 then set_rhs (floor (_rhs c)) c
  else if 0 <? _sense c then set_rhs (ceil (_rhs c)) c
  else c.

(** The test that [round] applies to each coefficient. *)
Definition round_admits (isInt : list bool) (e : Z * Q) : bool :=
  match vec_at isInt e.1 with
  | Some true => isInteger e.2
  | _ => true
  end.

(** [s_l = sign(a_l) * sense(con[i_l])] for a term of a linear
    combination. *)
Definition sign_product (s : State) (t : Z * Q) : Z :=
  default 0 (_sense <$> vec_at (constraint s) t.1) * sgn t.2.

(** The sign products that remain after the terms with a zero multiplier
    or with an equality are discarded. *)
Definition remaining (s : State) (terms : list (Z * Q)) : list Z :=
  filter (λ x, x ≠ 0) (sign_product s <$> terms).

Definition agree (l : list Z) : Prop := ∀ x y, x ∈ l → y ∈ l → x = y.

(** A term of a linear combination cites an existing constraint: its index
    is not negative and, unless the multiplier is zero, below the number of
    constraints.  A build without [NDEBUG] also prints the cited constraint,
    for which it needs its coefficients. *)
Definition citable (NDEBUG : bool) (s : State) (t : Z * Q) : Prop :=
  0 ≤ t.1 ∧
  (is_zero t.2 = false →
   ∃ con, vec_at (constraint s) t.1 = Some con
          ∧ (NDEBUG = false → is_Some (coefs s con))).

(** The global variables other than the heap of vectors. *)
Definition globals (s : State) :=
  (numberOfVariables s, numberOfConstraints s, numberOfSolutions s, isInt s,
   variable s, constraint s, relationToProveType s, bestObjectiveValue s,
   lowerBound s, upperBound s, isMin s, checkLower s, checkUpper s,
   relationToProve s, objectiveIntegral s).

(** A computation that writes to no global variable, only to vectors. *)
Definition heap_only {A} (m : M A) : Prop :=
  ∀ s a s', m s = Done a s' → globals s' = globals s.

(** The cutoff bound of a [sol] step: the best objective value, minus one
    if the objective is integral. *)
Definition cutoffbound (s : State) : Q :=
  if objectiveIntegral s then sub (bestObjectiveValue s) 1
  else bestObjectiveValue s.


(** The step is accepted: the iteration reaches [constraint.push_back]. *)
Definition accepted (NDEBUG : bool) (l : der_line) (s : State) : Prop :=
  ∃ toDer s', derive NDEBUG l s = Done (Some toDer) s'.

(** The state after [SOL] as well. *)
Definition after_SOL (cert : certificate) : option State :=
  s ← after_RTP cert ;
  match processSOL (cSOL cert) s with
  | Done true s' => Some s'
  | _ => None
  end.

(** The iterations of the loop of [processDER] for the lines [lines], when
    each is accepted and none ends the run. *)
Fixpoint der_prefix (NDEBUG : bool) (lines : list der_line) : M unit :=
  match lines with
  | [] => ret tt
  | l :: lines' =>
      r <- derive NDEBUG l ;;
      match r with
      | None => stuck
      | Some toDer =>
          r <- commit false toDer ;;
          match r with
          | Some _ => stuck
          | None => der_prefix NDEBUG lines'
          end
      end
  end.

(** The state in which derivation number [n] of [DER] is processed. *)
Definition before_DER (NDEBUG : bool) (cert : certificate) (n : nat)
  : option State :=
  s ← after_SOL cert ; final (der_prefix NDEBUG (take n (cDER cert)) s).

(** A point [x] satisfies the constraint with coefficients [coef], sense
    [sense] and right-hand side [rhs]. *)
Definition holds (sense : Z) (rhs : Q) (coef x : SVectorGMP) : bool :=
  let prod := scalarProduct coef x in
  if sense <? 0 then le prod rhs
  else if 0 <? sense then ge prod rhs
  else mpq_equal rhs prod.

(** A test for [constructed]. *)
Definition constructed_test (s : State) (c : Constraint) : bool :=
  match coefs s c with
  | Some v =>
      forallb (λ e : Z * Q, negb (is_zero e.2)) (map_to_list v)
      && bool_decide (_falsehood c
                      = if decide (v = ∅)
                        then falsehood_side (_sense c) (_rhs c) else false)
  | None => false
  end.

End ChkSpec.

(** * Certificates used as examples *)

Module ChkExamples.
Import Rat Chk ChkSpec.

Definition sense_L : ascii := "L".
Definition sense_G : ascii := "G".
Definition sense_E : ascii := "E".

(** The format version [1.1]. *)
Definition VIPR_VERSION_MAJOR : Z := 1.
Definition VIPR_VERSION_MINOR : Z := 1.

(** Minimise [x] subject to [x >= 1/2] with a continuous [x]; the optimal
    value is [1/2].  The derivation rounds the base constraint to
    [x >= 1], and the certificate claims the range [[1, 1]]. *)
Definition cert_round : certificate :=
  mkCert (1, 1) ["x"%string] [] ("min"%string, Vec_tok [(0, 1%Q)])
    [mkCon "c1" sense_G (1 # 2) (Vec_tok [(0, 1%Q)])]
    (Range_tok (Num_tok 1) (Num_tok 1))
    [("s"%string, Vec_tok [(0, 1%Q)])]
    [mkDer (mkCon "d" sense_G 1 OBJ_tok) "{" (Rnd_tok [(0, 1%Q)]) "}" (-1)].

(** The state in which the derivations of [cert_round] are processed, and
    its base constraint. *)
Definition state_round : State :=
  default initial (after_RTP cert_round).
Definition c1_round : Constraint :=
  default Constraint_default (vec_at (constraint state_round) 0).

(** [x <= -1] and [x >= 1]: infeasible.  The third term of the linear
    combination cites the constraint 99, which does not exist, with the
    multiplier 0. *)
Definition cert_zero_multiplier : certificate :=
  mkCert (1, 1) ["x"%string] [] ("min"%string, Vec_tok [])
    [mkCon "c1" sense_L (-1) (Vec_tok [(0, 1%Q)]);
     mkCon "c2" sense_G 1 (Vec_tok [(0, 1%Q)])]
    Infeas_tok []
    [mkDer (mkCon "d" sense_L (-1) (Vec_tok [])) "{"
           (Lin_tok [(0, 1%Q); (1, (-1)%Q); (99, 0%Q)]) "}" (-1)].

Definition state_infeas : State :=
  default initial (after_SOL cert_zero_multiplier).


(** An integer [x] with [x <= 5]; two branches [x <= 0] and [x >= 1], under
    each of which [x <= 9] is derived, and the unsplit step that joins
    them.  Constraint 0 is the base constraint, 1 to 5 are the
    derivations. *)
Definition unsplit_lines (asm1 asm2 : Z) : list der_line :=
  [mkDer (mkCon "a1" sense_L 0 (Vec_tok [(0, 1%Q)])) "{" Asm_tok "}" (-1);
   mkDer (mkCon "b1" sense_L 9 (Vec_tok [(0, 1%Q)])) "{"
         (Lin_tok [(1, 1%Q)]) "}" (-1);
   mkDer (mkCon "a2" sense_G 1 (Vec_tok [(0, 1%Q)])) "{" Asm_tok "}" (-1);
   mkDer (mkCon "b2" sense_L 9 (Vec_tok [(0, 1%Q)])) "{"
         (Lin_tok [(0, 2%Q); (3, (-1)%Q)]) "}" (-1);
   mkDer (mkCon "u" sense_L 9 (Vec_tok [(0, 1%Q)])) "{"
         (Uns_tok 2 asm1 4 asm2) "}" (-1)].

Definition cert_unsplit (asm1 asm2 : Z) : certificate :=
  mkCert (1, 1) ["x"%string] [0] ("min"%string, Vec_tok [(0, 1%Q)])
    [mkCon "c" sense_L 5 (Vec_tok [(0, 1%Q)])]
    Infeas_tok [] (unsplit_lines asm1 asm2).

(** The unsplit step [uns 2 1 4 3], the state in which it is processed and
    what [derive] makes of it. *)
Definition line_unsplit : der_line :=
  mkDer (mkCon "u" sense_L 9 (Vec_tok [(0, 1%Q)])) "{"
        (Uns_tok 2 1 4 3) "}" (-1).
Definition state_unsplit : State :=
  default initial (before_DER true (cert_unsplit 1 3) 4).
Definition derived_unsplit : result (option Constraint) :=
  derive true line_unsplit state_unsplit.
Definition toDer_unsplit : Constraint :=
  default Constraint_default (mjoin (verdict derived_unsplit)).
Definition state_unsplit_end : State :=
  default initial (final derived_unsplit).

(** Minimise an integer [x] subject to [x >= 7]; the solution [x = 7]; the
    cutoff step [x <= 6] and the lower bound [x >= 7]. *)
Definition line_cutoff (rhs : Q) : der_line :=
  mkDer (mkCon "d" sense_L rhs OBJ_tok) "{" Sol_tok "}" (-1).

Definition cert_cutoff (rhs : Q) : certificate :=
  mkCert (1, 1) ["x"%string] [0] ("min"%string, Vec_tok [(0, 1%Q)])
    [mkCon "c" sense_G 7 (Vec_tok [(0, 1%Q)])]
    (Range_tok (Num_tok 7) (Num_tok 7))
    [("s"%string, Vec_tok [(0, 7%Q)])]
    [line_cutoff rhs;
     mkDer (mkCon "e" sense_G 7 OBJ_tok) "{" (Lin_tok [(0, 1%Q)]) "}" (-1)].

Definition state_cutoff : State :=
  default initial (after_SOL (cert_cutoff 6)).

(** Three bounds [x >= 3], [x >= 2] and [x >= 1] on one variable. *)
Definition cert_bounds : certificate :=
  mkCert (1, 1) ["x"%string] [] ("min"%string, Vec_tok [(0, 1%Q)])
    [mkCon "a" sense_G 3 (Vec_tok [(0, 1%Q)]);
     mkCon "b" sense_G 2 (Vec_tok [(0, 1%Q)]);
     mkCon "c" sense_G 1 (Vec_tok [(0, 1%Q)])]
    Infeas_tok [] [].

Definition state_bounds : State :=
  default initial (after_RTP cert_bounds).
Definition bound (i : Z) : Constraint :=
  default Constraint_default (vec_at (constraint state_bounds) i).

(** Minimise [x] subject to [c1 : x >= 1], whose coefficients are given by
    the token [OBJ].  The first solution is given by the token [OBJ] as
    well, the second one is [x = -1]. *)
Definition sols_alias : list (string * coef_tok) :=
  [("s1"%string, OBJ_tok); ("s2"%string, Vec_tok [(0, (-1)%Q)])].

Definition cert_alias (sols : list (string * coef_tok)) : certificate :=
  mkCert (1, 1) ["x"%string] [] ("min"%string, Vec_tok [(0, 1%Q)])
    [mkCon "c1" sense_G 1 OBJ_tok]
    (Range_tok (Inf_tok true) (Inf_tok false))
    sols [].

Definition state_alias : State :=
  default initial (after_RTP (cert_alias sols_alias)).
Definition c1_alias : Constraint :=
  default Constraint_default (vec_at (constraint state_alias) 0).

End ChkExamples.


(** * Vocabulary for what the checks of the verifier mean *)

Module ChkSem.
Import Rat Chk ChkSpec ChkExamples.

(** The entry of a vector at an index, 0 where nothing is stored. *)
Definition value (v : SVectorGMP) (k : Z) : Q := default (0:Q) (v !! k).

(** The sum of the products of the entries of a list with the entries of
    [x] at the same indices. *)
Fixpoint dot_list (es : list (Z * Q)) (x : SVectorGMP) : Q :=
  match es with
  | [] => 0
  | e :: es' => (e.2 * value x e.1 + dot_list es' x)%Q
  end.

(** The scalar product of two vectors as a rational number. *)
Definition dot (u x : SVectorGMP) : Q := dot_list (map_to_list u) x.

(** The relation that a constraint of sense [sense] states between its
    left-hand side and its right-hand side. *)
Definition rel (sense : Z) (l r : Q) : Prop :=
  if sense <? 0 then (l <= r)%Q
  else if 0 <? sense then (r <= l)%Q
  else (l == r)%Q.

(** The point [x] satisfies the constraint [c] of the state [s]. *)
Definition satisfied (s : State) (c : Constraint) (x : SVectorGMP) : Prop :=
  ∃ v, coefs s c = Some v ∧ holds (_sense c) (_rhs c) v x = true.

(** The point [x] has integer values on the variables of [v]. *)
Definition integral_on (v x : SVectorGMP) : Prop :=
  ∀ k a b, v !! k = Some a → x !! k = Some b → isInteger b = true.

(** Every vector of the heap is compact. *)
Definition compact_heap (s : State) : Prop :=
  ∀ p v, heap s !! p = Some v → compact v.

(** A test for [compact_heap]. *)
Definition compact_heap_test (s : State) : bool :=
  forallb (λ pv : ptr * SVectorGMP,
             forallb (λ e : Z * Q, negb (is_zero e.2)) (map_to_list pv.2))
          (map_to_list (heap s)).

(** A computation that leaves a component of the state as it is. *)
Definition keeps {X A} (f : State → X) (m : M A) : Prop :=
  ∀ s a s', m s = Done a s' → f s' = f s.

(** A computation that leaves the kind of the relation to prove alone. *)
Abbreviation keeps_type := (keeps relationToProveType).

(** Every multiplier that [readMultipliers] has stored cites a constraint
    whose sense, multiplied with the sign of the multiplier, is 0 or the
    sense returned. *)
Definition sign_ok (s : State) (sense : Z) (mult : SVectorGMP) : Prop :=
  ∀ i a, mult !! i = Some a →
         ∃ con, vec_at (constraint s) i = Some con
                ∧ (_sense con * sgn a = 0 ∨ _sense con * sgn a = sense).

(** What the loop of [readLinComb] needs of a cited constraint: its sign
    product fits, its vector is not the one that the loop writes to, and
    [x] satisfies it. *)
Definition cited_ok (x : SVectorGMP) (p : ptr) (sense : Z) (s : State)
    (e : Z * Q) : Prop :=
  ∀ con, vec_at (constraint s) e.1 = Some con → _trashed con = false →
         (_sense con * sgn e.2 = 0 ∨ _sense con * sgn e.2 = sense)
         ∧ ∃ q c, _coefficients con = Some q ∧ q ≠ p
                  ∧ heap s !! q = Some c
                  ∧ holds (_sense con) (_rhs con) c x = true.

(** The index of a pair is the index of a variable. *)
Definition in_range (n : Z) (e : Z * Q) : bool := (0 <=? e.1) && (e.1 <? n).

(** The pairs assigned one after the other: a later pair overwrites an
    earlier one with the same index. *)
Definition assign (pairs : list (Z * Q)) (v : SVectorGMP) : SVectorGMP :=
  fold_left (λ m e, <[e.1 := e.2]> m) pairs v.

(** The vector that a list of pairs describes. *)
Definition vector_of (pairs : list (Z * Q)) : SVectorGMP :=
  compactify (assign pairs ∅).

(** What [processSOL] checks of a solution: every base constraint holds at
    it, and its values on integer variables are integers. *)
Definition feasible (s : State) (x : SVectorGMP) : Prop :=
  (∀ j, 0 ≤ j < numberOfConstraints s →
        ∃ con c, vec_at (constraint s) j = Some con
                 ∧ coefs s con = Some c
                 ∧ holds (_sense con) (_rhs con) c x = true)
  ∧ ∀ k b, x !! k = Some b → vec_at (isInt s) k = Some true →
           isInteger b = true.

(** The state [t] differs from [s] in the vector at [p] and in the best
    objective value at most. *)
Definition sol_frame (p : ptr) (s t : State) : Prop :=
  constraint t = constraint s
  ∧ numberOfConstraints t = numberOfConstraints s
  ∧ numberOfVariables t = numberOfVariables s
  ∧ isInt t = isInt s
  ∧ (∀ q, q ≠ p → heap t !! q = heap s !! q)
  ∧ is_Some (heap t !! p).

(** ** Examples *)

(** An integer [x] with [x <= 7/2]. *)
Definition cert_frac : certificate :=
  mkCert (1, 1) ["x"%string] [0] ("min"%string, Vec_tok [(0, 1%Q)])
    [mkCon "c" sense_L (7 # 2) (Vec_tok [(0, 1%Q)])]
    Infeas_tok [] [].
Definition state_frac : State := default initial (after_RTP cert_frac).
Definition c_frac : Constraint :=
  default Constraint_default (vec_at (constraint state_frac) 0).

(** The constraints of [state_unsplit], and [canUnsplit] on the two branches
    [2] and [4] with the assumptions [1] and [3]. *)
Definition branch (i : Z) : Constraint :=
  default Constraint_default (vec_at (constraint state_unsplit) i).
Definition unsplit_result : result (bool * SVectorBool) :=
  canUnsplit (branch 2) 2 1 4 3 state_unsplit.


(** A test that no constraint of the state owns the vector [p]. *)
Definition fresh_test (s : State) (p : ptr) : bool :=
  forallb (λ con, negb (bool_decide (_coefficients con = Some p)))
          (constraint s).

(** The first line of [unsplit_lines], an assumption, and the state in which
    it is processed. *)
Definition asm_line : der_line :=
  mkDer (mkCon "a1" sense_L 0 (Vec_tok [(0, 1%Q)])) "{" Asm_tok "}" (-1).
Definition state_asm : State :=
  default initial (after_SOL (cert_unsplit 1 3)).
Definition asm_result : result (option Constraint) :=
  derive true asm_line state_asm.


(** Reading [2 0 2 0 3] into the objective vector of [state_bounds]. *)
Definition read_result : result (bool * ptr * bool) :=
  readConstraintCoefficients objPtr (Vec_tok [(0, 2%Q); (0, 3%Q)])
                             state_bounds.

(** Two variables, of which the second is an integer variable, and the
    objective [min x + 2 y]. *)
Definition state_var : State :=
  default initial (final (processVAR ["x"%string; "y"%string] initial)).
Definition state_int : State :=
  default initial (final (processINT [1] state_var)).
Definition obj_xy : string * coef_tok :=
  ("min"%string, Vec_tok [(0, 1%Q); (1, 2%Q)]).
Definition state_obj : State :=
  default initial (final (processOBJ obj_xy state_int)).

(** The state in which the solutions of [cert_cutoff 6] are read. *)
Definition state_rtp_cutoff : State :=
  default initial (after_RTP (cert_cutoff 6)).

(** ** Steps, scopes and sections *)

(** Every vector that a constraint of the state points to was allocated
    before: the next [make_shared] returns none of them. *)
Definition allocated_coefs (s : State) : Prop :=
  ∀ i con q, vec_at (constraint s) i = Some con →
             _coefficients con = Some q → (q ≤ allocated s)%nat.

(** The point [x] satisfies every constraint that the terms cite with a
    multiplier other than 0 and that is not trashed. *)
Definition cited_satisfied (s : State) (terms : list (Z * Q))
    (x : SVectorGMP) : Prop :=
  ∀ i a con, (i, a) ∈ terms → is_zero a = false →
             vec_at (constraint s) i = Some con → _trashed con = false →
             satisfied s con x.

(** Two vectors with the same scalar products. *)
Definition similar (v v' : SVectorGMP) : Prop :=
  ∀ x, scalarProduct v' x = scalarProduct v x.

(** The assumption list of the constraint with index [i]; empty when there
    is no such constraint. *)
Definition scope_at (s : State) (i : Z) : SVectorBool :=
  default ∅ (_assumptionList <$> vec_at (constraint s) i).

(** The union of the assumption lists of the constraints that the terms cite
    with a multiplier other than 0. *)
Definition cited_scope (s : State) (terms : list (Z * Q)) : SVectorBool :=
  ⋃ ((λ t : Z * Q, if is_zero t.2 then ∅ else scope_at s t.1) <$> terms).





(** The sum [2 x <= 18] of the two branches of [state_unsplit]. *)
Definition line_branches : der_line :=
  mkDer (mkCon "z" sense_L 18 (Vec_tok [(0, 2%Q)])) "{"
        (Lin_tok [(2, 1%Q); (4, 1%Q)]) "}" (-1).
Definition branches_result : result (option Constraint) :=
  derive true line_branches state_unsplit.

(** The constraint and the state that a run of [derive] ends with. *)
Definition derived_of (r : result (option Constraint)) : Constraint :=
  default Constraint_default (mjoin (verdict r)).
Definition state_of {A} (r : result A) : State := default initial (final r).

(** The fields of the state that describe the relation to prove. *)
Definition rtp_view (s : State)
  : RelationToProveType * Constraint * bool * bool * bool :=
  (relationToProveType s, relationToProve s, isMin s, checkLower s,
   checkUpper s).

(** The dual bound that a certificate with [RTP range] has to prove: the
    sense of the bound on the objective and its value.  There is none when
    the bound is infinite. *)
Definition dual_bound (cert : certificate) : option (Z * Q) :=
  match cRTP cert with
  | Range_tok lowerStr upperStr =>
      if String.eqb (cOBJ cert).1 "min"
      then match lowerStr with Num_tok q => Some (1, q) | Inf_tok _ => None end
      else match upperStr with Num_tok q => Some (-1, q) | Inf_tok _ => None end
  | _ => None
  end.

(** Maximise [x] subject to [x <= 4]; the solution [x = 4] and the dual
    bound [x <= 4]. *)
Definition cert_max : certificate :=
  mkCert (1, 1) ["x"%string] [] ("max"%string, Vec_tok [(0, 1%Q)])
    [mkCon "c" sense_L 4 (Vec_tok [(0, 1%Q)])]
    (Range_tok (Num_tok 4) (Num_tok 4))
    [("s"%string, Vec_tok [(0, 4%Q)])]
    [mkDer (mkCon "d" sense_L 4 OBJ_tok) "{" (Lin_tok [(0, 1%Q)]) "}" (-1)].

(** The sense that [readConstraint] makes of a sense character. *)
Definition sense_of (c : ascii) : option Z :=
  if Ascii.eqb c "E" then Some 0
  else if Ascii.eqb c "L" then Some (-1)
  else if Ascii.eqb c "G" then Some 1
  else None.

(** The constraint [c] of the state [s] is the line [l] as [processCON]
    stores it: label, sense and right-hand side of the line, no assumptions,
    and the coefficients of the line, which for the token [OBJ] are the
    objective vector itself. *)
Definition stored (s : State) (l : con_line) (c : Constraint) : Prop :=
  _label c = cl_label l
  ∧ sense_of (cl_senseChar l) = Some (_sense c)
  ∧ _rhs c = cl_rhs l
  ∧ _isAssumption c = false ∧ _assumptionList c = ∅ ∧ _trashed c = false
  ∧ match cl_coef l with
    | OBJ_tok => _coefficients c = Some objPtr
    | Vec_tok pairs => coefs s c = Some (vector_of pairs)
    end.

(** The section [CON 2] with [x + y >= 1] and the objective bounded by 4,
    read in [state_obj]. *)
Definition cons_xy : list con_line :=
  [mkCon "c1" sense_G 1 (Vec_tok [(0, 1%Q); (1, 1%Q)]);
   mkCon "c2" sense_L 4 OBJ_tok].
Definition cons_result : result bool := processCON cons_xy state_obj.

End ChkSem.


(** * Vocabulary for the soundness of the derivations *)

Module ChkInv.
Import Rat Chk ChkSpec ChkSem.

(** The point has integer values on the integer variables. *)
Definition integral_point (isInt : list bool) (x : SVectorGMP) : Prop :=
  ∀ k b, x !! k = Some b → vec_at isInt k = Some true → isInteger b = true.

(** Every variable is an integer variable. *)
Definition pure_integer (isInt : list bool) : Prop :=
  ∀ k b, vec_at isInt k = Some b → b = true.

(** The state [s'] comes after [s]: the vectors allocated in [s] are still
    there and mean the same. *)
Definition extends (s s' : State) : Prop :=
  (allocated s ≤ allocated s')%nat
  ∧ isInt s' = isInt s
  ∧ relationToProveType s' = relationToProveType s
  ∧ ∀ q v, (q ≤ allocated s)%nat → heap s !! q = Some v →
           ∃ v', heap s' !! q = Some v' ∧ similar v v'.

(** The meaning [A] of the constraints read so far, and the meaning [P] of
    the one with index [n]. *)
Definition extend (A : Z → SVectorGMP → Prop) (n : Z)
    (P : SVectorGMP → Prop) : Z → SVectorGMP → Prop :=
  λ i x, if i =? n then P x else A i x.

Section Invariant.

(** The points of interest, the right-hand sides of all constraints of the
    certificate, and what each constraint said when it was appended. *)
Variable good : SVectorGMP → Prop.
Variable sides : list Q.
Variable A : Z → SVectorGMP → Prop.

(** What holds of a constraint of the state that is not trashed: its vector
    was allocated; if it is marked as a falsehood, no point satisfies it;
    it still says what it said when it was appended; it holds at every
    point of interest at which its assumptions hold; its assumptions are
    constraints of the state; and its right-hand side is the one of its
    line. *)
Definition entry_ok (s : State) (i : Z) (con : Constraint) : Prop :=
  (∃ q v, _coefficients con = Some q ∧ (q ≤ allocated s)%nat
          ∧ heap s !! q = Some v)
  ∧ (_falsehood con = true → ∀ x, ¬ satisfied s con x)
  ∧ (∀ x, A i x ↔ satisfied s con x)
  ∧ (∀ x, good x → (∀ a, a ∈ _assumptionList con → A a x) →
          satisfied s con x)
  ∧ (∀ a, a ∈ _assumptionList con →
          0 ≤ a < Z.of_nat (length (constraint s)))
  ∧ vec_at sides i = Some (_rhs con).

(** The invariant of the loop of [processDER] for [RTP infeas]. *)
Definition inv (s : State) : Prop :=
  compact_heap s
  ∧ relationToProveType s = INFEAS
  ∧ ∀ i con, vec_at (constraint s) i = Some con →
             if _trashed con
             then _coefficients con = None ∧ _assumptionList con = ∅
             else entry_ok s i con.

End Invariant.

(** What holds of a constraint that [processCON] has appended. *)
Definition base_ok (s : State) (con : Constraint) : Prop :=
  _trashed con = false ∧ _assumptionList con = ∅
  ∧ ∃ q v, _coefficients con = Some q ∧ (q ≤ allocated s)%nat
           ∧ heap s !! q = Some v
           ∧ _falsehood con
             = (if decide (v = ∅)
                then falsehood_side (_sense con) (_rhs con) else false).

(** What holds of the state up to the section [DER]. *)
Definition ready (s : State) : Prop :=
  compact_heap s ∧ is_Some (heap s !! objPtr)
  ∧ ∀ i con, vec_at (constraint s) i = Some con → base_ok s con.

(** What a constraint of the state says; nothing where there is none. *)
Definition meaning (s : State) (i : Z) (x : SVectorGMP) : Prop :=
  ∃ con, vec_at (constraint s) i = Some con ∧ satisfied s con x.

(** The right-hand sides of the constraints of a state, followed by those
    of the lines that are still to be read. *)
Definition sides_of (s : State) (lines : list der_line) : list Q :=
  (_rhs <$> constraint s) ++ ((λ l, cl_rhs (dl_con l)) <$> lines).

(** The right-hand sides of all constraints of a certificate: those of
    [CON], then those of [DER]. *)
Definition sides (cert : certificate) : list Q :=
  (cl_rhs <$> cCON cert) ++ ((λ l, cl_rhs (dl_con l)) <$> cDER cert).

(** Every variable of the certificate is listed in [INT]. *)
Definition all_integer (cert : certificate) : Prop :=
  ∀ k, 0 ≤ k < Z.of_nat (length (cVAR cert)) → k ∈ cINT cert.

(** In every [uns] step the constraint cited as the first assumption has
    an integer right-hand side. *)
Definition integer_branches (sides : list Q) (lines : list der_line)
  : Prop :=
  ∀ l con1 asm1 con2 asm2,
    l ∈ lines → dl_reason l = Uns_tok con1 asm1 con2 asm2 →
    ∃ q, vec_at sides asm1 = Some q ∧ isInteger q = true.

(** No step takes its bound from a solution. *)
Definition no_sol_step (lines : list der_line) : Prop :=
  ∀ l, l ∈ lines → dl_reason l ≠ Sol_tok.

(** An integer [x] with [2 x >= 1] and [2 x <= 1].  Under the assumption
    [x <= 0] the first constraint gives [0 >= 1], under the assumption
    [x >= 1] the second one gives [0 <= -1], and the unsplit step joins the
    two branches.  The constraints 0 and 1 are those of [CON], 2 to 6 the
    derivations. *)
Definition cert_parity : certificate :=
  mkCert (1, 1) ["x"%string] [0] ("min"%string, Vec_tok [])
    [mkCon "c0" "G" 1 (Vec_tok [(0, 2%Q)]);
     mkCon "c1" "L" 1 (Vec_tok [(0, 2%Q)])]
    Infeas_tok []
    [mkDer (mkCon "a1" "L" 0 (Vec_tok [(0, 1%Q)])) "{" Asm_tok "}" (-1);
     mkDer (mkCon "f1" "G" 1 (Vec_tok [])) "{"
           (Lin_tok [(0, 1%Q); (2, (-2)%Q)]) "}" (-1);
     mkDer (mkCon "a2" "G" 1 (Vec_tok [(0, 1%Q)])) "{" Asm_tok "}" (-1);
     mkDer (mkCon "f2" "L" (-1) (Vec_tok [])) "{"
           (Lin_tok [(1, 1%Q); (4, (-2)%Q)]) "}" (-1);
     mkDer (mkCon "u" "G" 1 (Vec_tok [])) "{" (Uns_tok 3 2 5 4) "}" (-1)].

End ChkInv.
(** * The completer ([viprcomp_parallel.cpp]): weak domination *)

Module Comp.

(** A [Rational] of SoPlex is a [Q] that is compared by value; arithmetic
    returns reduced fractions. *)
Definition radd (a b : Q) : Q := Qred (a + b).
Definition rsub (a b : Q) : Q := Qred (a - b).
Definition rmul (a b : Q) : Q := Qred (a * b).
Definition rdiv (a b : Q) : Q := Qred (a / b).
Definition req (a b : Q) : bool := Qeq_bool a b.
Definition rle (a b : Q) : bool := Qle_bool a b.
Definition rlt (a b : Q) : bool := negb (Qle_bool b a).
(** [Rational::sign] *)
Definition sign (a : Q) : Z := Z.sgn (Qnum a).

(** [DSVectorRational]: the nonzeros in the order in which they were
    added. *)
Abbreviation DSVectorRational := (list (Z * Q)).

(** [v[idx]]: the value of the first nonzero with index [idx], or 0. *)
Fixpoint value (v : DSVectorRational) (idx : Z) : Q :=
  match v with
  | [] => 0
  | (i, x) :: v' => if i =? idx then x else value v' idx
  end.

(** [SVectorRat]: [std::map<int, Rational>]. *)
Abbreviation SVectorRat := (gmap Z Q).

(** [m[k]] on a [std::map]: the value, 0 for a key that is not there. *)
Definition at_key (m : SVectorRat) (k : Z) : Q := default (0:Q) (m !! k).

Definition key_le (x y : Z * Q) : Prop := x.1 ≤ y.1.
#[global] Instance key_le_dec : RelDecision key_le :=
  λ x y, decide (x.1 ≤ y.1).
(** Iteration over a [std::map] visits the keys in increasing order. *)
Definition entries (m : SVectorRat) : list (Z * Q) :=
  merge_sort key_le (map_to_list m).

(** [struct Constraint], without the text of its line. *)
Record Constraint := mkConstraint {
  vec : DSVectorRational;
  side : Q;
  sense : Z
}.

(** The global variables that weak completion reads: the constraints read
    so far, and for each variable the bound value, the multiplier and the
    certificate index of its best lower and upper bound. *)
Record Globals := mkGlobals {
  constraints : list Constraint;
  lowerBounds : list (Q * Q * Z);
  upperBounds : list (Q * Q * Z)
}.

(** [v[i]] on a [std::vector]; [None] outside the vector. *)
Definition vec_at {A} (v : list A) (i : Z) : option A :=
  if 0 <=? i then v !! Z.to_nat i else None.

(** What follows the token [weak] on a line:
    [{ nbounds (type varIndex boundIndex val)* } k (index a)*].  The two
    brackets are read and not looked at. *)
Record weak_tok := mkWeak {
  wk_bounds : list (string * Z * Z * Q);
  wk_mult : list (Z * Q)
}.

(** The loop of [readMultipliers]; [sense] comes from the caller and is not
    reset.  [None] is an access outside [constraints]. *)
Fixpoint mult_loop (g : Globals) (terms : list (Z * Q)) (sense : Z)
    (mult : SVectorRat) : option (bool * Z * SVectorRat) :=
  match terms with
  | [] => Some (true, sense, mult)
  | (index, a) :: terms' =>
      if req a 0 then mult_loop g terms' sense mult
      else
        let mult := <[index := a]> mult in
        con ← vec_at (constraints g) index ;
        if sense =? 0
        then mult_loop g terms' (Comp.sense con * sign a) mult
        else
          let tmp := Comp.sense con * sign a in
          if negb (tmp =? 0) && negb (sense =? tmp)
          then Some (false, sense, mult)
          else mult_loop g terms' sense mult
  end.

(** [readMultipliers(sense, mult, baseLine)] *)
Definition readMultipliers (g : Globals) (sense : Z) (terms : list (Z * Q))
  : option (bool * Z * SVectorRat) :=
  mult_loop g terms sense ∅.

(** The inner loop of [readLinComb] over the nonzeros of a constraint. *)
Definition add_scaled (a : Q) (c : DSVectorRational)
    (coefficients : SVectorRat) : SVectorRat :=
  fold_left (λ acc e,
               <[e.1 := radd (at_key acc e.1) (rmul a (value c e.1))]> acc)
            c coefficients.

(** The loop of [readLinComb] over the multipliers. *)
Fixpoint lincomb_loop (g : Globals) (ms : list (Z * Q)) (rhs : Q)
    (coefficients : SVectorRat) : option (Q * SVectorRat) :=
  match ms with
  | [] => Some (rhs, coefficients)
  | (index, a) :: ms' =>
      con ← vec_at (constraints g) index ;
      lincomb_loop g ms' (radd rhs (rmul a (side con)))
                   (add_scaled a (vec con) coefficients)
  end.

(** [readLinComb(sense, rhs, coefficients, mult, ...)]; returns the return
    value, [sense], [rhs], [coefficients] and [mult]. *)
Definition readLinComb (g : Globals) (sense : Z) (terms : list (Z * Q))
  : option (bool * Z * Q * SVectorRat * SVectorRat) :=
  r ← readMultipliers g sense terms ;
  let '(ok, sense, mult) := r in
  if negb ok then Some (false, sense, 0:Q, ∅, mult)
  else
    r ← lincomb_loop g (entries mult) 0 ∅ ;
    Some (true, sense, r.1, r.2, mult).

(** The loop over the local bounds of the line; [None] is [abort()]. *)
Fixpoint local_bounds (bs : list (string * Z * Z * Q))
    (lower upper : gmap Z (Z * Q)) : option (gmap Z (Z * Q) * gmap Z (Z * Q)) :=
  match bs with
  | [] => Some (lower, upper)
  | (type, varIndex, boundIndex, val) :: bs' =>
      if String.eqb type "L"
      then local_bounds bs' (<[varIndex := (boundIndex, val)]> lower) upper
      else if String.eqb type "U"
      then local_bounds bs' lower (<[varIndex := (boundIndex, val)]> upper)
      else None
  end.

(** What the two correction loops carry: [coefDer], [multDer] and
    [correctedSide]. *)
Record Correction := mkCorrection {
  coefDer : SVectorRat;
  multDer : SVectorRat;
  correctedSide : Q
}.

(** The outcome of a loop: it went through, or it left the function with
    [return false]. *)
Inductive loop_end :=
| Through (c : Correction)
| ReturnFalse.

(** The body of both loops for a coefficient that differs: the choice of
    the bound and the update of [multDer] and [correctedSide].  [None] is an
    access outside [lowerBounds] or [upperBounds], a sense other than -1, 0
    and 1, or a division by zero. *)
Definition correct (g : Globals) (consense : Z)
    (localLower localUpper : gmap Z (Z * Q)) (idx : Z) (boundmult : Q)
    (c : Correction) : option loop_end :=
  if consense =? 0 then Some ReturnFalse
  else
    islower ← (if consense =? -1 then Some (rle boundmult 0)
               else if consense =? 1 then Some (rle 0 boundmult)
               else None) ;
    bound ← (match islower, localLower !! idx, localUpper !! idx with
             | true, Some (boundindex, boundval), _ =>
                 Some (boundindex, boundval, 1:Q)
             | false, _, Some (boundindex, boundval) =>
                 Some (boundindex, boundval, 1:Q)
             | _, _, _ =>
                 tup ← vec_at (if islower then lowerBounds g
                               else upperBounds g) idx ;
                 Some (tup.2, tup.1.1, tup.1.2)
             end) ;
    let '(boundindex, boundval, boundfactor) := bound in
    if req boundfactor 0 then None
    else
      Some (Through
              (mkCorrection
                 (coefDer c)
                 (<[boundindex := radd (at_key (multDer c) boundindex)
                                       (rdiv boundmult boundfactor)]>
                    (multDer c))
                 (radd (correctedSide c) (rmul boundmult boundval)))).

(** The first loop, over the entries of [coefDer]. *)
Fixpoint loop_derived (g : Globals) (row : DSVectorRational) (consense : Z)
    (localLower localUpper : gmap Z (Z * Q)) (es : list (Z * Q))
    (c : Correction) : option loop_end :=
  match es with
  | [] => Some (Through c)
  | (idx, derivedVal) :: es' =>
      let valToDerive := value row idx in
      let c := mkCorrection (<[idx := valToDerive]> (coefDer c))
                            (multDer c) (correctedSide c) in
      if req derivedVal valToDerive
      then loop_derived g row consense localLower localUpper es' c
      else
        r ← correct g consense localLower localUpper idx
              (rsub valToDerive derivedVal) c ;
        match r with
        | Through c => loop_derived g row consense localLower localUpper es' c
        | ReturnFalse => Some ReturnFalse
        end
  end.

(** The second loop, over the nonzeros of [row]; [idxs] are their indices. *)
Fixpoint loop_claimed (g : Globals) (row : DSVectorRational) (consense : Z)
    (localLower localUpper : gmap Z (Z * Q)) (idxs : list Z)
    (c : Correction) : option loop_end :=
  match idxs with
  | [] => Some (Through c)
  | idx :: idxs' =>
      let derivedVal := at_key (coefDer c) idx in
      let c := mkCorrection (<[idx := derivedVal]> (coefDer c))
                            (multDer c) (correctedSide c) in
      let valToDerive := value row idx in
      if req derivedVal valToDerive
      then loop_claimed g row consense localLower localUpper idxs' c
      else
        r ← correct g consense localLower localUpper idx
              (rsub valToDerive derivedVal) c ;
        match r with
        | Through c => loop_claimed g row consense localLower localUpper idxs' c
        | ReturnFalse => Some ReturnFalse
        end
  end.

(** The test after the two loops. *)
Definition dominated (row : DSVectorRational) (consense : Z) (rhs : Q)
    (correctedSide : Q) : bool :=
  if ((consense =? -1) && rlt rhs correctedSide)
     || ((consense =? 1) && rlt correctedSide rhs)
  then
    if (length row =? 0)%nat
    then ((consense =? -1) && rlt correctedSide 0)
         || ((consense =? 1) && rlt 0 correctedSide)
    else false
  else true.

(** What [completeWeakDomination] leaves: its return value and the
    multipliers it has written to [completedLine], if it has come that
    far. *)
Record Completion := mkCompletion {
  success : bool;
  completedLine : option (list (Z * Q))
}.

(** The two loops, one after the other. *)
Definition both_loops (g : Globals) (row : DSVectorRational) (consense : Z)
    (localLower localUpper : gmap Z (Z * Q)) (c : Correction)
  : option loop_end :=
  r ← loop_derived g row consense localLower localUpper
        (entries (coefDer c)) c ;
  match r with
  | ReturnFalse => Some ReturnFalse
  | Through c =>
      loop_claimed g row consense localLower localUpper (row.*1) c
  end.

(** The part of [completeWeakDomination] up to the end of the second loop:
    the sense that [readLinComb] leaves in [consense], and how the loops
    end.  [Some None] is the [return false] after [readLinComb] has
    failed. *)
Definition corrections (g : Globals) (row : DSVectorRational) (consense : Z)
    (w : weak_tok) : option (option (Z * loop_end)) :=
  lb ← local_bounds (wk_bounds w) ∅ ∅ ;
  r ← readLinComb g consense (wk_mult w) ;
  let '(ok, consense, rhsDer, coefDer, multDer) := r in
  if negb ok then Some None
  else
    r ← both_loops g row consense lb.1 lb.2
          (mkCorrection coefDer multDer rhsDer) ;
    Some (Some (consense, r)).

(** [completeWeakDomination(row, consense, rhs, completedLine, baseLine)] *)
Definition completeWeakDomination (g : Globals) (row : DSVectorRational)
    (consense : Z) (rhs : Q) (w : weak_tok) : option Completion :=
  r ← corrections g row consense w ;
  match r with
  | None => Some (mkCompletion false None)
  | Some (_, ReturnFalse) => Some (mkCompletion false None)
  | Some (consense, Through c) =>
      Some (mkCompletion (dominated row consense rhs (correctedSide c))
                         (Some (entries (multDer c))))
  end.

End Comp.

(** * Vocabulary for the properties of weak completion *)

Module CompSpec.
Import Comp.





Definition weak_one : weak_tok := mkWeak [] [(0, 1%Q)].

(** One variable with the constraint [x <= 1] and the upper bound
    [x <= 3], which is constraint 1; the lower bound is unknown. *)
Definition g_bounded : Globals :=
  mkGlobals [mkConstraint [(0, 1%Q)] 1 (-1); mkConstraint [(0, 1%Q)] 3 (-1)]
            [(0%Q, 1%Q, -1)] [(3%Q, 1%Q, 1)].

(** The claimed coefficients [2 x]. *)
Definition row_2x : DSVectorRational := [(0, 2%Q)].


End CompSpec.

(** * The incompletifier ([incompletify.cpp]) *)

Module Incomp.

(** A token of the certificate: an integer numeral, or any other word (a
    name, a keyword, a bracket, a fraction).  The output file is the sequence
    of the tokens written; the white space between them is left out, and so
    is the spelling of a number: a number that is extracted into a [long],
    an [int] or a [Rational] and inserted again is the same token. *)
Inductive token :=
| W (s : string)
| N (z : Z).

#[global] Instance token_eq_dec : EqDecision token.
Proof. solve_decision. Defined.

(** The two files and the random number engine: what is left of the input,
    what has been written, and how many numbers have been drawn. *)
Record Stream := mkStream {
  input : list token;
  output : list token;
  drawn : nat
}.

(** A run ends with a value, or it extracts a token that is not there or a
    number from a word: the behaviour on such a file is not modelled. *)
Definition IO (A : Type) : Type := Stream → option (A * Stream).

Definition ret {A} (a : A) : IO A := λ s, Some (a, s).
Definition bind {A B} (m : IO A) (k : A → IO B) : IO B :=
  λ s, match m s with Some (a, s') => k a s' | None => None end.

Notation "x <- m ;; k" := (bind m (λ x, k))
  (at level 100, m at next level, right associativity).
Notation "m ;;; k" := (bind m (λ _, k))
  (at level 100, right associativity).

(** [certificateFile >> x] for a [string], and for a [Rational]. *)
Definition read_word : IO token :=
  λ s, match input s with
       | t :: rest => Some (t, mkStream rest (output s) (drawn s))
       | [] => None
       end.

(** [certificateFile >> x] for a [long] or an [int]. *)
Definition read_long : IO Z :=
  λ s, match input s with
       | N z :: rest => Some (z, mkStream rest (output s) (drawn s))
       | _ => None
       end.

(** [incompleteFile << x] *)
Definition write (ts : list token) : IO unit :=
  λ s, Some (tt, mkStream (input s) (output s ++ ts) (drawn s)).

(** [certificateFile >> x] for a number, where the code tests
    [certificateFile.fail()] after it. *)
Definition read_long_checked : IO (option Z) :=
  λ s, match read_long s with
       | Some (z, s') => Some (Some z, s')
       | None => Some (None, s)
       end.

(** [certificateFile >> x] for a [string], where the code tests
    [certificateFile.fail()] after it. *)
Definition read_word_checked : IO (option token) :=
  λ s, match read_word s with
       | Some (t, s') => Some (Some t, s')
       | None => Some (None, s)
       end.

(** [atoi] of the C library: white space, an optional sign, and the digits
    up to the first character that is not one.  Numbers outside [int] are
    not modelled. *)
Definition isspace (c : ascii) : bool :=
  let n := Z.of_N (N_of_ascii c) in
  (n =? 32) || ((9 <=? n) && (n <=? 13)).

Definition digit (c : ascii) : option Z :=
  let n := Z.of_N (N_of_ascii c) in
  if (48 <=? n) && (n <=? 57) then Some (n - 48) else None.

Fixpoint atoi_digits (s : string) (acc : Z) : Z :=
  match s with
  | String c r =>
      match digit c with
      | Some d => atoi_digits r (10 * acc + d)
      | None => acc
      end
  | EmptyString => acc
  end.

Fixpoint skip_space (s : string) : string :=
  match s with
  | String c r => if isspace c then skip_space r else s
  | EmptyString => s
  end.

Definition atoi_string (s : string) : Z :=
  match skip_space s with
  | String c r =>
      if Ascii.eqb c "-" then - atoi_digits r 0
      else if Ascii.eqb c "+" then atoi_digits r 0
      else atoi_digits (String c r) 0
  | EmptyString => 0
  end.

(** [atoi(t.c_str())] of a token that was read as a string. *)
Definition atoi (t : token) : Z :=
  match t with N z => z | W s => atoi_string s end.

(** [version.find(".")] with the two calls of [substr]: the text before the
    first dot and the text after it.  Without a dot, [position] is [npos],
    [position + 1] is 0, and both are the whole text. *)
Fixpoint find_dot (s : string) : option (string * string) :=
  match s with
  | EmptyString => None
  | String c r =>
      if Ascii.eqb c "." then Some (EmptyString, r)
      else match find_dot r with
           | Some (a, b) => Some (String c a, b)
           | None => None
           end
  end.

Definition version_numbers (version : token) : Z * Z :=
  match version with
  | N z => (z, z)
  | W s =>
      match find_dot s with
      | Some (a, b) => (atoi_string a, atoi_string b)
      | None => (atoi_string s, atoi_string s)
      end
  end.

Section Settings.

(** The command line: [incomptype], [incompobj] and [percentageIncomplete];
    the global [numberOfConstraints] that [processCON] has set; and the
    numbers that [distrib(gen)] returns, in the order of the calls. *)
Variables (incomptype incompobj : string) (percentageIncomplete : Q)
          (numberOfConstraints : Z) (distrib : nat → Z).

(** [distrib(gen)] *)
Definition draw : IO Z :=
  λ s, Some (distrib (drawn s),
             mkStream (input s) (output s) (S (drawn s))).

(** The loops that copy [n] pairs of an index and a value. *)
Fixpoint copy_pairs (n : nat) : IO unit :=
  match n with
  | O => ret tt
  | S n' =>
      idx <- read_long ;;
      val <- read_word ;;
      write [N idx; val] ;;;
      copy_pairs n'
  end.

(** The second loop of the case [lin]: with [makeincomplete] only the
    indices of derived constraints are written. *)
Fixpoint copy_multipliers (makeincomplete : bool) (n : nat) : IO unit :=
  match n with
  | O => ret tt
  | S n' =>
      a_i <- read_long ;;
      todelete <- read_word ;;
      (if makeincomplete
       then if numberOfConstraints <=? a_i then write [N a_i] else ret tt
       else write [N a_i; todelete]) ;;;
      copy_multipliers makeincomplete n'
  end.

(** The end of the cases [asm], [rnd] and [uns]: the closing bracket and the
    last number. *)
Definition copy_end : IO unit :=
  bracket <- read_word ;;
  if decide (bracket = W "}") then
    write [bracket] ;;;
    dernr <- read_long ;;
    write [N dernr]
  else ret tt.

(** The case [lin]. *)
Definition copy_lin (numberOfCoefficients bracket kind : token) : IO unit :=
  let incomplete := String.eqb incomptype "incomplete" in
  let incompleteObj := String.eqb incompobj "all" in
  let isObj := bool_decide (numberOfCoefficients = W "OBJ") in
  d <- draw ;;
  let makeincomplete := Qle_bool (inject_Z d) percentageIncomplete in
  write [bracket; kind] ;;;
  makeincomplete <-
    (if makeincomplete && (negb isObj || incompleteObj) then
       if incomplete then write [W "incomplete"] ;;; ret true
       else write [W "weak"; W "{"; N 0; W "}"] ;;; ret false
     else ret makeincomplete) ;;
  numberOfDer <- read_long ;;
  write [N numberOfDer] ;;;
  (if isObj && negb incompleteObj
   then copy_pairs (Z.to_nat numberOfDer)
   else copy_multipliers makeincomplete (Z.to_nat numberOfDer)) ;;;
  bracket <- read_word ;;
  derHir <- read_long ;;
  write [bracket; N derHir].

(** One iteration of the loop of [processDER]: the value it leaves in
    [returnStatement]. *)
Definition der_step : IO bool :=
  label <- read_word ;;
  consense <- read_word ;;
  rhs <- read_word ;;
  write [label; consense; rhs] ;;;
  numberOfCoefficients <- read_word ;;
  write [numberOfCoefficients] ;;;
  (if decide (numberOfCoefficients = W "OBJ") then ret tt
   else
     let intOfCoefficients := atoi numberOfCoefficients in
     copy_pairs (Z.to_nat intOfCoefficients)) ;;;
  bracket <- read_word ;;
  kind <- read_word ;;
  if decide (bracket = W "{") then
    if decide (kind = W "asm") then
      write [bracket; kind] ;;; copy_end ;;; ret true
    else if decide (kind = W "lin") then
      copy_lin numberOfCoefficients bracket kind ;;; ret true
    else if decide (kind = W "rnd") then
      write [bracket; kind] ;;;
      n <- read_long ;;
      write [N n] ;;;
      copy_pairs (Z.to_nat n) ;;;
      copy_end ;;; ret true
    else if decide (kind = W "uns") then
      write [bracket; kind] ;;;
      i1 <- read_long ;;
      l1 <- read_long ;;
      i2 <- read_long ;;
      l2 <- read_long ;;
      write [N i1; N l1; N i2; N l2] ;;;
      copy_end ;;; ret true
    else ret false
  else ret false.

(** The loop of [processDER]. *)
Fixpoint der_loop (n : nat) (returnStatement : bool) : IO bool :=
  match n with
  | O => ret returnStatement
  | S n' => r <- der_step ;; der_loop n' r
  end.

(** [processDER] *)
Definition processDER : IO bool :=
  section <- read_word ;;
  if decide (section = W "DER") then
    write [section] ;;;
    numberOfDerivations <- read_long ;;
    write [N numberOfDerivations] ;;;
    if numberOfDerivations =? 0 then ret true
    else der_loop (Z.to_nat numberOfDerivations) false
  else ret false.

End Settings.

Section Run.

(** [VIPR_VERSION_MAJOR] and [VIPR_VERSION_MINOR] of [CMakeConfig.hpp], the
    command line, and the numbers that [distrib(gen)] returns. *)
Variables (VIPR_VERSION_MAJOR VIPR_VERSION_MINOR : Z)
          (incomptype incompobj : string) (percentageIncomplete : Q)
          (distrib : nat → Z).

(** [checkVersion] *)
Definition checkVersion (version : token) : IO bool :=
  write [version] ;;;
  let major := (version_numbers version).1 in
  let minor := (version_numbers version).2 in
  ret ((major =? VIPR_VERSION_MAJOR) && (minor <=? VIPR_VERSION_MINOR)).

(** [processVER].  After [%] the code skips to the end of the line, which
    the tokens do not show: a file with comments is not modelled. *)
Definition processVER : IO bool :=
  tmpStr <- read_word ;;
  if decide (tmpStr = W "VER") then
    write [tmpStr] ;;;
    tmpStr <- read_word ;;
    checkVersion tmpStr
  else if decide (tmpStr = W "%") then λ _, None
  else ret false.

(** The loop of [processVAR]. *)
Fixpoint var_loop (n : nat) : IO bool :=
  match n with
  | O => ret true
  | S n' =>
      tmp <- read_word_checked ;;
      match tmp with
      | None => ret false
      | Some tmp => write [tmp] ;;; var_loop n'
      end
  end.

(** [processVAR]: [returnStatement] starts as [true]. *)
Definition processVAR : IO bool :=
  section <- read_word ;;
  if decide (section = W "VAR") then
    write [section] ;;;
    numberOfVariables <- read_long_checked ;;
    match numberOfVariables with
    | None => ret false
    | Some numberOfVariables =>
        if numberOfVariables <? 0 then ret false
        else
          write [N numberOfVariables] ;;;
          var_loop (Z.to_nat numberOfVariables)
    end
  else ret true.

(** The loop of [processINT]. *)
Fixpoint int_loop (n : nat) : IO bool :=
  match n with
  | O => ret true
  | S n' =>
      index <- read_long_checked ;;
      match index with
      | None => ret false
      | Some index => write [N index] ;;; int_loop n'
      end
  end.

(** [processINT] *)
Definition processINT : IO bool :=
  section <- read_word ;;
  if decide (section = W "INT") then
    write [section] ;;;
    numberOfIntegers <- read_long_checked ;;
    match numberOfIntegers with
    | None => ret false
    | Some numberOfIntegers =>
        write [N numberOfIntegers] ;;;
        int_loop (Z.to_nat numberOfIntegers)
    end
  else ret false.

(** [processOBJ] *)
Definition processOBJ : IO bool :=
  section <- read_word ;;
  if decide (section = W "OBJ") then
    write [section] ;;;
    objectiveSense <- read_word ;;
    write [objectiveSense] ;;;
    numberOfObjCoeff <- read_long ;;
    write [N numberOfObjCoeff] ;;;
    copy_pairs (Z.to_nat numberOfObjCoeff) ;;;
    ret true
  else ret false.

(** The loop of [processCON]. *)
Fixpoint con_loop (n : nat) : IO unit :=
  match n with
  | O => ret tt
  | S n' =>
      label <- read_word ;;
      consense <- read_word ;;
      rhs <- read_word ;;
      numberOfCoefficients <- read_long ;;
      write [label; consense; rhs; N numberOfCoefficients] ;;;
      copy_pairs (Z.to_nat numberOfCoefficients) ;;;
      con_loop n'
  end.

(** [processCON]: its return value and the global [numberOfConstraints],
    which it sets and [processDER] reads. *)
Definition processCON : IO (bool * Z) :=
  section <- read_word ;;
  if decide (section = W "CON") then
    write [section] ;;;
    numberOfConstraints <- read_long ;;
    numberOfBoundedCons <- read_long ;;
    write [N numberOfConstraints; N numberOfBoundedCons] ;;;
    con_loop (Z.to_nat numberOfConstraints) ;;;
    ret (true, numberOfConstraints)
  else ret (false, 0).

(** [processRTP] *)
Definition processRTP : IO bool :=
  section <- read_word ;;
  if decide (section = W "RTP") then
    write [section] ;;;
    relationToProveTypeStr <- read_word ;;
    if decide (relationToProveTypeStr = W "infeas") then
      write [relationToProveTypeStr] ;;; ret true
    else if decide (relationToProveTypeStr = W "range") then
      write [relationToProveTypeStr] ;;;
      lowerString <- read_word ;;
      upperString <- read_word ;;
      write [lowerString; upperString] ;;;
      ret true
    else ret false
  else ret false.

(** The loop of [processSOL]. *)
Fixpoint sol_loop (n : nat) : IO unit :=
  match n with
  | O => ret tt
  | S n' =>
      label <- read_word ;;
      numberOfVarSol <- read_long ;;
      write [label; N numberOfVarSol] ;;;
      copy_pairs (Z.to_nat numberOfVarSol) ;;;
      sol_loop n'
  end.

(** [processSOL] *)
Definition processSOL : IO bool :=
  section <- read_word ;;
  if decide (section = W "SOL") then
    write [section] ;;;
    numberOfSolutions <- read_long_checked ;;
    match numberOfSolutions with
    | None => ret false
    | Some numberOfSolutions =>
        if numberOfSolutions <? 0 then ret false
        else
          write [N numberOfSolutions] ;;;
          sol_loop (Z.to_nat numberOfSolutions) ;;;
          ret true
    end
  else ret false.

(** [main], once the two files are open: its return value. *)
Definition main : IO Z :=
  ver <- processVER ;;
  if negb ver then ret (-1) else
  var <- processVAR ;;
  if negb var then ret (-1) else
  int <- processINT ;;
  if negb int then ret (-1) else
  obj <- processOBJ ;;
  if negb obj then ret (-1) else
  con <- processCON ;;
  if negb con.1 then ret (-1) else
  rtp <- processRTP ;;
  if negb rtp then ret (-1) else
  sol <- processSOL ;;
  if negb sol then ret (-1) else
  der <- processDER incomptype incompobj percentageIncomplete con.2 distrib ;;
  if negb der then ret (-1) else
  ret 0.

End Run.

End Incomp.

(** * Vocabulary for the properties of the incompletifier *)

Module IncompSpec.
Import Incomp.

(** The coefficient field of a derivation: [OBJ], or [k i_1 v_1 ...]. *)
Inductive coef_field :=
| ObjCoef
| Coefs (cs : list (Z * token)).

(** The reason of a derivation. *)
Inductive reason :=
| Asm
| Lin (terms : list (Z * token))
| Rnd (terms : list (Z * token))
| Uns (i1 l1 i2 l2 : Z)
| Sol.

(** A derivation line:
    [label sense rhs <sparse-vec> { <reason> } max-ref-idx]. *)
Record der_line := mkLine {
  label : token;
  consense : token;
  rhs : token;
  coef : coef_field;
  why : reason;
  refIdx : Z
}.








Section Settings.

Variables (incomptype incompobj : string) (percentageIncomplete : Q)
          (numberOfConstraints : Z) (distrib : nat → Z).






End Settings.

(** A constraint of the section [CON]: [label sense rhs k i_1 v_1 ...]. *)
Record con_line := mkCon {
  con_label : token;
  con_sense : token;
  con_rhs : token;
  con_coef : list (Z * token)
}.

(** The relation to prove: [infeas], or [range lower upper]. *)
Inductive relation :=
| Infeas
| Range (lower upper : token).

(** A certificate without comments, with the coefficients of the
    constraints of [CON] and the values of the solutions listed in full. *)
Record certificate := mkCertificate {
  version : token;
  variables : list token;
  integers : list Z;
  objectiveSense : token;
  objective : list (Z * token);
  numberOfBoundedCons : Z;
  constraints : list con_line;
  relationToProve : relation;
  solutions : list (token * list (Z * token));
  derivations : list der_line
}.











End IncompSpec.

(** * The width tool ([viprwidth.cpp]) *)

Module Width.
Import Incomp.

(** [VERSION_MAJOR] and [VERSION_MINOR] *)
Definition VERSION_MAJOR : Z := 1.
Definition VERSION_MINOR : Z := 1.

(** [rs], which [main] returns on every path. *)
Definition rs : Z := -1.

(** An extraction that the code does not test, from a stream on which a
    tested extraction has failed before: not modelled. *)
Definition failed {A} : IO A := λ _, None.

Definition lift {A} (o : option A) : IO A :=
  λ s, match o with Some a => Some (a, s) | None => None end.

(** [pf >> sense] for a [char]: a token of one character; a longer token
    would be split, which is not modelled. *)
Definition read_char : IO ascii :=
  λ s, match input s with
       | W (String c EmptyString) :: rest =>
           Some (c, mkStream rest (output s) (drawn s))
       | _ => None
       end.

(** The lambda [_checkVersion]. *)
Definition _checkVersion (ver : token) : bool :=
  let major := (version_numbers ver).1 in
  let minor := (version_numbers ver).2 in
  (major =? VERSION_MAJOR) && (minor <=? VERSION_MINOR).

(** The loop of the lambda [_updateWidth]: [n] times [++(width[j])] from
    [j] upwards; [None] is an access outside [width]. *)
Fixpoint _updateWidth_loop (width : list Z) (j : Z) (n : nat)
  : option (list Z) :=
  match n with
  | O => Some width
  | S n' =>
      if 0 <=? j then
        w ← width !! Z.to_nat j ;
        _updateWidth_loop (<[Z.to_nat j := w + 1]> width) (j + 1) n'
      else None
  end.

(** The lambda [_updateWidth]. *)
Definition _updateWidth (width : list Z) (beginIdx endIndex : Z)
  : option (list Z) :=
  _updateWidth_loop width beginIdx (Z.to_nat (endIndex - beginIdx)).

(** The loop of the lambda [_processSparseVec]; [false] is the [break]
    after a failed extraction. *)
Fixpoint sparse_loop (numCon : Z) (updateWidth : bool) (curDerIdx : Z)
    (k : nat) (width : list Z) : IO (bool * list Z) :=
  match k with
  | O => ret (true, width)
  | S k' =>
      index <- read_long_checked ;;
      match index with
      | None => ret (false, width)
      | Some index =>
          val <- read_word_checked ;;
          match val with
          | None => ret (false, width)
          | Some _ =>
              width <- (if updateWidth && (numCon <=? index)
                        then lift (_updateWidth width (index - numCon)
                                                curDerIdx)
                        else ret width) ;;
              sparse_loop numCon updateWidth curDerIdx k' width
          end
      end
  end.

(** The lambda [_processSparseVec]: its return value, and [width] as it
    leaves it. *)
Definition _processSparseVec (numCon : Z) (updateWidth : bool)
    (curDerIdx : Z) (width : list Z) : IO (bool * list Z) :=
  input <- read_word ;;
  if decide (input = W "OBJ") then ret (true, width)
  else
    let k := atoi input in
    sparse_loop numCon updateWidth curDerIdx (Z.to_nat k) width.

(** The loop over the names of the variables. *)
Fixpoint var_loop (n : nat) : IO unit :=
  match n with
  | O => ret tt
  | S n' => tmp <- read_word ;; var_loop n'
  end.

(** The loop over the indices of the integer variables; [false] is the
    jump to [TERMINATE]. *)
Fixpoint int_loop (n : nat) : IO bool :=
  match n with
  | O => ret true
  | S n' =>
      idx <- read_long_checked ;;
      match idx with
      | None => ret false
      | Some _ => int_loop n'
      end
  end.

(** The loop over the constraints of [CON].  After the [break] the stream
    has failed. *)
Fixpoint con_loop (numCon : Z) (n : nat) (i : Z) : IO unit :=
  match n with
  | O => ret tt
  | S n' =>
      label <- read_word ;;
      sense <- read_char ;;
      tmp <- read_word ;;
      r <- _processSparseVec numCon false i [] ;;
      if negb r.1 then failed
      else con_loop numCon n' (i + 1)
  end.

(** The loop over the solutions; [stat] is not looked at, but after a
    failure the stream has failed. *)
Fixpoint sol_loop (numCon : Z) (n : nat) : IO unit :=
  match n with
  | O => ret tt
  | S n' =>
      label <- read_word ;;
      r <- _processSparseVec numCon false 0 [] ;;
      if negb r.1 then failed
      else sol_loop numCon n'
  end.

(** The closing bracket of a reason; [false] is the jump to
    [TERMINATE]. *)
Definition closing : IO bool :=
  tmp <- read_word ;;
  ret (bool_decide (tmp = W "}")).

(** The four updates of the case [uns]. *)
Definition uns_updates (numCon i con1 asm1 con2 asm2 : Z) (width : list Z)
  : option (list Z) :=
  width ← (if numCon <=? con1 then _updateWidth width (con1 - numCon) i
           else Some width) ;
  width ← (if numCon <=? con2 then _updateWidth width (con2 - numCon) i
           else Some width) ;
  width ← (if numCon <=? asm1 then _updateWidth width (asm1 - numCon) i
           else Some width) ;
  if numCon <=? asm2 then _updateWidth width (asm2 - numCon) i
  else Some width.

(** The reason of derivation [i], after the token [{]: [width] as the
    reason leaves it, or [None] for the jump to [TERMINATE]. *)
Definition der_reason (numCon i : Z) (width : list Z)
  : IO (option (list Z)) :=
  tmp <- read_word ;;
  if bool_decide (tmp = W "asm") || bool_decide (tmp = W "sol") then
    ok <- closing ;;
    ret (if ok then Some width else None)
  else if bool_decide (tmp = W "lin") || bool_decide (tmp = W "rnd") then
    r <- _processSparseVec numCon true i width ;;
    if r.1 then
      ok <- closing ;;
      ret (if ok then Some r.2 else None)
    else failed
  else if bool_decide (tmp = W "uns") then
    con1 <- read_long_checked ;;
    asm1 <- read_long_checked ;;
    con2 <- read_long_checked ;;
    asm2 <- read_long_checked ;;
    match con1, asm1, con2, asm2 with
    | Some con1, Some asm1, Some con2, Some asm2 =>
        width <- lift (uns_updates numCon i con1 asm1 con2 asm2 width) ;;
        ok <- closing ;;
        ret (if ok then Some width else None)
    | _, _, _, _ => ret None
    end
  else ret None.

(** One iteration of the loop over the derivations. *)
Definition der_step (numCon i : Z) (width : list Z) : IO (option (list Z)) :=
  label <- read_word ;;
  sense <- read_char ;;
  tmp <- read_word ;;
  r <- _processSparseVec numCon false i width ;;
  if negb r.1 then ret None
  else
    tmp <- read_word ;;
    if negb (bool_decide (tmp = W "{")) then ret None
    else
      r <- der_reason numCon i r.2 ;;
      match r with
      | None => ret None
      | Some width =>
          idx <- read_long ;;
          ret (Some width)
      end.

(** The loop over the derivations. *)
Fixpoint der_loop (numCon : Z) (n : nat) (i : Z) (width : list Z)
  : IO (option (list Z)) :=
  match n with
  | O => ret (Some width)
  | S n' =>
      r <- der_step numCon i width ;;
      match r with
      | None => ret None
      | Some width => der_loop numCon n' (i + 1) width
      end
  end.

(** The loop that prints the widths and computes [maxWidth]. *)
Fixpoint report_loop (width : list Z) (idx maxWidth : Z) : IO Z :=
  match width with
  | [] => ret maxWidth
  | it :: width' =>
      write [W "width["; N idx; W "] = "; N it] ;;;
      report_loop width' (idx + 1) (if maxWidth <? it then it else maxWidth)
  end.

(** The sections from [VAR] to the number of derivations: [numCon] and
    [numDer], or [None] for the jump to [TERMINATE]. *)
Definition sections : IO (option (Z * Z)) :=
  section <- read_word ;;
  if negb (bool_decide (section = W "VAR")) then ret None else
  num <- read_long_checked ;;
  match num with
  | None => ret None
  | Some num =>
  var_loop (Z.to_nat num) ;;;
  section <- read_word ;;
  if negb (bool_decide (section = W "INT")) then ret None else
  num <- read_long_checked ;;
  match num with
  | None => ret None
  | Some num =>
  ok <- int_loop (Z.to_nat num) ;;
  if negb ok then ret None else
  section <- read_word ;;
  if negb (bool_decide (section = W "OBJ")) then ret None else
  tmp <- read_word ;;
  if negb (bool_decide (tmp = W "min")) && negb (bool_decide (tmp = W "max"))
  then ret None else
  r <- _processSparseVec 0 false 0 [] ;;
  if negb r.1 then ret None else
  section <- read_word ;;
  if negb (bool_decide (section = W "CON")) then ret None else
  numCon <- read_long ;;
  numBnd <- read_long ;;
  con_loop numCon (Z.to_nat numCon) 0 ;;;
  section <- read_word ;;
  if negb (bool_decide (section = W "RTP")) then ret None else
  tmp <- read_word ;;
  ok <- (if bool_decide (tmp = W "range") then
           tmp <- read_word ;; tmp <- read_word ;; ret true
         else ret (bool_decide (tmp = W "infeas"))) ;;
  if negb ok then ret None else
  section <- read_word ;;
  if negb (bool_decide (section = W "SOL")) then ret None else
  numSol <- read_long ;;
  sol_loop numCon (Z.to_nat numSol) ;;;
  section <- read_word ;;
  if negb (bool_decide (section = W "DER")) then ret None else
  numDer <- read_long ;;
  ret (Some (numCon, numDer))
  end end.

(** [main], once the file is open.  What it writes is what it prints to
    [cout]. *)
Definition main : IO Z :=
  section <- read_word_checked ;;
  match section with
  | None => ret rs
  | Some section =>
      if bool_decide (section = W "VER") then
        tmp <- read_word ;;
        if _checkVersion tmp then
          r <- sections ;;
          match r with
          | None => ret rs
          | Some (numCon, numDer) =>
              if numDer <? 0 then failed
              else
                r <- der_loop numCon (Z.to_nat numDer) 0
                              (replicate (Z.to_nat numDer) 0) ;;
                match r with
                | None => ret rs
                | Some width =>
                    maxWidth <- report_loop width 0 0 ;;
                    write [W "Cutwidth on derived constraints is: ";
                           N maxWidth] ;;;
                    ret rs
                end
          end
        else ret rs
      else if bool_decide (section = W "%") then failed
      else ret rs
  end.

End Width.

(** * Vocabulary for the properties of the width tool *)

Module WidthSpec.
Import Incomp IncompSpec Width.












End WidthSpec.


(** * The completer ([viprcomp_parallel.cpp]): the circular buffer of LPs *)

Module CompQueue.

Section CircBuf.

(** The type [passData*] of the entries, and [nullptr]. *)
Context {A : Type} (null : A).

(** [class circBuf] *)
Record circBuf := mkCircBuf {
  tail : Z;
  head : Z;
  size : Z;
  arr : list A
}.

(** [arr.resize(maxtokens)]; a negative number is converted to a size that
    no vector has, and the call throws. *)
Definition vector_resize (arr : list A) (maxtokens : Z) : option (list A) :=
  if maxtokens <? 0 then None
  else Some (take (Z.to_nat maxtokens) arr
               ++ replicate (Z.to_nat maxtokens - length arr) null).

(** The constructor [circBuf(maxtokens)]. *)
Definition circBuf_new (maxtokens : Z) : option circBuf :=
  arr ← vector_resize [] maxtokens ;
  Some (mkCircBuf (-1) (-1) maxtokens arr).

(** [circBuf::resize] *)
Definition resize (b : circBuf) (maxtokens : Z) : option circBuf :=
  arr ← vector_resize (arr b) maxtokens ;
  Some (mkCircBuf (-1) (-1) maxtokens arr).

(** [arr[i]] and [arr[i] = x]; [None] outside the vector. *)
Definition arr_get (arr : list A) (i : Z) : option A :=
  if 0 <=? i then arr !! Z.to_nat i else None.
Definition arr_set (arr : list A) (i : Z) (x : A) : option (list A) :=
  if (0 <=? i) && (i <? Z.of_nat (length arr))
  then Some (<[Z.to_nat i := x]> arr)
  else None.

(** [circBuf::enqueue] *)
Definition enqueue (b : circBuf) (warmStartData : A) : option circBuf :=
  if head b =? -1 then
    arr ← arr_set (arr b) 0 warmStartData ;
    Some (mkCircBuf 0 0 (size b) arr)
  else if (tail b =? size b - 1) && negb (head b =? 0) then
    arr ← arr_set (arr b) 0 warmStartData ;
    Some (mkCircBuf 0 (head b) (size b) arr)
  else
    arr ← arr_set (arr b) (tail b + 1) warmStartData ;
    Some (mkCircBuf (tail b + 1) (head b) (size b) arr).

(** [circBuf::dequeue] *)
Definition dequeue (b : circBuf) : option (A * circBuf) :=
  data ← arr_get (arr b) (head b) ;
  Some (data,
        if head b =? tail b then mkCircBuf (-1) (-1) (size b) (arr b)
        else if head b =? size b - 1 then mkCircBuf (tail b) 0 (size b) (arr b)
        else mkCircBuf (tail b) (head b + 1) (size b) (arr b)).

(** [circBuf::isEmpty] *)
Definition isEmpty (b : circBuf) : bool := head b =? -1.

(** ** Vocabulary *)

(** A sequence of calls. *)
Inductive call :=
| Enqueue (x : A)
| Dequeue.

(** The calls one after the other: what the calls of [dequeue] return, and
    the buffer at the end. *)
Fixpoint run (calls : list call) (b : circBuf) : option (list A * circBuf) :=
  match calls with
  | [] => Some ([], b)
  | Enqueue x :: calls' => b' ← enqueue b x ; run calls' b'
  | Dequeue :: calls' =>
      r ← dequeue b ;
      r' ← run calls' r.2 ;
      Some (r.1 :: r'.1, r'.2)
  end.

(** The same calls on a queue of at most [n] entries; [None] when an entry
    is taken from the empty queue or added to a full one. *)
Fixpoint fifo (n : nat) (calls : list call) (q : list A)
  : option (list A * list A) :=
  match calls with
  | [] => Some ([], q)
  | Enqueue x :: calls' =>
      if decide (length q < n)%nat then fifo n calls' (q ++ [x]) else None
  | Dequeue :: calls' =>
      match q with
      | [] => None
      | x :: q' => r ← fifo n calls' q' ; Some (x :: r.1, r.2)
      end
  end.

(** The position [i] of the ring, for [0 <= i < 2 size]. *)
Definition wrap (size i : Z) : Z := if i <? size then i else i - size.

(** The number of entries between [head] and [tail]. *)
Definition occupied (b : circBuf) : Z :=
  if head b =? -1 then 0
  else if head b <=? tail b then tail b - head b + 1
  else size b - head b + tail b + 1.

(** The entries from [head] to [tail]. *)
Definition contents (b : circBuf) : list A :=
  (λ k, default null (arr_get (arr b) (wrap (size b) (head b + k))))
    <$> seqZ 0 (occupied b).

(** The invariant of the class: [size] is the size of [arr], and [head] and
    [tail] are both [-1] or both positions of [arr]. *)
Definition well_formed (b : circBuf) : Prop :=
  Z.of_nat (length (arr b)) = size b
  ∧ ((head b = -1 ∧ tail b = -1)
     ∨ (0 ≤ head b < size b ∧ 0 ≤ tail b < size b)).

End CircBuf.

Arguments circBuf : clear implicits.
Arguments call : clear implicits.

(** A buffer of three entries that is full, with the oldest entry at
    position 1. *)
Definition full_buffer : circBuf Z := mkCircBuf 0 1 3 [30; 10; 20].

End CompQueue.

(** * The completer ([viprcomp_parallel.cpp]): reading the constraints *)

Module CompRead.
Import Comp.

(** The coefficients of a constraint in the file: the token [OBJ], or a
    number followed by that many pairs of an index and a value. *)
Inductive coef_tok :=
| OBJ_tok
| Vec_tok (pairs : list (Z * Q)).

(** A line of the CON section: label, sense, right-hand side and
    coefficients. *)
Record con_line := mkConLine {
  cl_label : string;
  cl_sense : string;
  cl_rhs : Q;
  cl_coef : coef_tok
}.

(** [v[i] = x] on a [std::vector]; [None] outside the vector. *)
Definition vec_set {A} (v : list A) (i : Z) (x : A) : option (list A) :=
  if (0 <=? i) && (i <? Z.of_nat (length v))
  then Some (<[Z.to_nat i := x]> v)
  else None.

(** [DSVectorRational::add(n, indices, values)] appends the pairs whose
    value is not zero. *)
Definition dsvec_add (row : DSVectorRational) (pairs : list (Z * Q))
  : DSVectorRational :=
  row ++ filter (λ p, req p.2 0 = false) pairs.

Section Reader.

(** The constant [infinity] of SoPlex; the value that the local variable
    [sense] of [getConstraints] holds when it is read without having been
    assigned; and the objective vector [*ObjCoeff]. *)
Variable infinity : Q.
Variable indeterminate : Z.
Variable ObjCoeff : DSVectorRational.

(** The part of [processVAR] that sets up the bounds: every variable gets
    the bounds [-infinity] and [infinity], with multiplier 1 and
    certificate index -1.  No constraint has been read. *)
Definition processVAR_bounds (numberOfVariables : nat) : Globals :=
  mkGlobals []
            (replicate numberOfVariables ((- infinity)%Q, 1%Q, -1))
            (replicate numberOfVariables (infinity, 1%Q, -1)).

(** "normalize bound constraints": a sense other than [E] and [L] is taken
    for [G]. *)
Definition normalizedSense (consense : string) (val : Q) : string :=
  if String.eqb consense "E" then "E"
  else if String.eqb consense "L"
       then (if sign val <=? 0 then "G" else "L")
       else (if sign val <=? 0 then "L" else "G").

(** The part of [getConstraints] for a constraint with one coefficient:
    "check if normalized bound is an improvement over existing bound".
    [None] is the division [rhs/val] by zero or an access outside
    [upperBounds] or [lowerBounds]. *)
Definition improve_bounds (consense : string) (rhs : Q) (idx : Z) (val : Q)
    (currentDerivation : Z) (g : Globals) : option Globals :=
  if req val 0 then None
  else
    let normalizedSense := normalizedSense consense val in
    let normalizedRhs := rdiv rhs val in
    let tup := (normalizedRhs, val, currentDerivation - 1) in
    if String.eqb normalizedSense "E" then
      ub ← vec_at (upperBounds g) idx ;
      upper ← (if rlt normalizedRhs ub.1.1
               then vec_set (upperBounds g) idx tup
               else Some (upperBounds g)) ;
      lb ← vec_at (lowerBounds g) idx ;
      lower ← (if rlt lb.1.1 normalizedRhs
               then vec_set (lowerBounds g) idx tup
               else Some (lowerBounds g)) ;
      Some (mkGlobals (constraints g) lower upper)
    else
      below ← (if String.eqb normalizedSense "L"
               then ub ← vec_at (upperBounds g) idx ;
                    Some (rlt normalizedRhs ub.1.1)
               else Some false) ;
      if below : bool then
        upper ← vec_set (upperBounds g) idx tup ;
        Some (mkGlobals (constraints g) (lowerBounds g) upper)
      else
        above ← (if String.eqb normalizedSense "G"
                 then lb ← vec_at (lowerBounds g) idx ;
                      Some (rlt lb.1.1 normalizedRhs)
                 else Some false) ;
        if above : bool then
          lower ← vec_set (lowerBounds g) idx tup ;
          Some (mkGlobals (constraints g) lower (upperBounds g))
        else Some g.

(** [getConstraints(workinglp, consense, rhs, activeConstraint,
    currentDerivation)] after [label], [consense] and [rhs] have been read:
    its return value and its effect on [constraints], [lowerBounds] and
    [upperBounds].  With and without SoPlex, [sense] is set in the same
    way; the rows added to the LP and the copy of the line written to the
    completed file are not part of the model. *)
Definition getConstraints (consense : string) (rhs : Q) (coef : coef_tok)
    (currentDerivation : Z) (g : Globals) : option (bool * Globals) :=
  r ← match coef with
      | OBJ_tok => Some (ObjCoeff, g)
      | Vec_tok pairs =>
          g ← match pairs with
              | [(idx, val)] =>
                  improve_bounds consense rhs idx val currentDerivation g
              | _ => Some g
              end ;
          Some (dsvec_add [] pairs, g)
      end ;
  let '(row, g) := r in
  let '(returnStatement, sense) :=
    if String.eqb consense "E" then (true, 0)
    else if String.eqb consense "L" then (true, -1)
    else if String.eqb consense "G" then (true, 1)
    else (false, indeterminate) in
  Some (returnStatement,
        mkGlobals (constraints g ++ [mkConstraint row rhs sense])
                  (lowerBounds g) (upperBounds g)).

(** The loop of [processCON]; [returnStatement] is assigned in every
    round. *)
Fixpoint con_loop (lines : list con_line) (currentDerivation : Z)
    (returnStatement : bool) (g : Globals) : option (bool * Globals) :=
  match lines with
  | [] => Some (returnStatement, g)
  | l :: lines' =>
      let currentDerivation := currentDerivation + 1 in
      r ← getConstraints (cl_sense l) (cl_rhs l) (cl_coef l)
            currentDerivation g ;
      con_loop lines' currentDerivation r.1 r.2
  end.

(** [processCON(workinglp)] on a section that starts with the word
    [section] and lists [lines]. *)
Definition processCON (section : string) (lines : list con_line)
    (g : Globals) : option (bool * Globals) :=
  if negb (String.eqb section "CON") then Some (false, g)
  else con_loop lines 0 false g.

End Reader.

End CompRead.

(** * Vocabulary for the bounds that the completer records *)

Module CompReadSpec.
Import Comp CompRead.

(** The value of a row at a point. *)
Definition dot (row : DSVectorRational) (x : Z → Q) : Q :=
  fold_right (λ e acc, (e.2 * x e.1 + acc)%Q) (0:Q) row.

(** A point satisfies a constraint. *)
Definition satisfies (c : Constraint) (x : Z → Q) : Prop :=
  (sense c = 0 ∧ (dot (vec c) x == side c)%Q)
  ∨ (sense c = -1 ∧ (dot (vec c) x <= side c)%Q)
  ∨ (sense c = 1 ∧ (dot (vec c) x >= side c)%Q).

(** The senses of the file format. *)
Definition known_sense (s : string) : Prop := s = "E" ∨ s = "L" ∨ s = "G".

(** The constraint [c] is [factor x_idx <= side], [=] or [>=] with the sign
    of [factor] such that it says [x_idx <= b] (or [x_idx >= b]), where [b]
    is [side / factor]. *)
Definition upper_bound_by (c : Constraint) (idx : Z) (factor b : Q) : Prop :=
  vec c = [(idx, factor)] ∧ ¬ (factor == 0)%Q ∧ (b == side c / factor)%Q
  ∧ (sense c = 0 ∨ (sense c = -1 ∧ (0 < factor)%Q)
     ∨ (sense c = 1 ∧ (factor < 0)%Q)).
Definition lower_bound_by (c : Constraint) (idx : Z) (factor b : Q) : Prop :=
  vec c = [(idx, factor)] ∧ ¬ (factor == 0)%Q ∧ (b == side c / factor)%Q
  ∧ (sense c = 0 ∨ (sense c = -1 ∧ (factor < 0)%Q)
     ∨ (sense c = 1 ∧ (0 < factor)%Q)).

(** A line with one coefficient, on variable [idx], that bounds the
    variable from above (from below) by [b]. *)
Definition bounds_above (l : con_line) (idx : Z) (b : Q) : Prop :=
  ∃ val, cl_coef l = Vec_tok [(idx, val)] ∧ ¬ (val == 0)%Q
         ∧ (b == cl_rhs l / val)%Q
         ∧ (cl_sense l = "E" ∨ (cl_sense l = "L" ∧ (0 < val)%Q)
            ∨ (cl_sense l = "G" ∧ (val < 0)%Q)).
Definition bounds_below (l : con_line) (idx : Z) (b : Q) : Prop :=
  ∃ val, cl_coef l = Vec_tok [(idx, val)] ∧ ¬ (val == 0)%Q
         ∧ (b == cl_rhs l / val)%Q
         ∧ (cl_sense l = "E" ∨ (cl_sense l = "L" ∧ (val < 0)%Q)
            ∨ (cl_sense l = "G" ∧ (0 < val)%Q)).

Abbreviation bound := (Q * Q * Z)%type.

(** The update of one bound: the new tuple when it improves the bound. *)
Definition tighten (better : Q → Q → bool) (v : list bound) (idx : Z)
    (tup : bound) : option (list bound) :=
  old ← vec_at v idx ;
  if better tup.1.1 old.1.1 then vec_set v idx tup else Some v.

(** The normalised sense bounds the variable from above (below). *)
Definition from_above (consense : string) (val : Q) : bool :=
  String.eqb consense "E"
  || (if String.eqb consense "L" then 0 <? sign val else sign val <=? 0).
Definition from_below (consense : string) (val : Q) : bool :=
  String.eqb consense "E"
  || (if String.eqb consense "L" then sign val <=? 0 else 0 <? sign val).

(** Every recorded bound is the one set by [processVAR] or comes from the
    constraint it cites. *)
Definition justified (infinity : Q) (g : Globals) : Prop :=
  (∀ idx t, vec_at (upperBounds g) idx = Some t →
     t = (infinity, 1%Q, -1)
     ∨ ∃ c, vec_at (constraints g) t.2 = Some c
            ∧ upper_bound_by c idx t.1.2 t.1.1)
  ∧ (∀ idx t, vec_at (lowerBounds g) idx = Some t →
       t = ((- infinity)%Q, 1%Q, -1)
       ∨ ∃ c, vec_at (constraints g) t.2 = Some c
              ∧ lower_bound_by c idx t.1.2 t.1.1).

(** No recorded bound is weaker than [infinity] or than a line of [ls] that
    bounds the variable. *)
Definition tight (infinity : Q) (ls : list con_line) (g : Globals)
  : Prop :=
  (∀ idx t, vec_at (upperBounds g) idx = Some t →
     (t.1.1 <= infinity)%Q
     ∧ ∀ l bd, l ∈ ls → bounds_above l idx bd → (t.1.1 <= bd)%Q)
  ∧ (∀ idx t, vec_at (lowerBounds g) idx = Some t →
       (- infinity <= t.1.1)%Q
       ∧ ∀ l bd, l ∈ ls → bounds_below l idx bd → (bd <= t.1.1)%Q).

(** A value for [infinity]. *)
Definition infinity_1e100 : Q := inject_Z (10 ^ 100).

(** The globals that a call has left. *)
Definition globals_of (r : option (bool * Globals)) : Globals :=
  match r with
  | Some (_, g) => g
  | None => mkGlobals [] [] []
  end.

(** Two variables; the constraints [2 x0 <= 6], [x0 + x1 >= 1],
    [-x1 <= 4] and [3 x0 <= 12]. *)
Definition lines_bounds : list con_line :=
  [ mkConLine "c0" "L" 6 (Vec_tok [(0, 2%Q)]);
    mkConLine "c1" "G" 1 (Vec_tok [(0, 1%Q); (1, 1%Q)]);
    mkConLine "c2" "L" 4 (Vec_tok [(1, (-1)%Q)]);
    mkConLine "c3" "L" 12 (Vec_tok [(0, 3%Q)]) ].

(** A section whose first line has a sense that the format does not
    know. *)
Definition lines_unknown_sense : list con_line :=
  [ mkConLine "c0" "X" 6 (Vec_tok [(0, 2%Q)]);
    mkConLine "c1" "G" 1 (Vec_tok [(0, 1%Q); (1, 1%Q)]) ].

(** The two sections read after [VAR 2]. *)
Definition bounds_result : option (bool * Globals) :=
  processCON 0 [] "CON" lines_bounds (processVAR_bounds infinity_1e100 2).
Definition unknown_sense_result : option (bool * Globals) :=
  processCON 0 [] "CON" lines_unknown_sense
             (processVAR_bounds infinity_1e100 2).

End CompReadSpec.
(** * Facts about the rational kernel *)

Module RatFacts.
Import Rat.

Lemma mpq_equal_eq a b : mpq_equal a b = true ↔ a = b.
Proof.
  unfold mpq_equal. destruct a as [n d], b as [n' d']; simpl.
  rewrite andb_true_iff, Z.eqb_eq, Pos.eqb_eq. split.
  - intros [-> ->]; reflexivity.
  - intros [= -> ->]; auto.
Qed.

Lemma lt_spec a b : lt a b = true ↔ (a < b)%Q.
Proof.
  unfold lt. rewrite Qlt_alt. destruct (a ?= b)%Q; split; congruence.
Qed.

Lemma le_spec a b : le a b = true ↔ (a <= b)%Q.
Proof.
  unfold le. rewrite negb_true_iff, <- not_true_iff_false, lt_spec.
  split; [apply Qnot_lt_le | apply Qle_not_lt].
Qed.

Lemma ge_spec a b : ge a b = true ↔ (b <= a)%Q.
Proof. apply le_spec. Qed.

Lemma is_neg_spec a : is_neg a = true ↔ (a < 0)%Q.
Proof.
  unfold is_neg, Qlt. destruct a as [n d]; simpl.
  rewrite Z.ltb_lt. lia.
Qed.

Lemma is_pos_spec a : is_pos a = true ↔ (0 < a)%Q.
Proof.
  unfold is_pos, Qlt. destruct a as [n d]; simpl.
  rewrite Z.ltb_lt. lia.
Qed.

(** An [mpq_class] passes [isInteger] exactly when its denominator is 1. *)
Lemma isInteger_den q : isInteger q = true ↔ Qden q = 1%positive.
Proof.
  unfold isInteger. rewrite mpq_equal_eq. destruct q as [n d]; simpl.
  unfold floor, inject_Z, Qfloor. split.
  - intros [= _ ->]. reflexivity.
  - intros ->. f_equal. symmetry. apply Z.div_1_r.
Qed.

End RatFacts.

(** * Properties of the verifier *)

Module ChkFacts.
Import Rat RatFacts Chk ChkSpec ChkExamples.

(** ** Monadic runs *)

Lemma bind_Done {A B} (m : M A) (k : A → M B) s b s' :
  bind m k s = Done b s' ↔ ∃ a s1, m s = Done a s1 ∧ k a s1 = Done b s'.
Proof.
  unfold bind. destruct (m s) as [a s1|]; split.
  - eauto.
  - intros (a' & s1' & [= <- <-] & H). exact H.
  - discriminate.
  - intros (? & ? & [=] & _).
Qed.

Lemma lift_Done {A} (o : option A) s a s' :
  lift o s = Done a s' ↔ o = Some a ∧ s' = s.
Proof.
  destruct o; simpl; unfold ret, stuck; split.
  - intros [= -> ->]; auto.
  - intros [[= ->] ->]; auto.
  - discriminate.
  - intros [[=] _].
Qed.

(** ** Sparse vectors *)

Lemma compactify_compact v : compact (compactify v).
Proof.
  intros k a H. apply map_lookup_filter_Some in H as [_ H]. exact H.
Qed.

Lemma compact_compactify v : compact v → compactify v = v.
Proof. intros H. apply map_filter_id. intros k a Hk. exact (H k a Hk). Qed.

Lemma elem_of_entries (v : SVectorGMP) k a :
  (k, a) ∈ entries v ↔ v !! k = Some a.
Proof.
  unfold entries. rewrite merge_sort_Permutation.
  apply elem_of_map_to_list.
Qed.

Lemma differs_nowhere (cf1 cf2 : SVectorGMP) :
  compact cf1 → size cf1 = size cf2 →
  existsb (differs_at cf2) (entries cf1) = false ↔ cf1 = cf2.
Proof.
  intros Hc Hsz. split.
  - intros Hex. apply map_subseteq_size_eq; [|lia].
    apply map_subseteq_spec. intros k a Hk.
    assert (Hd : differs_at cf2 (k, a) = false).
    { destruct (differs_at cf2 (k, a)) eqn:E; [|reflexivity].
      assert (existsb (differs_at cf2) (entries cf1) = true); [|congruence].
      apply existsb_exists. exists (k, a). split; [|exact E].
      apply list_elem_of_In, elem_of_entries, Hk. }
    unfold differs_at in Hd. simpl in Hd.
    destruct (cf2 !! k) as [b|].
    + apply negb_false_iff, mpq_equal_eq in Hd. congruence.
    + rewrite (Hc k a Hk) in Hd. discriminate.
  - intros <-. apply not_true_iff_false. intros Hex.
    apply existsb_exists in Hex as ([k a] & Hin & Hd).
    apply list_elem_of_In, elem_of_entries in Hin.
    unfold differs_at in Hd. simpl in Hd. rewrite Hin in Hd.
    apply negb_true_iff in Hd.
    assert (mpq_equal a a = true) by (apply mpq_equal_eq; reflexivity).
    congruence.
Qed.

(** On compact vectors [operator!=] decides equality of the two maps and
    changes neither operand. *)
Lemma svec_neq_compact (cf1 cf2 : SVectorGMP) :
  compact cf1 → compact cf2 →
  svec_neq cf1 cf2 = (negb (bool_decide (cf1 = cf2)), cf1, cf2).
Proof.
  intros H1 H2. unfold svec_neq.
  rewrite !(compact_compactify _ H1), !(compact_compactify _ H2).
  destruct (size cf1 =? size cf2)%nat eqn:E; simpl.
  - rewrite E. simpl. apply Nat.eqb_eq in E.
    f_equal. f_equal.
    destruct (existsb (differs_at cf2) (entries cf1)) eqn:Ex.
    + rewrite bool_decide_eq_false_2; [reflexivity|].
      intros Heq. apply differs_nowhere in Heq; [congruence|assumption..].
    + apply differs_nowhere in Ex; [|assumption..].
      rewrite bool_decide_eq_true_2; [reflexivity|assumption].
  - rewrite E. simpl. rewrite bool_decide_eq_false_2; [reflexivity|].
    intros ->. rewrite Nat.eqb_refl in E. discriminate.
Qed.

(** ** Dominance *)

Lemma coefs_Some s c v :
  coefs s c = Some v ↔ ∃ p, _coefficients c = Some p ∧ heap s !! p = Some v.
Proof.
  unfold coefs. destruct (_coefficients c) as [p|]; simpl; split.
  - eauto.
  - intros (? & [= <-] & H). exact H.
  - discriminate.
  - intros (? & [=] & _).
Qed.

(** What [dominates] returns on constructed constraints. *)
Lemma dominates_constructed s a b va vb :
  coefs s a = Some va → coefs s b = Some vb → compact va → compact vb →
  returns (dominates a b) s
    (_falsehood a || (bool_decide (va = vb) && implies_side a b)).
Proof.
  intros Ha Hb Hca Hcb.
  apply coefs_Some in Ha as (pa & Hpa & Hva).
  apply coefs_Some in Hb as (pb & Hpb & Hvb).
  unfold returns, dominates. destruct (_falsehood a); simpl.
  - eexists. reflexivity.
  - rewrite Hpa, Hpb.
    cbv [svec_eq_at bind deref get lift store modify ret mbind option_bind].
    rewrite Hva, Hvb, (svec_neq_compact _ _ Hca Hcb), negb_involutive.
    eexists. reflexivity.
Qed.

Lemma returns_inj {A} (m : M A) s (x y : A) :
  returns m s x → returns m s y → x = y.
Proof. intros [s1 H1] [s2 H2]. congruence. Qed.

(** A constraint that is implied by a falsehood with its own coefficients is
    a falsehood. *)
Lemma implies_side_falsehood a b :
  implies_side a b = true →
  falsehood_side (_sense b) (_rhs b) = true →
  falsehood_side (_sense a) (_rhs a) = true.
Proof.
  unfold implies_side, falsehood_side.
  rewrite !orb_true_iff, !andb_true_iff.
  rewrite !Z.ltb_lt, !Z.leb_le, !Z.eqb_eq, ge_spec, le_spec, mpq_equal_eq.
  rewrite !is_neg_spec, !is_pos_spec.
  intros [[((Hb & Ha) & Hr)|((Hb & Ha) & Hr)]|((Hb & Ha) & Hr)] [[Hs Hf]|[Hs Hf]];
    try lia.
  - right. split; [lia|]. eapply Qlt_le_trans; eassumption.
  - left. split; [lia|]. eapply Qle_lt_trans; eassumption.
  - left. split; [lia|]. rewrite Hr. exact Hf.
  - right. split; [lia|]. rewrite Hr. exact Hf.
Qed.

Lemma implies_side_trans a b c :
  implies_side a b = true → implies_side b c = true →
  implies_side a c = true.
Proof.
  unfold implies_side.
  rewrite !orb_true_iff, !andb_true_iff.
  rewrite !Z.ltb_lt, !Z.leb_le, !Z.eqb_eq, !ge_spec, !le_spec, !mpq_equal_eq.
  intros [[((Hb & Ha) & Hr)|((Hb & Ha) & Hr)]|((Hb & Ha) & Hr)]
         [[((Hc & Hb') & Hr')|((Hc & Hb') & Hr')]|((Hc & Hb') & Hr')];
    try lia.
  - left; left. repeat split; [lia..|]. eapply Qle_trans; eassumption.
  - left; right. repeat split; [lia..|]. eapply Qle_trans; eassumption.
  - left; left. repeat split; [lia..|]. rewrite Hr. exact Hr'.
  - left; right. repeat split; [lia..|]. rewrite Hr. exact Hr'.
  - right. repeat split; [lia..|]. congruence.
Qed.

(** Dominance is transitive on constructed constraints. *)
Lemma dominates_trans s a b c :
  constructed s a → constructed s b → constructed s c →
  returns (dominates a b) s true → returns (dominates b c) s true →
  returns (dominates a c) s true.
Proof.
  intros (va & Ha & Hca & Hfa) (vb & Hb & Hcb & Hfb) (vc & Hc & Hcc & Hfc)
         Hab Hbc.
  pose proof (dominates_constructed s a b va vb Ha Hb Hca Hcb) as Rab.
  pose proof (dominates_constructed s b c vb vc Hb Hc Hcb Hcc) as Rbc.
  pose proof (dominates_constructed s a c va vc Ha Hc Hca Hcc) as Rac.
  apply (returns_inj _ _ _ _ Hab) in Rab.
  apply (returns_inj _ _ _ _ Hbc) in Rbc.
  replace true with
    (_falsehood a || (bool_decide (va = vc) && implies_side a c)); [exact Rac|].
  symmetry in Rab, Rbc.
  destruct (_falsehood a) eqn:Fa; [reflexivity|]. simpl in *.
  apply andb_true_iff in Rab as [Eab Sab].
  apply bool_decide_eq_true in Eab. subst vb.
  destruct (_falsehood b) eqn:Fb; simpl in Rbc.
  - exfalso. destruct (decide (va = ∅)); [|congruence].
    symmetry in Hfb.
    pose proof (implies_side_falsehood a b Sab Hfb). congruence.
  - apply andb_true_iff in Rbc as [Ebc Sbc].
    rewrite Ebc. simpl. eapply implies_side_trans; eassumption.
Qed.

(** C6.  Dominance monotonicity: for constraints [a], [b] and [c] (objects
    of the class [Constraint], with the invariant its constructor
    establishes), if [a.dominates(b)] and [b.dominates(c)] return true and
    the coefficient vectors of [a] and [c] are equal after canonicalisation,
    then [a.dominates(c)] returns true. *)
Theorem dominance_monotonicity s a b c :
  constructed s a → constructed s b → constructed s c →
  returns (dominates a b) s true →
  returns (dominates b c) s true →
  same_canonical s a c →
  returns (dominates a c) s true.
Proof.
  intros Ha Hb Hc Hab Hbc _. exact (dominates_trans s a b c Ha Hb Hc Hab Hbc).
Qed.

(** ** Rounding *)

Lemma round_loop_forallb isInt es :
  Forall (λ e : Z * Q, is_Some (vec_at isInt e.1)) es →
  round_loop isInt es = Some (forallb (round_admits isInt) es).
Proof.
  induction 1 as [|[j a] es [b Hb] _ IH]; simpl; [reflexivity|].
  simpl in Hb. unfold round_admits at 1. simpl. rewrite Hb.
  destruct b; [destruct (isInteger a)|]; simpl; auto.
Qed.

(** What [round] does: it fails exactly when an integer variable has a
    coefficient that is not an integer; the coefficients of the other
    variables are not looked at.  The heap, and with it the coefficient
    vector, stays as it is. *)
Lemma round_spec s c v :
  coefs s c = Some v →
  (∀ j a, v !! j = Some a → is_Some (vec_at (isInt s) j)) →
  round c s =
    Done (if forallb (round_admits (isInt s)) (entries v)
          then (true, rounded c) else (false, c)) s.
Proof.
  intros Hv Hrange. apply coefs_Some in Hv as (p & Hp & Hv).
  unfold round. rewrite Hp.
  cbv [bind deref get lift ret mbind option_bind]. rewrite Hv.
  rewrite round_loop_forallb.
  - unfold rounded.
    destruct (forallb _ _); [|reflexivity].
    destruct (_sense c <? 0); [reflexivity|].
    destruct (0 <? _sense c); reflexivity.
  - apply Forall_forall. intros [j a] Hin.
    apply elem_of_entries in Hin. simpl. eauto.
Qed.

Lemma verdict_returns {A} (m : M A) s a :
  verdict (m s) = Some a → returns m s a.
Proof.
  unfold verdict, returns. destruct (m s); [|discriminate].
  intros [= ->]. eauto.
Qed.

(** C1, at the input where the program leaves the claim.  In [cert_round]
    the variable [x] is continuous and has the coefficient 1 in
    [c1 : x >= 1/2].  The claim makes [round] fail on it; [round] returns
    true and replaces the right-hand side by [ceil(1/2) = 1].  The verifier
    accepts the certificate, in both builds, and so confirms the range
    [[1, 1]] for a problem whose optimal value is [1/2]. *)
Theorem round_ignores_continuous_variables :
  vec_at (isInt state_round) 0 = Some false
  ∧ coefs state_round c1_round = Some {[ 0 := 1%Q ]}
  ∧ returns (round c1_round) state_round (true, set_rhs 1 c1_round)
  ∧ ∀ NDEBUG, verdict (main VIPR_VERSION_MAJOR VIPR_VERSION_MINOR NDEBUG
                            cert_round) = Some OKAY.
Proof.
  split; [vm_compute; reflexivity|].
  split; [vm_compute; reflexivity|].
  split; [apply verdict_returns; vm_compute; reflexivity|].
  intros []; vm_compute; reflexivity.
Qed.

(** ** The multiplier sign rule *)

Lemma agree_cons_cons x l : agree (x :: x :: l) ↔ agree (x :: l).
Proof.
  unfold agree. split; intros H a b Ha Hb; apply H; set_solver.
Qed.

Lemma agree_hd x l : agree (x :: l) → ∀ y, y ∈ l → y = x.
Proof. intros H y Hy. apply H; set_solver. Qed.

Lemma sgn_zero a : is_zero a = true → sgn a = 0.
Proof. unfold is_zero, sgn. intros H%Z.eqb_eq. rewrite H. reflexivity. Qed.

Lemma remaining_cons s t terms :
  remaining s (t :: terms) =
    if decide (sign_product s t = 0) then remaining s terms
    else sign_product s t :: remaining s terms.
Proof.
  unfold remaining. rewrite fmap_cons, filter_cons.
  destruct (decide (sign_product s t ≠ 0)), (decide (sign_product s t = 0));
    try reflexivity; contradiction.
Qed.

Lemma mult_loop_skip NDEBUG s index a terms sense mult :
  (index <? 0) = false → is_zero a = true →
  mult_loop NDEBUG ((index, a) :: terms) sense mult s
  = mult_loop NDEBUG terms sense mult s.
Proof. intros H1 H2. simpl. rewrite H1, H2. reflexivity. Qed.

Lemma mult_loop_step NDEBUG s index a terms sense mult con :
  (index <? 0) = false → is_zero a = false →
  vec_at (constraint s) index = Some con →
  (NDEBUG = false → is_Some (coefs s con)) →
  mult_loop NDEBUG ((index, a) :: terms) sense mult s
  = if sense =? 0
    then mult_loop NDEBUG terms (_sense con * sgn a) (<[index:=a]> mult) s
    else if negb (_sense con * sgn a =? 0)
            && negb (sense =? _sense con * sgn a)
         then Done (false, sense, <[index:=a]> mult) s
         else mult_loop NDEBUG terms sense (<[index:=a]> mult) s.
Proof.
  intros Eneg Ez Hat Hdbg. simpl mult_loop. rewrite Eneg, Ez.
  assert (Hlen : (Z.of_nat (length (constraint s)) <=? index) = false).
  { apply Z.leb_gt. unfold vec_at in Hat.
    destruct (0 <=? index); [|discriminate].
    apply lookup_lt_Some in Hat. lia. }
  assert (Hrun : (if NDEBUG then ret tt
                  else bind (deref (_coefficients con)) (λ _, ret tt)) s
                 = Done tt s).
  { destruct NDEBUG; [reflexivity|].
    destruct (Hdbg eq_refl) as [v Hv].
    apply coefs_Some in Hv as (p & Hp & Hv). rewrite Hp.
    cbv [bind deref get lift ret mbind option_bind]. rewrite Hv.
    reflexivity. }
  unfold bind at 1. unfold get at 1.
  rewrite Hlen, andb_false_r.
  unfold bind at 1. rewrite Hat. simpl lift. unfold ret at 1.
  unfold bind at 1. rewrite Hrun.
  destruct (sense =? 0); [reflexivity|].
  destruct (negb _ && negb _); reflexivity.
Qed.

(** The loop of [readMultipliers], started with a sense [sense] that earlier
    terms have left. *)
Lemma mult_loop_spec NDEBUG s terms :
  Forall (citable NDEBUG s) terms →
  ∀ sense mult,
    let rem := (if decide (sense = 0) then [] else [sense])
                 ++ remaining s terms in
    (agree rem →
     ∃ mult', mult_loop NDEBUG terms sense mult s
              = Done (true, hd 0 rem, mult') s)
    ∧ (¬ agree rem →
       ∃ sense' mult', mult_loop NDEBUG terms sense mult s
                       = Done (false, sense', mult') s).
Proof.
  induction 1 as [|[index a] terms [Hidx Hcon] _ IH]; intros sense mult rem.
  - subst rem. unfold remaining. simpl. rewrite app_nil_r. split.
    + intros _. exists mult. destruct (decide (sense = 0)); subst; reflexivity.
    + intros Hna. exfalso. apply Hna.
      destruct (decide (sense = 0)); intros x y Hx Hy; set_solver.
  - simpl in Hidx, Hcon.
    assert (Eneg : (index <? 0) = false) by (apply Z.ltb_ge; lia).
    subst rem. rewrite remaining_cons.
    destruct (is_zero a) eqn:Ez.
    { assert (Hsp : sign_product s (index, a) = 0).
      { unfold sign_product. simpl. rewrite (sgn_zero a Ez). lia. }
      destruct (decide (sign_product s (index, a) = 0)); [|contradiction].
      rewrite (mult_loop_skip _ _ _ _ _ _ _ Eneg Ez). apply IH. }
    destruct (Hcon eq_refl) as (con & Hat & Hdbg).
    assert (Hsp : sign_product s (index, a) = _sense con * sgn a).
    { unfold sign_product. simpl. rewrite Hat. reflexivity. }
    rewrite Hsp. clear Hsp.
    rewrite (mult_loop_step _ _ _ _ _ _ _ con Eneg Ez Hat Hdbg).
    set (t := _sense con * sgn a).
    specialize (IH t (<[index:=a]> mult)) as IHt.
    specialize (IH sense (<[index:=a]> mult)) as IHs.
    simpl in IHt, IHs.
    destruct (decide (sense = 0)) as [Es|Es].
    + subst sense. simpl.
      destruct (decide (t = 0)) as [Ht|Ht]; exact IHt.
    + rewrite (proj2 (Z.eqb_neq sense 0) Es). simpl.
      destruct (decide (t = 0)) as [Ht|Ht].
      * rewrite (proj2 (Z.eqb_eq t 0) Ht). simpl. exact IHs.
      * rewrite (proj2 (Z.eqb_neq t 0) Ht). simpl.
        destruct (sense =? t) eqn:Est; simpl.
        -- apply Z.eqb_eq in Est. rewrite <- Est.
           rewrite agree_cons_cons. exact IHs.
        -- apply Z.eqb_neq in Est. split.
           ++ intros Hag. exfalso. apply Est. symmetry.
              apply (agree_hd _ _ Hag). set_solver.
           ++ intros _. eauto.
Qed.

(** C2.  The multiplier sign rule of [lin] and [rnd] steps.  For the terms
    [(i_l, a_l)] of a linear combination that cite existing constraints, let
    [s_l = sign(a_l) * sense(con[i_l])] and discard the terms with
    [a_l = 0] or with an equality, that is those with [s_l = 0].  If the
    remaining [s_l] agree, [readMultipliers] succeeds and the sense it
    returns, which is the sense of the derived constraint, is their common
    value, 0 if none remains; if two of them disagree, it fails. *)
Theorem multiplier_sign_rule NDEBUG s terms :
  Forall (citable NDEBUG s) terms →
  (agree (remaining s terms) →
   ∃ mult, readMultipliers NDEBUG terms s
           = Done (true, hd 0 (remaining s terms), mult) s)
  ∧ (¬ agree (remaining s terms) →
     ∃ sense mult, readMultipliers NDEBUG terms s
                   = Done (false, sense, mult) s).
Proof.
  intros H. exact (mult_loop_spec NDEBUG s terms H 0 ∅).
Qed.

(** ** Computations that only touch vectors *)

Lemma heap_only_ret {A} (a : A) : heap_only (ret a).
Proof. intros s x s' [= _ ?]. subst. reflexivity. Qed.

Lemma heap_only_stuck {A} : heap_only (@stuck A).
Proof. intros s x s' [=]. Qed.

Lemma heap_only_lift {A} (o : option A) : heap_only (lift o).
Proof. destruct o; [apply heap_only_ret|apply heap_only_stuck]. Qed.

Lemma heap_only_bind {A B} (m : M A) (k : A → M B) :
  heap_only m → (∀ a, heap_only (k a)) → heap_only (bind m k).
Proof.
  intros Hm Hk s b s' H. apply bind_Done in H as (a & s1 & H1 & H2).
  rewrite (Hk a _ _ _ H2). exact (Hm _ _ _ H1).
Qed.

Lemma heap_only_deref p : heap_only (deref p).
Proof.
  intros s v s' H. unfold deref, bind, get in H.
  apply lift_Done in H as [_ ->]. reflexivity.
Qed.

Lemma heap_only_get : heap_only get.
Proof. intros s x s' [= _ ?]. subst. reflexivity. Qed.

Lemma heap_only_store p v : heap_only (store p v).
Proof. intros s x s' [= ?]. subst. reflexivity. Qed.

Lemma heap_only_make_shared : heap_only make_shared.
Proof. intros s x s' [= _ ?]. subst. reflexivity. Qed.

Create HintDb heap_only.
#[local] Hint Resolve heap_only_ret heap_only_stuck heap_only_lift
  heap_only_get heap_only_deref heap_only_store heap_only_make_shared : heap_only.

Ltac heap_only :=
  repeat first
    [ progress eauto with heap_only
    | apply heap_only_bind; [|intros ?]
    | match goal with
      | |- heap_only (if ?b then _ else _) => destruct b
      | |- heap_only (match ?x with _ => _ end) => destruct x
      | |- heap_only (let '(_, _) := ?x in _) => destruct x
      end ].

Lemma heap_only_read_pairs p pairs : heap_only (read_pairs p pairs).
Proof.
  induction pairs as [|[index a] pairs IH]; simpl; heap_only.
Qed.
#[local] Hint Resolve heap_only_read_pairs : heap_only.

Lemma heap_only_readConstraintCoefficients p tok :
  heap_only (readConstraintCoefficients p tok).
Proof. unfold readConstraintCoefficients. heap_only. Qed.
#[local] Hint Resolve heap_only_readConstraintCoefficients : heap_only.

Lemma heap_only_readConstraint l p : heap_only (readConstraint l p).
Proof. unfold readConstraint. heap_only. Qed.

Lemma heap_only_Constraint_new label sense rhs p isAsm asmList :
  heap_only (Constraint_new label sense rhs p isAsm asmList).
Proof. unfold Constraint_new, _isFalsehood. heap_only. Qed.

Lemma heap_only_svec_eq_at p1 p2 : heap_only (svec_eq_at p1 p2).
Proof. unfold svec_eq_at. heap_only. Qed.
#[local] Hint Resolve heap_only_svec_eq_at : heap_only.

Lemma heap_only_dominates a b : heap_only (dominates a b).
Proof. unfold dominates. heap_only. Qed.
#[local] Hint Resolve heap_only_readConstraint heap_only_Constraint_new
  heap_only_dominates : heap_only.

Lemma heap_only_canUnsplit toDer con1 a1 con2 a2 :
  heap_only (canUnsplit toDer con1 a1 con2 a2).
Proof. unfold canUnsplit. heap_only. Qed.

(** ** Unsplitting *)

Lemma ret_Done {A} (a b : A) s s' : ret a s = Done b s' ↔ a = b ∧ s = s'.
Proof. unfold ret. split; [intros [= -> ->]|intros [-> ->]]; auto. Qed.

Lemma get_Done s a s' : get s = Done a s' ↔ a = s ∧ s' = s.
Proof. unfold get. split; [intros [= <- <-]|intros [-> ->]]; auto. Qed.

(** The sense that [readLinComb] returns, with which [lin] and [rnd] steps
    construct the derived constraint, is the one of [readMultipliers]. *)
Lemma readLinComb_sense NDEBUG terms p idx s ok sense rhs al s' :
  readLinComb NDEBUG terms p idx s = Done (ok, sense, rhs, al) s' →
  ∃ ok' mult s1,
    readMultipliers NDEBUG terms s = Done (ok', sense, mult) s1.
Proof.
  intros H. unfold readLinComb in H.
  apply bind_Done in H as ([[ok' sn] mult] & s1 & Hm & H).
  destruct ok'; simpl in H.
  - apply bind_Done in H as (u & s2 & _ & H).
    apply bind_Done in H as ([[r1 r2] r3] & s3 & _ & H).
    apply ret_Done in H as [[= _ <- _ _] _]. eauto.
  - apply ret_Done in H as [[= _ <- _ _] _]. eauto.
Qed.

Lemma globals_constraint s s' :
  globals s' = globals s → constraint s' = constraint s.
Proof. unfold globals. intros [=]. assumption. Qed.

(** When [canUnsplit] returns true, the assumption list it leaves is the
    union of the two lists without the two assumptions. *)
Lemma canUnsplit_scope toDer con1 a1 con2 a2 s al s' :
  canUnsplit toDer con1 a1 con2 a2 s = Done (true, al) s' →
  ∃ c1 c2,
    vec_at (constraint s) con1 = Some c1
    ∧ vec_at (constraint s) con2 = Some c2
    ∧ al = (_assumptionList c1 ∖ {[a1]}) ∪ (_assumptionList c2 ∖ {[a2]}).
Proof.
  unfold canUnsplit. intros H.
  apply bind_Done in H as (s0 & s1 & Hget & H).
  apply get_Done in Hget as [-> ->].
  apply bind_Done in H as (c1 & s1 & H1 & H). apply lift_Done in H1 as [H1 ->].
  apply bind_Done in H as (c2 & s1 & H2 & H). apply lift_Done in H2 as [H2 ->].
  apply bind_Done in H as (b1 & s1 & H3 & H). apply lift_Done in H3 as [H3 ->].
  apply bind_Done in H as (b2 & s1 & H4 & H). apply lift_Done in H4 as [H4 ->].
  exists c1, c2. split; [exact H1|]. split; [exact H2|].
  destruct (_trashed c1); [apply ret_Done in H as [[=] _]|].
  destruct (_trashed c2); [apply ret_Done in H as [[=] _]|].
  apply bind_Done in H as (d1 & s1 & _ & H).
  apply bind_Done in H as (d2 & s2 & _ & H).
  destruct (d1 && d2); [|apply ret_Done in H as [[=] _]].
  cbv zeta in H.
  destruct (_trashed b1); [apply ret_Done in H as [[=] _]|].
  destruct (negb _); [apply ret_Done in H as [[=] _]|].
  destruct (negb _); [apply ret_Done in H as [[=] _]|].
  apply bind_Done in H as (same & s3 & _ & H).
  destruct same; [|apply ret_Done in H as [[=] _]].
  apply bind_Done in H as (v & s4 & _ & H).
  apply bind_Done in H as (ok & s5 & _ & H).
  apply ret_Done in H as [[= _ <-] _]. reflexivity.
Qed.

(** C4.  Unsplit elimination: for every accepted step [uns c1 a1 c2 a2], the
    assumption list set on the derived constraint, with which it is appended
    to the list of constraints, is the union of the assumption list of
    [con[c1]] without [a1] and the assumption list of [con[c2]] without
    [a2]. *)
Theorem unsplit_scope NDEBUG l s con1 asm1 con2 asm2 toDer s' :
  dl_reason l = Uns_tok con1 asm1 con2 asm2 →
  derive NDEBUG l s = Done (Some toDer) s' →
  ∃ c1 c2,
    vec_at (constraint s) con1 = Some c1
    ∧ vec_at (constraint s) con2 = Some c2
    ∧ _assumptionList toDer
      = (_assumptionList c1 ∖ {[asm1]}) ∪ (_assumptionList c2 ∖ {[asm2]}).
Proof.
  intros Hr H. unfold derive in H.
  apply bind_Done in H as (p & s1 & Hp & H).
  apply heap_only_make_shared in Hp.
  apply bind_Done in H as ([[[ok sense] coef] eqObj] & s2 & Hrd & H).
  apply heap_only_readConstraint in Hrd.
  destruct ok; [|apply ret_Done in H as [[=] _]]. simpl negb in H. cbv iota in H.
  destruct (negb (String.eqb _ _)); [apply ret_Done in H as [[=] _]|].
  apply bind_Done in H as (toDer0 & s3 & Hnew & H).
  apply heap_only_Constraint_new in Hnew.
  apply bind_Done in H as (s3' & s3'' & Hget & H).
  apply get_Done in Hget as [-> ->].
  apply bind_Done in H as ([acc al] & s4 & Hd & H).
  destruct acc; [|apply ret_Done in H as [[=] _]].
  apply ret_Done in H as [[= <-] _]. simpl.
  assert (Hcs : constraint s3 = constraint s).
  { apply globals_constraint. congruence. }
  unfold derive_reason in Hd. rewrite Hr in Hd.
  destruct (_ || _); [apply ret_Done in Hd as [[=] _]|].
  destruct (_ || _); [apply ret_Done in Hd as [[=] _]|].
  apply bind_Done in Hd as ([ok' al'] & s5 & Hcan & Hd). simpl in Hd.
  destruct ok'; [|apply ret_Done in Hd as [[=] _]].
  apply ret_Done in Hd as [[= _ <-] _].
  apply canUnsplit_scope in Hcan. rewrite Hcs in Hcan. exact Hcan.
Qed.

(** ** Running the primitives *)

Lemma bind_eq {A B} (m : M A) (k : A → M B) s a s1 :
  m s = Done a s1 → bind m k s = k a s1.
Proof. intros H. unfold bind. rewrite H. reflexivity. Qed.

Lemma deref_run s p v : heap s !! p = Some v → deref (Some p) s = Done v s.
Proof. intros H. unfold deref, bind, get. simpl. rewrite H. reflexivity. Qed.

Lemma store_run s p v :
  store p v s = Done tt (set_heap (<[p := v]> (heap s)) s).
Proof. reflexivity. Qed.

Lemma make_shared_run s :
  ∃ s1, make_shared s = Done (S (allocated s)) s1
        ∧ heap s1 = <[S (allocated s) := ∅]> (heap s)
        ∧ globals s1 = globals s.
Proof.
  unfold make_shared. cbv [bind get put ret].
  eexists. split; [reflexivity|]. split; reflexivity.
Qed.

(** The constructor of [Constraint] compactifies the vector it is given and
    computes [_falsehood] from it. *)
Lemma Constraint_new_run label sense rhs p isAsm asmList s v :
  heap s !! p = Some v →
  Constraint_new label sense rhs p isAsm asmList s
  = Done (mkConstraint label sense rhs (Some p) (-1) isAsm asmList
            (if decide (compactify v = ∅)
             then falsehood_side sense rhs else false) false false)
         (set_heap (<[p := compactify v]> (heap s)) s).
Proof.
  intros Hv. unfold Constraint_new.
  rewrite (bind_eq _ _ _ _ _ (deref_run s p v Hv)).
  rewrite (bind_eq _ _ _ _ _ (store_run s p (compactify v))).
  unfold _isFalsehood. simpl _coefficients.
  erewrite bind_eq.
  2:{ erewrite bind_eq; [reflexivity|].
      apply deref_run. simpl. apply lookup_insert_eq. }
  reflexivity.
Qed.

(** The constructor establishes the invariant [constructed]. *)
Lemma Constraint_new_constructed label sense rhs p isAsm asmList s c s' :
  Constraint_new label sense rhs p isAsm asmList s = Done c s' →
  constructed s' c.
Proof.
  intros H.
  assert (Hv : ∃ v, heap s !! p = Some v).
  { unfold Constraint_new in H. apply bind_Done in H as (v & s1 & H & _).
    unfold deref in H. apply bind_Done in H as (s0 & s2 & Hg & H).
    apply get_Done in Hg as [-> ->]. apply lift_Done in H as [H _].
    simpl in H. eauto. }
  destruct Hv as [v Hv]. rewrite (Constraint_new_run _ _ _ _ _ _ _ _ Hv) in H.
  injection H as <- <-. exists (compactify v). split; [|split].
  - unfold coefs. simpl. apply lookup_insert_eq.
  - apply compactify_compact.
  - reflexivity.
Qed.

(** Reading the token [OBJ] makes the pointer refer to the objective. *)
Lemma readConstraintCoefficients_OBJ_run p s w v :
  p ≠ objPtr → heap s !! p = Some w → heap s !! objPtr = Some v →
  readConstraintCoefficients p OBJ_tok s
  = Done (true, objPtr, true)
         (set_heap (<[objPtr := compactify v]> (<[p := ∅]> (heap s))) s).
Proof.
  intros Hne Hp Hobj. unfold readConstraintCoefficients.
  rewrite (bind_eq _ _ _ _ _ (deref_run s p w Hp)).
  rewrite (bind_eq _ _ _ _ _ (store_run s p ∅)).
  erewrite bind_eq.
  2:{ apply deref_run. simpl. rewrite lookup_insert_ne by exact Hne.
      exact Hobj. }
  rewrite (bind_eq _ _ _ _ _ (store_run _ _ _)). reflexivity.
Qed.

(** The pointer that [readConstraintCoefficients] returns is the objective
    exactly for the token [OBJ]. *)
Lemma readConstraintCoefficients_ptr p tok s ok p' eqObj s' :
  readConstraintCoefficients p tok s = Done (ok, p', eqObj) s' →
  (tok = OBJ_tok ∧ p' = objPtr) ∨ ((∃ pairs, tok = Vec_tok pairs) ∧ p' = p).
Proof.
  unfold readConstraintCoefficients. intros H.
  apply bind_Done in H as (w & s1 & _ & H).
  apply bind_Done in H as (u & s2 & _ & H).
  destruct tok as [|pairs].
  - apply bind_Done in H as (v & s3 & _ & H).
    apply bind_Done in H as (u' & s4 & _ & H).
    apply ret_Done in H as [[= _ <- _] _]. left. auto.
  - right. split; [eauto|].
    apply bind_Done in H as (b & s3 & _ & H). destruct b.
    + apply bind_Done in H as (v & s4 & _ & H).
      apply bind_Done in H as (u' & s5 & _ & H).
      apply ret_Done in H as [[= _ <- _] _]. reflexivity.
    + apply ret_Done in H as [[= _ <- _] _]. reflexivity.
Qed.

Lemma readConstraint_inv l p s sense p' eqObj s' :
  readConstraint l p s = Done (true, sense, p', eqObj) s' →
  (sense = -1 ↔ cl_senseChar l = "L"%char)
  ∧ ((cl_coef l = OBJ_tok ∧ p' = objPtr)
     ∨ ((∃ pairs, cl_coef l = Vec_tok pairs) ∧ p' = p)).
Proof.
  unfold readConstraint. intros H.
  destruct (is_comment _); [discriminate|].
  destruct (Ascii.eqb (cl_senseChar l) "E") eqn:EE;
    [|destruct (Ascii.eqb (cl_senseChar l) "L") eqn:EL;
      [|destruct (Ascii.eqb (cl_senseChar l) "G") eqn:EG]].
  4:{ apply ret_Done in H as [[=] _]. }
  all: apply bind_Done in H as ([[ok q] e] & s1 & Hr & H);
       apply ret_Done in H as [[= _ <- <- _] _];
       apply readConstraintCoefficients_ptr in Hr; split; [|exact Hr].
  - apply Ascii.eqb_eq in EE. rewrite EE. split; discriminate.
  - apply Ascii.eqb_eq in EL. rewrite EL. split; reflexivity.
  - apply Ascii.eqb_eq in EG. rewrite EG. split; discriminate.
Qed.

(** ** The cutoff step *)






(** ** The relation to prove *)

Lemma processRTP_invalid_bounds l u s :
  (u < l)%Q →
  ∃ s', processRTP (Range_tok (Num_tok l) (Num_tok u)) s = Done false s'.
Proof.
  intros H. unfold processRTP. cbv [bind get ret modify]. simpl.
  replace (gt l u) with true; [eauto|].
  symmetry. apply lt_spec. exact H.
Qed.

(** A stage of [main] does not change a rejection that follows it. *)
Lemma stage_rejects (m : M bool) (k1 k2 : M ViprStatus) s :
  (∀ s', verdict (k1 s') ≠ Some OKAY ∧ k1 s' = k2 s') →
  verdict (bind m (λ ok, if negb ok then ret ERROR else k1) s) ≠ Some OKAY
  ∧ bind m (λ ok, if negb ok then ret ERROR else k1) s
    = bind m (λ ok, if negb ok then ret ERROR else k2) s.
Proof.
  intros H. unfold bind. destruct (m s) as [[] s'|]; simpl.
  - apply H.
  - split; [discriminate|reflexivity].
  - split; [discriminate|reflexivity].
Qed.

Lemma stage_false (m : M bool) (k : M ViprStatus) s s' :
  m s = Done false s' →
  bind m (λ ok, if negb ok then ret ERROR else k) s = Done ERROR s'.
Proof. intros H. unfold bind. rewrite H. reflexivity. Qed.

(** C10.  If [RTP] is [range] with two finite bounds and the lower bound is
    greater than the upper bound, [processRTP] returns false in every state;
    [main] then does not return [OKAY], and what it does is the same whatever
    the sections [SOL] and [DER] hold: they are not read. *)
Theorem rtp_invalid_bounds_rejected l u :
  (u < l)%Q →
  (∀ s, ∃ s', processRTP (Range_tok (Num_tok l) (Num_tok u)) s
              = Done false s')
  ∧ ∀ MAJOR MINOR NDEBUG ver var int obj con sol der,
      let cert sol der :=
        mkCert ver var int obj con (Range_tok (Num_tok l) (Num_tok u))
               sol der in
      verdict (main MAJOR MINOR NDEBUG (cert sol der)) ≠ Some OKAY
      ∧ main MAJOR MINOR NDEBUG (cert sol der)
        = main MAJOR MINOR NDEBUG (cert [] []).
Proof.
  intros H. split; [intros s; apply processRTP_invalid_bounds, H|].
  intros MAJOR MINOR NDEBUG ver var int obj con sol der cert.
  unfold main, cert. simpl.
  apply (stage_rejects (processVER MAJOR MINOR ver)). intros s1.
  apply (stage_rejects (processVAR var)). intros s2.
  apply (stage_rejects (processINT int)). intros s3.
  apply (stage_rejects (processOBJ obj)). intros s4.
  apply (stage_rejects (processCON con)). intros s5.
  destruct (processRTP_invalid_bounds l u s5 H) as [s6 Hs6].
  rewrite !(stage_false _ _ _ _ Hs6).
  split; [discriminate|reflexivity].
Qed.

(** ** Citations outside the list of constraints *)


(** ** Solutions given by the token [OBJ] *)

(** C9, at the input where the program leaves the claim.  In
    [cert_alias sols_alias] the base constraint [c1] is [x >= 1]: its
    coefficients are the objective [x].  The second solution, [x = -1],
    violates it.  Reading the first solution from the token [OBJ] makes
    [solutionSpecified] point to the objective vector, so reading the second
    solution overwrites the objective and with it the coefficients of [c1];
    the test of [c1] then multiplies the solution with itself.  [processSOL]
    returns true and the verifier accepts the certificate.  With the second
    solution alone, the violation is found. *)
Theorem solution_check_aliasing :
  coefs state_alias c1_alias = Some {[ 0 := 1%Q ]}
  ∧ _sense c1_alias = 1
  ∧ _rhs c1_alias = 1%Q
  ∧ holds 1 1 {[ 0 := 1%Q ]} {[ 0 := (-1)%Q ]} = false
  ∧ verdict (processSOL sols_alias state_alias) = Some true
  ∧ (∀ NDEBUG, verdict (main VIPR_VERSION_MAJOR VIPR_VERSION_MINOR NDEBUG
                             (cert_alias sols_alias)) = Some OKAY)
  ∧ (∀ NDEBUG, verdict (main VIPR_VERSION_MAJOR VIPR_VERSION_MINOR NDEBUG
                             (cert_alias [("s2"%string,
                                           Vec_tok [(0, (-1)%Q)])]))
               = Some ERROR).
Proof.
  repeat split; try (intros []); vm_compute; reflexivity.
Qed.

(** ** Instances *)

Lemma constructed_test_true s c :
  constructed_test s c = true → constructed s c.
Proof.
  unfold constructed_test, constructed.
  destruct (coefs s c) as [v|]; [|discriminate].
  intros [Hc Hf]%andb_true_iff. exists v. split; [reflexivity|].
  split; [|apply bool_decide_eq_true in Hf; exact Hf].
  intros k a Hk. rewrite forallb_forall in Hc.
  apply negb_true_iff, (Hc (k, a)), list_elem_of_In, elem_of_map_to_list, Hk.
Qed.

Lemma multiplier_sign_rule_witness :
  (agree (remaining state_infeas [(0, 1%Q); (1, (-1)%Q)]) →
   ∃ mult, readMultipliers true [(0, 1%Q); (1, (-1)%Q)] state_infeas
           = Done (true, hd 0 (remaining state_infeas
                                 [(0, 1%Q); (1, (-1)%Q)]), mult)
                  state_infeas)
  ∧ (¬ agree (remaining state_infeas [(0, 1%Q); (1, (-1)%Q)]) →
     ∃ sense mult, readMultipliers true [(0, 1%Q); (1, (-1)%Q)] state_infeas
                   = Done (false, sense, mult) state_infeas).
Proof.
  apply (multiplier_sign_rule true state_infeas [(0, 1%Q); (1, (-1)%Q)]).
  repeat constructor; simpl; try lia;
    intros _; eexists; (split; [vm_compute; reflexivity|discriminate]).
Defined.


Lemma unsplit_scope_witness :
  ∃ c1 c2,
    vec_at (constraint state_unsplit) 2 = Some c1
    ∧ vec_at (constraint state_unsplit) 4 = Some c2
    ∧ _assumptionList toDer_unsplit
      = (_assumptionList c1 ∖ {[1]}) ∪ (_assumptionList c2 ∖ {[3]}).
Proof.
  apply (unsplit_scope true line_unsplit state_unsplit 2 1 4 3
                       toDer_unsplit state_unsplit_end).
  - reflexivity.
  - vm_compute. reflexivity.
Defined.

Lemma dominance_monotonicity_witness :
  returns (dominates (bound 0) (bound 2)) state_bounds true.
Proof.
  apply (dominance_monotonicity state_bounds (bound 0) (bound 1) (bound 2)).
  - apply constructed_test_true. vm_compute. reflexivity.
  - apply constructed_test_true. vm_compute. reflexivity.
  - apply constructed_test_true. vm_compute. reflexivity.
  - apply verdict_returns. vm_compute. reflexivity.
  - apply verdict_returns. vm_compute. reflexivity.
  - vm_compute. reflexivity.
Defined.

Lemma rtp_invalid_bounds_rejected_witness :
  (∀ s, ∃ s', processRTP (Range_tok (Num_tok 1) (Num_tok 0)) s
              = Done false s')
  ∧ ∀ MAJOR MINOR NDEBUG ver var int obj con sol der,
      let cert sol der :=
        mkCert ver var int obj con (Range_tok (Num_tok 1) (Num_tok 0))
               sol der in
      verdict (main MAJOR MINOR NDEBUG (cert sol der)) ≠ Some OKAY
      ∧ main MAJOR MINOR NDEBUG (cert sol der)
        = main MAJOR MINOR NDEBUG (cert [] []).
Proof.
  apply (rtp_invalid_bounds_rejected 1 0). reflexivity.
Defined.

End ChkFacts.
(** * Properties of weak completion *)

Module CompFacts.
Import Comp CompSpec.

Lemma rle_spec a b : rle a b = true ↔ (a <= b)%Q.
Proof. apply Qle_bool_iff. Qed.

Lemma rlt_spec a b : rlt a b = true ↔ (a < b)%Q.
Proof.
  unfold rlt. rewrite negb_true_iff, <- not_true_iff_false, Qle_bool_iff.
  split; [apply Qnot_le_lt|apply Qlt_not_le].
Qed.

Lemma rlt_false a b : rlt a b = false ↔ (b <= a)%Q.
Proof. unfold rlt. rewrite negb_false_iff. apply Qle_bool_iff. Qed.




(** ** Equality chains *)












(** ** Weak completion *)




(** The claim [2 x = 5] with the same multiplier: [readLinComb] overwrites
    the sense 0 of the claim with the sense [<=] of the cited constraint,
    the loops take the claim for an inequality, and an equality that needs
    a correction is completed. *)
Example weak_equality_overwritten :
  completeWeakDomination g_bounded row_2x 0 5 weak_one
  = Some (mkCompletion true (Some [(0, 1%Q); (1, 1%Q)]))
  ∧ corrections g_bounded row_2x 0 weak_one
    = Some (Some (-1, Through (mkCorrection {[ 0 := 2%Q ]}
                                            {[ 0 := 1%Q; 1 := 1%Q ]} 4))).
Proof. repeat split; vm_compute; reflexivity. Qed.

End CompFacts.

(** * Properties of the incompletifier *)

Module IncompFacts.
Import Incomp IncompSpec.

Section Settings.

Variables (incomptype incompobj : string) (percentageIncomplete : Q)
          (numberOfConstraints : Z) (distrib : nat → Z).







Ltac step_word :=
  unfold bind at 1; unfold read_word at 1; simpl.
Ltac step_long :=
  unfold bind at 1; unfold read_long at 1; simpl.





End Settings.

Section Run.

Variables (VIPR_VERSION_MAJOR VIPR_VERSION_MINOR : Z)
          (incomptype incompobj : string) (percentageIncomplete : Q)
          (distrib : nat → Z).

Ltac step_word :=
  unfold bind at 1; unfold read_word at 1; simpl.
Ltac step_long :=
  unfold bind at 1; unfold read_long at 1; simpl.















End Run.



End IncompFacts.


(** * What the checks of the verifier mean *)

Module ChkMore.
Import Rat RatFacts Chk ChkSpec ChkExamples ChkFacts ChkSem.

Lemma scalarProduct_empty x : scalarProduct ∅ x = 0%Q.
Proof.
  unfold scalarProduct, entries. rewrite map_to_list_empty. reflexivity.
Qed.

Lemma falsehood_holds sense rhs x :
  falsehood_side sense rhs = true → holds sense rhs ∅ x = false.
Proof.
  unfold falsehood_side, holds. rewrite scalarProduct_empty.
  rewrite orb_true_iff, !andb_true_iff, !Z.leb_le, is_neg_spec, is_pos_spec.
  intros [[Hs Hr]|[Hs Hr]].
  - destruct (sense <? 0) eqn:E.
    + apply not_true_iff_false. rewrite le_spec. apply Qlt_not_le, Hr.
    + assert (sense = 0) as -> by (apply Z.ltb_ge in E; lia).
      simpl. apply not_true_iff_false. rewrite mpq_equal_eq.
      intros ->. revert Hr. apply Qlt_irrefl.
  - destruct (sense <? 0) eqn:E; [apply Z.ltb_lt in E; lia|].
    destruct (0 <? sense) eqn:E2.
    + apply not_true_iff_false. rewrite ge_spec. apply Qlt_not_le, Hr.
    + apply not_true_iff_false. rewrite mpq_equal_eq.
      intros ->. revert Hr. apply Qlt_irrefl.
Qed.

Lemma implies_side_holds a b v x :
  implies_side a b = true →
  holds (_sense a) (_rhs a) v x = true → holds (_sense b) (_rhs b) v x = true.
Proof.
  unfold implies_side, holds. set (prod := scalarProduct v x).
  rewrite !orb_true_iff, !andb_true_iff.
  rewrite !Z.ltb_lt, !Z.leb_le, !Z.eqb_eq, ge_spec, le_spec, mpq_equal_eq.
  intros [[((Hb & Ha) & Hr)|((Hb & Ha) & Hr)]|((Hb & Ha) & Hr)] H.
  - destruct (_sense b <? 0) eqn:E1; [apply Z.ltb_lt in E1; lia|].
    destruct (0 <? _sense b) eqn:E2; [|apply Z.ltb_ge in E2; lia].
    apply ge_spec.
    destruct (_sense a <? 0) eqn:E3; [apply Z.ltb_lt in E3; lia|].
    destruct (0 <? _sense a) eqn:E4.
    + apply ge_spec in H. eapply Qle_trans; eassumption.
    + apply mpq_equal_eq in H. rewrite <- H. exact Hr.
  - destruct (_sense b <? 0) eqn:E1; [|apply Z.ltb_ge in E1; lia].
    apply le_spec.
    destruct (_sense a <? 0) eqn:E3.
    + apply le_spec in H. eapply Qle_trans; eassumption.
    + destruct (0 <? _sense a) eqn:E4; [apply Z.ltb_lt in E4; lia|].
      apply mpq_equal_eq in H. rewrite <- H. exact Hr.
  - rewrite Ha, Hb in *. simpl in *. rewrite <- Hr. exact H.
Qed.

(** [Constraint::dominates] is sound: when [a.dominates(b)] returns true on
    two constraints with the invariant of the constructor, every point that
    satisfies [a] satisfies [b]. *)
Theorem dominates_sound s a b x :
  constructed s a → constructed s b →
  returns (dominates a b) s true →
  satisfied s a x → satisfied s b x.
Proof.
  intros (va & Ha & Hca & Hfa) (vb & Hb & Hcb & Hfb) Hd (v & Hv & Hx).
  rewrite Ha in Hv. injection Hv as <-.
  pose proof (dominates_constructed s a b va vb Ha Hb Hca Hcb) as R.
  apply (returns_inj _ _ _ _ Hd) in R. symmetry in R.
  destruct (_falsehood a) eqn:Fa.
  - destruct (decide (va = ∅)) as [->|]; [|discriminate].
    symmetry in Hfa. rewrite (falsehood_holds _ _ x Hfa) in Hx. discriminate.
  - simpl in R. apply andb_true_iff in R as [E S].
    apply bool_decide_eq_true in E. subst vb.
    exists va. split; [exact Hb|]. eapply implies_side_holds; eassumption.
Qed.

Lemma Qred_den_1 q : Qden q = 1%positive → Qden (Qred q) = 1%positive.
Proof.
  intros H. rewrite Qred_identity; [exact H|].
  rewrite H. apply Z.gcd_1_r.
Qed.

Lemma isInteger_add a b :
  isInteger a = true → isInteger b = true → isInteger (add a b) = true.
Proof.
  rewrite !isInteger_den. intros Ha Hb. unfold add. apply Qred_den_1.
  destruct a as [n d], b as [n' d']; simpl in *. subst. reflexivity.
Qed.

Lemma isInteger_mul a b :
  isInteger a = true → isInteger b = true → isInteger (mul a b) = true.
Proof.
  rewrite !isInteger_den. intros Ha Hb. unfold mul. apply Qred_den_1.
  destruct a as [n d], b as [n' d']; simpl in *. subst. reflexivity.
Qed.

Lemma scalarProduct_integer (u x : SVectorGMP) :
  (∀ k a, u !! k = Some a → isInteger a = true) →
  integral_on u x →
  isInteger (scalarProduct u x) = true.
Proof.
  intros Hu Hx. unfold scalarProduct.
  assert (Hes : ∀ e, e ∈ entries u → u !! e.1 = Some e.2).
  { intros [k a] H. apply elem_of_entries in H. exact H. }
  assert (H0 : isInteger 0 = true) by reflexivity.
  revert Hes H0. generalize (0:Q). induction (entries u) as [|[k a] es IH];
    intros acc Hes Hacc; simpl; [exact Hacc|].
  apply IH.
  - intros e He. apply Hes. right. exact He.
  - pose proof (Hes (k, a) ltac:(left)) as Hk. simpl in Hk.
    destruct (x !! k) as [b|] eqn:Hb; [|exact Hacc].
    apply isInteger_add; [exact Hacc|].
    apply isInteger_mul; [eapply Hu, Hk|eapply Hx; eassumption].
Qed.

Lemma integer_le_floor p r :
  isInteger p = true → (p <= r)%Q → (p <= floor r)%Q.
Proof.
  rewrite isInteger_den. destruct p as [n d]; simpl. intros -> H.
  unfold floor. change (n # 1)%Q with (inject_Z n) in *.
  rewrite <- Zle_Qle. rewrite <- (Qfloor_Z n). apply Qfloor_resp_le, H.
Qed.

Lemma integer_ge_ceil p r :
  isInteger p = true → (r <= p)%Q → (ceil r <= p)%Q.
Proof.
  rewrite isInteger_den. destruct p as [n d]; simpl. intros -> H.
  unfold ceil. change (n # 1)%Q with (inject_Z n) in *.
  rewrite <- Zle_Qle. rewrite <- (Qceiling_Z n). apply Qceiling_resp_le, H.
Qed.

Lemma forallb_entries (f : Z * Q → bool) (v : SVectorGMP) :
  forallb f (entries v) = true ↔ ∀ k a, v !! k = Some a → f (k, a) = true.
Proof.
  rewrite forallb_forall. split.
  - intros H k a Hk. apply H, list_elem_of_In, elem_of_entries, Hk.
  - intros H [k a] Hin. apply H, elem_of_entries, list_elem_of_In, Hin.
Qed.

(** [Constraint::round] is sound on integer variables: if every variable
    with a stored coefficient is an integer variable, [round] succeeds, and
    the point [x] has integer values on these variables, then [x] satisfies
    the rounded constraint whenever it satisfies the constraint. *)
Theorem round_sound s c c' v x :
  coefs s c = Some v →
  (∀ k a, v !! k = Some a → vec_at (isInt s) k = Some true) →
  integral_on v x →
  returns (round c) s (true, c') →
  satisfied s c x → satisfied s c' x.
Proof.
  intros Hv Hint Hx [s' Hr] (v' & Hv' & Hh).
  rewrite Hv in Hv'. injection Hv' as <-.
  rewrite (round_spec s c v Hv) in Hr.
  2:{ intros j a Hj. rewrite (Hint j a Hj). eauto. }
  destruct (forallb _ _) eqn:Hall; [|discriminate].
  injection Hr as <- _.
  assert (Hcoef : ∀ k a, v !! k = Some a → isInteger a = true).
  { intros k a Hk. rewrite forallb_entries in Hall.
    specialize (Hall k a Hk). unfold round_admits in Hall. simpl in Hall.
    rewrite (Hint k a Hk) in Hall. exact Hall. }
  pose proof (scalarProduct_integer v x Hcoef Hx) as Hp.
  exists v. split.
  - unfold rounded, coefs in *. destruct (_sense c <? 0); [exact Hv|].
    destruct (0 <? _sense c); exact Hv.
  - unfold rounded, holds in *.
    destruct (_sense c <? 0) eqn:E1; simpl; [rewrite E1|].
    + apply le_spec. apply le_spec in Hh. apply integer_le_floor; assumption.
    + destruct (0 <? _sense c) eqn:E2; simpl; rewrite E1, E2.
      * apply ge_spec. apply ge_spec in Hh. apply integer_ge_ceil; assumption.
      * exact Hh.
Qed.

Lemma set_heap_id s : set_heap (heap s) s = s.
Proof. destruct s; reflexivity. Qed.

Lemma store_id s p v : heap s !! p = Some v → store p v s = Done tt s.
Proof.
  intros H. rewrite store_run, insert_id by exact H.
  rewrite set_heap_id. reflexivity.
Qed.

Lemma deref_Done p s v s' :
  deref p s = Done v s' ↔ ∃ a, p = Some a ∧ heap s !! a = Some v ∧ s' = s.
Proof.
  unfold deref. rewrite bind_Done. split.
  - intros (s0 & s1 & Hg & H). apply get_Done in Hg as [-> ->].
    apply lift_Done in H as [H ->]. destruct p as [a|]; [|discriminate].
    simpl in H. eauto.
  - intros (a & -> & H & ->). exists s, s. split; [reflexivity|].
    apply lift_Done. simpl. auto.
Qed.

(** On a heap of compact vectors the comparison of two vectors decides their
    equality and writes nothing. *)
Lemma svec_eq_at_compact s p1 p2 b s' :
  compact_heap s →
  svec_eq_at p1 p2 s = Done b s' →
  s' = s ∧ ∃ a1 a2 v1 v2,
    p1 = Some a1 ∧ p2 = Some a2 ∧ heap s !! a1 = Some v1
    ∧ heap s !! a2 = Some v2 ∧ b = bool_decide (v1 = v2).
Proof.
  intros Hc H. unfold svec_eq_at in H.
  apply bind_Done in H as (v1 & s1 & H1 & H).
  apply deref_Done in H1 as (a1 & -> & Hv1 & ->).
  apply bind_Done in H as (v2 & s1 & H2 & H).
  apply deref_Done in H2 as (a2 & -> & Hv2 & ->).
  simpl in H. unfold bind at 1 in H. simpl in H. unfold bind at 1 in H.
  simpl in H.
  rewrite (svec_neq_compact v1 v2 (Hc _ _ Hv1) (Hc _ _ Hv2)) in H.
  rewrite (bind_eq _ _ _ _ _ (store_id s a1 v1 Hv1)) in H.
  rewrite (bind_eq _ _ _ _ _ (store_id s a2 v2 Hv2)) in H.
  apply ret_Done in H as [<- <-]. rewrite negb_involutive.
  split; [reflexivity|]. exists a1, a2, v1, v2. auto.
Qed.

Lemma dominates_compact s a b r s' :
  compact_heap s → dominates a b s = Done r s' → s' = s.
Proof.
  intros Hc H. unfold dominates in H.
  destruct (_falsehood a); [apply ret_Done in H as [_ <-]; reflexivity|].
  apply bind_Done in H as (same & s1 & Hs & H).
  apply svec_eq_at_compact in Hs as [-> _]; [|exact Hc].
  apply ret_Done in H as [_ <-]. reflexivity.
Qed.

Lemma unsplit_integrality_true isInt es :
  unsplit_integrality isInt es = Some true →
  ∀ e, e ∈ es → vec_at isInt e.1 = Some true ∧ isInteger e.2 = true.
Proof.
  induction es as [|[j a] es IH]; intros H e He; [inversion He|].
  simpl in H. destruct (vec_at isInt j) as [[]|] eqn:Ej; try discriminate.
  simpl in H. destruct (isInteger a) eqn:Ea; [|discriminate]. simpl in H.
  apply elem_of_cons in He as [->|He]; [auto|]. apply IH; assumption.
Qed.

Lemma sense_product s1 s2 :
  s1 * s2 = -1 → (s1 = -1 ∧ s2 = 1) ∨ (s1 = 1 ∧ s2 = -1).
Proof.
  intros H. assert (H1 : s1 * - s2 = 1) by lia.
  apply Z.eq_mul_1 in H1 as [->| ->]; lia.
Qed.

(** What [canUnsplit] has checked of the two assumptions when it returns
    true. *)
Lemma canUnsplit_branches toDer con1 a1 con2 a2 s al s' :
  compact_heap s →
  canUnsplit toDer con1 a1 con2 a2 s = Done (true, al) s' →
  ∃ b1 b2 v,
    vec_at (constraint s) a1 = Some b1
    ∧ vec_at (constraint s) a2 = Some b2
    ∧ coefs s b1 = Some v ∧ coefs s b2 = Some v
    ∧ ((_sense b1 = -1 ∧ _sense b2 = 1
        ∧ add (_rhs b1) 1 = _rhs b2)
       ∨ (_sense b1 = 1 ∧ _sense b2 = -1
          ∧ _rhs b1 = add (_rhs b2) 1))
    ∧ ∀ k a, v !! k = Some a →
             vec_at (isInt s) k = Some true ∧ isInteger a = true.
Proof.
  intros Hc H. unfold canUnsplit in H.
  apply bind_Done in H as (s0 & s1 & Hget & H).
  apply get_Done in Hget as [-> ->].
  apply bind_Done in H as (c1 & s1 & H1 & H). apply lift_Done in H1 as [H1 ->].
  apply bind_Done in H as (c2 & s1 & H2 & H). apply lift_Done in H2 as [H2 ->].
  apply bind_Done in H as (b1 & s1 & H3 & H). apply lift_Done in H3 as [H3 ->].
  apply bind_Done in H as (b2 & s1 & H4 & H). apply lift_Done in H4 as [H4 ->].
  exists b1, b2.
  destruct (_trashed c1); [apply ret_Done in H as [[=] _]|].
  destruct (_trashed c2); [apply ret_Done in H as [[=] _]|].
  apply bind_Done in H as (d1 & s1 & Hd1 & H).
  apply dominates_compact in Hd1 as ->; [|exact Hc].
  apply bind_Done in H as (d2 & s2 & Hd2 & H).
  assert (s2 = s) as ->.
  { destruct d1; [eapply dominates_compact; eassumption|].
    apply ret_Done in Hd2 as [_ <-]. reflexivity. }
  destruct (d1 && d2); [|apply ret_Done in H as [[=] _]].
  cbv zeta in H.
  destruct (_trashed b1); [apply ret_Done in H as [[=] _]|].
  destruct (negb (-1 =? _sense b1 * _sense b2)) eqn:Es;
    [apply ret_Done in H as [[=] _]|].
  apply negb_false_iff, Z.eqb_eq in Es. symmetry in Es.
  apply sense_product in Es.
  destruct (negb _) eqn:Er; [apply ret_Done in H as [[=] _]|].
  apply negb_false_iff in Er.
  apply bind_Done in H as (same & s3 & Hsame & H).
  destruct same; [|apply ret_Done in H as [[=] _]].
  apply bind_Done in H as (v & s4 & Hv & H).
  apply deref_Done in Hv as (p1 & Hp1 & Hv & ->).
  apply bind_Done in H as (ok & s5 & Hok & H).
  apply lift_Done in Hok as [Hok ->].
  apply ret_Done in H as [[= -> _] _].
  assert (s3 = s ∧ coefs s b2 = Some v) as [-> Hb2].
  { destruct (bool_decide (_coefficients b1 = _coefficients b2)) eqn:Ep.
    - apply ret_Done in Hsame as [_ <-]. apply bool_decide_eq_true in Ep.
      split; [reflexivity|]. unfold coefs. rewrite <- Ep, Hp1. exact Hv.
    - apply svec_eq_at_compact in Hsame
        as [-> (q1 & q2 & w1 & w2 & Hq1 & Hq2 & Hw1 & Hw2 & Hb)];
        [|exact Hc].
      split; [reflexivity|]. symmetry in Hb. apply bool_decide_eq_true in Hb.
      subst w2. unfold coefs. rewrite Hq2. simpl. rewrite Hw2.
      rewrite Hp1 in Hq1. injection Hq1 as <-. congruence. }
  exists v. split; [exact H3|]. split; [exact H4|].
  split; [unfold coefs; rewrite Hp1; exact Hv|]. split; [exact Hb2|]. split.
  - destruct Es as [[E1 E2]|[E1 E2]]; rewrite E1 in Er; simpl in Er;
      apply mpq_equal_eq in Er; [left|right]; auto.
  - intros k a Hk.
    apply (unsplit_integrality_true _ _ Hok (k, a)), elem_of_entries, Hk.
Qed.

Lemma integer_dichotomy p r :
  isInteger p = true → isInteger r = true →
  (p <= r)%Q ∨ (add r 1 <= p)%Q.
Proof.
  rewrite !isInteger_den. destruct p as [n d], r as [m e]; simpl.
  intros -> ->. unfold add. rewrite Qred_correct.
  unfold Qle, Qplus; simpl. lia.
Qed.

(** Two constraints over the same integer vector, [<= r] and [>= r + 1]
    with an integer [r], leave no integer point out. *)
Lemma branches_cover s b1 b2 (v x : SVectorGMP) :
  coefs s b1 = Some v → coefs s b2 = Some v →
  (_sense b1 = -1 ∧ _sense b2 = 1 ∧ add (_rhs b1) 1 = _rhs b2)
  ∨ (_sense b1 = 1 ∧ _sense b2 = -1 ∧ _rhs b1 = add (_rhs b2) 1) →
  (∀ k a, v !! k = Some a → isInteger a = true) →
  integral_on v x →
  isInteger (_rhs b1) = true →
  satisfied s b1 x ∨ satisfied s b2 x.
Proof.
  intros Hv1 Hv2 Hs Hint Hx Hr.
  assert (Hp : isInteger (scalarProduct v x) = true).
  { apply scalarProduct_integer; assumption. }
  unfold satisfied. rewrite Hv1, Hv2.
  destruct Hs as [(E1 & E2 & Er)|(E1 & E2 & Er)].
  - destruct (integer_dichotomy _ _ Hp Hr) as [Hle|Hge].
    + left. exists v. split; [reflexivity|]. unfold holds. rewrite E1. simpl.
      apply le_spec, Hle.
    + right. exists v. split; [reflexivity|]. unfold holds. rewrite E2. simpl.
      apply ge_spec. rewrite <- Er. exact Hge.
  - assert (Hr2 : (_rhs b1 == _rhs b2 + 1)%Q).
    { rewrite Er. unfold add. apply Qred_correct. }
    assert (Hd : (scalarProduct v x <= _rhs b2)%Q
                 ∨ (_rhs b1 <= scalarProduct v x)%Q).
    { apply isInteger_den in Hp, Hr.
      destruct (scalarProduct v x) as [n d], (_rhs b1) as [m e],
               (_rhs b2) as [m2 e2]; simpl in *. subst.
      unfold Qeq, Qle, Qplus in *; simpl in *. nia. }
    destruct Hd as [Hle|Hge].
    + right. exists v. split; [reflexivity|]. unfold holds. rewrite E2. simpl.
      apply le_spec, Hle.
    + left. exists v. split; [reflexivity|]. unfold holds. rewrite E1. simpl.
      apply ge_spec, Hge.
Qed.

(** The two assumptions that [canUnsplit] accepts form a disjunction: on a
    heap of compact vectors, when [canUnsplit] returns true and the
    right-hand side of the first assumption is an integer, every point with
    integer values on the variables of the assumptions satisfies the first
    assumption or the second. *)
Theorem unsplit_disjunction toDer con1 a1 con2 a2 s al s' b1 x :
  compact_heap s →
  canUnsplit toDer con1 a1 con2 a2 s = Done (true, al) s' →
  vec_at (constraint s) a1 = Some b1 →
  isInteger (_rhs b1) = true →
  (∀ v, coefs s b1 = Some v → integral_on v x) →
  ∃ b2, vec_at (constraint s) a2 = Some b2
        ∧ (satisfied s b1 x ∨ satisfied s b2 x).
Proof.
  intros Hc H Hb1 Hr Hx.
  destruct (canUnsplit_branches _ _ _ _ _ _ _ _ Hc H)
    as (b1' & b2 & v & H1 & H2 & Hv1 & Hv2 & Hs & Hint).
  rewrite Hb1 in H1. injection H1 as <-.
  exists b2. split; [exact H2|].
  apply (branches_cover s b1 b2 v x Hv1 Hv2 Hs); [|apply Hx, Hv1|exact Hr].
  intros k a Hk. apply (Hint k a Hk).
Qed.

#[local] Hint Resolve heap_only_ret heap_only_stuck heap_only_lift
  heap_only_get heap_only_deref heap_only_store heap_only_make_shared
  heap_only_read_pairs heap_only_readConstraintCoefficients
  heap_only_readConstraint heap_only_Constraint_new heap_only_svec_eq_at
  heap_only_dominates heap_only_canUnsplit : heap_only.

(** What the first part of [derive] leaves when the step is accepted. *)
Lemma derive_inv NDEBUG l s toDer s' :
  derive NDEBUG l s = Done (Some toDer) s' →
  ∃ sense coef toDer0 s3 al,
    globals s3 = globals s
    ∧ constructed s3 toDer0
    ∧ _isAssumption toDer0 = is_Asm (dl_reason l)
    ∧ _assumptionList toDer0 = ∅
    ∧ _sense toDer0 = sense
    ∧ _rhs toDer0 = cl_rhs (dl_con l)
    ∧ _coefficients toDer0 = Some coef
    ∧ derive_reason NDEBUG l toDer0 sense coef
                    (Z.of_nat (length (constraint s))) s3
      = Done (true, al) s'
    ∧ toDer = setMaxRefIdx (dl_refIdx l) (setassumptionList al toDer0).
Proof.
  intros H. unfold derive in H.
  apply bind_Done in H as (p & s1 & Hp & H).
  apply heap_only_make_shared in Hp.
  apply bind_Done in H as ([[[ok sense] coef] eqObj] & s2 & Hrd & H).
  apply heap_only_readConstraint in Hrd.
  destruct ok; [|apply ret_Done in H as [[=] _]]. simpl negb in H. cbv iota in H.
  destruct (negb (String.eqb _ _)); [apply ret_Done in H as [[=] _]|].
  apply bind_Done in H as (toDer0 & s3 & Hnew & H).
  pose proof (heap_only_Constraint_new _ _ _ _ _ _ _ _ _ Hnew) as Hg3.
  pose proof (Constraint_new_constructed _ _ _ _ _ _ _ _ _ Hnew) as Hcon.
  assert (Hfields : _isAssumption toDer0 = is_Asm (dl_reason l)
                    ∧ _assumptionList toDer0 = ∅
                    ∧ _sense toDer0 = sense
                    ∧ _rhs toDer0 = cl_rhs (dl_con l)
                    ∧ _coefficients toDer0 = Some coef
                    ∧ _coefsEqualObj toDer0 = false).
  { unfold Constraint_new in Hnew.
    apply bind_Done in Hnew as (v & t1 & _ & Hnew).
    apply bind_Done in Hnew as (u & t2 & _ & Hnew).
    apply bind_Done in Hnew as (f & t3 & _ & Hnew).
    apply ret_Done in Hnew as [<- _]. simpl. auto 10. }
  destruct Hfields as (F1 & F2 & F3 & F4 & F5 & F6).
  apply bind_Done in H as (s3' & s3'' & Hget & H).
  apply get_Done in Hget as [-> ->].
  apply bind_Done in H as ([acc al] & s4 & Hd & H).
  destruct acc; [|apply ret_Done in H as [[=] _]].
  apply ret_Done in H as [[= <-] <-].
  assert (Hcs : constraint s3 = constraint s).
  { apply globals_constraint. congruence. }
  rewrite Hcs in Hd.
  set (toDer1 := if eqObj then markObjectiveCoefficients toDer0 else toDer0)
    in *.
  exists sense, coef, toDer1, s3, al.
  assert (Hsame : _isAssumption toDer1 = _isAssumption toDer0
                  ∧ _assumptionList toDer1 = _assumptionList toDer0
                  ∧ _sense toDer1 = _sense toDer0
                  ∧ _rhs toDer1 = _rhs toDer0
                  ∧ _coefficients toDer1 = _coefficients toDer0
                  ∧ _falsehood toDer1 = _falsehood toDer0).
  { unfold toDer1. destruct eqObj; simpl; auto 10. }
  destruct Hsame as (G1 & G2 & G3 & G4 & G5 & G6).
  split; [congruence|]. split.
  { destruct Hcon as (v & Hv & Hc & Hf). exists v.
    unfold coefs in *. rewrite G5, G3, G4, G6. auto. }
  repeat split; try congruence; exact Hd.
Qed.

(** An accepted [asm] step depends on itself: its assumption list is its own
    index, it is marked as an assumption, it keeps the reference index of
    its line, and its reason was closed by a bracket. *)
Theorem assumption_scope NDEBUG l s toDer s' :
  dl_reason l = Asm_tok →
  derive NDEBUG l s = Done (Some toDer) s' →
  _assumptionList toDer = {[ Z.of_nat (length (constraint s)) ]}
  ∧ _isAssumption toDer = true
  ∧ _refIdx toDer = dl_refIdx l
  ∧ dl_close l = "}"%string.
Proof.
  intros Hr H.
  apply derive_inv in H
    as (sense & coef & toDer0 & s3 & al & _ & _ & Ha & _ & _ & _ & _ & Hd & ->).
  unfold derive_reason in Hd. rewrite Hr in Hd.
  apply ret_Done in Hd as [[= Hc <-] _]. simpl.
  rewrite Ha, Hr. repeat split. apply String.eqb_eq, Hc.
Qed.

Lemma mult_loop_nonneg NDEBUG terms : ∀ sense mult s sense' mult' s',
  mult_loop NDEBUG terms sense mult s = Done (true, sense', mult') s' →
  Forall (λ t : Z * Q, 0 ≤ t.1) terms.
Proof.
  induction terms as [|[index a] terms IH]; intros sense mult s sense' mult' s' H;
    [constructor|].
  simpl in H. destruct (index <? 0) eqn:E; [apply ret_Done in H as [[=] _]|].
  apply Z.ltb_ge in E. constructor; [exact E|].
  destruct (is_zero a); [eapply IH, H|].
  apply bind_Done in H as (s0 & s1 & Hg & H). apply get_Done in Hg as [-> ->].
  destruct (negb NDEBUG && _); [apply ret_Done in H as [[=] _]|].
  apply bind_Done in H as (con & s1 & _ & H).
  apply bind_Done in H as (u & s2 & _ & H).
  destruct (sense =? 0); [eapply IH, H|].
  destruct (negb _ && negb _); [apply ret_Done in H as [[=] _]|].
  eapply IH, H.
Qed.

(** In a build without [NDEBUG] the loop also tests the upper end. *)
Lemma mult_loop_below terms : ∀ sense mult s sense' mult' s',
  mult_loop false terms sense mult s = Done (true, sense', mult') s' →
  Forall (λ t : Z * Q, is_zero t.2 = false →
                       t.1 < Z.of_nat (length (constraint s))) terms.
Proof.
  induction terms as [|[index a] terms IH]; intros sense mult s sense' mult' s' H;
    [constructor|].
  simpl in H. destruct (index <? 0) eqn:E; [apply ret_Done in H as [[=] _]|].
  destruct (is_zero a) eqn:Ea.
  { constructor; [simpl; congruence|]. eapply IH, H. }
  apply bind_Done in H as (s0 & s1 & Hg & H). apply get_Done in Hg as [-> ->].
  simpl in H.
  destruct (Z.of_nat (length (constraint s)) <=? index) eqn:El;
    [apply ret_Done in H as [[=] _]|].
  apply Z.leb_gt in El. constructor; [intros _; exact El|].
  apply bind_Done in H as (con & s1 & Hcon & H).
  apply lift_Done in Hcon as [_ ->].
  apply bind_Done in H as (u & s2 & Hu & H).
  assert (s2 = s) as ->.
  { apply bind_Done in Hu as (w & s3 & Hw & Hu).
    apply deref_Done in Hw as (? & _ & _ & ->).
    apply ret_Done in Hu as [_ <-]. reflexivity. }
  destruct (sense =? 0); [eapply IH, H|].
  destruct (negb _ && negb _); [apply ret_Done in H as [[=] _]|].
  eapply IH, H.
Qed.

Lemma derive_lin_multipliers NDEBUG rnd terms bracket toDer idx s al s' :
  derive_lin NDEBUG rnd terms bracket toDer idx s = Done (true, al) s' →
  ∃ sense mult s1 s2,
    globals s1 = globals s
    ∧ readMultipliers NDEBUG terms s1 = Done (true, sense, mult) s2.
Proof.
  intros H. unfold derive_lin in H.
  apply bind_Done in H as (p & s1 & Hp & H).
  apply heap_only_make_shared in Hp.
  apply bind_Done in H as ([[[ok sense] rhs] al'] & s2 & Hl & H).
  destruct ok; [|apply ret_Done in H as [[=] _]].
  unfold readLinComb in Hl.
  apply bind_Done in Hl as ([[ok' sn] mult] & s3 & Hm & Hl).
  destruct ok'; [|apply ret_Done in Hl as [[=] _]].
  exists sn, mult, s1, s3. auto.
Qed.

(** What an accepted step cites.  In a [lin] or [rnd] step no index is
    negative, and in a build without [NDEBUG] every index with a multiplier
    other than 0 is below the number of constraints read so far.  In an
    [uns] step the two constraints [con1] and [con2] are constraints read so
    far.  A step with an unknown reason is never accepted. *)
Theorem accepted_citations NDEBUG l s toDer s' :
  derive NDEBUG l s = Done (Some toDer) s' →
  let n := Z.of_nat (length (constraint s)) in
  match dl_reason l with
  | Lin_tok terms | Rnd_tok terms =>
      Forall (λ t : Z * Q, 0 ≤ t.1) terms
      ∧ (NDEBUG = false →
         Forall (λ t : Z * Q, is_zero t.2 = false → t.1 < n) terms)
  | Uns_tok con1 asm1 con2 asm2 => 0 ≤ con1 < n ∧ 0 ≤ con2 < n
  | Other_tok _ => False
  | Asm_tok | Sol_tok => True
  end.
Proof.
  intros H n.
  apply derive_inv in H
    as (sense & coef & toDer0 & s3 & al & Hg & _ & _ & _ & _ & _ & _ & Hd & _).
  unfold derive_reason in Hd.
  assert (Hlin : ∀ rnd terms,
    derive_lin NDEBUG rnd terms (dl_close l) toDer0
               (Z.of_nat (length (constraint s))) s3 = Done (true, al) s' →
    Forall (λ t : Z * Q, 0 ≤ t.1) terms
    ∧ (NDEBUG = false →
       Forall (λ t : Z * Q, is_zero t.2 = false → t.1 < n) terms)).
  { intros rnd terms Hl.
    apply derive_lin_multipliers in Hl as (sn & mult & s1 & s2 & Hg1 & Hm).
    split; [eapply mult_loop_nonneg, Hm|].
    intros ->. apply mult_loop_below in Hm.
    replace (constraint s1) with (constraint s) in Hm; [exact Hm|].
    symmetry. apply globals_constraint. congruence. }
  destruct (dl_reason l) as [|terms|terms|con1 asm1 con2 asm2| |kind].
  - exact I.
  - eapply Hlin, Hd.
  - eapply Hlin, Hd.
  - destruct ((con1 <? 0) || (_ <=? con1)) eqn:E1;
      [apply ret_Done in Hd as [[=] _]|].
    destruct ((con2 <? 0) || (_ <=? con2)) eqn:E2;
      [apply ret_Done in Hd as [[=] _]|].
    apply orb_false_iff in E1 as [E1 E1'], E2 as [E2 E2'].
    apply Z.ltb_ge in E1, E2. apply Z.leb_gt in E1', E2'. unfold n. lia.
  - exact I.
  - apply ret_Done in Hd as [[=] _].
Qed.

Section Keeps.
Context {X : Type} (f : State → X).

Lemma keeps_ret {A} (a : A) : keeps f (ret a).
Proof. intros s x s' [= _ <-]. reflexivity. Qed.

Lemma keeps_stuck {A} : keeps f (@stuck A).
Proof. intros s x s' [=]. Qed.

Lemma keeps_lift {A} (o : option A) : keeps f (lift o).
Proof. destruct o; [apply keeps_ret|apply keeps_stuck]. Qed.

Lemma keeps_get : keeps f get.
Proof. intros s x s' [= _ <-]. reflexivity. Qed.

Lemma keeps_bind {A B} (m : M A) (k : A → M B) :
  keeps f m → (∀ a, keeps f (k a)) → keeps f (bind m k).
Proof.
  intros Hm Hk s b s' H. apply bind_Done in H as (a & s1 & H1 & H2).
  rewrite (Hk a _ _ _ H2). exact (Hm _ _ _ H1).
Qed.

Lemma keeps_modify (g : State → State) :
  (∀ s, f (g s) = f s) → keeps f (modify g).
Proof. intros Hg s x s' [= ?]. subst s'. apply Hg. Qed.

End Keeps.

Create HintDb kept.

(** A part of the state that depends neither on the vectors, nor on the
    list of constraints, nor on the solutions found: [SOL] and [DER] leave
    it as it is. *)
Section Kept.
Context {X : Type} (f : State → X).
Hypothesis f_globals : ∀ s s', globals s' = globals s → f s' = f s.
Hypothesis f_constraint : ∀ cs s, f (set_constraint cs s) = f s.
Hypothesis f_best : ∀ v s, f (set_best v s) = f s.
Hypothesis f_solutions : ∀ n s, f (set_numberOfSolutions n s) = f s.

Lemma kept_heap_only {A} (m : M A) : heap_only m → keeps f m.
Proof. intros Hm s a s' H. apply f_globals, (Hm _ _ _ H). Qed.

#[local] Hint Resolve keeps_ret keeps_stuck keeps_lift keeps_get : kept.
#[local] Hint Extern 1 (keeps f (deref _)) =>
  apply kept_heap_only, heap_only_deref : kept.
#[local] Hint Extern 1 (keeps f (store _ _)) =>
  apply kept_heap_only, heap_only_store : kept.
#[local] Hint Extern 1 (keeps f make_shared) =>
  apply kept_heap_only, heap_only_make_shared : kept.
#[local] Hint Extern 1 (keeps f (readConstraintCoefficients _ _)) =>
  apply kept_heap_only, heap_only_readConstraintCoefficients : kept.
#[local] Hint Extern 1 (keeps f (readConstraint _ _)) =>
  apply kept_heap_only, heap_only_readConstraint : kept.
#[local] Hint Extern 1 (keeps f (Constraint_new _ _ _ _ _ _)) =>
  apply kept_heap_only, heap_only_Constraint_new : kept.
#[local] Hint Extern 1 (keeps f (dominates _ _)) =>
  apply kept_heap_only, heap_only_dominates : kept.
#[local] Hint Extern 1 (keeps f (canUnsplit _ _ _ _ _)) =>
  apply kept_heap_only, heap_only_canUnsplit : kept.

Ltac kept :=
  repeat first
    [ progress eauto with kept
    | apply keeps_bind; [|intros ?]
    | match goal with
      | |- keeps _ (if ?b then _ else _) => destruct b
      | |- keeps _ (match ?x with _ => _ end) => destruct x
      | |- keeps _ (let '(_, _) := ?x in _) => destruct x
      end ].

Lemma kept_sol_constraints x js : keeps f (sol_constraints x js).
Proof.
  induction js as [|j js IH]; simpl; [kept|].
  apply keeps_bind; [kept|intros s0].
  apply keeps_bind; [kept|intros con].
  apply keeps_bind; [unfold satisfies; kept|intros ok].
  destruct ok; [exact IH|kept].
Qed.

Lemma kept_update_best first value :
  keeps f (modify (update_best first value)).
Proof.
  apply keeps_modify. intros s. unfold update_best.
  destruct first; [apply f_best|].
  destruct (isMin s && _); [apply f_best|].
  destruct (negb (isMin s) && _); [apply f_best|reflexivity].
Qed.

Lemma kept_sol_loop sols : ∀ first p, keeps f (sol_loop sols first p).
Proof.
  induction sols as [|[label tok] sols IH]; intros first p; simpl; [kept|].
  apply keeps_bind; [kept|intros [[ok p'] eq]].
  destruct (negb ok); [kept|].
  apply keeps_bind; [kept|intros x].
  apply keeps_bind; [kept|intros s0].
  apply keeps_bind; [kept|intros integral].
  destruct (negb integral); [kept|].
  apply keeps_bind; [apply kept_sol_constraints|intros sat].
  destruct (negb sat); [kept|].
  apply keeps_bind; [kept|intros obj].
  apply keeps_bind; [apply kept_update_best|intros _]. apply IH.
Qed.

Lemma kept_processSOL sols : keeps f (processSOL sols).
Proof.
  unfold processSOL.
  apply keeps_bind; [apply keeps_modify, f_solutions|intros _].
  apply keeps_bind; [kept|intros p].
  apply keeps_bind; [apply kept_sol_loop|intros ok]. kept.
Qed.

Lemma kept_set_constraint_at index c :
  keeps f (modify (set_constraint_at index c)).
Proof. apply keeps_modify. intros s. apply f_constraint. Qed.

Lemma kept_lincomb_loop p idx ms : ∀ r rhs al,
  keeps f (lincomb_loop p idx ms r rhs al).
Proof.
  induction ms as [|[index a] ms IH]; intros r rhs al; simpl; [kept|].
  apply keeps_bind; [kept|intros s0].
  apply keeps_bind; [kept|intros con].
  destruct (_trashed con); [apply IH|].
  apply keeps_bind; [kept|intros c].
  apply keeps_bind; [kept|intros v].
  apply keeps_bind; [kept|intros _].
  apply keeps_bind; [|intros _; apply IH].
  destruct (_ && _); [apply kept_set_constraint_at|kept].
Qed.

Lemma kept_mult_loop NDEBUG terms : ∀ sense mult,
  keeps f (mult_loop NDEBUG terms sense mult).
Proof.
  induction terms as [|[index a] terms IH]; intros sense mult; simpl; [kept|].
  destruct (index <? 0); [kept|].
  destruct (is_zero a); [apply IH|].
  apply keeps_bind; [kept|intros s0].
  destruct (negb NDEBUG && _); [kept|].
  apply keeps_bind; [kept|intros con].
  apply keeps_bind; [destruct NDEBUG; kept|intros _].
  destruct (sense =? 0); [apply IH|].
  destruct (negb _ && negb _); [kept|apply IH].
Qed.

Lemma kept_derive NDEBUG l : keeps f (derive NDEBUG l).
Proof.
  unfold derive.
  apply keeps_bind; [kept|intros p].
  apply keeps_bind; [kept|intros [[[ok sense] coef] eq]].
  destruct (negb ok); [kept|].
  destruct (negb (String.eqb _ _)); [kept|].
  apply keeps_bind; [kept|intros toDer].
  apply keeps_bind; [kept|intros s0].
  apply keeps_bind; [|intros [acc al]; kept].
  assert (Hlin : ∀ rnd terms c,
    keeps f (derive_lin NDEBUG rnd terms (dl_close l) c
               (Z.of_nat (length (constraint s0))))).
  { intros rnd terms c. unfold derive_lin.
    apply keeps_bind; [kept|intros q].
    apply keeps_bind.
    { unfold readLinComb.
      apply keeps_bind; [apply kept_mult_loop|intros [[ok' sn] mult]].
      destruct (negb ok'); [kept|].
      apply keeps_bind; [kept|intros _].
      apply keeps_bind; [apply kept_lincomb_loop|intros [[r rhs] al]].
      kept. }
    intros [[[ok' sn] rhs] al].
    destruct (negb ok'); [kept|]. destruct (negb _); [kept|].
    apply keeps_bind; [kept|intros derived].
    apply keeps_bind.
    { destruct rnd; [|kept]. unfold round. kept. }
    intros [rounded derived']. destruct (negb rounded); [kept|].
    apply keeps_bind; [kept|intros d].
    apply keeps_bind.
    { destruct (negb d); [|kept]. unfold Constraint_canonicalize. kept. }
    intros _. kept. }
  unfold derive_reason.
  destruct (dl_reason l); try apply Hlin; try (unfold derive_sol; kept).
Qed.

Lemma kept_commit last toDer : keeps f (commit last toDer).
Proof.
  unfold commit, push_constraint.
  apply keeps_bind; [apply keeps_modify; intros s; apply f_constraint|intros _].
  apply keeps_bind; [kept|intros s0].
  apply keeps_bind; [kept|intros proved].
  destruct proved; [kept|].
  apply keeps_bind; [|intros _; kept].
  destruct (_ && _); [|kept].
  apply keeps_modify. intros s. apply f_constraint.
Qed.

End Kept.





Lemma commit_proved last toDer s b s' :
  commit last toDer s = Done (Some b) s' →
  b = true ∧ _assumptionList toDer = ∅
  ∧ (relationToProveType s = INFEAS → _falsehood toDer = true)
  ∧ (relationToProveType s = RANGE → _coefsEqualObj toDer = true).
Proof.
  intros H. unfold commit in H.
  apply bind_Done in H as (u & s1 & Hp & H).
  assert (Ht : relationToProveType s1 = relationToProveType s).
  { unfold push_constraint in Hp. injection Hp as Hp. subst s1. reflexivity. }
  apply bind_Done in H as (s0 & s2 & Hg & H). apply get_Done in Hg as [-> ->].
  apply bind_Done in H as (proved & s2 & Hpr & H).
  destruct proved.
  2:{ apply bind_Done in H as (u' & s3 & _ & H).
      apply ret_Done in H as [[=] _]. }
  apply ret_Done in H as [[= <-] _]. split; [reflexivity|].
  destruct (bool_decide (_assumptionList toDer = ∅)) eqn:Ea;
    [|apply ret_Done in Hpr as [[=] _]].
  apply bool_decide_eq_true in Ea. split; [exact Ea|].
  rewrite <- Ht.
  destruct (relationToProveType s1); simpl in Hpr.
  - destruct (_falsehood toDer); [|apply ret_Done in Hpr as [[=] _]].
    split; [reflexivity|discriminate].
  - destruct (_coefsEqualObj toDer); [|apply ret_Done in Hpr as [[=] _]].
    split; [discriminate|reflexivity].
Qed.


Lemma stage_OKAY (m : M bool) (k : M ViprStatus) s s' :
  (ok <- m ;; if negb ok then ret ERROR else k) s = Done OKAY s' →
  ∃ s1, m s = Done true s1 ∧ k s1 = Done OKAY s'.
Proof.
  intros H. apply bind_Done in H as ([] & s1 & Hm & H); simpl in H.
  - eauto.
  - apply ret_Done in H as [[=] _].
Qed.

Lemma verdict_Some {A} (r : result A) a :
  verdict r = Some a → ∃ s, r = Done a s.
Proof. destruct r; [intros [= ->]; eauto|discriminate]. Qed.


Lemma dot_list_perm es es' x :
  es ≡ₚ es' → (dot_list es x == dot_list es' x)%Q.
Proof.
  induction 1 as [|e l l' _ IH|e e' l|l l' l'' _ IH1 _ IH2]; simpl.
  - reflexivity.
  - rewrite IH. reflexivity.
  - ring.
  - rewrite IH1. exact IH2.
Qed.

Lemma scalarProduct_fold es x : ∀ acc,
  (fold_left (λ product e,
                match x !! e.1 with
                | Some b => add product (mul e.2 b)
                | None => product
                end) es acc == acc + dot_list es x)%Q.
Proof.
  induction es as [|[k a] es IH]; intros acc; simpl.
  - ring.
  - rewrite IH. unfold value. simpl. destruct (x !! k) as [b|]; simpl.
    + unfold add, mul. rewrite !Qred_correct. ring.
    + ring.
Qed.

Lemma scalarProduct_dot u x : (scalarProduct u x == dot u x)%Q.
Proof.
  unfold scalarProduct, dot. rewrite scalarProduct_fold.
  rewrite (dot_list_perm (entries u) (map_to_list u)).
  - ring.
  - unfold entries. apply merge_sort_Permutation.
Qed.

Lemma dot_empty x : dot ∅ x = 0%Q.
Proof. unfold dot. rewrite map_to_list_empty. reflexivity. Qed.

Lemma dot_insert_fresh (m : SVectorGMP) k y x :
  m !! k = None → (dot (<[k := y]> m) x == y * value x k + dot m x)%Q.
Proof.
  intros H. unfold dot.
  rewrite (dot_list_perm _ _ x (map_to_list_insert m k y H)). reflexivity.
Qed.

Lemma dot_insert (m : SVectorGMP) k y x :
  (dot (<[k := y]> m) x == dot m x + (y - value m k) * value x k)%Q.
Proof.
  destruct (m !! k) as [a|] eqn:E.
  - assert (Hm : (dot m x == a * value x k + dot (delete k m) x)%Q).
    { rewrite <- (insert_delete_id m k a E) at 1.
      apply dot_insert_fresh, lookup_delete_eq. }
    assert (Hv : value m k = a) by (unfold value; rewrite E; reflexivity).
    rewrite Hv, Hm. rewrite <- insert_delete_eq.
    rewrite dot_insert_fresh by apply lookup_delete_eq. ring.
  - assert (Hv : value m k = 0%Q) by (unfold value; rewrite E; reflexivity).
    rewrite Hv. rewrite dot_insert_fresh by exact E. ring.
Qed.

Lemma add_scaled_fold a es x : ∀ v : SVectorGMP,
  (dot (fold_left (λ acc e,
                     <[e.1 := add (default (0:Q) (acc !! e.1)) (mul a e.2)]> acc)
                  es v) x
   == dot v x + a * dot_list es x)%Q.
Proof.
  induction es as [|[k c] es IH]; intros v; simpl.
  - ring.
  - rewrite IH, dot_insert. unfold value at 1. unfold add, mul.
    rewrite !Qred_correct. ring.
Qed.

(** [add_scaled] adds [a] times the scalar product. *)
Lemma dot_add_scaled a c v x :
  (dot (add_scaled a c v) x == dot v x + a * dot c x)%Q.
Proof.
  unfold add_scaled. rewrite add_scaled_fold.
  rewrite (dot_list_perm (entries c) (map_to_list c)); [reflexivity|].
  unfold entries. apply merge_sort_Permutation.
Qed.

Lemma holds_rel sense rhs v x :
  holds sense rhs v x = true → rel sense (dot v x) rhs.
Proof.
  unfold holds, rel. pose proof (scalarProduct_dot v x) as E.
  destruct (sense <? 0); [rewrite le_spec, <- E; auto|].
  destruct (0 <? sense); [rewrite ge_spec, <- E; auto|].
  intros H%mpq_equal_eq. rewrite <- E, <- H. reflexivity.
Qed.

Lemma rel_proper sense l l' r r' :
  (l == l')%Q → (r == r')%Q → rel sense l r → rel sense l' r'.
Proof.
  unfold rel. intros Hl Hr.
  destruct (sense <? 0); [|destruct (0 <? sense)]; rewrite Hl, Hr; auto.
Qed.

Lemma sgn_Q a :
  (sgn a = 0 ∧ (a == 0)%Q) ∨ (sgn a = 1 ∧ (0 < a)%Q)
  ∨ (sgn a = -1 ∧ (a < 0)%Q).
Proof.
  unfold sgn, Qeq, Qlt. destruct a as [[|n|n] d]; simpl; auto.
  - right; left. split; [reflexivity|lia].
  - right; right. split; [reflexivity|lia].
Qed.

Lemma rel_step sense csense l r a cl cr :
  rel sense l r → rel csense cl cr →
  csense * sgn a = 0 ∨ csense * sgn a = sense →
  rel sense (l + a * cl) (r + a * cr).
Proof.
  unfold rel. intros Hl Hc Hs.
  destruct (sense <? 0) eqn:S1; [|destruct (0 <? sense) eqn:S2];
    (destruct (csense <? 0) eqn:C1; [|destruct (0 <? csense) eqn:C2]);
    rewrite ?Z.ltb_lt, ?Z.ltb_ge in *;
    destruct (sgn_Q a) as [[Es Ea]|[[Es Ea]|[Es Ea]]]; rewrite Es in Hs;
    first [exfalso; lia | nra].
Qed.

Lemma scalarProduct_canonical u x : Qred (scalarProduct u x) = scalarProduct u x.
Proof.
  unfold scalarProduct.
  assert (H0 : Qred 0 = 0%Q) by reflexivity. revert H0. generalize (0:Q).
  induction (entries u) as [|[k a] es IH]; intros acc Hacc; simpl; [exact Hacc|].
  apply IH. destruct (x !! k); [|exact Hacc]. apply Qred_involutive.
Qed.

Lemma rel_holds sense rhs v x :
  Qred rhs = rhs → rel sense (dot v x) rhs → holds sense rhs v x = true.
Proof.
  unfold holds, rel. pose proof (scalarProduct_dot v x) as E. intros Hc.
  destruct (sense <? 0); [rewrite le_spec, E; auto|].
  destruct (0 <? sense); [rewrite ge_spec, E; auto|].
  intros H. apply mpq_equal_eq.
  rewrite <- Hc, <- (scalarProduct_canonical v x).
  apply Qred_complete. rewrite E. symmetry. exact H.
Qed.

Lemma mult_loop_state NDEBUG terms : ∀ sense mult s r s',
  mult_loop NDEBUG terms sense mult s = Done r s' → s' = s.
Proof.
  induction terms as [|[index a] terms IH]; intros sense mult s r s' H;
    simpl in H.
  - apply ret_Done in H as [_ <-]. reflexivity.
  - destruct (index <? 0); [apply ret_Done in H as [_ <-]; reflexivity|].
    destruct (is_zero a); [eapply IH, H|].
    apply bind_Done in H as (s0 & s1 & Hg & H). apply get_Done in Hg as [-> ->].
    destruct (negb NDEBUG && _); [apply ret_Done in H as [_ <-]; reflexivity|].
    apply bind_Done in H as (con & s1 & Hcon & H).
    apply lift_Done in Hcon as [_ ->].
    apply bind_Done in H as (u & s2 & Hu & H).
    assert (s2 = s) as ->.
    { destruct NDEBUG; [apply ret_Done in Hu as [_ <-]; reflexivity|].
      apply bind_Done in Hu as (w & s3 & Hw & Hu).
      apply deref_Done in Hw as (? & _ & _ & ->).
      apply ret_Done in Hu as [_ <-]. reflexivity. }
    destruct (sense =? 0); [eapply IH, H|].
    destruct (negb _ && negb _); [apply ret_Done in H as [_ <-]; reflexivity|].
    eapply IH, H.
Qed.

Lemma sign_ok_insert s sense mult i a con :
  sign_ok s sense mult → vec_at (constraint s) i = Some con →
  _sense con * sgn a = 0 ∨ _sense con * sgn a = sense →
  sign_ok s sense (<[i := a]> mult).
Proof.
  intros H Hc Hs j b Hj. destruct (decide (j = i)) as [->|Hne].
  - rewrite lookup_insert_eq in Hj. injection Hj as <-. eauto.
  - rewrite lookup_insert_ne in Hj by congruence. eauto.
Qed.

Lemma sign_ok_zero s sense mult : sign_ok s 0 mult → sign_ok s sense mult.
Proof.
  intros H i a Hi. destruct (H i a Hi) as (con & Hc & Hs).
  exists con. split; [exact Hc|]. left. destruct Hs; assumption.
Qed.

Lemma mult_loop_signs NDEBUG terms : ∀ sense mult s sense' mult' s',
  sign_ok s sense mult →
  mult_loop NDEBUG terms sense mult s = Done (true, sense', mult') s' →
  sign_ok s sense' mult'.
Proof.
  induction terms as [|[index a] terms IH];
    intros sense mult s sense' mult' s' Hok H; simpl in H.
  - apply ret_Done in H as [[= <- <-] _]. exact Hok.
  - destruct (index <? 0); [apply ret_Done in H as [[=] _]|].
    destruct (is_zero a); [eapply IH; eassumption|].
    apply bind_Done in H as (s0 & s1 & Hg & H). apply get_Done in Hg as [-> ->].
    destruct (negb NDEBUG && _); [apply ret_Done in H as [[=] _]|].
    apply bind_Done in H as (con & s1 & Hcon & H).
    apply lift_Done in Hcon as [Hcon ->].
    apply bind_Done in H as (u & s2 & Hu & H).
    assert (s2 = s) as ->.
    { destruct NDEBUG; [apply ret_Done in Hu as [_ <-]; reflexivity|].
      apply bind_Done in Hu as (w & s3 & Hw & Hu).
      apply deref_Done in Hw as (? & _ & _ & ->).
      apply ret_Done in Hu as [_ <-]. reflexivity. }
    destruct (sense =? 0) eqn:E0.
    + apply Z.eqb_eq in E0. subst sense.
      eapply IH; [|exact H].
      apply sign_ok_insert with con; [apply sign_ok_zero, Hok|exact Hcon|auto].
    + destruct (negb (_ =? 0) && negb (sense =? _)) eqn:Et;
        [apply ret_Done in H as [[=] _]|].
      eapply IH; [|exact H].
      apply sign_ok_insert with con; [exact Hok|exact Hcon|].
      apply andb_false_iff in Et as [Et|Et]; apply negb_false_iff, Z.eqb_eq in Et;
        auto.
Qed.

Lemma vec_at_Some {A} (l : list A) i a : vec_at l i = Some a → 0 ≤ i.
Proof. unfold vec_at. destruct (0 <=? i) eqn:E; [lia|discriminate]. Qed.

Lemma vec_at_insert_ne {A} (l : list A) index i c :
  0 ≤ index → i ≠ index →
  vec_at (<[Z.to_nat index := c]> l) i = vec_at l i.
Proof.
  intros H0 Hne. unfold vec_at. destruct (0 <=? i) eqn:E; [|reflexivity].
  apply list_lookup_insert_ne. lia.
Qed.

Lemma lincomb_loop_false p idx ms : ∀ rhs al s r' rhs' al' s',
  lincomb_loop p idx ms false rhs al s = Done (r', rhs', al') s' → r' = false.
Proof.
  induction ms as [|[index a] ms IH]; intros rhs al s r' rhs' al' s' H;
    simpl in H.
  - apply ret_Done in H as [[= <- _ _] _]. reflexivity.
  - apply bind_Done in H as (s0 & s1 & Hg & H). apply get_Done in Hg as [-> ->].
    apply bind_Done in H as (con & s1 & _ & H).
    destruct (_trashed con); [eapply IH, H|].
    apply bind_Done in H as (c & s2 & _ & H).
    apply bind_Done in H as (v & s3 & _ & H).
    apply bind_Done in H as (u & s4 & _ & H).
    apply bind_Done in H as (u' & s5 & _ & H).
    eapply IH, H.
Qed.

Lemma lincomb_loop_sound x p idx sense ms : ∀ rhs al s v rhs' al' s',
  lincomb_loop p idx ms true rhs al s = Done (true, rhs', al') s' →
  NoDup ms.*1 →
  Forall (cited_ok x p sense s) ms →
  heap s !! p = Some v → rel sense (dot v x) rhs → Qred rhs = rhs →
  ∃ v', heap s' !! p = Some v' ∧ rel sense (dot v' x) rhs' ∧ Qred rhs' = rhs'.
Proof.
  induction ms as [|[index a] ms IH];
    intros rhs al s v rhs' al' s' H Hnd Hall Hv Hrel Hcan; simpl in H.
  - apply ret_Done in H as [[= <- _] <-]. eauto.
  - apply bind_Done in H as (s0 & s1 & Hg & H). apply get_Done in Hg as [-> ->].
    apply bind_Done in H as (con & s1 & Hcon & H).
    apply lift_Done in Hcon as [Hcon ->].
    destruct (_trashed con) eqn:Etr.
    { apply lincomb_loop_false in H. discriminate. }
    apply Forall_cons in Hall as [Hhd Hall].
    destruct (Hhd con Hcon Etr) as (Hsign & q & c & Hq & Hqp & Hc & Hholds).
    simpl in Hsign.
    apply bind_Done in H as (c' & s2 & Hd & H).
    apply deref_Done in Hd as (q' & Hq' & Hc' & ->).
    assert (q' = q) as -> by congruence. assert (c' = c) as -> by congruence.
    apply bind_Done in H as (v' & s2 & Hd & H).
    apply deref_Done in Hd as (p' & [= <-] & Hv' & ->).
    assert (v' = v) as -> by congruence.
    apply bind_Done in H as (u & s2 & Hst & H).
    rewrite store_run in Hst. injection Hst as Hst. subst s2.
    apply bind_Done in H as (u' & s3 & Htr & H).
    simpl in Hnd. apply NoDup_cons in Hnd as [Hnotin Hnd].
    pose proof (vec_at_Some _ _ _ Hcon) as Hidx0.
    assert (Hs3 : heap s3 = <[p := add_scaled a c v]> (heap s)
                  ∧ ∀ i, i ≠ index →
                         vec_at (constraint s3) i = vec_at (constraint s) i).
    { destruct (_ && _).
      - injection Htr as Htr. subst s3. split; [reflexivity|].
        intros i Hi. simpl. apply vec_at_insert_ne; assumption.
      - apply ret_Done in Htr as [_ <-]. split; reflexivity. }
    destruct Hs3 as [Hheap Hcs].
    eapply (IH _ _ s3 (add_scaled a c v)); [exact H|exact Hnd| | | |].
    + apply Forall_forall. intros [i b] Hin.
      rewrite Forall_forall in Hall. specialize (Hall (i, b) Hin).
      assert (Hne : i ≠ index).
      { intros ->. apply Hnotin. apply list_elem_of_fmap.
        exists (index, b). auto. }
      intros con' Hcon' Htr'. simpl in Hcon'. rewrite (Hcs i Hne) in Hcon'.
      destruct (Hall con' Hcon' Htr') as (Hs' & r & w & Hr & Hrp & Hw & Hh).
      split; [exact Hs'|]. exists r, w. rewrite Hheap.
      rewrite lookup_insert_ne by congruence. auto.
    + rewrite Hheap. apply lookup_insert_eq.
    + eapply rel_proper;
        [symmetry; apply dot_add_scaled
        |unfold add, mul; rewrite !Qred_correct; reflexivity|].
      apply rel_step with (_sense con); [exact Hrel| |exact Hsign].
      apply holds_rel, Hholds.
    + apply Qred_involutive.
Qed.

Lemma entries_NoDup (m : SVectorGMP) : NoDup (entries m).*1.
Proof.
  unfold entries. rewrite merge_sort_Permutation.
  apply NoDup_fst_map_to_list.
Qed.

Lemma readLinComb_inv NDEBUG terms p idx s sense rhs al s' :
  readLinComb NDEBUG terms p idx s = Done (true, sense, rhs, al) s' →
  ∃ mult,
    readMultipliers NDEBUG terms s = Done (true, sense, mult) s
    ∧ lincomb_loop p idx (entries mult) true 0 ∅
                   (set_heap (<[p := ∅]> (heap s)) s)
      = Done (true, rhs, al) s'.
Proof.
  intros H. unfold readLinComb in H.
  apply bind_Done in H as ([[ok sn] mult] & s1 & Hm & H).
  pose proof (mult_loop_state _ _ _ _ _ _ _ Hm) as ->.
  destruct ok; [|apply ret_Done in H as [[=] _]]. simpl in H.
  apply bind_Done in H as (u & s2 & Hst & H).
  rewrite store_run in Hst. injection Hst as Hst. subst s2.
  apply bind_Done in H as ([[r rhs0] al0] & s3 & Hl & H).
  apply ret_Done in H as [[= -> -> -> ->] ->].
  exists mult. auto.
Qed.


Lemma is_zero_Qeq a : is_zero a = true → (a == 0)%Q.
Proof. unfold is_zero, Qeq. intros H%Z.eqb_eq. rewrite H. reflexivity. Qed.

Lemma value_compactify v k : (value (compactify v) k == value v k)%Q.
Proof.
  unfold value, compactify. rewrite map_lookup_filter.
  destruct (v !! k) as [a|]; simpl; [|reflexivity].
  destruct (is_zero a) eqn:E.
  - rewrite option_guard_False by (simpl; congruence). simpl.
    symmetry. apply is_zero_Qeq, E.
  - rewrite option_guard_True by (simpl; congruence). reflexivity.
Qed.

Lemma dot_list_filter es x :
  (dot_list (filter (λ kv : Z * Q, is_zero kv.2 = false) es) x
   == dot_list es x)%Q.
Proof.
  induction es as [|[k a] es IH]; simpl; [reflexivity|].
  destruct (is_zero a) eqn:E.
  - rewrite filter_cons_False by (simpl; congruence).
    rewrite IH. apply is_zero_Qeq in E. rewrite E. ring.
  - rewrite filter_cons_True by (simpl; congruence). simpl. rewrite IH.
    reflexivity.
Qed.

Lemma map_to_list_compactify (v : SVectorGMP) :
  map_to_list (compactify v)
  ≡ₚ filter (λ kv : Z * Q, is_zero kv.2 = false) (map_to_list v).
Proof.
  apply NoDup_Permutation.
  - apply NoDup_map_to_list.
  - apply NoDup_filter, NoDup_map_to_list.
  - intros [k a]. unfold compactify.
    rewrite elem_of_map_to_list, map_lookup_filter_Some,
            list_elem_of_filter, elem_of_map_to_list.
    simpl. tauto.
Qed.

Lemma dot_compactify v x : (dot (compactify v) x == dot v x)%Q.
Proof.
  unfold dot.
  rewrite (dot_list_perm _ _ x (map_to_list_compactify v)).
  apply dot_list_filter.
Qed.

(** [SVectorGMP::compactify] removes the stored zeros and nothing else: the
    result stores no zero, compactifying it again changes nothing, every
    entry keeps its value (0 for an index that is not stored), and so does
    the scalar product with any vector. *)
Theorem compactify_spec v :
  compact (compactify v)
  ∧ compactify (compactify v) = compactify v
  ∧ (∀ k, (value (compactify v) k == value v k)%Q)
  ∧ ∀ x, (scalarProduct (compactify v) x == scalarProduct v x)%Q.
Proof.
  split; [apply compactify_compact|].
  split; [apply compact_compactify, compactify_compact|].
  split; [apply value_compactify|].
  intros x. rewrite !scalarProduct_dot. apply dot_compactify.
Qed.

(** [SVectorGMP::operator!=].  On two compact vectors it returns false
    exactly when they are equal, and changes neither.  On two vectors of
    different sizes it compactifies both operands, which stay so after the
    call, and compares the results. *)
Theorem vector_inequality cf1 cf2 :
  (compact cf1 ∧ compact cf2 →
   svec_neq cf1 cf2 = (negb (bool_decide (cf1 = cf2)), cf1, cf2))
  ∧ (size cf1 ≠ size cf2 →
     svec_neq cf1 cf2
     = (negb (bool_decide (compactify cf1 = compactify cf2)),
        compactify cf1, compactify cf2)).
Proof.
  split.
  - intros [H1 H2]. apply svec_neq_compact; assumption.
  - intros Hne.
    rewrite <- (svec_neq_compact (compactify cf1) (compactify cf2))
      by apply compactify_compact.
    unfold svec_neq. apply Nat.eqb_neq in Hne. rewrite Hne. simpl.
    rewrite !(compact_compactify (compactify _))
      by apply compactify_compact.
    destruct (size (compactify cf1) =? size (compactify cf2))%nat eqn:E;
      simpl; rewrite ?E; reflexivity.
Qed.

Lemma in_range_test n index a :
  (index <? 0) || (n <=? index) = negb (in_range n (index, a)).
Proof.
  unfold in_range. simpl.
  destruct (index <? 0) eqn:E1, (n <=? index) eqn:E2,
           (0 <=? index) eqn:E3, (index <? n) eqn:E4;
    try reflexivity; lia.
Qed.

Lemma read_pairs_run p pairs : ∀ s v,
  heap s !! p = Some v →
  ∃ s1, read_pairs p pairs s
        = Done (forallb (in_range (numberOfVariables s)) pairs) s1
        ∧ globals s1 = globals s
        ∧ allocated s1 = allocated s
        ∧ (∀ q, q ≠ p → heap s1 !! q = heap s !! q)
        ∧ is_Some (heap s1 !! p)
        ∧ (forallb (in_range (numberOfVariables s)) pairs = true →
           heap s1 !! p = Some (assign pairs v)).
Proof.
  induction pairs as [|[index a] pairs IH]; intros s v Hv.
  - exists s. simpl. repeat split; eauto.
  - simpl. unfold bind at 1. simpl. rewrite (in_range_test _ index a).
    destruct (in_range (numberOfVariables s) (index, a)) eqn:Ein; simpl.
    2:{ exists s. split; [reflexivity|]. split; [reflexivity|].
        split; [reflexivity|]. split; [reflexivity|].
        split; [eauto|discriminate]. }
    rewrite (bind_eq _ _ _ _ _ (deref_run s p v Hv)).
    rewrite (bind_eq _ _ _ _ _ (store_run s p _)).
    destruct (IH (set_heap (<[p := <[index := a]> v]> (heap s)) s)
                 (<[index := a]> v))
      as (s1 & Hrun & Hg & Ha & Hq & Hp & Hok).
    { simpl. apply lookup_insert_eq. }
    exists s1. split; [exact Hrun|]. split; [exact Hg|]. split; [exact Ha|].
    split; [|split; [exact Hp|exact Hok]].
    intros q Hne. rewrite (Hq q Hne). simpl.
    apply lookup_insert_ne. congruence.
Qed.

(** Reading a list of pairs into a vector. *)
Lemma readConstraintCoefficients_Vec p pairs s :
  is_Some (heap s !! p) →
  ∃ s1, readConstraintCoefficients p (Vec_tok pairs) s
        = Done (forallb (in_range (numberOfVariables s)) pairs, p, false) s1
        ∧ globals s1 = globals s
        ∧ allocated s1 = allocated s
        ∧ (∀ q, q ≠ p → heap s1 !! q = heap s !! q)
        ∧ is_Some (heap s1 !! p)
        ∧ (forallb (in_range (numberOfVariables s)) pairs = true →
           heap s1 !! p = Some (vector_of pairs)).
Proof.
  intros [v0 Hv0]. unfold readConstraintCoefficients.
  rewrite (bind_eq _ _ _ _ _ (deref_run s p v0 Hv0)).
  rewrite (bind_eq _ _ _ _ _ (store_run s p ∅)).
  destruct (read_pairs_run p pairs (set_heap (<[p := ∅]> (heap s)) s) ∅)
    as (s1 & Hrun & Hg & Ha & Hq & Hp & Hok).
  { simpl. apply lookup_insert_eq. }
  rewrite (bind_eq _ _ _ _ _ Hrun). simpl numberOfVariables in *.
  destruct (forallb _ pairs) eqn:Eall.
  - specialize (Hok eq_refl).
    rewrite (bind_eq _ _ _ _ _ (deref_run s1 p _ Hok)).
    rewrite (bind_eq _ _ _ _ _ (store_run s1 p _)).
    eexists. split; [reflexivity|]. simpl.
    split; [exact Hg|]. split; [exact Ha|]. split; [|split].
    + intros q Hne. rewrite lookup_insert_ne by congruence.
      rewrite (Hq q Hne). simpl. apply lookup_insert_ne. congruence.
    + rewrite lookup_insert_eq. eauto.
    + intros _. apply lookup_insert_eq.
  - exists s1. split; [reflexivity|]. split; [exact Hg|]. split; [exact Ha|].
    split; [|split; [exact Hp|discriminate]].
    intros q Hne. rewrite (Hq q Hne). simpl. apply lookup_insert_ne. congruence.
Qed.

(** [readConstraintCoefficients] on a list of pairs returns true exactly
    when every index is the index of a variable.  It touches no other
    vector, and on success the vector read is the one the pairs describe:
    what the vector held before is gone, a later pair overwrites an earlier
    one, and no zero is stored. *)
Theorem coefficient_indices_checked p pairs s ok p' eqObj s' :
  readConstraintCoefficients p (Vec_tok pairs) s = Done (ok, p', eqObj) s' →
  ok = forallb (in_range (numberOfVariables s)) pairs
  ∧ p' = p ∧ eqObj = false
  ∧ (∀ q, q ≠ p → heap s' !! q = heap s !! q)
  ∧ (ok = true → heap s' !! p = Some (vector_of pairs)).
Proof.
  intros H.
  assert (Hp : is_Some (heap s !! p)).
  { unfold readConstraintCoefficients in H.
    apply bind_Done in H as (v & s1 & Hd & _).
    apply deref_Done in Hd as (a & [= <-] & Hv & _). eauto. }
  destruct (readConstraintCoefficients_Vec p pairs s Hp)
    as (s1 & Hrun & _ & _ & Hq & _ & Hok).
  rewrite Hrun in H. injection H as <- <- <- <-. auto.
Qed.

Lemma mark_integers_spec indices : ∀ v v',
  mark_integers v indices = Some v' →
  length v' = length v
  ∧ Forall (λ i, 0 ≤ i < Z.of_nat (length v)) indices
  ∧ ∀ i b, vec_at v i = Some b →
           vec_at v' i = Some (b || bool_decide (i ∈ indices)).
Proof.
  induction indices as [|index indices IH]; intros v v' H; simpl in H.
  - injection H as <-. split; [reflexivity|]. split; [constructor|].
    intros i b Hi. rewrite Hi, orb_false_r. reflexivity.
  - destruct (vec_at v index) as [b0|] eqn:E; [|discriminate].
    destruct (IH _ _ H) as (Hlen & Hall & Hmark).
    rewrite length_insert in Hlen, Hall.
    assert (Hidx : 0 ≤ index < Z.of_nat (length v)).
    { pose proof (vec_at_Some _ _ _ E). unfold vec_at in E.
      destruct (0 <=? index); [|discriminate].
      apply lookup_lt_Some in E. lia. }
    split; [exact Hlen|]. split; [constructor; assumption|].
    intros i b Hi. destruct (decide (i = index)) as [->|Hne].
    + rewrite (Hmark index true).
      * rewrite (bool_decide_eq_true_2 (index ∈ index :: indices))
          by left.
        rewrite orb_true_r. reflexivity.
      * unfold vec_at. destruct (0 <=? index) eqn:E0; [|lia].
        apply list_lookup_insert_eq. lia.
    + rewrite (Hmark i b).
      * f_equal. f_equal. apply bool_decide_ext. rewrite elem_of_cons. tauto.
      * rewrite vec_at_insert_ne by lia. exact Hi.
Qed.

(** [processINT] marks the listed variables and no others: when it
    returns, it returns true, [isInt] has one entry for every variable, every
    listed index is the index of a variable, and [isInt[i]] is true exactly
    for the listed [i]. *)
Theorem integer_marks indices s ok s' :
  processINT indices s = Done ok s' →
  ok = true
  ∧ length (isInt s') = length (variable s)
  ∧ Forall (λ i, 0 ≤ i < Z.of_nat (length (variable s))) indices
  ∧ ∀ i, 0 ≤ i < Z.of_nat (length (variable s)) →
         vec_at (isInt s') i = Some (bool_decide (i ∈ indices)).
Proof.
  intros H. unfold processINT in H.
  apply bind_Done in H as (s0 & s1 & Hg & H). apply get_Done in Hg as [-> ->].
  apply bind_Done in H as (v & s1 & Hm & H). apply lift_Done in Hm as [Hm ->].
  apply bind_Done in H as (u & s1 & Hmod & H).
  injection Hmod as Hmod. subst s1.
  apply ret_Done in H as [<- <-]. split; [reflexivity|]. simpl.
  apply mark_integers_spec in Hm as (Hlen & Hall & Hmark).
  rewrite length_replicate in Hlen, Hall.
  split; [exact Hlen|]. split; [exact Hall|].
  intros i Hi. rewrite (Hmark i false); [reflexivity|].
  unfold vec_at. destruct (0 <=? i) eqn:E; [|lia].
  apply lookup_replicate. split; [reflexivity|lia].
Qed.

Lemma integral_loop_spec isInt es : ∀ acc b,
  integral_loop isInt es acc = Some b →
  b = acc && forallb (λ e : Z * Q,
                        isInteger e.2
                        && bool_decide (vec_at isInt e.1 = Some true)) es.
Proof.
  induction es as [|[j a] es IH]; intros acc b H; simpl in H.
  - injection H as <-. simpl. rewrite andb_true_r. reflexivity.
  - simpl. destruct (isInteger a); simpl in *.
    + destruct (vec_at isInt j) as [[]|] eqn:E; [| |discriminate];
        rewrite (IH _ _ H); simpl; rewrite ?andb_false_r; reflexivity.
    + rewrite (IH _ _ H). simpl. rewrite andb_false_r. reflexivity.
Qed.

(** [processOBJ] on an objective given by pairs: the objective vector is the
    one the pairs describe, [isMin] tells [min] from [max], and
    [objectiveIntegral] is true exactly when every stored coefficient is an
    integer on an integer variable. *)
Theorem objective_integrality obj pairs s s' :
  obj.2 = Vec_tok pairs →
  processOBJ obj s = Done true s' →
  heap s' !! objPtr = Some (vector_of pairs)
  ∧ isMin s' = String.eqb obj.1 "min"
  ∧ (objectiveIntegral s' = true ↔
       ∀ k a, vector_of pairs !! k = Some a →
              isInteger a = true ∧ vec_at (isInt s) k = Some true).
Proof.
  intros Hobj H. unfold processOBJ in H. rewrite Hobj in H.
  assert (Hgo : ∀ min,
    (r <- readConstraintCoefficients objPtr (Vec_tok pairs) ;;
     let '(returnStatement, _, _) := r in
     v <- deref (Some objPtr) ;;
     s <- get ;;
     integral <- lift (integral_loop (isInt s) (entries v) true) ;;
     modify (set_objective min integral) ;;;
     ret returnStatement) s = Done true s' →
    heap s' !! objPtr = Some (vector_of pairs)
    ∧ isMin s' = min
    ∧ (objectiveIntegral s' = true ↔
         ∀ k a, vector_of pairs !! k = Some a →
                isInteger a = true ∧ vec_at (isInt s) k = Some true)).
  { clear H. intros min H.
    apply bind_Done in H as ([[ok p'] eq] & s1 & Hrd & H).
    assert (Hp : is_Some (heap s !! objPtr)).
    { unfold readConstraintCoefficients in Hrd.
      apply bind_Done in Hrd as (v & t & Hd & _).
      apply deref_Done in Hd as (a & [= <-] & Hv & _). eauto. }
    destruct (readConstraintCoefficients_Vec objPtr pairs s Hp)
      as (t & Hrun & Hg & _ & _ & _ & Hok).
    rewrite Hrun in Hrd. injection Hrd as <- <- <- <-.
    apply bind_Done in H as (v & s2 & Hd & H).
    apply deref_Done in Hd as (a & [= <-] & Hv & ->).
    apply bind_Done in H as (s0 & s2 & Hget & H).
    apply get_Done in Hget as [-> ->].
    apply bind_Done in H as (integral & s2 & Hi & H).
    apply lift_Done in Hi as [Hi ->].
    apply bind_Done in H as (u & s2 & Hmod & H).
    injection Hmod as Hmod. subst s2.
    apply ret_Done in H as [Hall <-]. specialize (Hok Hall).
    rewrite Hok in Hv. injection Hv as <-. simpl.
    split; [exact Hok|]. split; [reflexivity|].
    apply integral_loop_spec in Hi. simpl in Hi. rewrite Hi.
    assert (Hisint : isInt t = isInt s).
    { unfold globals in Hg. injection Hg as _ _ _ Hg _ _ _ _ _ _ _ _ _ _ _.
      exact Hg. }
    rewrite Hisint, forallb_entries. split.
    - intros Hf k a Hk. specialize (Hf k a Hk). simpl in Hf.
      apply andb_true_iff in Hf as [H1 H2].
      apply bool_decide_eq_true in H2. auto.
    - intros Hf k a Hk. destruct (Hf k a Hk) as [H1 H2]. simpl.
      rewrite H1, bool_decide_eq_true_2 by exact H2. reflexivity. }
  destruct (String.eqb obj.1 "min") eqn:Emin; [apply Hgo, H|].
  destruct (String.eqb obj.1 "max"); [apply Hgo, H|].
  apply ret_Done in H as [[=] _].
Qed.

Lemma sol_integrality_true isInt es :
  sol_integrality isInt es = Some true →
  ∀ e, e ∈ es → vec_at isInt e.1 = Some true → isInteger e.2 = true.
Proof.
  induction es as [|[j a] es IH]; intros H e He Hj; [inversion He|].
  simpl in H. destruct (vec_at isInt j) as [b|] eqn:Ej; [|discriminate].
  destruct (b && negb (isInteger a)) eqn:Eb; [discriminate|].
  apply elem_of_cons in He as [->|He]; [|apply IH; assumption].
  simpl in *. rewrite Ej in Hj. injection Hj as ->. simpl in Eb.
  apply negb_false_iff in Eb. exact Eb.
Qed.

Lemma satisfies_Done con x s b s' :
  satisfies con x s = Done b s' →
  s' = s ∧ ∃ q u v, _coefficients con = Some q ∧ heap s !! q = Some u
                    ∧ heap s !! x = Some v
                    ∧ b = holds (_sense con) (_rhs con) u v.
Proof.
  intros H. unfold satisfies in H.
  apply bind_Done in H as (u & s1 & Hu & H).
  apply deref_Done in Hu as (q & Hq & Hu & ->).
  apply bind_Done in H as (v & s1 & Hv & H).
  apply deref_Done in Hv as (x' & [= <-] & Hv & ->).
  apply ret_Done in H as [<- <-]. split; [reflexivity|].
  exists q, u, v. auto.
Qed.

Lemma sol_constraints_true x js : ∀ s s',
  sol_constraints x js s = Done true s' →
  s' = s ∧ ∀ j, j ∈ js →
    ∃ con q u v, vec_at (constraint s) j = Some con
                 ∧ _coefficients con = Some q ∧ heap s !! q = Some u
                 ∧ heap s !! x = Some v
                 ∧ holds (_sense con) (_rhs con) u v = true.
Proof.
  induction js as [|j js IH]; intros s s' H; simpl in H.
  - apply ret_Done in H as [_ <-]. split; [reflexivity|]. intros j Hj.
    inversion Hj.
  - apply bind_Done in H as (s0 & s1 & Hg & H). apply get_Done in Hg as [-> ->].
    apply bind_Done in H as (con & s1 & Hc & H). apply lift_Done in Hc as [Hc ->].
    apply bind_Done in H as (ok & s1 & Hs & H).
    apply satisfies_Done in Hs as [-> (q & u & v & Hq & Hu & Hv & ->)].
    destruct (holds _ _ u v) eqn:Eh; [|apply ret_Done in H as [[=] _]].
    destruct (IH _ _ H) as [-> Hrest]. split; [reflexivity|].
    intros j' [->|Hj']%elem_of_cons; [|apply Hrest, Hj'].
    exists con, q, u, v. auto.
Qed.

Lemma globals_sol_frame p s t t1 :
  sol_frame p s t → globals t1 = globals t →
  (∀ q, q ≠ p → heap t1 !! q = heap t !! q) → is_Some (heap t1 !! p) →
  sol_frame p s t1.
Proof.
  intros (F1 & F2 & F3 & F4 & F5 & F6) Hg Hq Hp.
  unfold globals in Hg.
  injection Hg as G1 G2 _ G4 _ G6 _ _ _ _ _ _ _ _ _.
  repeat split; try congruence.
  intros q Hne. rewrite (Hq q Hne). apply F5, Hne.
Qed.

Lemma update_best_frame p s t first value :
  sol_frame p s t → sol_frame p s (update_best first value t).
Proof.
  intros F. unfold update_best.
  destruct first; [exact F|].
  destruct (isMin t && _); [exact F|].
  destruct (negb (isMin t) && _); exact F.
Qed.

Lemma sol_loop_checked p s sols : ∀ first t t',
  sol_loop sols first p t = Done true t' →
  Forall (λ lt : string * coef_tok, ∃ pairs, lt.2 = Vec_tok pairs) sols →
  (∀ j con, vec_at (constraint s) j = Some con →
            _coefficients con ≠ Some p) →
  sol_frame p s t →
  ∀ label pairs, (label, Vec_tok pairs) ∈ sols →
                 feasible s (vector_of pairs).
Proof.
  induction sols as [|[label tok] sols IH];
    intros first t t' H Hvec Hfresh F lab pairs Hin; [inversion Hin|].
  apply Forall_cons in Hvec as [[pairs0 Htok] Hvec]. simpl in Htok. subst tok.
  simpl in H.
  pose proof F as (F1 & F2 & F3 & F4 & F5 & F6).
  destruct (readConstraintCoefficients_Vec p pairs0 t F6)
    as (t1 & Hrun & Hg & _ & Hq & Hp & Hok).
  rewrite (bind_eq _ _ _ _ _ Hrun) in H.
  destruct (forallb _ pairs0) eqn:Eall; [|apply ret_Done in H as [[=] _]].
  simpl in H. specialize (Hok eq_refl).
  rewrite (bind_eq _ _ _ _ _ (deref_run t1 p _ Hok)) in H.
  unfold bind at 1 in H. simpl in H.
  apply bind_Done in H as (integral & t2 & Hi & H).
  apply lift_Done in Hi as [Hi ->].
  destruct integral; [|apply ret_Done in H as [[=] _]]. simpl in H.
  apply bind_Done in H as (sat & t2 & Hs & H).
  destruct sat; [|apply ret_Done in H as [[=] _]]. simpl in H.
  apply sol_constraints_true in Hs as [-> Hsat].
  apply bind_Done in H as (obj & t2 & Hobj & H).
  apply deref_Done in Hobj as (? & _ & _ & ->).
  apply bind_Done in H as (u & t2 & Hmod & H).
  injection Hmod as Hmod. subst t2.
  pose proof (globals_sol_frame p s t t1 F Hg Hq Hp) as F'.
  apply elem_of_cons in Hin as [[= <- <-]|Hin].
  - destruct F' as (G1 & G2 & G3 & G4 & G5 & G6). split.
    + intros j Hj.
      destruct (Hsat j) as (con & q & c & v & Hcon & Hcq & Hc & Hv & Hh).
      { rewrite G2. apply elem_of_seqZ. lia. }
      rewrite G1 in Hcon. rewrite Hok in Hv. injection Hv as <-.
      exists con, c. split; [exact Hcon|]. split; [|exact Hh].
      unfold coefs. rewrite Hcq. simpl. rewrite <- G5; [exact Hc|].
      intros ->. exact (Hfresh j con Hcon Hcq).
    + intros k b Hk Hint. rewrite <- G4 in Hint.
      apply (sol_integrality_true _ _ Hi (k, b)); [|exact Hint].
      apply elem_of_entries, Hk.
  - eapply IH; [exact H|exact Hvec|exact Hfresh| |exact Hin].
    apply update_best_frame, F'.
Qed.

(** [processSOL] checks every solution when none is given by the token
    [OBJ]: if it returns true and no base constraint owns the vector that
    [processSOL] allocates, then every listed solution satisfies every base
    constraint and has integer values on the integer variables. *)
Theorem solutions_checked sols s s' :
  processSOL sols s = Done true s' →
  Forall (λ lt : string * coef_tok, ∃ pairs, lt.2 = Vec_tok pairs) sols →
  (∀ j con, vec_at (constraint s) j = Some con →
            _coefficients con ≠ Some (S (allocated s))) →
  ∀ label pairs, (label, Vec_tok pairs) ∈ sols →
                 feasible s (vector_of pairs).
Proof.
  intros H Hvec Hfresh label pairs Hin. unfold processSOL in H.
  apply bind_Done in H as (u & s1 & Hmod & H).
  injection Hmod as Hmod. subst s1.
  destruct (make_shared_run (set_numberOfSolutions (Z.of_nat (length sols)) s))
    as (s2 & Hms & Hheap & Hg).
  rewrite (bind_eq _ _ _ _ _ Hms) in H. simpl allocated in *.
  apply bind_Done in H as (ok & s3 & Hloop & H).
  destruct ok; [|apply ret_Done in H as [[=] _]].
  eapply (sol_loop_checked (S (allocated s)) s); try eassumption.
  unfold globals in Hg. simpl in Hg.
  injection Hg as G1 G2 _ G4 _ G6 _ _ _ _ _ _ _ _ _.
  repeat split; try congruence.
  - intros q Hne. rewrite Hheap. simpl. apply lookup_insert_ne. congruence.
  - rewrite Hheap, lookup_insert_eq. eauto.
Qed.

(** ** Instances *)

Lemma compact_heap_test_true s : compact_heap_test s = true → compact_heap s.
Proof.
  unfold compact_heap_test. rewrite forallb_forall. intros H p v Hp k a Hk.
  specialize (H (p, v)). simpl in H. rewrite forallb_forall in H.
  apply negb_true_iff,
    (H ltac:(apply list_elem_of_In, elem_of_map_to_list, Hp) (k, a)).
  apply list_elem_of_In, elem_of_map_to_list, Hk.
Qed.

Lemma vec_at_elem_of {A} (l : list A) i a : vec_at l i = Some a → a ∈ l.
Proof.
  unfold vec_at. destruct (0 <=? i); [|discriminate].
  apply list_elem_of_lookup_2.
Qed.

Lemma fresh_test_true s p :
  fresh_test s p = true →
  ∀ j con, vec_at (constraint s) j = Some con → _coefficients con ≠ Some p.
Proof.
  unfold fresh_test. rewrite forallb_forall. intros H j con Hj.
  apply vec_at_elem_of, list_elem_of_In, H in Hj.
  apply negb_true_iff, bool_decide_eq_false in Hj. exact Hj.
Qed.


Lemma singleton_Some (k : Z) (a : Q) j b :
  ({[ k := a ]} : SVectorGMP) !! j = Some b → j = k ∧ b = a.
Proof. intros [<- <-]%lookup_singleton_Some. auto. Qed.

Lemma dominates_sound_witness :
  satisfied state_bounds (bound 2) {[ 0 := 5%Q ]}.
Proof.
  apply (dominates_sound state_bounds (bound 0) (bound 2) {[ 0 := 5%Q ]}).
  - apply constructed_test_true. vm_compute. reflexivity.
  - apply constructed_test_true. vm_compute. reflexivity.
  - apply verdict_returns. vm_compute. reflexivity.
  - exists {[ 0 := 1%Q ]}. split; vm_compute; reflexivity.
Defined.

Lemma round_sound_witness :
  satisfied state_frac (set_rhs 3 c_frac) {[ 0 := 3%Q ]}.
Proof.
  apply (round_sound state_frac c_frac (set_rhs 3 c_frac)
                     {[ 0 := 1%Q ]} {[ 0 := 3%Q ]}).
  - vm_compute. reflexivity.
  - intros k a [-> ->]%singleton_Some. vm_compute. reflexivity.
  - intros k a b [-> ->]%singleton_Some [_ ->]%singleton_Some. reflexivity.
  - apply verdict_returns. vm_compute. reflexivity.
  - exists {[ 0 := 1%Q ]}. split; vm_compute; reflexivity.
Defined.

Lemma unsplit_disjunction_witness :
  ∃ b2, vec_at (constraint state_unsplit) 3 = Some b2
        ∧ (satisfied state_unsplit (branch 1) {[ 0 := 0%Q ]}
           ∨ satisfied state_unsplit b2 {[ 0 := 0%Q ]}).
Proof.
  apply (unsplit_disjunction (branch 2) 2 1 4 3 state_unsplit
           (default ∅ (snd <$> verdict unsplit_result))
           (default initial (final unsplit_result))
           (branch 1) {[ 0 := 0%Q ]}).
  - apply compact_heap_test_true. vm_compute. reflexivity.
  - vm_compute. reflexivity.
  - vm_compute. reflexivity.
  - vm_compute. reflexivity.
  - intros v Hv k a b Hk [-> ->]%singleton_Some. reflexivity.
Defined.

Lemma assumption_scope_witness :
  _assumptionList (default Constraint_default (mjoin (verdict asm_result)))
  = {[ Z.of_nat (length (constraint state_asm)) ]}
  ∧ _isAssumption (default Constraint_default (mjoin (verdict asm_result)))
    = true
  ∧ _refIdx (default Constraint_default (mjoin (verdict asm_result)))
    = dl_refIdx asm_line
  ∧ dl_close asm_line = "}"%string.
Proof.
  apply (assumption_scope true asm_line state_asm
           (default Constraint_default (mjoin (verdict asm_result)))
           (default initial (final asm_result))).
  - reflexivity.
  - vm_compute. reflexivity.
Defined.

Lemma accepted_citations_witness :
  0 ≤ 2 < Z.of_nat (length (constraint state_unsplit))
  ∧ 0 ≤ 4 < Z.of_nat (length (constraint state_unsplit)).
Proof.
  apply (accepted_citations true line_unsplit state_unsplit toDer_unsplit
                            state_unsplit_end).
  vm_compute. reflexivity.
Defined.



Lemma vector_inequality_witness :
  svec_neq {[ 0 := 1%Q ]} {[ 0 := 1%Q; 1 := 0%Q ]}
  = (negb (bool_decide
             (compactify ({[ 0 := 1%Q ]} : SVectorGMP)
              = compactify {[ 0 := 1%Q; 1 := 0%Q ]})),
     compactify {[ 0 := 1%Q ]}, compactify {[ 0 := 1%Q; 1 := 0%Q ]}).
Proof.
  apply (proj2 (vector_inequality {[ 0 := 1%Q ]} {[ 0 := 1%Q; 1 := 0%Q ]})).
  vm_compute. discriminate.
Defined.

Lemma coefficient_indices_checked_witness :
  true = forallb (in_range (numberOfVariables state_bounds))
                 [(0, 2%Q); (0, 3%Q)]
  ∧ objPtr = objPtr ∧ false = false
  ∧ (∀ q, q ≠ objPtr →
          heap (default initial (final read_result)) !! q
          = heap state_bounds !! q)
  ∧ (true = true →
     heap (default initial (final read_result)) !! objPtr
     = Some (vector_of [(0, 2%Q); (0, 3%Q)])).
Proof.
  apply (coefficient_indices_checked objPtr [(0, 2%Q); (0, 3%Q)]
           state_bounds true objPtr false
           (default initial (final read_result))).
  vm_compute. reflexivity.
Defined.

Lemma integer_marks_witness :
  true = true
  ∧ length (isInt state_int) = length (variable state_var)
  ∧ Forall (λ i, 0 ≤ i < Z.of_nat (length (variable state_var))) [1]
  ∧ ∀ i, 0 ≤ i < Z.of_nat (length (variable state_var)) →
         vec_at (isInt state_int) i = Some (bool_decide (i ∈ [1])).
Proof.
  apply (integer_marks [1] state_var true state_int).
  vm_compute. reflexivity.
Defined.

Lemma objective_integrality_witness :
  heap state_obj !! objPtr = Some (vector_of [(0, 1%Q); (1, 2%Q)])
  ∧ isMin state_obj = String.eqb obj_xy.1 "min"
  ∧ (objectiveIntegral state_obj = true ↔
       ∀ k a, vector_of [(0, 1%Q); (1, 2%Q)] !! k = Some a →
              isInteger a = true ∧ vec_at (isInt state_int) k = Some true).
Proof.
  apply (objective_integrality obj_xy [(0, 1%Q); (1, 2%Q)] state_int
                               state_obj).
  - reflexivity.
  - vm_compute. reflexivity.
Defined.

Lemma solutions_checked_witness :
  feasible state_rtp_cutoff (vector_of [(0, 7%Q)]).
Proof.
  apply (solutions_checked [("s"%string, Vec_tok [(0, 7%Q)])]
                           state_rtp_cutoff state_cutoff
                           ltac:(vm_compute; reflexivity)
                           ltac:(repeat constructor; simpl; eauto)
                           ltac:(apply fresh_test_true; vm_compute;
                                 reflexivity)
                           "s"%string [(0, 7%Q)]).
  apply list_elem_of_singleton. reflexivity.
Defined.

End ChkMore.
(** * The derivation steps are valid inferences *)

Module ChkSound.
Import Rat RatFacts Chk ChkSpec ChkExamples ChkFacts ChkSem ChkMore.

Lemma canonical_eq a b : Qred a = a → Qred b = b → (a == b)%Q → a = b.
Proof. intros Ha Hb H. rewrite <- Ha, <- Hb. apply Qred_complete, H. Qed.

Lemma similar_dot v v' : (∀ x, (dot v' x == dot v x)%Q) → similar v v'.
Proof.
  intros H x. apply canonical_eq; try apply scalarProduct_canonical.
  rewrite !scalarProduct_dot. apply H.
Qed.

Lemma similar_compactify v : similar v (compactify v).
Proof. apply similar_dot. intros x. apply dot_compactify. Qed.

Lemma dot_list_fmap_Qred es x :
  (dot_list (prod_map id Qred <$> es) x == dot_list es x)%Q.
Proof.
  induction es as [|[k a] es IH]; simpl; [reflexivity|].
  rewrite IH, Qred_correct. reflexivity.
Qed.

Lemma dot_canonicalize v x : (dot (canonicalize v) x == dot v x)%Q.
Proof.
  unfold dot, canonicalize.
  rewrite map_to_list_fmap. apply dot_list_fmap_Qred.
Qed.

Lemma similar_canonicalize v : similar v (canonicalize v).
Proof. apply similar_dot. intros x. apply dot_canonicalize. Qed.

Lemma similar_holds v v' sense rhs x :
  similar v v' → holds sense rhs v' x = holds sense rhs v x.
Proof. intros H. unfold holds. rewrite (H x). reflexivity. Qed.

Lemma is_zero_Qred a : is_zero (Qred a) = is_zero a.
Proof.
  unfold is_zero. destruct (Qnum a =? 0) eqn:E.
  - apply Z.eqb_eq in E. apply Z.eqb_eq.
    destruct a as [n d]. simpl in E. subst n. reflexivity.
  - apply Z.eqb_neq in E. apply Z.eqb_neq. intros H. apply E.
    pose proof (Qred_correct a) as Hq. unfold Qeq in Hq. rewrite H in Hq.
    simpl in Hq. lia.
Qed.

Lemma compact_canonicalize v : compact v → compact (canonicalize v).
Proof.
  intros H k a Hk. unfold canonicalize in Hk.
  rewrite lookup_fmap in Hk. destruct (v !! k) as [b|] eqn:E; [|discriminate].
  injection Hk as <-. rewrite is_zero_Qred. exact (H k b E).
Qed.

Lemma canonicalize_empty v : canonicalize v = ∅ ↔ v = ∅.
Proof. unfold canonicalize. apply fmap_empty_iff. Qed.

Lemma canonicalize_keys v k :
  is_Some (canonicalize v !! k) ↔ is_Some (v !! k).
Proof. unfold canonicalize. rewrite lookup_fmap. apply fmap_is_Some. Qed.

Lemma dominates_run s a b va vb :
  coefs s a = Some va → coefs s b = Some vb → compact va → compact vb →
  dominates a b s
  = Done (_falsehood a || (bool_decide (va = vb) && implies_side a b)) s.
Proof.
  intros Ha Hb Hca Hcb.
  apply coefs_Some in Ha as (pa & Hpa & Hva).
  apply coefs_Some in Hb as (pb & Hpb & Hvb).
  unfold dominates. destruct (_falsehood a); simpl; [reflexivity|].
  rewrite Hpa, Hpb.
  cbv [svec_eq_at bind deref get lift store modify ret mbind option_bind].
  rewrite Hva, Hvb, (svec_neq_compact _ _ Hca Hcb), negb_involutive.
  f_equal. simpl.
  rewrite (insert_id (heap s) pa va Hva), (insert_id (heap s) pb vb Hvb).
  rewrite !set_heap_id. reflexivity.
Qed.

Lemma mult_loop_keys NDEBUG terms : ∀ sense mult s r s',
  mult_loop NDEBUG terms sense mult s = Done r s' →
  ∀ i a, r.2 !! i = Some a →
         mult !! i = Some a ∨ ((i, a) ∈ terms ∧ is_zero a = false).
Proof.
  induction terms as [|[index a] terms IH]; intros sense mult s r s' H i b Hi;
    simpl in H.
  - apply ret_Done in H as [<- _]. left. exact Hi.
  - assert (Hstep : ∀ sn r' s'',
              mult_loop NDEBUG terms sn (<[index := a]> mult) s = Done r' s'' →
              is_zero a = false → r'.2 !! i = Some b →
              mult !! i = Some b
              ∨ ((i, b) ∈ (index, a) :: terms ∧ is_zero b = false)).
    { intros sn r' s'' H' Hz Hb.
      destruct (IH _ _ _ _ _ H' i b Hb) as [Hm|[Hin Hnz]].
      - destruct (decide (i = index)) as [->|Hne].
        + rewrite lookup_insert_eq in Hm. injection Hm as ->.
          right. split; [left|exact Hz].
        + rewrite lookup_insert_ne in Hm by congruence. left. exact Hm.
      - right. split; [right; exact Hin|exact Hnz]. }
    destruct (index <? 0).
    { apply ret_Done in H as [<- _]. left. exact Hi. }
    destruct (is_zero a) eqn:Ez.
    { destruct (IH _ _ _ _ _ H i b Hi) as [Hm|[Hin Hnz]]; [left; exact Hm|].
      right. split; [right; exact Hin|exact Hnz]. }
    apply bind_Done in H as (s0 & s1 & Hg & H). apply get_Done in Hg as [-> ->].
    destruct (negb NDEBUG && _).
    { apply ret_Done in H as [<- _]. simpl in Hi.
      destruct (decide (i = index)) as [->|Hne].
      - rewrite lookup_insert_eq in Hi. injection Hi as ->.
        right. split; [left|exact Ez].
      - rewrite lookup_insert_ne in Hi by congruence. left. exact Hi. }
    apply bind_Done in H as (con & s1 & Hcon & H).
    apply lift_Done in Hcon as [_ ->].
    apply bind_Done in H as (u & s1 & Hu & H).
    assert (s1 = s) as ->.
    { destruct NDEBUG; [apply ret_Done in Hu as [_ <-]; reflexivity|].
      apply bind_Done in Hu as (w & s2 & Hw & Hu).
      apply deref_Done in Hw as (? & _ & _ & ->).
      apply ret_Done in Hu as [_ <-]. reflexivity. }
    destruct (sense =? 0); [exact (Hstep _ _ _ H eq_refl Hi)|].
    destruct (negb _ && negb _).
    { apply ret_Done in H as [<- _]. simpl in Hi.
      destruct (decide (i = index)) as [->|Hne].
      - rewrite lookup_insert_eq in Hi. injection Hi as ->.
        right. split; [left|exact Ez].
      - rewrite lookup_insert_ne in Hi by congruence. left. exact Hi. }
    exact (Hstep _ _ _ H eq_refl Hi).
Qed.

Lemma lincomb_loop_frame p idx ms : ∀ r rhs al s res s',
  lincomb_loop p idx ms r rhs al s = Done res s' →
  (∀ q, q ≠ p → heap s' !! q = heap s !! q)
  ∧ allocated s' = allocated s ∧ isInt s' = isInt s.
Proof.
  induction ms as [|[index a] ms IH]; intros r rhs al s res s' H; simpl in H.
  - apply ret_Done in H as [_ <-]. auto.
  - apply bind_Done in H as (s0 & s1 & Hg & H). apply get_Done in Hg as [-> ->].
    apply bind_Done in H as (con & s1 & Hcon & H).
    apply lift_Done in Hcon as [Hcon ->].
    destruct (_trashed con); [eapply IH, H|].
    apply bind_Done in H as (c & s2 & Hd & H).
    apply deref_Done in Hd as (q' & Hq' & Hc' & ->).
    apply bind_Done in H as (v & s2 & Hd & H).
    apply deref_Done in Hd as (p' & [= <-] & Hv' & ->).
    apply bind_Done in H as (u & s2 & Hst & H).
    rewrite store_run in Hst. injection Hst as Hst. subst s2.
    apply bind_Done in H as (u' & s3 & Htr & H).
    assert (Hs3 : heap s3 = <[p := add_scaled a c v]> (heap s)
                  ∧ allocated s3 = allocated s ∧ isInt s3 = isInt s).
    { destruct (_ && _).
      - injection Htr as Htr. subst s3. auto.
      - apply ret_Done in Htr as [_ <-]. auto. }
    destruct Hs3 as (Hh & Ha & Hi).
    destruct (IH _ _ _ _ _ _ H) as (IH1 & IH2 & IH3).
    split; [|split; congruence].
    intros q Hq. rewrite (IH1 q Hq), Hh. apply lookup_insert_ne. congruence.
Qed.

(** What [round] has checked when it returns true. *)
Lemma round_inv c s c' s' v :
  round c s = Done (true, c') s' → coefs s c = Some v →
  s' = s ∧ c' = rounded c
  ∧ ∀ k a, v !! k = Some a → vec_at (isInt s) k = Some true →
           isInteger a = true.
Proof.
  intros H Hv. apply coefs_Some in Hv as (p & Hp & Hv).
  unfold round in H. rewrite Hp in H.
  rewrite (bind_eq _ _ _ _ _ (deref_run s p v Hv)) in H.
  apply bind_Done in H as (s0 & s1 & Hg & H). apply get_Done in Hg as [-> ->].
  apply bind_Done in H as (b & s1 & Hl & H). apply lift_Done in Hl as [Hl ->].
  destruct b.
  - assert (Hall : ∀ k a, (k, a) ∈ entries v →
                          vec_at (isInt s) k = Some true → isInteger a = true).
    { revert Hl. induction (entries v) as [|[j b] es IH]; intros Hl k a Hin Hk.
      - inversion Hin.
      - simpl in Hl. destruct (vec_at (isInt s) j) as [[|]|] eqn:Ej;
          try discriminate.
        + destruct (isInteger b) eqn:Eb; [|discriminate].
          apply elem_of_cons in Hin as [[= -> ->]|Hin]; [exact Eb|].
          exact (IH Hl k a Hin Hk).
        + apply elem_of_cons in Hin as [[= -> ->]|Hin]; [congruence|].
          exact (IH Hl k a Hin Hk). }
    assert (Hres : s' = s ∧ c' = rounded c).
    { unfold rounded. destruct (_sense c <? 0).
      - apply ret_Done in H as [[= <-] <-]. auto.
      - destruct (0 <? _sense c); apply ret_Done in H as [[= <-] <-]; auto. }
    destruct Hres as [-> ->]. split; [reflexivity|]. split; [reflexivity|].
    intros k a Hk. apply Hall, elem_of_entries, Hk.
  - apply ret_Done in H as [[=] _].
Qed.

(** A call of [round] that returns true has found every index of the vector
    in [isInt]. *)
Lemma round_keys c s c' s' v :
  round c s = Done (true, c') s' → coefs s c = Some v →
  ∀ k a, v !! k = Some a → is_Some (vec_at (isInt s) k).
Proof.
  intros H Hv. apply coefs_Some in Hv as (p & Hp & Hv).
  unfold round in H. rewrite Hp in H.
  rewrite (bind_eq _ _ _ _ _ (deref_run s p v Hv)) in H.
  apply bind_Done in H as (s0 & s1 & Hg & H). apply get_Done in Hg as [-> ->].
  apply bind_Done in H as (b & s1 & Hl & H). apply lift_Done in Hl as [Hl ->].
  destruct b; [|apply ret_Done in H as [[=] _]]. clear H.
  intros k a Hk. apply elem_of_entries in Hk. revert Hl.
  induction (entries v) as [|[j b] es IH]; intros Hl.
  - inversion Hk.
  - simpl in Hl. destruct (vec_at (isInt s) j) as [[|]|] eqn:Ej;
      try discriminate.
    + destruct (isInteger b); [|discriminate].
      apply elem_of_cons in Hk as [[= -> ->]|Hk]; [rewrite Ej; eauto|].
      exact (IH Hk Hl).
    + apply elem_of_cons in Hk as [[= -> ->]|Hk]; [rewrite Ej; eauto|].
      exact (IH Hk Hl).
Qed.

Lemma rounded_fields c :
  _coefficients (rounded c) = _coefficients c
  ∧ _sense (rounded c) = _sense c
  ∧ _falsehood (rounded c) = _falsehood c.
Proof.
  unfold rounded. destruct (_sense c <? 0); [simpl; auto|].
  destruct (0 <? _sense c); simpl; auto.
Qed.

(** Rounding the right-hand side keeps the points at which the left-hand
    side is an integer. *)
Lemma rounded_holds c v x :
  isInteger (scalarProduct v x) = true →
  holds (_sense c) (_rhs c) v x = true →
  holds (_sense (rounded c)) (_rhs (rounded c)) v x = true.
Proof.
  intros Hp Hh. unfold rounded, holds in *.
  destruct (_sense c <? 0) eqn:E1; simpl; [rewrite E1|].
  - apply le_spec. apply le_spec in Hh. apply integer_le_floor; assumption.
  - destruct (0 <? _sense c) eqn:E2; simpl; rewrite E1, E2.
    + apply ge_spec. apply ge_spec in Hh. apply integer_ge_ceil; assumption.
    + exact Hh.
Qed.

Lemma falsehood_not_satisfied sense rhs (v : SVectorGMP) x :
  (if decide (v = ∅) then falsehood_side sense rhs else false) = true →
  holds sense rhs v x = false.
Proof.
  destruct (decide (v = ∅)) as [->|]; [|discriminate].
  apply falsehood_holds.
Qed.

(** The cases [LIN] and [RND] of [processDER] are sound. *)
Lemma derive_lin_sound NDEBUG rnd terms bracket toDer0 idx s3 al s' x coef vc :
  derive_lin NDEBUG rnd terms bracket toDer0 idx s3 = Done (true, al) s' →
  _coefficients toDer0 = Some coef → (coef ≤ allocated s3)%nat →
  heap s3 !! coef = Some vc → compact vc →
  (∀ i a con, (i, a) ∈ terms → is_zero a = false →
              vec_at (constraint s3) i = Some con → _trashed con = false →
              ∃ q c, _coefficients con = Some q ∧ (q ≤ allocated s3)%nat
                     ∧ heap s3 !! q = Some c
                     ∧ holds (_sense con) (_rhs con) c x = true) →
  (rnd = true → ∀ w, coefs s' toDer0 = Some w →
                     (∀ k, is_Some (w !! k) → is_Some (vec_at (isInt s3) k)) →
                     integral_on w x
                     ∧ ∀ k a, w !! k = Some a →
                              vec_at (isInt s3) k = Some true) →
  satisfied s' toDer0 x.
Proof.
  intros H Hcoef Hle Hvc Hcvc Hcited Hint. unfold derive_lin in H.
  destruct (make_shared_run s3) as (s4 & Hms & Hh4 & G4).
  rewrite (bind_eq _ _ _ _ _ Hms) in H.
  set (q2 := S (allocated s3)) in *.
  assert (Hq2 : coef ≠ q2) by (unfold q2; lia).
  apply bind_Done in H as ([[[ok senseDer] rhsDer] al'] & s5 & Hlc & H).
  destruct ok; [|apply ret_Done in H as [[=] _]].
  change (negb true) with false in H. cbv iota in H.
  destruct (is_close bracket); [|apply ret_Done in H as [[=] _]].
  change (negb true) with false in H. cbv iota in H.
  assert (Hcs4 : constraint s4 = constraint s3).
  { apply globals_constraint, G4. }
  assert (Hi4 : isInt s4 = isInt s3).
  { unfold globals in G4. injection G4 as _ _ _ G4 _. exact G4. }
  (* the linear combination *)
  apply readLinComb_inv in Hlc as (mult & Hm & Hl).
  assert (Hok : sign_ok s4 senseDer mult).
  { eapply mult_loop_signs; [|exact Hm]. intros i a Hi.
    rewrite lookup_empty in Hi. discriminate. }
  pose proof (mult_loop_keys _ _ _ _ _ _ _ Hm) as Hkeys. simpl in Hkeys.
  destruct (lincomb_loop_frame _ _ _ _ _ _ _ _ _ Hl) as (Hfr & Hal5 & Hi5).
  simpl in Hfr, Hal5, Hi5.
  destruct (lincomb_loop_sound x q2 idx senseDer _ _ _ _ ∅ _ _ _ Hl)
    as (v5 & Hv5 & Hrel & Hcan).
  { apply entries_NoDup. }
  { apply Forall_forall. intros [i a] Hin. apply elem_of_entries in Hin.
    intros con Hcon Htr. simpl in Hcon. rewrite Hcs4 in Hcon.
    destruct (Hok i a Hin) as (con' & Hcon' & Hs).
    rewrite Hcs4, Hcon in Hcon'. injection Hcon' as <-.
    split; [exact Hs|].
    destruct (Hkeys i a Hin) as [Hemp|[Hterm Hnz]].
    { rewrite lookup_empty in Hemp. discriminate. }
    destruct (Hcited i a con Hterm Hnz Hcon Htr) as (q & c & Hq & Hqle & Hc & Hh).
    exists q, c. split; [exact Hq|]. split; [unfold q2; lia|].
    split; [|exact Hh]. simpl.
    rewrite lookup_insert_ne by (unfold q2; lia).
    rewrite Hh4. rewrite lookup_insert_ne by (unfold q2; lia). exact Hc. }
  { simpl. apply lookup_insert_eq. }
  { unfold rel. rewrite dot_empty.
    destruct (senseDer <? 0); [|destruct (0 <? senseDer)]; lra. }
  { reflexivity. }
  assert (Hh5 : holds senseDer rhsDer v5 x = true)
    by (apply rel_holds; assumption).
  assert (Hc5 : heap s5 !! coef = Some vc).
  { rewrite (Hfr coef Hq2). rewrite lookup_insert_ne by congruence.
    rewrite Hh4. rewrite lookup_insert_ne by congruence. exact Hvc. }
  (* the constraint derived *)
  rewrite (bind_eq _ _ _ _ _
             (Constraint_new_run _ _ _ _ _ _ _ _ Hv5)) in H.
  set (v6 := compactify v5) in *.
  set (s6 := set_heap (<[q2 := v6]> (heap s5)) s5) in *.
  set (derived := mkConstraint EmptyString senseDer rhsDer (Some q2) (-1)
                    (_isAssumption toDer0) (_assumptionList toDer0)
                    (if decide (v6 = ∅) then falsehood_side senseDer rhsDer
                     else false) false false) in *.
  assert (Hv6 : heap s6 !! q2 = Some v6) by (simpl; apply lookup_insert_eq).
  assert (Hc6 : heap s6 !! coef = Some vc).
  { simpl. rewrite lookup_insert_ne by congruence. exact Hc5. }
  assert (Hh6 : holds senseDer rhsDer v6 x = true).
  { unfold v6. rewrite (similar_holds _ _ _ _ _ (similar_compactify v5)).
    exact Hh5. }
  assert (Hcv6 : compact v6) by apply compactify_compact.
  assert (Hnf : _falsehood derived = false).
  { simpl. destruct (decide (v6 = ∅)) as [E|]; [|reflexivity].
    apply not_true_is_false. intros Hf.
    assert (Hno : holds senseDer rhsDer v6 x = false).
    { apply falsehood_not_satisfied. rewrite decide_True by exact E. exact Hf. }
    congruence. }
  (* rounding *)
  apply bind_Done in H as ([rounded' derived'] & s7 & Hrnd & H).
  destruct rounded'; [|apply ret_Done in H as [[=] _]].
  change (negb true) with false in H. cbv iota in H.
  assert (Hd' : s7 = s6
                ∧ _coefficients derived' = Some q2
                ∧ _falsehood derived' = false
                ∧ ((∀ k a, v6 !! k = Some a →
                           vec_at (isInt s3) k = Some true ∧ integral_on v6 x)
                     ∨ rnd = false →
                   holds (_sense derived') (_rhs derived') v6 x = true)
                ∧ (rnd = false → derived' = derived)).
  { destruct rnd.
    - assert (Hco : coefs s6 derived = Some v6) by exact Hv6.
      destruct (round_inv _ _ _ _ _ Hrnd Hco) as (-> & -> & Hchk).
      destruct (rounded_fields derived) as (R1 & R2 & R3).
      split; [reflexivity|]. split; [rewrite R1; reflexivity|].
      split; [rewrite R3; exact Hnf|]. split; [|discriminate].
      intros [Hall|]; [|discriminate].
      apply (rounded_holds derived v6 x); [|exact Hh6].
      apply scalarProduct_integer.
      + intros k a Hk. destruct (Hall k a Hk) as [Hk' _].
        apply (Hchk k a Hk). simpl. rewrite Hi5, Hi4. exact Hk'.
      + destruct (map_eq_dec_empty v6) as [E|E].
        * intros k a b Hk. rewrite E, lookup_empty in Hk. discriminate.
        * apply map_choose in E as (k & a & Hk). exact (proj2 (Hall k a Hk)).
    - apply ret_Done in Hrnd as [[= <-] <-].
      split; [reflexivity|]. split; [reflexivity|]. split; [exact Hnf|].
      split; [intros _; exact Hh6|reflexivity]. }
  assert (Hkeys6 : rnd = true →
            ∀ k, is_Some (v6 !! k) → is_Some (vec_at (isInt s3) k)).
  { intros Hr k [a Hk]. rewrite Hr in Hrnd.
    assert (Hco : coefs s6 derived = Some v6) by exact Hv6.
    pose proof (round_keys _ _ _ _ _ Hrnd Hco k a Hk) as Hin.
    simpl in Hin. rewrite Hi5, Hi4 in Hin. exact Hin. }
  destruct Hd' as (-> & Hco' & Hnf' & Hhold & _).
  (* the two comparisons *)
  assert (Ha6 : coefs s6 derived' = Some v6).
  { unfold coefs. rewrite Hco'. exact Hv6. }
  assert (Hb6 : coefs s6 toDer0 = Some vc).
  { unfold coefs. rewrite Hcoef. exact Hc6. }
  rewrite (bind_eq _ _ _ _ _
             (dominates_run s6 derived' toDer0 v6 vc Ha6 Hb6 Hcv6 Hcvc)) in H.
  rewrite Hnf' in H. simpl orb in H.
  assert (Hfin : ∀ s9 w wc,
            coefs s9 derived' = Some w → coefs s9 toDer0 = Some wc →
            compact w → compact wc → similar v6 w →
            (∀ k, is_Some (w !! k) ↔ is_Some (v6 !! k)) →
            isInt s9 = isInt s3 →
            (d <- dominates derived' toDer0 ;; ret (d, al')) s9
            = Done (true, al) s' →
            satisfied s' toDer0 x).
  { intros s9 w wc Hw Hwc Hcw Hcwc Hsim Hdom Hi9 Hfinal.
    rewrite (bind_eq _ _ _ _ _
               (dominates_run s9 derived' toDer0 w wc Hw Hwc Hcw Hcwc))
      in Hfinal.
    rewrite Hnf' in Hfinal. simpl orb in Hfinal.
    apply ret_Done in Hfinal as [[= Hd _] <-].
    apply andb_true_iff in Hd as [E S]. apply bool_decide_eq_true in E.
    subst wc. exists w. split; [exact Hwc|].
    apply (implies_side_holds derived' toDer0); [exact S|].
    rewrite (similar_holds _ _ _ _ _ Hsim). apply Hhold.
    destruct rnd; [left|right; reflexivity].
    assert (Hkw : ∀ k, is_Some (w !! k) → is_Some (vec_at (isInt s3) k)).
    { intros k Hk. apply (Hkeys6 eq_refl), Hdom, Hk. }
    destruct (Hint eq_refl w Hwc Hkw) as [Hx Hall].
    intros k a Hk. destruct (proj2 (Hdom k) (mk_is_Some _ _ Hk)) as [a' Hk'].
    split; [exact (Hall k a' Hk')|].
    intros j c b Hj Hb. destruct (proj2 (Hdom j) (mk_is_Some _ _ Hj)) as [c' Hj'].
    exact (Hx j c' b Hj' Hb). }
  destruct (bool_decide (v6 = vc) && implies_side derived' toDer0) eqn:Ed.
  - change (negb true) with false in H. cbv iota in H.
    rewrite (bind_eq _ _ _ _ _ (eq_refl : ret tt s6 = Done tt s6)) in H.
    eapply (Hfin s6 v6 vc); try eassumption; try reflexivity.
    + intros y. reflexivity.
    + simpl. rewrite Hi5, Hi4. reflexivity.
  - change (negb true) with false in H. cbv iota in H.
    apply bind_Done in H as (u & s8 & Hcanon & H).
    assert (Hs8 : heap s8 !! q2 = Some (canonicalize v6)
                  ∧ heap s8 !! coef = Some (canonicalize vc)
                  ∧ isInt s8 = isInt s6).
    { unfold Constraint_canonicalize in Hcanon.
      apply bind_Done in Hcanon as (u1 & t1 & Hc1 & Hcanon).
      rewrite Hco' in Hc1.
      rewrite (bind_eq _ _ _ _ _ (deref_run s6 q2 v6 Hv6)) in Hc1.
      simpl in Hc1. unfold bind at 1 in Hc1. simpl in Hc1.
      rewrite store_run in Hc1. injection Hc1 as _ <-.
      rewrite Hcoef in Hcanon.
      erewrite bind_eq in Hcanon.
      2:{ apply deref_run. simpl. rewrite lookup_insert_ne by congruence.
          exact Hc6. }
      simpl in Hcanon. unfold bind at 1 in Hcanon. simpl in Hcanon.
      rewrite store_run in Hcanon. injection Hcanon as _ <-.
      simpl. split; [|split; [|reflexivity]].
      - rewrite lookup_insert_ne by congruence. apply lookup_insert_eq.
      - apply lookup_insert_eq. }
    destruct Hs8 as (Hq8 & Hc8 & Hi8).
    eapply (Hfin s8 (canonicalize v6) (canonicalize vc)); try exact H.
    + unfold coefs. rewrite Hco'. exact Hq8.
    + unfold coefs. rewrite Hcoef. exact Hc8.
    + apply compact_canonicalize, Hcv6.
    + apply compact_canonicalize, Hcvc.
    + apply similar_canonicalize.
    + intros k. apply canonicalize_keys.
    + rewrite Hi8. simpl. rewrite Hi5, Hi4. reflexivity.
Qed.

Lemma similar_refl v : similar v v.
Proof. intros x. reflexivity. Qed.

(** Reading a sparse vector leaves the meaning of every other vector. *)
Lemma readConstraintCoefficients_frame p tok s ok p' eqObj s' :
  readConstraintCoefficients p tok s = Done (ok, p', eqObj) s' →
  p ≠ objPtr →
  allocated s' = allocated s
  ∧ ∀ q v, q ≠ p → heap s !! q = Some v →
           ∃ v', heap s' !! q = Some v' ∧ similar v v'.
Proof.
  intros H Hne.
  assert (Hp : is_Some (heap s !! p)).
  { unfold readConstraintCoefficients in H.
    apply bind_Done in H as (v & s1 & Hd & _).
    apply deref_Done in Hd as (a & [= <-] & Hv & _). eauto. }
  destruct tok as [|pairs].
  - destruct Hp as [w Hw].
    assert (Hobj : is_Some (heap s !! objPtr)).
    { unfold readConstraintCoefficients in H.
      rewrite (bind_eq _ _ _ _ _ (deref_run s p w Hw)) in H.
      rewrite (bind_eq _ _ _ _ _ (store_run s p ∅)) in H.
      apply bind_Done in H as (v & s1 & Hd & _).
      apply deref_Done in Hd as (a & [= <-] & Hv & _). simpl in Hv.
      rewrite lookup_insert_ne in Hv by exact Hne. eauto. }
    destruct Hobj as [vo Hvo].
    rewrite (readConstraintCoefficients_OBJ_run p s w vo Hne Hw Hvo) in H.
    injection H as _ _ _ <-. split; [reflexivity|].
    intros q v Hq Hv. simpl. destruct (decide (q = objPtr)) as [->|Hqo].
    + rewrite lookup_insert_eq. exists (compactify vo).
      split; [reflexivity|]. assert (v = vo) as -> by congruence.
      apply similar_compactify.
    + rewrite !lookup_insert_ne by congruence. exists v.
      split; [exact Hv|apply similar_refl].
  - destruct (readConstraintCoefficients_Vec p pairs s Hp)
      as (s1 & Hrun & _ & Ha & Hq & _ & _).
    rewrite Hrun in H. injection H as _ _ _ <-. split; [exact Ha|].
    intros q v Hne' Hv. exists v. rewrite (Hq q Hne').
    split; [exact Hv|apply similar_refl].
Qed.

Lemma readConstraint_frame l p s ok sense p' eqObj s' :
  readConstraint l p s = Done (ok, sense, p', eqObj) s' →
  p ≠ objPtr →
  allocated s' = allocated s
  ∧ ∀ q v, q ≠ p → heap s !! q = Some v →
           ∃ v', heap s' !! q = Some v' ∧ similar v v'.
Proof.
  unfold readConstraint. intros H Hne.
  destruct (is_comment _); [discriminate|].
  assert (Hret : allocated s = allocated s
                 ∧ ∀ q v, q ≠ p → heap s !! q = Some v →
                          ∃ v', heap s !! q = Some v' ∧ similar v v').
  { split; [reflexivity|]. intros q v _ Hv. exists v.
    split; [exact Hv|apply similar_refl]. }
  destruct (Ascii.eqb (cl_senseChar l) "E");
    [|destruct (Ascii.eqb (cl_senseChar l) "L");
      [|destruct (Ascii.eqb (cl_senseChar l) "G")]].
  4:{ apply ret_Done in H as [_ <-]. exact Hret. }
  all: apply bind_Done in H as ([[ok' q] e] & s1 & Hr & H);
       apply ret_Done in H as [_ <-];
       exact (readConstraintCoefficients_frame _ _ _ _ _ _ _ Hr Hne).
Qed.

(** The first part of [derive] on a [lin] or [rnd] step that is
    accepted. *)
Lemma derive_lin_inv NDEBUG l (rnd : bool) (terms : list (Z * Q)) s toDer s' :
  dl_reason l = (if rnd then Rnd_tok terms else Lin_tok terms) →
  derive NDEBUG l s = Done (Some toDer) s' →
  ∃ toDer0 s3 al coef vc,
    derive_lin NDEBUG rnd terms (dl_close l) toDer0
               (Z.of_nat (length (constraint s))) s3 = Done (true, al) s'
    ∧ toDer = setMaxRefIdx (dl_refIdx l) (setassumptionList al toDer0)
    ∧ _coefficients toDer0 = Some coef
    ∧ (coef ≤ allocated s3)%nat
    ∧ heap s3 !! coef = Some vc ∧ compact vc
    ∧ allocated s3 = S (allocated s)
    ∧ globals s3 = globals s
    ∧ ∀ q v, (q ≤ allocated s)%nat → heap s !! q = Some v →
             ∃ v', heap s3 !! q = Some v' ∧ similar v v'.
Proof.
  intros Hr H. unfold derive in H.
  destruct (make_shared_run s) as (s1 & Hms & Hh1 & G1).
  rewrite (bind_eq _ _ _ _ _ Hms) in H.
  assert (Ha1 : allocated s1 = S (allocated s)).
  { unfold make_shared in Hms. cbv [bind get put ret] in Hms.
    injection Hms as <-. reflexivity. }
  set (q1 := S (allocated s)) in *.
  apply bind_Done in H as ([[[ok sense] coef] eqObj] & s2 & Hrd & H).
  pose proof (heap_only_readConstraint _ _ _ _ _ Hrd) as G2.
  destruct ok; [|apply ret_Done in H as [[=] _]].
  change (negb true) with false in H. cbv iota in H.
  destruct (negb (String.eqb _ _)); [apply ret_Done in H as [[=] _]|].
  destruct (readConstraint_frame _ _ _ _ _ _ _ _ Hrd ltac:(discriminate))
    as (Ha2 & Hf2).
  assert (Hcoef : coef = q1 ∨ coef = objPtr).
  { apply readConstraint_inv in Hrd as [_ [[_ ->]|[_ ->]]]; auto. }
  apply bind_Done in H as (toDer0 & s3 & Hnew & H).
  pose proof (heap_only_Constraint_new _ _ _ _ _ _ _ _ _ Hnew) as G3.
  assert (Hv2 : ∃ v2, heap s2 !! coef = Some v2).
  { unfold Constraint_new in Hnew. apply bind_Done in Hnew as (v & t & Hd & _).
    apply deref_Done in Hd as (a & [= <-] & Hv & _). eauto. }
  destruct Hv2 as [v2 Hv2].
  rewrite (Constraint_new_run _ _ _ _ _ _ _ _ Hv2) in Hnew.
  injection Hnew as <- <-.
  apply bind_Done in H as (s3' & s3'' & Hget & H).
  apply get_Done in Hget as [-> ->].
  apply bind_Done in H as ([acc al] & s4 & Hd & H).
  destruct acc; [|apply ret_Done in H as [[=] _]].
  apply ret_Done in H as [[= <-] <-].
  simpl constraint in Hd.
  assert (Hcs : constraint s2 = constraint s).
  { apply globals_constraint. congruence. }
  rewrite Hcs in Hd.
  match type of Hd with
  | context [derive_reason _ _ ?c _ _ _] => set (toDer1 := c) in *
  end.
  unfold derive_reason in Hd. rewrite Hr in Hd.
  exists toDer1, (set_heap (<[coef := compactify v2]> (heap s2)) s2), al,
         coef, (compactify v2).
  split; [destruct rnd; exact Hd|].
  split; [reflexivity|].
  split; [unfold toDer1; destruct eqObj; reflexivity|].
  split.
  { simpl. rewrite Ha2, Ha1. destruct Hcoef as [->| ->]; unfold objPtr; lia. }
  split; [simpl; apply lookup_insert_eq|].
  split; [apply compactify_compact|].
  split; [simpl; congruence|].
  split; [simpl in G3; congruence|].
  intros q v Hq Hv.
  assert (Hq1 : q ≠ q1) by (unfold q1; lia).
  assert (Hv1 : heap s1 !! q = Some v).
  { rewrite Hh1. rewrite lookup_insert_ne by congruence. exact Hv. }
  destruct (Hf2 q v Hq1 Hv1) as (v' & Hv' & Hsim). simpl.
  destruct (decide (q = coef)) as [->|Hqc].
  - rewrite lookup_insert_eq. exists (compactify v2). split; [reflexivity|].
    assert (v' = v2) as -> by congruence.
    intros x. rewrite (similar_compactify v2 x). apply Hsim.
  - rewrite lookup_insert_ne by congruence. eauto.
Qed.

Lemma satisfied_fields s c c' x :
  _coefficients c' = _coefficients c → _sense c' = _sense c →
  _rhs c' = _rhs c → satisfied s c x → satisfied s c' x.
Proof.
  intros H1 H2 H3 (v & Hv & Hh). exists v. unfold coefs in *.
  rewrite H1, H2, H3. auto.
Qed.

(** The two kinds of steps together. *)
Lemma step_sound NDEBUG l (rnd : bool) (terms : list (Z * Q)) s toDer s' x :
  dl_reason l = (if rnd then Rnd_tok terms else Lin_tok terms) →
  derive NDEBUG l s = Done (Some toDer) s' →
  allocated_coefs s → cited_satisfied s terms x →
  (rnd = true → ∀ w, coefs s' toDer = Some w →
                     (∀ k, is_Some (w !! k) → is_Some (vec_at (isInt s) k)) →
                     integral_on w x
                     ∧ ∀ k a, w !! k = Some a →
                              vec_at (isInt s) k = Some true) →
  satisfied s' toDer x.
Proof.
  intros Hr H Hown Hsat Hint.
  destruct (derive_lin_inv _ _ _ _ _ _ _ Hr H)
    as (toDer0 & s3 & al & coef & vc & Hd & -> & Hco & Hle & Hvc & Hcvc
        & Ha3 & G3 & Hfr).
  assert (Hcs : constraint s3 = constraint s) by (apply globals_constraint, G3).
  assert (Hi3 : isInt s3 = isInt s).
  { unfold globals in G3. injection G3 as _ _ _ G3 _. exact G3. }
  apply (satisfied_fields s' toDer0); try reflexivity.
  eapply derive_lin_sound; try eassumption.
  - intros i a con Hin Hnz Hcon Htr. rewrite Hcs in Hcon.
    destruct (Hsat i a con Hin Hnz Hcon Htr) as (v & Hv & Hh).
    apply coefs_Some in Hv as (q & Hq & Hv).
    pose proof (Hown i con q Hcon Hq) as Hqle.
    destruct (Hfr q v Hqle Hv) as (v' & Hv' & Hsim).
    exists q, v'. split; [exact Hq|]. split; [lia|]. split; [exact Hv'|].
    rewrite (similar_holds _ _ _ _ _ Hsim). exact Hh.
  - intros Hrnd w Hw. rewrite Hi3. apply (Hint Hrnd w). exact Hw.
Qed.



Lemma mult_loop_keys_back NDEBUG terms : ∀ sense mult s r s',
  mult_loop NDEBUG terms sense mult s = Done r s' → r.1.1 = true →
  (∀ i, is_Some (mult !! i) → is_Some (r.2 !! i))
  ∧ ∀ i a, (i, a) ∈ terms → is_zero a = false → is_Some (r.2 !! i).
Proof.
  induction terms as [|[index a] terms IH]; intros sense mult s r s' H Hok;
    simpl in H.
  - apply ret_Done in H as [<- _]. split; [auto|]. intros i a Hin.
    inversion Hin.
  - assert (Hstep : ∀ sn,
              mult_loop NDEBUG terms sn (<[index := a]> mult) s = Done r s' →
              is_zero a = false →
              (∀ i, is_Some (mult !! i) → is_Some (r.2 !! i))
              ∧ ∀ i b, (i, b) ∈ (index, a) :: terms → is_zero b = false →
                       is_Some (r.2 !! i)).
    { intros sn H' Hz. destruct (IH _ _ _ _ _ H' Hok) as [I1 I2]. split.
      - intros i Hi. apply I1. destruct (decide (i = index)) as [->|Hne].
        + rewrite lookup_insert_eq. eauto.
        + rewrite lookup_insert_ne by congruence. exact Hi.
      - intros i b Hin Hb. apply elem_of_cons in Hin as [[= -> ->]|Hin].
        + apply I1. rewrite lookup_insert_eq. eauto.
        + exact (I2 i b Hin Hb). }
    destruct (index <? 0).
    { apply ret_Done in H as [<- _]. discriminate. }
    destruct (is_zero a) eqn:Ez.
    { destruct (IH _ _ _ _ _ H Hok) as [I1 I2]. split; [exact I1|].
      intros i b Hin Hb. apply elem_of_cons in Hin as [[= -> ->]|Hin].
      - congruence.
      - exact (I2 i b Hin Hb). }
    apply bind_Done in H as (s0 & s1 & Hg & H). apply get_Done in Hg as [-> ->].
    destruct (negb NDEBUG && _).
    { apply ret_Done in H as [<- _]. discriminate. }
    apply bind_Done in H as (con & s1 & Hcon & H).
    apply lift_Done in Hcon as [_ ->].
    apply bind_Done in H as (u & s1 & Hu & H).
    assert (s1 = s) as ->.
    { destruct NDEBUG; [apply ret_Done in Hu as [_ <-]; reflexivity|].
      apply bind_Done in Hu as (w & s2 & Hw & Hu).
      apply deref_Done in Hw as (? & _ & _ & ->).
      apply ret_Done in Hu as [_ <-]. reflexivity. }
    destruct (sense =? 0); [exact (Hstep _ H eq_refl)|].
    destruct (negb _ && negb _).
    { apply ret_Done in H as [<- _]. discriminate. }
    exact (Hstep _ H eq_refl).
Qed.

(** The loop of [readLinComb] collects the assumption lists of the
    constraints it visits. *)
Lemma lincomb_loop_scope p idx ms : ∀ r rhs al s r' rhs' al' s' cs,
  lincomb_loop p idx ms r rhs al s = Done (r', rhs', al') s' →
  NoDup ms.*1 →
  (∀ i, i ∈ ms.*1 → vec_at (constraint s) i = vec_at cs i) →
  al' = al ∪ ⋃ ((λ e : Z * Q,
                   default ∅ (_assumptionList <$> vec_at cs e.1)) <$> ms).
Proof.
  induction ms as [|[index a] ms IH];
    intros r rhs al s r' rhs' al' s' cs H Hnd Hcs; simpl in H.
  - apply ret_Done in H as [[= _ _ <-] _]. simpl. set_solver.
  - apply bind_Done in H as (s0 & s1 & Hg & H). apply get_Done in Hg as [-> ->].
    apply bind_Done in H as (con & s1 & Hcon & H).
    apply lift_Done in Hcon as [Hcon ->].
    simpl in Hnd. apply NoDup_cons in Hnd as [Hnotin Hnd].
    assert (Hhd : default ∅ (_assumptionList <$> vec_at cs index)
                  = _assumptionList con).
    { rewrite <- (Hcs index ltac:(left)), Hcon. reflexivity. }
    simpl. rewrite Hhd.
    destruct (_trashed con).
    { rewrite (IH _ _ _ _ _ _ _ _ cs H Hnd).
      - set_solver.
      - intros i Hi. apply Hcs. right. exact Hi. }
    apply bind_Done in H as (c & s2 & Hd & H).
    apply deref_Done in Hd as (q' & Hq' & Hc' & ->).
    apply bind_Done in H as (v & s2 & Hd & H).
    apply deref_Done in Hd as (p' & [= <-] & Hv' & ->).
    apply bind_Done in H as (u & s2 & Hst & H).
    rewrite store_run in Hst. injection Hst as Hst. subst s2.
    apply bind_Done in H as (u' & s3 & Htr & H).
    pose proof (vec_at_Some _ _ _ Hcon) as Hidx0.
    assert (Hs3 : ∀ i, i ≠ index →
                       vec_at (constraint s3) i = vec_at (constraint s) i).
    { destruct (_ && _).
      - injection Htr as Htr. subst s3.
        intros i Hi. simpl. apply vec_at_insert_ne; assumption.
      - apply ret_Done in Htr as [_ <-]. reflexivity. }
    rewrite (IH _ _ _ _ _ _ _ _ cs H Hnd).
    + set_solver.
    + intros i Hi. rewrite Hs3.
      * apply Hcs. right. exact Hi.
      * intros ->. exact (Hnotin Hi).
Qed.

Lemma cited_scope_spec s terms j :
  j ∈ cited_scope s terms
  ↔ ∃ i a, (i, a) ∈ terms ∧ is_zero a = false ∧ j ∈ scope_at s i.
Proof.
  unfold cited_scope. rewrite elem_of_union_list. split.
  - intros (X & HX & Hj). apply list_elem_of_fmap in HX as ([i a] & -> & Hin).
    simpl in Hj. destruct (is_zero a) eqn:Ez; [set_solver|]. eauto.
  - intros (i & a & Hin & Hz & Hj). exists (scope_at s i). split; [|exact Hj].
    apply list_elem_of_fmap. exists (i, a). simpl. rewrite Hz. auto.
Qed.

(** The assumption list that [derive_lin] returns. *)
Lemma derive_lin_scope NDEBUG rnd terms bracket toDer0 idx s3 al s' :
  derive_lin NDEBUG rnd terms bracket toDer0 idx s3 = Done (true, al) s' →
  al = cited_scope s3 terms.
Proof.
  intros Hd. unfold derive_lin in Hd.
  destruct (make_shared_run s3) as (s4 & Hms & _ & G4).
  rewrite (bind_eq _ _ _ _ _ Hms) in Hd.
  assert (Hcs4 : constraint s4 = constraint s3).
  { apply globals_constraint, G4. }
  apply bind_Done in Hd as ([[[ok senseDer] rhsDer] al'] & s5 & Hlc & Hd).
  assert (al' = al) as ->.
  { destruct ok; [|apply ret_Done in Hd as [[=] _]].
    change (negb true) with false in Hd. cbv iota in Hd.
    destruct (negb _); [apply ret_Done in Hd as [[=] _]|].
    apply bind_Done in Hd as (derived & t1 & _ & Hd).
    apply bind_Done in Hd as ([rounded' derived'] & t2 & _ & Hd).
    destruct (negb rounded'); [apply ret_Done in Hd as [[=] _]|].
    apply bind_Done in Hd as (d & t3 & _ & Hd).
    apply bind_Done in Hd as (u & t4 & _ & Hd).
    apply bind_Done in Hd as (d' & t5 & _ & Hd).
    apply ret_Done in Hd as [[= _ ->] _]. reflexivity. }
  assert (ok = true) as ->.
  { destruct ok; [reflexivity|]. apply ret_Done in Hd as [[=] _]. }
  apply readLinComb_inv in Hlc as (mult & Hm & Hl).
  pose proof (lincomb_loop_scope _ _ _ _ _ _ _ _ _ _ _ (constraint s3) Hl
                (entries_NoDup mult)) as Hal.
  rewrite Hal; [|intros i _; simpl; rewrite Hcs4; reflexivity].
  pose proof (mult_loop_keys _ _ _ _ _ _ _ Hm) as Hk1. simpl in Hk1.
  destruct (mult_loop_keys_back _ _ _ _ _ _ _ Hm eq_refl) as [_ Hk2].
  simpl in Hk2.
  apply set_eq. intros j. rewrite cited_scope_spec.
  rewrite elem_of_union, elem_of_union_list. split.
  - intros [Hj|(X & HX & Hj)]; [set_solver|].
    apply list_elem_of_fmap in HX as ([i a] & -> & Hin).
    apply elem_of_entries in Hin.
    destruct (Hk1 i a Hin) as [He|[Hin' Hz]].
    { rewrite lookup_empty in He. discriminate. }
    exists i, a. auto.
  - intros (i & a & Hin & Hz & Hj). right.
    destruct (Hk2 i a Hin Hz) as [b Hb].
    exists (scope_at s3 i). split; [|exact Hj].
    apply list_elem_of_fmap. exists (i, b). split; [reflexivity|].
    apply elem_of_entries, Hb.
Qed.

Lemma cited_scope_constraint s s' terms :
  constraint s' = constraint s → cited_scope s' terms = cited_scope s terms.
Proof. intros H. unfold cited_scope, scope_at. rewrite H. reflexivity. Qed.

(** The scope of an accepted [lin] or [rnd] step: the assumption list of
    the new constraint is the union of the assumption lists of the
    constraints cited with a multiplier other than 0. *)
Theorem lin_scope NDEBUG l terms s toDer s' :
  dl_reason l = Lin_tok terms ∨ dl_reason l = Rnd_tok terms →
  derive NDEBUG l s = Done (Some toDer) s' →
  _assumptionList toDer = cited_scope s terms.
Proof.
  intros Hr H.
  assert (Hinv : ∃ rnd : bool,
            dl_reason l = if rnd then Rnd_tok terms else Lin_tok terms).
  { destruct Hr as [Hr|Hr]; [exists false|exists true]; exact Hr. }
  destruct Hinv as [rnd Hrnd].
  destruct (derive_lin_inv _ _ _ _ _ _ _ Hrnd H)
    as (toDer0 & s3 & al & coef & vc & Hd & -> & _ & _ & _ & _ & _ & G3 & _).
  simpl. rewrite (derive_lin_scope _ _ _ _ _ _ _ _ _ Hd).
  apply cited_scope_constraint, globals_constraint, G3.
Qed.





Lemma lin_scope_witness :
  _assumptionList (derived_of branches_result)
  = cited_scope state_unsplit [(2, 1%Q); (4, 1%Q)].
Proof.
  apply (lin_scope true line_branches [(2, 1%Q); (4, 1%Q)] state_unsplit
                   (derived_of branches_result) (state_of branches_result)).
  - left. reflexivity.
  - vm_compute. reflexivity.
Defined.

Lemma rtp_view_globals s s' : globals s' = globals s → rtp_view s' = rtp_view s.
Proof.
  unfold globals, rtp_view. intros [=]. congruence.
Qed.

Lemma kept_view_processSOL sols : keeps rtp_view (processSOL sols).
Proof.
  apply kept_processSOL; try reflexivity. apply rtp_view_globals.
Qed.

Lemma kept_view_derive NDEBUG l : keeps rtp_view (derive NDEBUG l).
Proof.
  apply kept_derive; try reflexivity. apply rtp_view_globals.
Qed.

Lemma kept_view_commit last toDer : keeps rtp_view (commit last toDer).
Proof.
  apply kept_commit; try reflexivity. apply rtp_view_globals.
Qed.

Lemma dominates_true a b s s' :
  dominates a b s = Done true s' →
  _falsehood a = true ∨ implies_side a b = true.
Proof.
  unfold dominates. destruct (_falsehood a); [auto|]. intros H.
  apply bind_Done in H as (same & s1 & _ & H).
  apply ret_Done in H as [H _]. apply andb_true_iff in H as [_ H]. auto.
Qed.

(** What [commit] has tested when it ends the loop for [RTP range]. *)
Lemma commit_range last toDer s b s' :
  commit last toDer s = Done (Some b) s' →
  relationToProveType s = RANGE →
  _falsehood toDer = true ∨ implies_side toDer (relationToProve s) = true.
Proof.
  intros H Ht. unfold commit in H.
  apply bind_Done in H as (u & s1 & Hp & H).
  assert (Hv : relationToProveType s1 = RANGE
               ∧ relationToProve s1 = relationToProve s).
  { unfold push_constraint in Hp. injection Hp as Hp. subst s1. auto. }
  destruct Hv as [Ht1 Hr1].
  apply bind_Done in H as (s0 & s2 & Hg & H). apply get_Done in Hg as [-> ->].
  apply bind_Done in H as (proved & s2 & Hpr & H).
  destruct proved.
  2:{ apply bind_Done in H as (u' & s3 & _ & H).
      apply ret_Done in H as [[=] _]. }
  destruct (bool_decide (_assumptionList toDer = ∅));
    [|apply ret_Done in Hpr as [[=] _]].
  rewrite Ht1 in Hpr. simpl in Hpr.
  destruct (_coefsEqualObj toDer); [|apply ret_Done in Hpr as [[=] _]].
  rewrite Hr1 in Hpr. apply dominates_true in Hpr. exact Hpr.
Qed.

Lemma der_loop_range NDEBUG lines : ∀ s s',
  der_loop NDEBUG lines s = Done true s' →
  relationToProveType s = RANGE →
  ∃ l s1 toDer s2,
    l ∈ lines ∧ derive NDEBUG l s1 = Done (Some toDer) s2
    ∧ _assumptionList toDer = ∅
    ∧ _coefsEqualObj toDer = true
    ∧ (_falsehood toDer = true
       ∨ implies_side toDer (relationToProve s) = true).
Proof.
  induction lines as [|l lines IH]; intros s s' H Ht; simpl in H.
  - apply bind_Done in H as (s0 & s1 & _ & H).
    apply bind_Done in H as (c & s2 & _ & H).
    apply ret_Done in H as [[=] _].
  - apply bind_Done in H as ([toDer|] & s1 & Hd & H);
      [|apply ret_Done in H as [[=] _]].
    pose proof (kept_view_derive _ _ _ _ _ Hd) as Hv1.
    assert (Ht1 : relationToProveType s1 = RANGE
                  ∧ relationToProve s1 = relationToProve s).
    { unfold rtp_view in Hv1. injection Hv1 as -> -> _ _ _. auto. }
    destruct Ht1 as [Ht1 Hr1].
    apply bind_Done in H as ([b|] & s2 & Hc & H).
    + apply ret_Done in H as [-> _].
      pose proof (commit_range _ _ _ _ _ Hc Ht1) as Hdom.
      apply commit_proved in Hc as (_ & Ha & _ & Hr).
      rewrite Hr1 in Hdom.
      exists l, s, toDer, s1. split; [left|]. auto.
    + pose proof (kept_view_commit _ _ _ _ _ Hc) as Hv2.
      assert (Ht2 : relationToProveType s2 = RANGE
                    ∧ relationToProve s2 = relationToProve s).
      { unfold rtp_view in Hv2. injection Hv2 as -> -> _ _ _. auto. }
      destruct Ht2 as [Ht2 Hr2].
      destruct (IH _ _ H Ht2)
        as (l' & t1 & toDer' & t2 & Hin & Hd' & Ha & He & Hdom).
      rewrite Hr2 in Hdom.
      exists l', t1, toDer', t2. split; [right; exact Hin|]. auto.
Qed.

Lemma readConstraint_eqObj l p s ok sense p' s' :
  readConstraint l p s = Done (ok, sense, p', true) s' →
  cl_coef l = OBJ_tok.
Proof.
  unfold readConstraint. intros H.
  destruct (is_comment _); [discriminate|].
  assert (Hc : ∀ ok q s1,
            readConstraintCoefficients p (cl_coef l) s = Done (ok, q, true) s1 →
            cl_coef l = OBJ_tok).
  { intros ok' q s1 Hr. unfold readConstraintCoefficients in Hr.
    apply bind_Done in Hr as (w & t1 & _ & Hr).
    apply bind_Done in Hr as (u & t2 & _ & Hr).
    destruct (cl_coef l) as [|pairs]; [reflexivity|].
    apply bind_Done in Hr as (b & t3 & _ & Hr). destruct b.
    - apply bind_Done in Hr as (v & t4 & _ & Hr).
      apply bind_Done in Hr as (u' & t5 & _ & Hr).
      apply ret_Done in Hr as [[=] _].
    - apply ret_Done in Hr as [[=] _]. }
  destruct (Ascii.eqb (cl_senseChar l) "E");
    [|destruct (Ascii.eqb (cl_senseChar l) "L");
      [|destruct (Ascii.eqb (cl_senseChar l) "G")]].
  4:{ apply ret_Done in H as [[=] _]. }
  all: apply bind_Done in H as ([[ok' q] e] & s1 & Hr & H);
       apply ret_Done in H as [[= _ _ _ ->] _]; exact (Hc _ _ _ Hr).
Qed.

(** The fields of the constraint that an accepted step appends. *)
Lemma derive_fields NDEBUG l s toDer s' :
  derive NDEBUG l s = Done (Some toDer) s' →
  _rhs toDer = cl_rhs (dl_con l)
  ∧ (_coefsEqualObj toDer = true → cl_coef (dl_con l) = OBJ_tok).
Proof.
  intros H. unfold derive in H.
  apply bind_Done in H as (p & s1 & Hp & H).
  apply bind_Done in H as ([[[ok sense] coef] eqObj] & s2 & Hrd & H).
  destruct ok; [|apply ret_Done in H as [[=] _]].
  change (negb true) with false in H. cbv iota in H.
  destruct (negb (String.eqb _ _)); [apply ret_Done in H as [[=] _]|].
  apply bind_Done in H as (toDer0 & s3 & Hnew & H).
  assert (Hf : _rhs toDer0 = cl_rhs (dl_con l) ∧ _coefsEqualObj toDer0 = false).
  { unfold Constraint_new in Hnew.
    apply bind_Done in Hnew as (v & t1 & _ & Hnew).
    apply bind_Done in Hnew as (u & t2 & _ & Hnew).
    apply bind_Done in Hnew as (f & t3 & _ & Hnew).
    apply ret_Done in Hnew as [<- _]. simpl. auto. }
  destruct Hf as [Hrhs Heq].
  apply bind_Done in H as (s3' & s3'' & Hget & H).
  apply get_Done in Hget as [-> ->].
  apply bind_Done in H as ([acc al] & s4 & Hd & H).
  destruct acc; [|apply ret_Done in H as [[=] _]].
  apply ret_Done in H as [[= <-] _].
  destruct eqObj; simpl.
  - split; [exact Hrhs|]. intros _. exact (readConstraint_eqObj _ _ _ _ _ _ _ Hrd).
  - split; [exact Hrhs|]. rewrite Heq. discriminate.
Qed.

(** What [processRTP] leaves for [range]. *)
Lemma processRTP_range lowerStr upperStr s s' :
  processRTP (Range_tok lowerStr upperStr) s = Done true s' →
  relationToProveType s' = RANGE ∧ isMin s' = isMin s
  ∧ checkLower s' = (if lowerStr is Num_tok _ then true else false)
  ∧ checkUpper s' = (if upperStr is Num_tok _ then true else false)
  ∧ (isMin s = true → ∀ q, lowerStr = Num_tok q →
       _sense (relationToProve s') = 1 ∧ _rhs (relationToProve s') = q)
  ∧ (isMin s = false → ∀ q, upperStr = Num_tok q →
       _sense (relationToProve s') = -1 ∧ _rhs (relationToProve s') = q).
Proof.
  intros H. unfold processRTP in H.
  apply bind_Done in H as (s0 & s1 & Hg & H). apply get_Done in Hg as [-> ->].
  apply bind_Done in H as (lo & s1 & Hlo & H).
  assert (Elo : s1 = s ∧ lo.1 = (if lowerStr is Num_tok _ then true else false)
                ∧ ∀ q, lowerStr = Num_tok q → lo.2 = q).
  { destruct lowerStr as [[|]|q]; try discriminate;
      apply ret_Done in Hlo as [<- <-]; simpl; split; try reflexivity;
      split; try reflexivity; intros q' [=]; auto. }
  destruct Elo as (-> & Elo1 & Elo2).
  apply bind_Done in H as (up & s1 & Hup & H).
  assert (Eup : s1 = s ∧ up.1 = (if upperStr is Num_tok _ then true else false)
                ∧ ∀ q, upperStr = Num_tok q → up.2 = q).
  { destruct upperStr as [[|]|q]; try discriminate;
      apply ret_Done in Hup as [<- <-]; simpl; split; try reflexivity;
      split; try reflexivity; intros q' [=]; auto. }
  destruct Eup as (-> & Eup1 & Eup2).
  apply bind_Done in H as (u & s1 & Hm & H).
  injection Hm as Hm. subst s1.
  destruct (lo.1 && up.1 && gt lo.2 up.2); [apply ret_Done in H as [[=] _]|].
  apply bind_Done in H as (u' & s2 & Hc & H).
  apply ret_Done in H as [_ <-].
  set (s1 := set_rtp RANGE lo.1 up.1 lo.2 up.2 s) in *.
  assert (Hnew : ∀ sense rhs,
            (c <- Constraint_new "rtp" sense rhs objPtr false ∅ ;;
             modify (set_relationToProve c)) s1 = Done u' s2 →
            relationToProveType s2 = RANGE ∧ isMin s2 = isMin s
            ∧ checkLower s2 = lo.1 ∧ checkUpper s2 = up.1
            ∧ _sense (relationToProve s2) = sense
            ∧ _rhs (relationToProve s2) = rhs).
  { intros sense rhs Hn.
    apply bind_Done in Hn as (c & t & Hn & Hmod).
    pose proof (heap_only_Constraint_new _ _ _ _ _ _ _ _ _ Hn) as G.
    assert (Hf : _sense c = sense ∧ _rhs c = rhs).
    { unfold Constraint_new in Hn.
      apply bind_Done in Hn as (v & t1 & _ & Hn).
      apply bind_Done in Hn as (w & t2 & _ & Hn).
      apply bind_Done in Hn as (f & t3 & _ & Hn).
      apply ret_Done in Hn as [<- _]. simpl. auto. }
    injection Hmod as _ <-. unfold globals in G. simpl in G.
    injection G as _ _ _ _ _ _ G1 _ _ _ G2 G3 G4 _ _. simpl.
    rewrite G1, G2, G3, G4. tauto. }
  destruct (isMin s) eqn:Emin; simpl in Hc.
  - destruct (lo.1) eqn:E1.
    + destruct (Hnew _ _ Hc) as (H1 & H2 & H3 & H4 & H5 & H6).
      rewrite <- Elo1, <- Eup1.
      repeat split; try assumption; try discriminate.
      rewrite H6. apply Elo2. assumption.
    + apply ret_Done in Hc as [_ <-]. simpl.
      rewrite <- Elo1, <- Eup1.
      repeat split; try assumption; try discriminate;
        match goal with Hq : lowerStr = Num_tok _ |- _ =>
          rewrite Hq in Elo1; discriminate end.
  - destruct (up.1) eqn:E1.
    + destruct (Hnew _ _ Hc) as (H1 & H2 & H3 & H4 & H5 & H6).
      rewrite <- Elo1, <- Eup1.
      repeat split; try assumption; try discriminate.
      rewrite H6. apply Eup2. assumption.
    + apply ret_Done in Hc as [_ <-]. simpl.
      rewrite <- Elo1, <- Eup1.
      repeat split; try assumption; try discriminate;
        match goal with Hq : upperStr = Num_tok _ |- _ =>
          rewrite Hq in Eup1; discriminate end.
Qed.

Lemma isMin_globals s s' : globals s' = globals s → isMin s' = isMin s.
Proof. unfold globals. intros [=]. assumption. Qed.

Lemma con_loop_isMin lines : ∀ r, keeps isMin (con_loop lines r).
Proof.
  induction lines as [|l lines IH]; intros r; simpl.
  - apply keeps_ret.
  - apply keeps_bind.
    { apply (kept_heap_only isMin isMin_globals), heap_only_make_shared. }
    intros coef. apply keeps_bind.
    { apply (kept_heap_only isMin isMin_globals), heap_only_readConstraint. }
    intros [[[ok sense] p] eq]. destruct ok; [|apply keeps_ret].
    apply keeps_bind.
    { apply (kept_heap_only isMin isMin_globals), heap_only_Constraint_new. }
    intros c. apply keeps_bind; [|intros _; apply IH].
    unfold push_constraint. apply keeps_modify. reflexivity.
Qed.

Lemma processCON_isMin lines : keeps isMin (processCON lines).
Proof.
  unfold processCON. apply keeps_bind.
  - apply keeps_modify. reflexivity.
  - intros _. apply con_loop_isMin.
Qed.

Lemma processOBJ_isMin obj s s' :
  processOBJ obj s = Done true s' → isMin s' = String.eqb obj.1 "min".
Proof.
  unfold processOBJ. intros H.
  assert (Hgo : ∀ min,
    (r <- readConstraintCoefficients objPtr obj.2 ;;
     let '(returnStatement, _, _) := r in
     v <- deref (Some objPtr) ;;
     s <- get ;;
     integral <- lift (integral_loop (isInt s) (entries v) true) ;;
     modify (set_objective min integral) ;;;
     ret returnStatement) s = Done true s' → isMin s' = min).
  { intros min Hg.
    apply bind_Done in Hg as ([[r p] e] & s1 & _ & Hg).
    apply bind_Done in Hg as (v & s2 & _ & Hg).
    apply bind_Done in Hg as (s0 & s3 & _ & Hg).
    apply bind_Done in Hg as (i & s4 & _ & Hg).
    apply bind_Done in Hg as (u & s5 & Hm & Hg).
    apply ret_Done in Hg as [_ <-]. injection Hm as _ <-. reflexivity. }
  destruct (String.eqb obj.1 "min"); [exact (Hgo _ H)|].
  destruct (String.eqb obj.1 "max"); [|apply ret_Done in H as [[=] _]].
  exact (Hgo _ H).
Qed.

Lemma implies_side_bound a b :
  implies_side a b = true →
  (_sense b = 1 → 0 ≤ _sense a ∧ (_rhs b <= _rhs a)%Q)
  ∧ (_sense b = -1 → _sense a ≤ 0 ∧ (_rhs a <= _rhs b)%Q).
Proof.
  unfold implies_side.
  rewrite !orb_true_iff, !andb_true_iff.
  rewrite !Z.ltb_lt, !Z.leb_le, !Z.eqb_eq, ge_spec, le_spec, mpq_equal_eq.
  intros [[((Hb & Ha) & Hr)|((Hb & Ha) & Hr)]|((Hb & Ha) & Hr)];
    split; intros Hs; try lia; auto.
Qed.

(** What [OKAY] means for [RTP range] with a finite dual bound: when [main]
    returns [OKAY], some line of [DER] was accepted whose constraint has no
    assumption left and the coefficients [OBJ], and which is a falsehood or
    bounds the objective as the relation to prove demands: for a
    minimisation its sense is [>=] or [=] and its right-hand side is at
    least the lower bound, for a maximisation its sense is [<=] or [=] and
    its right-hand side is at most the upper bound. *)
Theorem okay_range MAJOR MINOR NDEBUG cert sn b :
  verdict (main MAJOR MINOR NDEBUG cert) = Some OKAY →
  dual_bound cert = Some (sn, b) →
  ∃ l s1 toDer s2,
    l ∈ cDER cert
    ∧ derive NDEBUG l s1 = Done (Some toDer) s2
    ∧ _assumptionList toDer = ∅
    ∧ cl_coef (dl_con l) = OBJ_tok
    ∧ (_falsehood toDer = true
       ∨ (0 ≤ sn * _sense toDer ∧ rel sn (cl_rhs (dl_con l)) b)).
Proof.
  intros H Hb. apply verdict_Some in H as [sf H]. unfold main in H.
  apply stage_OKAY in H as (s1 & _ & H).
  apply stage_OKAY in H as (s2 & _ & H).
  apply stage_OKAY in H as (s3 & _ & H).
  apply stage_OKAY in H as (s4 & Ho & H).
  apply stage_OKAY in H as (s5 & Hc & H).
  apply stage_OKAY in H as (s6 & Hr & H).
  apply stage_OKAY in H as (s7 & Hs & H).
  apply stage_OKAY in H as (s8 & Hd & _).
  apply processOBJ_isMin in Ho.
  apply processCON_isMin in Hc. rewrite Ho in Hc.
  unfold dual_bound in Hb.
  destruct (cRTP cert) as [|lowerStr upperStr|] eqn:Ertp; try discriminate.
  apply processRTP_range in Hr as (Ht & Hmin & Hcl & Hcu & Hlo & Hup).
  rewrite Hc in Hmin, Hlo, Hup.
  pose proof (kept_view_processSOL _ _ _ _ Hs) as Hv.
  unfold rtp_view in Hv. injection Hv as Ht7 Hr7 Hm7 Hl7 Hu7.
  rewrite Ht in Ht7. rewrite Hmin in Hm7. rewrite Hcl in Hl7. rewrite Hcu in Hu7.
  unfold processDER in Hd.
  apply bind_Done in Hd as (s0 & t & Hg & Hd). apply get_Done in Hg as [-> ->].
  rewrite Ht7, Hm7, Hl7, Hu7 in Hd. simpl is_RANGE in Hd.
  assert (Hbound : _sense (relationToProve s7) = sn
                   ∧ _rhs (relationToProve s7) = b
                   ∧ (sn = 1 ∨ sn = -1)
                   ∧ der_loop NDEBUG (cDER cert) s7 = Done true s8).
  { rewrite Hr7. destruct (String.eqb (cOBJ cert).1 "min").
    - destruct lowerStr as [neg|q]; [discriminate|]. injection Hb as <- <-.
      destruct (Hlo eq_refl q eq_refl) as [-> ->]. simpl in Hd. auto.
    - destruct upperStr as [neg|q]; [discriminate|]. injection Hb as <- <-.
      destruct (Hup eq_refl q eq_refl) as [-> ->]. simpl in Hd. auto. }
  destruct Hbound as (Hsn & Hrb & Hcases & Hloop).
  apply der_loop_range in Hloop
    as (l & t1 & toDer & t2 & Hin & Hder & Ha & Heq & Hdom); [|exact Ht7].
  destruct (derive_fields _ _ _ _ _ Hder) as [Hrhs Hobj].
  exists l, t1, toDer, t2. split; [exact Hin|]. split; [exact Hder|].
  split; [exact Ha|]. split; [exact (Hobj Heq)|].
  destruct Hdom as [Hf|Himp]; [left; exact Hf|right].
  apply implies_side_bound in Himp as [H1 H2].
  rewrite Hsn, Hrb, Hrhs in H1, H2. unfold rel.
  destruct Hcases as [-> | ->]; simpl.
  - destruct (H1 eq_refl) as [Hs1 Hr1]. split; [lia|exact Hr1].
  - destruct (H2 eq_refl) as [Hs1 Hr1]. split; [lia|exact Hr1].
Qed.

Lemma okay_range_witness :
  ∃ l s1 toDer s2,
    l ∈ cDER cert_max
    ∧ derive true l s1 = Done (Some toDer) s2
    ∧ _assumptionList toDer = ∅
    ∧ cl_coef (dl_con l) = OBJ_tok
    ∧ (_falsehood toDer = true
       ∨ (0 ≤ -1 * _sense toDer ∧ rel (-1) (cl_rhs (dl_con l)) 4)).
Proof.
  apply (okay_range VIPR_VERSION_MAJOR VIPR_VERSION_MINOR true cert_max
                    (-1) 4).
  - vm_compute. reflexivity.
  - reflexivity.
Defined.

Lemma readConstraint_sense l p s sense p' eqObj s' :
  readConstraint l p s = Done (true, sense, p', eqObj) s' →
  sense_of (cl_senseChar l) = Some sense
  ∧ readConstraintCoefficients p (cl_coef l) s = Done (true, p', eqObj) s'.
Proof.
  unfold readConstraint, sense_of. intros H.
  destruct (is_comment _); [discriminate|].
  destruct (Ascii.eqb (cl_senseChar l) "E");
    [|destruct (Ascii.eqb (cl_senseChar l) "L");
      [|destruct (Ascii.eqb (cl_senseChar l) "G")]].
  4:{ apply ret_Done in H as [[=] _]. }
  all: apply bind_Done in H as ([[ok' q] e] & s1 & Hr & H);
       apply ret_Done in H as [[= -> <- -> ->] <-]; auto.
Qed.

Lemma con_loop_stored lines : ∀ r s s',
  con_loop lines r s = Done true s' →
  (lines = [] → r = true)
  ∧ allocated s' = (allocated s + length lines)%nat
  ∧ (∀ q, (q ≤ allocated s)%nat → q ≠ objPtr → heap s' !! q = heap s !! q)
  ∧ ∃ cs, constraint s' = constraint s ++ cs ∧ Forall2 (stored s') lines cs.
Proof.
  induction lines as [|l lines IH]; intros r s s' H; simpl in H.
  - apply ret_Done in H as [-> <-]. split; [auto|]. split; [simpl; lia|].
    split; [auto|]. exists []. rewrite app_nil_r. split; [reflexivity|constructor].
  - destruct (make_shared_run s) as (s1 & Hms & Hh1 & G1).
    rewrite (bind_eq _ _ _ _ _ Hms) in H.
    assert (Ha1 : allocated s1 = S (allocated s)).
    { unfold make_shared in Hms. cbv [bind get put ret] in Hms.
      injection Hms as <-. reflexivity. }
    set (q1 := S (allocated s)) in *.
    apply bind_Done in H as ([[[ok sense] coef] eqObj] & s2 & Hrd & H).
    destruct ok; [|apply ret_Done in H as [[=] _]].
    pose proof (heap_only_readConstraint _ _ _ _ _ Hrd) as G2.
    apply readConstraint_sense in Hrd as [Hsense Hrd].
    assert (Hrc : allocated s2 = allocated s1
                  ∧ (∀ q, q ≠ q1 → q ≠ objPtr → heap s2 !! q = heap s1 !! q)
                  ∧ ∃ v2, heap s2 !! coef = Some v2 ∧ compact v2
                    ∧ match cl_coef l with
                      | OBJ_tok => coef = objPtr
                      | Vec_tok pairs => coef = q1 ∧ v2 = vector_of pairs
                      end).
    { assert (Hq1 : heap s1 !! q1 = Some ∅)
        by (rewrite Hh1; apply lookup_insert_eq).
      destruct (cl_coef l) as [|pairs].
      - assert (Hobj : is_Some (heap s1 !! objPtr)).
        { unfold readConstraintCoefficients in Hrd.
          rewrite (bind_eq _ _ _ _ _ (deref_run s1 q1 ∅ Hq1)) in Hrd.
          rewrite (bind_eq _ _ _ _ _ (store_run s1 q1 ∅)) in Hrd.
          apply bind_Done in Hrd as (v & t & Hd & _).
          apply deref_Done in Hd as (a & [= <-] & Hv & _). simpl in Hv.
          rewrite lookup_insert_ne in Hv by discriminate. eauto. }
        destruct Hobj as [vo Hvo].
        rewrite (readConstraintCoefficients_OBJ_run q1 s1 ∅ vo
                   ltac:(discriminate) Hq1 Hvo) in Hrd.
        injection Hrd as <- _ <-. split; [reflexivity|]. split.
        + intros q Hq Hqo. simpl. rewrite !lookup_insert_ne by congruence.
          reflexivity.
        + exists (compactify vo). simpl. rewrite lookup_insert_eq.
          split; [reflexivity|]. split; [apply compactify_compact|reflexivity].
      - destruct (readConstraintCoefficients_Vec q1 pairs s1
                    (mk_is_Some _ _ Hq1))
          as (t & Hrun & _ & Ha & Hq & _ & Hok).
        rewrite Hrun in Hrd. injection Hrd as Hall <- _ <-.
        split; [exact Ha|]. split; [intros q Hq' _; apply Hq, Hq'|].
        exists (vector_of pairs). split; [exact (Hok Hall)|].
        split; [apply compactify_compact|auto]. }
    destruct Hrc as (Ha2 & Hf2 & v2 & Hv2 & Hc2 & Htok).
    rewrite (bind_eq _ _ _ _ _
               (Constraint_new_run _ _ _ _ _ _ _ _ Hv2)) in H.
    rewrite (compact_compactify v2 Hc2) in H.
    rewrite (insert_id _ _ _ Hv2), set_heap_id in H.
    unfold push_constraint in H. unfold bind at 1 in H. simpl in H.
    match type of H with
    | con_loop _ _ (set_constraint (_ ++ [?c0]) _) = _ => set (c := c0) in *
    end.
    destruct (IH _ _ _ H) as (_ & Ha' & Hf' & cs & Hcs & Hall).
    simpl in Ha', Hf', Hcs.
    split; [discriminate|]. split; [simpl; lia|]. split.
    { intros q Hq Hqo. rewrite Hf' by (try assumption; lia).
      rewrite Hf2 by (try assumption; unfold q1; lia).
      rewrite Hh1. apply lookup_insert_ne. unfold q1. lia. }
    exists (c :: cs). split.
    { rewrite Hcs, <- app_assoc. simpl.
      rewrite (globals_constraint s2 s) by congruence. reflexivity. }
    constructor; [|exact Hall].
    unfold stored, c. simpl. repeat split; try assumption.
    destruct (cl_coef l) as [|pairs].
    + rewrite Htok. reflexivity.
    + destruct Htok as [-> ->]. unfold coefs. simpl.
      rewrite Hf' by (try discriminate; unfold q1; lia). exact Hv2.
Qed.

(** [processCON] returns true exactly when it has read at least one
    constraint and has read every constraint; the constraints are then
    appended to [constraint] in the order of the section, each as
    [stored] describes. *)
Theorem constraints_read lines s s' :
  processCON lines s = Done true s' →
  lines ≠ []
  ∧ numberOfConstraints s' = Z.of_nat (length lines)
  ∧ ∃ cs, constraint s' = constraint s ++ cs ∧ Forall2 (stored s') lines cs.
Proof.
  intros H. unfold processCON in H. unfold bind at 1 in H. simpl in H.
  destruct (con_loop_stored _ _ _ _ H) as (Hne & _ & _ & cs & Hcs & Hall).
  split; [intros ->; specialize (Hne eq_refl); discriminate|].
  split; [|exists cs; auto].
  assert (Hn : ∀ ls r t t', con_loop ls r t = Done true t' →
                            numberOfConstraints t' = numberOfConstraints t).
  { induction ls as [|l ls IH]; intros r t t' Hl; simpl in Hl.
    - apply ret_Done in Hl as [_ <-]. reflexivity.
    - apply bind_Done in Hl as (p & t1 & Hp & Hl).
      apply heap_only_make_shared in Hp.
      apply bind_Done in Hl as ([[[ok sense] coef] eqObj] & t2 & Hrd & Hl).
      apply heap_only_readConstraint in Hrd.
      destruct ok; [|apply ret_Done in Hl as [[=] _]].
      apply bind_Done in Hl as (c & t3 & Hnew & Hl).
      apply heap_only_Constraint_new in Hnew.
      unfold push_constraint in Hl. unfold bind at 1 in Hl. simpl in Hl.
      rewrite (IH _ _ _ Hl). simpl.
      unfold globals in *. congruence. }
  rewrite (Hn _ _ _ _ H). reflexivity.
Qed.

Lemma constraints_read_witness :
  cons_xy ≠ []
  ∧ numberOfConstraints (state_of cons_result) = Z.of_nat (length cons_xy)
  ∧ ∃ cs, constraint (state_of cons_result) = constraint state_obj ++ cs
          ∧ Forall2 (stored (state_of cons_result)) cons_xy cs.
Proof.
  apply (constraints_read cons_xy state_obj (state_of cons_result)).
  vm_compute. reflexivity.
Defined.

End ChkSound.

(** * Properties of the width tool *)

Module WidthFacts.
Import Incomp IncompSpec IncompFacts Width WidthSpec.













Ltac step_word := unfold bind at 1; unfold read_word at 1; simpl.
Ltac step_long := unfold bind at 1; unfold read_long at 1; simpl.






















End WidthFacts.


(** * The circular buffer of the completer: first in, first out *)

Module CompQueueFacts.
Import CompQueue.

Section CircBuf.
Context {A : Type} (null : A).

Local Abbreviation circBuf := (circBuf A).

Ltac zcases :=
  repeat match goal with
    | H : context [?a <=? ?b] |- _ => destruct (Z.leb_spec a b); simpl in H
    | H : context [?a <? ?b] |- _ => destruct (Z.ltb_spec a b); simpl in H
    | H : context [?a =? ?b] |- _ => destruct (Z.eqb_spec a b); simpl in H
    | |- context [?a <=? ?b] => destruct (Z.leb_spec a b); simpl
    | |- context [?a <? ?b] => destruct (Z.ltb_spec a b); simpl
    | |- context [?a =? ?b] => destruct (Z.eqb_spec a b); simpl
    end.

Lemma contents_length (b : circBuf) :
  length (contents null b) = Z.to_nat (occupied b).
Proof. unfold contents. rewrite length_fmap, length_seqZ. reflexivity. Qed.

Lemma contents_lookup (b : circBuf) (k : nat) :
  Z.of_nat k < occupied b →
  contents null b !! k
  = Some (default null (arr_get (arr b)
                                (wrap (size b) (head b + Z.of_nat k)))).
Proof.
  intros H. unfold contents. rewrite list_lookup_fmap.
  rewrite lookup_seqZ_lt by lia. reflexivity.
Qed.

Lemma arr_get_insert (a : list A) (i j : Z) x :
  0 ≤ i < Z.of_nat (length a) →
  arr_get (<[Z.to_nat i := x]> a) j = if j =? i then Some x else arr_get a j.
Proof.
  intros Hi. unfold arr_get. destruct (Z.eqb_spec j i) as [->|Hne].
  - destruct (Z.leb_spec 0 i); [|lia].
    apply list_lookup_insert_eq. lia.
  - destruct (Z.leb_spec 0 j); [|reflexivity].
    apply list_lookup_insert_ne. lia.
Qed.

(** A list is another one with an entry appended. *)
Lemma snoc_lookup (l l1 : list A) x :
  length l = S (length l1) →
  (∀ k, (k < length l1)%nat → l !! k = l1 !! k) →
  l !! length l1 = Some x →
  l = l1 ++ [x].
Proof.
  intros Hlen Hpre Hlast. apply list_eq. intros k.
  destruct (decide (k < length l1)%nat) as [Hk|Hk].
  - rewrite lookup_app_l by exact Hk. apply Hpre, Hk.
  - rewrite lookup_app_r by lia.
    destruct (decide (k = length l1)) as [->|Hne].
    + rewrite Nat.sub_diag. exact Hlast.
    + rewrite !lookup_ge_None_2; [reflexivity| |]; simpl; lia.
Qed.

(** [enqueue] on a buffer that is not full. *)
Lemma enqueue_spec (b : circBuf) x :
  well_formed b → occupied b < size b →
  ∃ b', enqueue b x = Some b' ∧ well_formed b' ∧ size b' = size b
        ∧ contents null b' = contents null b ++ [x].
Proof.
  intros [Hlen Hpos] Hfree. destruct b as [t h n a]. simpl in *.
  unfold enqueue, occupied in *. simpl in *.
  assert (Hset : ∀ i, 0 ≤ i < n →
            arr_set a i x = Some (<[Z.to_nat i := x]> a)).
  { intros i Hi. unfold arr_set.
    destruct (Z.leb_spec 0 i), (Z.ltb_spec i (Z.of_nat (length a)));
      simpl; try lia; reflexivity. }
  assert (Hfin : ∀ t' h' i,
            0 ≤ i < n → t' = i → 0 ≤ h' < n →
            occupied (mkCircBuf t' h' n (<[Z.to_nat i := x]> a))
            = (if h =? -1 then 0
               else if h <=? t then t - h + 1 else n - h + t + 1) + 1 →
            (∀ k : nat, Z.of_nat k < (if h =? -1 then 0
                                      else if h <=? t then t - h + 1
                                           else n - h + t + 1) →
                        wrap n (h' + Z.of_nat k) ≠ i
                        ∧ wrap n (h' + Z.of_nat k) = wrap n (h + Z.of_nat k)) →
            wrap n (h' + (if h =? -1 then 0
                          else if h <=? t then t - h + 1
                               else n - h + t + 1)) = i →
            ∃ b', Some (mkCircBuf t' h' n (<[Z.to_nat i := x]> a)) = Some b'
                  ∧ well_formed b' ∧ size b' = n
                  ∧ contents null b' = contents null (mkCircBuf t h n a) ++ [x]).
  { intros t' h' i Hi Ht' Hh' Hocc Hold Hnew. eexists. split; [reflexivity|].
    split.
    { split; simpl; [rewrite length_insert; exact Hlen|right; lia]. }
    split; [reflexivity|].
    set (occ := if h =? -1 then 0
                else if h <=? t then t - h + 1 else n - h + t + 1) in *.
    assert (Hocc0 : 0 ≤ occ) by (unfold occ; zcases; lia).
    assert (Hoccb : occupied (mkCircBuf t h n a) = occ) by reflexivity.
    apply snoc_lookup.
    - rewrite !contents_length, Hocc, Hoccb. lia.
    - intros k Hk. rewrite contents_length, Hoccb in Hk.
      rewrite !contents_lookup by (rewrite ?Hocc, ?Hoccb; lia). simpl.
      destruct (Hold k ltac:(lia)) as [Hne Heq].
      rewrite arr_get_insert by lia.
      destruct (Z.eqb_spec (wrap n (h' + Z.of_nat k)) i); [lia|].
      rewrite Heq. reflexivity.
    - rewrite contents_length, Hoccb.
      rewrite contents_lookup by (rewrite Hocc, Z2Nat.id; lia). simpl.
      rewrite Z2Nat.id by lia. rewrite Hnew.
      rewrite arr_get_insert by lia. rewrite Z.eqb_refl. reflexivity. }
  destruct (Z.eqb_spec h (-1)) as [Hh|Hh].
  - cbv iota in Hfree, Hfin. rewrite Hset by lia. apply Hfin; try lia.
    + unfold occupied. simpl. lia.
    + unfold wrap. zcases; lia.
  - cbv iota in Hfree, Hfin. destruct Hpos as [[? ?]|[Hh' Ht']]; [lia|].
    destruct ((t =? n - 1) && negb (h =? 0)) eqn:Ewrap.
    + apply andb_true_iff in Ewrap as [E1 E2].
      apply Z.eqb_eq in E1. apply negb_true_iff, Z.eqb_neq in E2.
      rewrite Hset by lia. apply Hfin; try lia.
      * unfold occupied. simpl. zcases; lia.
      * intros k Hk. unfold wrap. zcases; lia.
      * unfold wrap. zcases; lia.
    + assert (Hnw : t ≠ n - 1 ∨ h = 0).
      { apply andb_false_iff in Ewrap as [E|E].
        - left. apply Z.eqb_neq, E.
        - right. apply negb_false_iff, Z.eqb_eq in E. exact E. }
      assert (Ht1 : t + 1 < n).
      { destruct (Z.leb_spec h t); lia. }
      rewrite Hset by lia. apply Hfin; try lia.
      * unfold occupied. simpl. zcases; lia.
      * intros k Hk. unfold wrap. zcases; lia.
      * unfold wrap. zcases; lia.
Qed.

(** [dequeue] on a buffer that is not empty. *)
Lemma dequeue_spec (b : circBuf) x q :
  well_formed b → contents null b = x :: q →
  ∃ b', dequeue b = Some (x, b') ∧ well_formed b' ∧ size b' = size b
        ∧ contents null b' = q.
Proof.
  intros [Hlen Hpos] Hq. destruct b as [t h n a]. simpl in *.
  assert (Hocc : 0 < occupied (mkCircBuf t h n a)).
  { pose proof (contents_length (mkCircBuf t h n a)) as L.
    rewrite Hq in L. simpl in L. lia. }
  assert (Hh : h ≠ -1).
  { intros ->. unfold occupied in Hocc. simpl in Hocc. lia. }
  destruct Hpos as [[? ?]|[Hh' Ht']]; [lia|].
  assert (Hget : ∀ i, 0 ≤ i < n →
            arr_get a i = Some (default null (arr_get a i))).
  { intros i Hi. unfold arr_get. destruct (Z.leb_spec 0 i); [|lia].
    destruct (lookup_lt_is_Some_2 a (Z.to_nat i) ltac:(lia)) as [y Hy].
    rewrite Hy. reflexivity. }
  assert (Hx : arr_get a h = Some x).
  { pose proof (contents_lookup (mkCircBuf t h n a) 0 Hocc) as L.
    rewrite Hq in L. simpl in L. injection L as ->.
    assert (Hw : wrap n (h + Z.of_nat 0) = h) by (unfold wrap; zcases; lia).
    rewrite Hw. apply Hget. lia. }
  unfold dequeue. simpl. rewrite Hx. simpl.
  eexists. split; [reflexivity|].
  assert (Hfin : ∀ t' h',
            ((h' = -1 ∧ t' = -1) ∨ (0 ≤ h' < n ∧ 0 ≤ t' < n)) →
            occupied (mkCircBuf t' h' n a)
            = occupied (mkCircBuf t h n a) - 1 →
            (∀ k : nat, Z.of_nat k < occupied (mkCircBuf t h n a) - 1 →
                        wrap n (h' + Z.of_nat k)
                        = wrap n (h + Z.of_nat (S k))) →
            well_formed (mkCircBuf t' h' n a)
            ∧ size (mkCircBuf t' h' n a) = n
            ∧ contents null (mkCircBuf t' h' n a) = q).
  { intros t' h' Hwf Ho Hk. split; [split; [exact Hlen|exact Hwf]|].
    split; [reflexivity|].
    assert (Hlq : Z.of_nat (length q) = occupied (mkCircBuf t h n a) - 1).
    { pose proof (contents_length (mkCircBuf t h n a)) as L.
      rewrite Hq in L. simpl in L. lia. }
    symmetry. apply list_eq. intros k.
    destruct (decide (k < length q)%nat) as [Hkq|Hkq].
    - rewrite contents_lookup by lia. simpl. rewrite (Hk k) by lia.
      pose proof (contents_lookup (mkCircBuf t h n a) (S k) ltac:(lia)) as L.
      rewrite Hq in L. simpl in L. exact L.
    - rewrite !lookup_ge_None_2; [reflexivity| |];
        rewrite ?contents_length; lia. }
  unfold occupied in *. simpl in *.
  destruct (Z.eqb_spec h t) as [->|Hne].
  - apply Hfin; [left; auto| |].
    + unfold occupied. simpl. zcases; lia.
    + intros k Hk. revert Hk. zcases; lia.
  - destruct (Z.eqb_spec h (n - 1)) as [->|Hne2].
    + apply Hfin; [right; lia| |].
      * unfold occupied. simpl. zcases; lia.
      * intros k Hk. revert Hk. unfold wrap. zcases; lia.
    + apply Hfin; [right; lia| |].
      * unfold occupied. simpl. zcases; lia.
      * intros k Hk. revert Hk. unfold wrap. zcases; lia.
Qed.


Lemma isEmpty_contents (b : circBuf) :
  well_formed b → isEmpty b = bool_decide (contents null b = []).
Proof.
  intros [Hlen Hpos]. unfold isEmpty.
  pose proof (contents_length b) as L. unfold occupied in L.
  destruct (Z.eqb_spec (head b) (-1)) as [Hh|Hh].
  - symmetry. apply bool_decide_eq_true.
    destruct (contents null b); [reflexivity|simpl in L; lia].
  - symmetry. apply bool_decide_eq_false. intros E. rewrite E in L.
    simpl in L. revert L. zcases; lia.
Qed.

Lemma resize_well_formed (b : circBuf) n :
  0 ≤ n →
  ∃ b', resize null b n = Some b' ∧ well_formed b' ∧ size b' = n
        ∧ contents null b' = [].
Proof.
  intros Hn. unfold resize, vector_resize.
  destruct (Z.ltb_spec n 0); [lia|]. simpl. eexists. split; [reflexivity|].
  split; [|split; reflexivity].
  split; simpl; [|left; auto].
  rewrite length_app, length_take, length_replicate. lia.
Qed.

(** On a well-formed buffer the calls of [enqueue] and
    [dequeue] behave as a first-in first-out queue of at most [size]
    entries, as long as no entry is taken from the empty queue and none is
    added to a full one: [dequeue] returns the entries in the order in which
    they were added, the buffer stays well formed, and [isEmpty] tells
    whether entries are left. *)
Theorem queue_refines_fifo (calls : list (call A)) (b : circBuf) outs q :
  well_formed b →
  fifo (Z.to_nat (size b)) calls (contents null b) = Some (outs, q) →
  ∃ b', run calls b = Some (outs, b')
        ∧ well_formed b' ∧ size b' = size b
        ∧ contents null b' = q
        ∧ isEmpty b' = bool_decide (q = []).
Proof.
  revert b outs q. induction calls as [|c calls IH]; intros b outs q Hwf Hf.
  - simpl in Hf. injection Hf as <- <-. exists b. simpl.
    repeat split; try apply Hwf. apply isEmpty_contents, Hwf.
  - destruct c as [x|]; simpl in Hf.
    + destruct (decide (length (contents null b) < Z.to_nat (size b))%nat)
        as [Hfree|]; [|discriminate].
      rewrite contents_length in Hfree.
      destruct (enqueue_spec b x Hwf) as (b1 & He & Hwf1 & Hs1 & Hc1).
      { destruct Hwf as [Hlen _]. lia. }
      rewrite <- Hc1, <- Hs1 in Hf.
      destruct (IH b1 outs q Hwf1 Hf) as (b' & Hr & Hwf' & Hs' & Hc' & Hi').
      exists b'. simpl. rewrite He. simpl.
      repeat split; try apply Hwf'; try assumption. congruence.
    + destruct (contents null b) as [|x q0] eqn:Hq; [discriminate|].
      destruct (fifo (Z.to_nat (size b)) calls q0) as [[outs' q']|] eqn:Hf';
        [|discriminate].
      simpl in Hf. injection Hf as <- <-.
      destruct (dequeue_spec b x q0 Hwf Hq) as (b1 & Hd & Hwf1 & Hs1 & Hc1).
      rewrite <- Hc1, <- Hs1 in Hf'.
      destruct (IH b1 outs' q' Hwf1 Hf') as (b' & Hr & Hwf' & Hs' & Hc' & Hi').
      exists b'. simpl. rewrite Hd. simpl. rewrite Hr. simpl.
      repeat split; try apply Hwf'; try assumption. congruence.
Qed.

(** [enqueue] on a full buffer: with the oldest entry at position 0 the new
    entry is written behind the end of the vector; with the oldest entry
    somewhere else the call succeeds, the new entry replaces the oldest one,
    and the buffer then holds the new entry alone. *)
Theorem enqueue_full (b : circBuf) x :
  well_formed b → occupied b = size b → 0 < size b →
  (head b = 0 → enqueue b x = None)
  ∧ (head b ≠ 0 →
     ∃ b', enqueue b x = Some b' ∧ well_formed b'
           ∧ head b' = head b ∧ contents null b' = [x]).
Proof.
  intros [Hlen Hpos] Hfull Hn. destruct b as [t h n a]. simpl in *.
  unfold occupied in Hfull. simpl in Hfull. unfold enqueue. simpl.
  destruct (Z.eqb_spec h (-1)) as [Hh|Hh]; [lia|].
  destruct Hpos as [[? ?]|[Hh' Ht']]; [lia|].
  split.
  - intros ->. simpl. rewrite andb_false_r. simpl in Hfull.
    destruct (Z.leb_spec 0 t); [|lia].
    unfold arr_set.
    destruct (Z.ltb_spec (t + 1) (Z.of_nat (length a))); [lia|].
    rewrite andb_false_r. reflexivity.
  - intros Hh0. destruct (Z.leb_spec h t); [lia|].
    destruct (Z.eqb_spec t (n - 1)); [lia|]. simpl.
    unfold arr_set.
    destruct (Z.leb_spec 0 (t + 1)); [|lia].
    destruct (Z.ltb_spec (t + 1) (Z.of_nat (length a))); [|lia]. simpl.
    eexists. split; [reflexivity|]. split.
    { split; simpl; [rewrite length_insert; exact Hlen|right; lia]. }
    split; [reflexivity|].
    assert (Ht1 : t + 1 = h) by lia.
    unfold contents, occupied. simpl. rewrite Ht1.
    destruct (Z.eqb_spec h (-1)); [lia|].
    destruct (Z.leb_spec h h); [|lia].
    replace (h - h + 1) with 1 by lia. simpl.
    assert (Hw : wrap n (h + (Z.of_nat 0 + 0)) = h)
      by (unfold wrap; zcases; lia).
    rewrite arr_get_insert, Hw by lia. rewrite Z.eqb_refl. reflexivity.
Qed.

End CircBuf.

(** The full buffer of three entries: the two oldest entries are returned in
    order, one is added in between. *)
Lemma queue_refines_fifo_witness :
  ∃ b', run [Dequeue; Enqueue 40; Dequeue] full_buffer
        = Some ([10; 20], b')
        ∧ well_formed b' ∧ size b' = size full_buffer
        ∧ contents 0 b' = [30; 40]
        ∧ isEmpty b' = bool_decide ([30; 40] = @nil Z).
Proof.
  apply (queue_refines_fifo 0 [Dequeue; Enqueue 40; Dequeue] full_buffer).
  - split; [reflexivity|right; simpl; lia].
  - reflexivity.
Defined.

(** One more entry on the full buffer of three entries. *)
Lemma enqueue_full_witness :
  (head full_buffer = 0 → enqueue full_buffer 40 = None)
  ∧ (head full_buffer ≠ 0 →
     ∃ b', enqueue full_buffer 40 = Some b' ∧ well_formed b'
           ∧ head b' = head full_buffer ∧ contents 0 b' = [40]).
Proof.
  apply (enqueue_full 0 full_buffer 40).
  - split; [reflexivity|right; simpl; lia].
  - reflexivity.
  - simpl. lia.
Defined.

End CompQueueFacts.

(** * The bounds that the completer records while it reads the constraints *)

Module CompReadFacts.
Import Comp CompFacts CompRead CompReadSpec.

(** ** Vectors *)

Lemma comp_vec_set_at {A} (v v' : list A) i x j :
  vec_set v i x = Some v' →
  vec_at v' j = if j =? i then Some x else vec_at v j.
Proof.
  unfold vec_set, vec_at. intros H.
  destruct (Z.leb_spec 0 i); [|discriminate].
  destruct (Z.ltb_spec i (Z.of_nat (length v))); [|discriminate].
  injection H as <-.
  destruct (Z.eqb_spec j i) as [->|Hne].
  - destruct (Z.leb_spec 0 i); [|lia]. apply list_lookup_insert_eq. lia.
  - destruct (Z.leb_spec 0 j); [|reflexivity].
    apply list_lookup_insert_ne. lia.
Qed.

Lemma comp_vec_set_Some {A} (v : list A) i x t :
  vec_at v i = Some t → ∃ v', vec_set v i x = Some v'.
Proof.
  unfold vec_set, vec_at. intros H.
  destruct (Z.leb_spec 0 i); [|discriminate].
  apply lookup_lt_Some in H.
  destruct (Z.ltb_spec i (Z.of_nat (length v))); [|lia].
  eexists. reflexivity.
Qed.

Lemma comp_vec_at_app {A} (v : list A) x i t :
  vec_at v i = Some t → vec_at (v ++ [x]) i = Some t.
Proof.
  unfold vec_at. destruct (0 <=? i); [|discriminate].
  intros H. apply lookup_app_l_Some, H.
Qed.

Lemma comp_vec_at_last {A} (v : list A) x :
  vec_at (v ++ [x]) (Z.of_nat (length v)) = Some x.
Proof.
  unfold vec_at. destruct (Z.leb_spec 0 (Z.of_nat (length v))); [|lia].
  rewrite Nat2Z.id. apply list_lookup_middle. reflexivity.
Qed.

Lemma comp_vec_at_replicate {A} (n : nat) (x t : A) i :
  vec_at (replicate n x) i = Some t → t = x.
Proof.
  unfold vec_at. destruct (0 <=? i); [|discriminate].
  intros H. apply lookup_replicate in H. apply H.
Qed.

(** ** Rationals *)

Lemma rdiv_eq a b : (rdiv a b == a / b)%Q.
Proof. apply Qred_correct. Qed.

Lemma req_false a : req a 0 = false ↔ ¬ (a == 0)%Q.
Proof.
  unfold req. rewrite <- not_true_iff_false, Qeq_bool_iff. reflexivity.
Qed.

Lemma sign_pos a : 0 < sign a ↔ (0 < a)%Q.
Proof.
  unfold sign, Qlt. destruct a as [n d]. simpl. lia.
Qed.

Lemma sign_nonpos a : ¬ (a == 0)%Q → sign a ≤ 0 ↔ (a < 0)%Q.
Proof.
  unfold sign, Qlt, Qeq. destruct a as [n d]. simpl. lia.
Qed.

(** ** One step *)

(** [improve_bounds] without the chain of tests. *)
Lemma improve_bounds_eq consense rhs idx val currentDerivation g :
  improve_bounds consense rhs idx val currentDerivation g
  = if req val 0 then None
    else
      let tup := (rdiv rhs val, val, currentDerivation - 1) in
      upper ← (if from_above consense val
               then tighten rlt (upperBounds g) idx tup
               else Some (upperBounds g)) ;
      lower ← (if from_below consense val
               then tighten (λ new old, rlt old new) (lowerBounds g) idx tup
               else Some (lowerBounds g)) ;
      Some (mkGlobals (constraints g) lower upper).
Proof.
  unfold improve_bounds, from_above, from_below, normalizedSense, tighten.
  destruct (req val 0); [reflexivity|]. cbv zeta.
  destruct g as [cs lo up].
  cbn [constraints lowerBounds upperBounds fst snd].
  destruct (String.eqb consense "E") eqn:EE; cbn [orb].
  - cbn [String.eqb Ascii.eqb Bool.eqb andb].
    destruct (vec_at up idx) as [ub|]; [|reflexivity].
    cbn [mbind option_bind].
    destruct (rlt (rdiv rhs val) ub.1.1), (vec_at lo idx) as [lb|];
      try destruct (vec_set up idx _); try reflexivity.
  - destruct (String.eqb consense "L"), (Z.leb_spec (sign val) 0),
      (Z.ltb_spec 0 (sign val)); try lia;
      cbn [String.eqb Ascii.eqb Bool.eqb andb mbind option_bind].
    + destruct (vec_at lo idx) as [lb|]; [|reflexivity].
      cbn [mbind option_bind].
      destruct (rlt lb.1.1 (rdiv rhs val)); [|reflexivity].
      destruct (vec_set lo idx _); reflexivity.
    + destruct (vec_at up idx) as [ub|]; [|reflexivity].
      cbn [mbind option_bind].
      destruct (rlt (rdiv rhs val) ub.1.1); [|reflexivity].
      destruct (vec_set up idx _); reflexivity.
    + destruct (vec_at up idx) as [ub|]; [|reflexivity].
      cbn [mbind option_bind].
      destruct (rlt (rdiv rhs val) ub.1.1); [|reflexivity].
      destruct (vec_set up idx _); reflexivity.
    + destruct (vec_at lo idx) as [lb|]; [|reflexivity].
      cbn [mbind option_bind].
      destruct (rlt lb.1.1 (rdiv rhs val)); [|reflexivity].
      destruct (vec_set lo idx _); reflexivity.
Qed.


Lemma tighten_spec better v idx tup v' :
  tighten better v idx tup = Some v' →
  ∃ old, vec_at v idx = Some old
         ∧ ∀ j, vec_at v' j
                = if (j =? idx) && better tup.1.1 old.1.1 then Some tup
                  else vec_at v j.
Proof.
  unfold tighten. intros H.
  destruct (vec_at v idx) as [old|] eqn:Eold; [|discriminate].
  cbn [mbind option_bind] in H. exists old. split; [reflexivity|].
  intros j. destruct (better tup.1.1 old.1.1).
  - rewrite andb_true_r. apply comp_vec_set_at, H.
  - injection H as <-. rewrite andb_false_r. reflexivity.
Qed.

Lemma from_above_spec consense val :
  known_sense consense → ¬ (val == 0)%Q →
  from_above consense val = true ↔
  (consense = "E" ∨ (consense = "L" ∧ (0 < val)%Q)
   ∨ (consense = "G" ∧ (val < 0)%Q)).
Proof.
  intros Hk Hv. unfold from_above.
  pose proof (sign_pos val) as Hp. pose proof (sign_nonpos val Hv) as Hn.
  destruct Hk as [-> | [-> | ->]]; cbn [String.eqb Ascii.eqb Bool.eqb andb orb].
  - split; auto.
  - rewrite Z.ltb_lt, Hp. split.
    + intros H. right; left. auto.
    + intros [H|[[_ H]|[H _]]]; try discriminate. exact H.
  - rewrite Z.leb_le, Hn. split.
    + intros H. right; right. auto.
    + intros [H|[[H _]|[_ H]]]; try discriminate. exact H.
Qed.

Lemma from_below_spec consense val :
  known_sense consense → ¬ (val == 0)%Q →
  from_below consense val = true ↔
  (consense = "E" ∨ (consense = "L" ∧ (val < 0)%Q)
   ∨ (consense = "G" ∧ (0 < val)%Q)).
Proof.
  intros Hk Hv. unfold from_below.
  pose proof (sign_pos val) as Hp. pose proof (sign_nonpos val Hv) as Hn.
  destruct Hk as [-> | [-> | ->]]; cbn [String.eqb Ascii.eqb Bool.eqb andb orb].
  - split; auto.
  - rewrite Z.leb_le, Hn. split.
    + intros H. right; left. auto.
    + intros [H|[[_ H]|[H _]]]; try discriminate. exact H.
  - rewrite Z.ltb_lt, Hp. split.
    + intros H. right; right. auto.
    + intros [H|[[H _]|[_ H]]]; try discriminate. exact H.
Qed.

(** What [getConstraints] does, case by case. *)
Lemma getConstraints_inv junk Obj consense rhs coef cd g b g' :
  getConstraints junk Obj consense rhs coef cd g = Some (b, g') →
  ∃ row sense up lo,
    g' = mkGlobals (constraints g ++ [mkConstraint row rhs sense]) lo up
    ∧ (b, sense) = (if String.eqb consense "E" then (true, 0)
                    else if String.eqb consense "L" then (true, -1)
                    else if String.eqb consense "G" then (true, 1)
                    else (false, junk))
    ∧ ((∃ idx val,
          coef = Vec_tok [(idx, val)] ∧ row = [(idx, val)]
          ∧ ¬ (val == 0)%Q
          ∧ (if from_above consense val
             then tighten rlt (upperBounds g) idx
                    (rdiv rhs val, val, cd - 1)
             else Some (upperBounds g)) = Some up
          ∧ (if from_below consense val
             then tighten (λ new old, rlt old new) (lowerBounds g) idx
                    (rdiv rhs val, val, cd - 1)
             else Some (lowerBounds g)) = Some lo)
       ∨ ((∀ idx val, coef ≠ Vec_tok [(idx, val)])
          ∧ up = upperBounds g ∧ lo = lowerBounds g)).
Proof.
  unfold getConstraints. intros H.
  assert (Hfin : ∀ row g1,
    (let '(row, g) := (row, g1) in
     let '(returnStatement, sense) :=
       if String.eqb consense "E" then (true, 0)
       else if String.eqb consense "L" then (true, -1)
       else if String.eqb consense "G" then (true, 1)
       else (false, junk) in
     Some (returnStatement,
           mkGlobals (constraints g ++ [mkConstraint row rhs sense])
                     (lowerBounds g) (upperBounds g))) = Some (b, g') →
    ∃ sense,
      g' = mkGlobals (constraints g1 ++ [mkConstraint row rhs sense])
                     (lowerBounds g1) (upperBounds g1)
      ∧ (b, sense) = (if String.eqb consense "E" then (true, 0)
                      else if String.eqb consense "L" then (true, -1)
                      else if String.eqb consense "G" then (true, 1)
                      else (false, junk))).
  { intros row g1 E. cbv beta iota in E.
    destruct (if String.eqb consense "E" then (true, 0)
              else if String.eqb consense "L" then (true, -1)
              else if String.eqb consense "G" then (true, 1)
              else (false, junk)) as [r sn].
    injection E as <- <-. exists sn. split; reflexivity. }
  destruct coef as [|pairs].
  - cbn [mbind option_bind] in H.
    destruct (Hfin _ _ H) as (sn & Hg & E); clear Hfin; subst g'.
    exists Obj, sn, (upperBounds g), (lowerBounds g).
    repeat split; try assumption. right. repeat split. discriminate.
  - destruct pairs as [|[idx val] [|p pairs]].
    + cbn [mbind option_bind] in H.
      destruct (Hfin _ _ H) as (sn & Hg & E); clear Hfin; subst g'.
      exists (dsvec_add [] []), sn, (upperBounds g), (lowerBounds g).
      repeat split; try assumption. right. repeat split. discriminate.
    + rewrite improve_bounds_eq in H.
      destruct (req val 0) eqn:Ev; [discriminate|].
      apply req_false in Ev. cbv zeta in H.
      destruct (if from_above consense val
                then tighten rlt (upperBounds g) idx
                       (rdiv rhs val, val, cd - 1)
                else Some (upperBounds g)) as [up|] eqn:Eup; [|discriminate].
      cbn [mbind option_bind] in H.
      destruct (if from_below consense val
                then tighten (λ new old, rlt old new) (lowerBounds g) idx
                       (rdiv rhs val, val, cd - 1)
                else Some (lowerBounds g)) as [lo|] eqn:Elo; [|discriminate].
      cbn [mbind option_bind] in H.
      destruct (Hfin _ _ H) as (sn & Hg & E); clear Hfin; subst g'.
      exists [(idx, val)], sn, up, lo.
      split.
      { cbn [constraints lowerBounds upperBounds]. unfold dsvec_add.
        rewrite filter_cons_True by (apply req_false, Ev).
        reflexivity. }
      split; [exact E|]. left. exists idx, val. repeat split; assumption.
    + cbn [mbind option_bind] in H.
      destruct (Hfin _ _ H) as (sn & Hg & E); clear Hfin; subst g'.
      eexists _, sn, (upperBounds g), (lowerBounds g).
      repeat split; try assumption. right. repeat split. discriminate.
Qed.


(** ** Bounds and the constraints they come from *)

Lemma dot_single idx f x : (dot [(idx, f)] x == f * x idx)%Q.
Proof. unfold dot. simpl. ring. Qed.

Lemma upper_bound_sound c idx f b x :
  upper_bound_by c idx f b → satisfies c x → (x idx <= b)%Q.
Proof.
  intros (Hv & Hf & Hb & Hs) Hsat. unfold satisfies in Hsat.
  rewrite Hv, dot_single in Hsat.
  assert (Hside : (side c == b * f)%Q) by (rewrite Hb; field; exact Hf).
  rewrite Hside in Hsat.
  destruct Hs as [Hs|[[Hs Hp]|[Hs Hn]]],
    Hsat as [[Hs' Hx]|[[Hs' Hx]|[Hs' Hx]]]; try lia.
  - assert (E : (x idx == b)%Q).
    { apply (Qmult_inj_l _ _ f); [exact Hf|]. rewrite Hx. ring. }
    rewrite E. apply Qle_refl.
  - nra.
  - nra.
Qed.

Lemma lower_bound_sound c idx f b x :
  lower_bound_by c idx f b → satisfies c x → (b <= x idx)%Q.
Proof.
  intros (Hv & Hf & Hb & Hs) Hsat. unfold satisfies in Hsat.
  rewrite Hv, dot_single in Hsat.
  assert (Hside : (side c == b * f)%Q) by (rewrite Hb; field; exact Hf).
  rewrite Hside in Hsat.
  destruct Hs as [Hs|[[Hs Hp]|[Hs Hn]]],
    Hsat as [[Hs' Hx]|[[Hs' Hx]|[Hs' Hx]]]; try lia.
  - assert (E : (x idx == b)%Q).
    { apply (Qmult_inj_l _ _ f); [exact Hf|]. rewrite Hx. ring. }
    rewrite E. apply Qle_refl.
  - nra.
  - nra.
Qed.

Section Bounds.

Variable infinity : Q.
Variable junk : Z.
Variable Obj : DSVectorRational.

Local Abbreviation justified := (justified infinity).
Local Abbreviation tight := (tight infinity).

Lemma justified_initial n : justified (processVAR_bounds infinity n).
Proof.
  split; intros idx t H; left; simpl in H;
    apply comp_vec_at_replicate in H; exact H.
Qed.

Lemma sense_of_known consense (b : bool) (sn : Z) :
  known_sense consense →
  (b, sn) = (if String.eqb consense "E" then (true, 0)
             else if String.eqb consense "L" then (true, -1)
             else if String.eqb consense "G" then (true, 1)
             else (false, junk)) →
  b = true
  ∧ ((consense = "E" ∧ sn = 0) ∨ (consense = "L" ∧ sn = -1)
     ∨ (consense = "G" ∧ sn = 1)).
Proof.
  intros [-> | [-> | ->]] E; cbn in E; injection E as -> ->; split; auto.
Qed.

Lemma getConstraints_justified consense rhs coef g b g' :
  known_sense consense →
  getConstraints junk Obj consense rhs coef
    (Z.of_nat (length (constraints g)) + 1) g = Some (b, g') →
  justified g →
  justified g' ∧ b = true
  ∧ length (constraints g') = S (length (constraints g)).
Proof.
  intros Hk H [Hup Hlo].
  destruct (getConstraints_inv _ _ _ _ _ _ _ _ _ H)
    as (row & sn & up & lo & -> & Esn & Hcase).
  destruct (sense_of_known _ _ _ Hk Esn) as [-> Hsn].
  split; [|split; [reflexivity|]];
    [|cbn [constraints]; rewrite length_app; simpl; lia].
  assert (Hlast : vec_at (constraints g ++ [mkConstraint row rhs sn])
                    (Z.of_nat (length (constraints g)) + 1 - 1)
                  = Some (mkConstraint row rhs sn)).
  { replace (Z.of_nat (length (constraints g)) + 1 - 1)
      with (Z.of_nat (length (constraints g))) by lia.
    apply comp_vec_at_last. }
  assert (Hold_up : ∀ j t, vec_at (upperBounds g) j = Some t →
            t = (infinity, 1%Q, -1)
            ∨ ∃ c, vec_at (constraints g ++ [mkConstraint row rhs sn]) t.2
                   = Some c ∧ upper_bound_by c j t.1.2 t.1.1).
  { intros j t Hj. destruct (Hup j t Hj) as [->|(c & Hc & Hb)]; [left; auto|].
    right. exists c. split; [apply comp_vec_at_app, Hc|exact Hb]. }
  assert (Hold_lo : ∀ j t, vec_at (lowerBounds g) j = Some t →
            t = ((- infinity)%Q, 1%Q, -1)
            ∨ ∃ c, vec_at (constraints g ++ [mkConstraint row rhs sn]) t.2
                   = Some c ∧ lower_bound_by c j t.1.2 t.1.1).
  { intros j t Hj. destruct (Hlo j t Hj) as [->|(c & Hc & Hb)]; [left; auto|].
    right. exists c. split; [apply comp_vec_at_app, Hc|exact Hb]. }
  destruct Hcase as [(idx & val & -> & -> & Hv & Eup & Elo)
                    |(_ & -> & ->)]; [|split; assumption].
  split; cbn [constraints upperBounds lowerBounds]; intros j t Hj.
  - destruct (from_above consense val) eqn:Ea;
      [|injection Eup as <-; apply Hold_up, Hj].
    destruct (tighten_spec _ _ _ _ _ Eup) as (old & Hat & Hnew).
    rewrite Hnew in Hj.
    destruct ((j =? idx) && rlt (rdiv rhs val, val,
                Z.of_nat (length (constraints g)) + 1 - 1).1.1 old.1.1)
      eqn:Eb; [|apply Hold_up, Hj].
    injection Hj as <-. apply andb_true_iff in Eb as [Ej _].
    apply Z.eqb_eq in Ej. subst j. right.
    exists (mkConstraint [(idx, val)] rhs sn). split; [exact Hlast|].
    cbn [fst snd]. split; [reflexivity|]. split; [exact Hv|].
    split; [apply rdiv_eq|]. cbn [sense].
    apply (from_above_spec _ _ Hk Hv) in Ea.
    destruct Hsn as [[-> ->]|[[-> ->]|[-> ->]]],
      Ea as [E|[[E Hs]|[E Hs]]]; try discriminate; auto.
  - destruct (from_below consense val) eqn:Ea;
      [|injection Elo as <-; apply Hold_lo, Hj].
    destruct (tighten_spec _ _ _ _ _ Elo) as (old & Hat & Hnew).
    rewrite Hnew in Hj.
    destruct ((j =? idx) && rlt old.1.1 (rdiv rhs val, val,
                Z.of_nat (length (constraints g)) + 1 - 1).1.1)
      eqn:Eb; [|apply Hold_lo, Hj].
    injection Hj as <-. apply andb_true_iff in Eb as [Ej _].
    apply Z.eqb_eq in Ej. subst j. right.
    exists (mkConstraint [(idx, val)] rhs sn). split; [exact Hlast|].
    cbn [fst snd]. split; [reflexivity|]. split; [exact Hv|].
    split; [apply rdiv_eq|]. cbn [sense].
    apply (from_below_spec _ _ Hk Hv) in Ea.
    destruct Hsn as [[-> ->]|[[-> ->]|[-> ->]]],
      Ea as [E|[[E Hs]|[E Hs]]]; try discriminate; auto.
Qed.

Lemma con_loop_justified lines : ∀ r g b g',
  Forall (λ l, known_sense (cl_sense l)) lines →
  con_loop junk Obj lines (Z.of_nat (length (constraints g))) r g
  = Some (b, g') →
  justified g →
  justified g'
  ∧ length (constraints g') = (length (constraints g) + length lines)%nat.
Proof.
  induction lines as [|l lines IH]; intros r g b g' Hk H Hj.
  - simpl in H. injection H as <- <-. split; [exact Hj|simpl; lia].
  - apply Forall_cons in Hk as [Hl Hk]. cbn [con_loop] in H. cbv zeta in H.
    destruct (getConstraints junk Obj (cl_sense l) (cl_rhs l) (cl_coef l)
                (Z.of_nat (length (constraints g)) + 1) g)
      as [[b1 g1]|] eqn:E1; [|discriminate].
    cbn [mbind option_bind fst snd] in H.
    destruct (getConstraints_justified _ _ _ _ _ _ Hl E1 Hj)
      as (Hj1 & _ & Hlen).
    replace (Z.of_nat (length (constraints g)) + 1)
      with (Z.of_nat (length (constraints g1))) in H by lia.
    destruct (IH _ _ _ _ Hk H Hj1) as [Hj' Hlen'].
    split; [exact Hj'|]. simpl. lia.
Qed.

(** Every bound recorded after the CON section is the one that [processVAR]
    has set, or it comes from the constraint that it cites: the constraint
    at the recorded index has one coefficient, [factor], on this variable,
    the bound is its right-hand side divided by [factor], and every point
    that satisfies the constraint respects the bound. *)
Theorem bounds_justified n lines b g :
  Forall (λ l, known_sense (cl_sense l)) lines →
  processCON junk Obj "CON" lines (processVAR_bounds infinity n)
  = Some (b, g) →
  ∀ idx bound factor k,
    (vec_at (upperBounds g) idx = Some (bound, factor, k) →
     (bound, factor, k) = (infinity, 1%Q, -1)
     ∨ ∃ c, vec_at (constraints g) k = Some c
            ∧ upper_bound_by c idx factor bound
            ∧ ∀ x, satisfies c x → (x idx <= bound)%Q)
    ∧ (vec_at (lowerBounds g) idx = Some (bound, factor, k) →
       (bound, factor, k) = ((- infinity)%Q, 1%Q, -1)
       ∨ ∃ c, vec_at (constraints g) k = Some c
              ∧ lower_bound_by c idx factor bound
              ∧ ∀ x, satisfies c x → (bound <= x idx)%Q).
Proof.
  intros Hk H idx bound factor k. unfold processCON in H.
  cbn [String.eqb Ascii.eqb Bool.eqb andb negb] in H.
  destruct (con_loop_justified lines false (processVAR_bounds infinity n)
              b g Hk H (justified_initial n)) as [[Hup Hlo] _].
  split; intros Hat.
  - destruct (Hup _ _ Hat) as [E|(c & Hc & Hb)]; [left; exact E|].
    right. exists c. split; [exact Hc|]. split; [exact Hb|].
    intros x. exact (upper_bound_sound _ _ _ _ x Hb).
  - destruct (Hlo _ _ Hat) as [E|(c & Hc & Hb)]; [left; exact E|].
    right. exists c. split; [exact Hc|]. split; [exact Hb|].
    intros x. exact (lower_bound_sound _ _ _ _ x Hb).
Qed.

(** ** The tightest bound *)

Lemma tighten_length better v idx tup v' :
  tighten better v idx tup = Some v' → length v' = length v.
Proof.
  unfold tighten. destruct (vec_at v idx) as [old|]; [|discriminate].
  cbn [mbind option_bind]. destruct (better tup.1.1 old.1.1).
  - unfold vec_set. destruct (_ && _); [|discriminate].
    intros H. injection H as <-. apply length_insert.
  - intros H. injection H as <-. reflexivity.
Qed.

Lemma tight_initial n : tight [] (processVAR_bounds infinity n).
Proof.
  split; intros idx t H; simpl in H; apply comp_vec_at_replicate in H;
    subst t; (split; [apply Qle_refl|]); intros l bd Hl;
    apply elem_of_nil in Hl; destruct Hl.
Qed.

Lemma bounds_above_from l idx bd val :
  bounds_above l idx bd → cl_coef l = Vec_tok [(idx, val)] →
  from_above (cl_sense l) val = true ∧ (bd == cl_rhs l / val)%Q.
Proof.
  intros (val' & Hc & Hv & Hb & Hs) E. rewrite Hc in E.
  injection E as ->. split; [|exact Hb].
  apply from_above_spec; [|exact Hv|exact Hs].
  destruct Hs as [H|[[H _]|[H _]]]; rewrite H; unfold known_sense; auto.
Qed.

Lemma bounds_below_from l idx bd val :
  bounds_below l idx bd → cl_coef l = Vec_tok [(idx, val)] →
  from_below (cl_sense l) val = true ∧ (bd == cl_rhs l / val)%Q.
Proof.
  intros (val' & Hc & Hv & Hb & Hs) E. rewrite Hc in E.
  injection E as ->. split; [|exact Hb].
  apply from_below_spec; [|exact Hv|exact Hs].
  destruct Hs as [H|[[H _]|[H _]]]; rewrite H; unfold known_sense; auto.
Qed.

Lemma getConstraints_tight ls l cd g b g' :
  getConstraints junk Obj (cl_sense l) (cl_rhs l) (cl_coef l) cd g
  = Some (b, g') →
  tight ls g →
  tight (ls ++ [l]) g'
  ∧ length (upperBounds g') = length (upperBounds g)
  ∧ length (lowerBounds g') = length (lowerBounds g).
Proof.
  intros H [Hup Hlo].
  destruct (getConstraints_inv _ _ _ _ _ _ _ _ _ H)
    as (row & sn & up & lo & -> & _ & Hcase).
  cbn [upperBounds lowerBounds].
  destruct Hcase as [(idx & val & Hc & -> & Hv & Eup & Elo)
                    |(Hc & -> & ->)].
  - split; [split|]; cbn [upperBounds lowerBounds].
    + intros j t Hj.
      destruct (from_above (cl_sense l) val) eqn:Ea.
      * destruct (tighten_spec _ _ _ _ _ Eup) as (old & Hat & Hnew).
        rewrite Hnew in Hj. cbn [fst snd] in Hj.
        destruct (Hup _ _ Hat) as [Hinf Hls].
        destruct (Z.eqb_spec j idx) as [->|Hne]; cbn [andb] in Hj.
        -- destruct (rlt (rdiv (cl_rhs l) val) old.1.1) eqn:Er.
           ++ injection Hj as <-. cbn [fst snd].
              apply rlt_spec in Er. split.
              ** apply Qlt_le_weak. eapply Qlt_le_trans; eassumption.
              ** intros l' bd Hl' Hb.
                 apply elem_of_app in Hl' as [Hl'|Hl'].
                 --- apply Qlt_le_weak. eapply Qlt_le_trans; [exact Er|].
                     eapply Hls; eassumption.
                 --- apply list_elem_of_singleton in Hl'. subst l'.
                     destruct (bounds_above_from _ _ _ _ Hb Hc) as [_ E].
                     rewrite E, rdiv_eq. apply Qle_refl.
           ++ rewrite Hat in Hj. injection Hj as <-.
              apply rlt_false in Er. split; [exact Hinf|].
              intros l' bd Hl' Hb.
              apply elem_of_app in Hl' as [Hl'|Hl'].
              ** eapply Hls; eassumption.
              ** apply list_elem_of_singleton in Hl'. subst l'.
                 destruct (bounds_above_from _ _ _ _ Hb Hc) as [_ E].
                 rewrite E, <- rdiv_eq. exact Er.
        -- destruct (Hup _ _ Hj) as [Hinf' Hls']. split; [exact Hinf'|].
           intros l' bd Hl' Hb.
           apply elem_of_app in Hl' as [Hl'|Hl'].
           ++ eapply Hls'; eassumption.
           ++ apply list_elem_of_singleton in Hl'. subst l'.
              destruct Hb as (val' & Hc' & _). rewrite Hc in Hc'.
              injection Hc' as E _. congruence.
      * injection Eup as <-.
        destruct (Hup _ _ Hj) as [Hinf' Hls']. split; [exact Hinf'|].
        intros l' bd Hl' Hb.
        apply elem_of_app in Hl' as [Hl'|Hl'].
        -- eapply Hls'; eassumption.
        -- apply list_elem_of_singleton in Hl'. subst l'.
           pose proof Hb as (val' & Hc' & _). rewrite Hc in Hc'.
           injection Hc' as -> ->.
           destruct (bounds_above_from _ _ _ _ Hb Hc) as [E _]. congruence.
    + intros j t Hj.
      destruct (from_below (cl_sense l) val) eqn:Ea.
      * destruct (tighten_spec _ _ _ _ _ Elo) as (old & Hat & Hnew).
        rewrite Hnew in Hj. cbn [fst snd] in Hj.
        destruct (Hlo _ _ Hat) as [Hinf Hls].
        destruct (Z.eqb_spec j idx) as [->|Hne]; cbn [andb] in Hj.
        -- destruct (rlt old.1.1 (rdiv (cl_rhs l) val)) eqn:Er.
           ++ injection Hj as <-. cbn [fst snd].
              apply rlt_spec in Er. split.
              ** apply Qlt_le_weak. eapply Qle_lt_trans; eassumption.
              ** intros l' bd Hl' Hb.
                 apply elem_of_app in Hl' as [Hl'|Hl'].
                 --- apply Qlt_le_weak. eapply Qle_lt_trans; [|exact Er].
                     eapply Hls; eassumption.
                 --- apply list_elem_of_singleton in Hl'. subst l'.
                     destruct (bounds_below_from _ _ _ _ Hb Hc) as [_ E].
                     rewrite E, rdiv_eq. apply Qle_refl.
           ++ rewrite Hat in Hj. injection Hj as <-.
              apply rlt_false in Er. split; [exact Hinf|].
              intros l' bd Hl' Hb.
              apply elem_of_app in Hl' as [Hl'|Hl'].
              ** eapply Hls; eassumption.
              ** apply list_elem_of_singleton in Hl'. subst l'.
                 destruct (bounds_below_from _ _ _ _ Hb Hc) as [_ E].
                 rewrite E, <- rdiv_eq. exact Er.
        -- destruct (Hlo _ _ Hj) as [Hinf' Hls']. split; [exact Hinf'|].
           intros l' bd Hl' Hb.
           apply elem_of_app in Hl' as [Hl'|Hl'].
           ++ eapply Hls'; eassumption.
           ++ apply list_elem_of_singleton in Hl'. subst l'.
              destruct Hb as (val' & Hc' & _). rewrite Hc in Hc'.
              injection Hc' as E _. congruence.
      * injection Elo as <-.
        destruct (Hlo _ _ Hj) as [Hinf' Hls']. split; [exact Hinf'|].
        intros l' bd Hl' Hb.
        apply elem_of_app in Hl' as [Hl'|Hl'].
        -- eapply Hls'; eassumption.
        -- apply list_elem_of_singleton in Hl'. subst l'.
           pose proof Hb as (val' & Hc' & _). rewrite Hc in Hc'.
           injection Hc' as -> ->.
           destruct (bounds_below_from _ _ _ _ Hb Hc) as [E _]. congruence.
    + split.
      * destruct (from_above (cl_sense l) val);
          [eapply tighten_length, Eup|injection Eup as <-; reflexivity].
      * destruct (from_below (cl_sense l) val);
          [eapply tighten_length, Elo|injection Elo as <-; reflexivity].
  - split; [|split; reflexivity]. split; intros j t Hj.
    + destruct (Hup _ _ Hj) as [Hinf' Hls']. split; [exact Hinf'|].
      intros l' bd Hl' Hb. apply elem_of_app in Hl' as [Hl'|Hl'].
      * eapply Hls'; eassumption.
      * apply list_elem_of_singleton in Hl'. subst l'.
        destruct Hb as (val' & Hc' & _). destruct (Hc _ _ Hc').
    + destruct (Hlo _ _ Hj) as [Hinf' Hls']. split; [exact Hinf'|].
      intros l' bd Hl' Hb. apply elem_of_app in Hl' as [Hl'|Hl'].
      * eapply Hls'; eassumption.
      * apply list_elem_of_singleton in Hl'. subst l'.
        destruct Hb as (val' & Hc' & _). destruct (Hc _ _ Hc').
Qed.

Lemma con_loop_tight lines : ∀ ls cd r g b g',
  con_loop junk Obj lines cd r g = Some (b, g') →
  tight ls g →
  tight (ls ++ lines) g'
  ∧ length (upperBounds g') = length (upperBounds g)
  ∧ length (lowerBounds g') = length (lowerBounds g).
Proof.
  induction lines as [|l lines IH]; intros ls cd r g b g' H Ht.
  - simpl in H. injection H as <- <-. rewrite app_nil_r. auto.
  - cbn [con_loop] in H. cbv zeta in H.
    destruct (getConstraints junk Obj (cl_sense l) (cl_rhs l) (cl_coef l)
                (cd + 1) g) as [[b1 g1]|] eqn:E1; [|discriminate].
    cbn [mbind option_bind fst snd] in H.
    destruct (getConstraints_tight _ _ _ _ _ _ E1 Ht) as (Ht1 & Lu & Ll).
    destruct (IH _ _ _ _ _ _ H Ht1) as (Ht' & Lu' & Ll').
    rewrite <- app_assoc in Ht'. split; [exact Ht'|]. split; congruence.
Qed.

(** After the CON section there is one upper and one lower bound for every
    variable, and no recorded bound is weaker than [infinity] or than a
    constraint of the section that has one coefficient and bounds the
    variable: the recorded upper bound is at most [rhs / val] for every
    such constraint, the recorded lower bound at least. *)
Theorem bounds_tightest n lines b g :
  processCON junk Obj "CON" lines (processVAR_bounds infinity n)
  = Some (b, g) →
  length (upperBounds g) = n ∧ length (lowerBounds g) = n
  ∧ ∀ idx bound factor k,
      (vec_at (upperBounds g) idx = Some (bound, factor, k) →
       (bound <= infinity)%Q
       ∧ ∀ l bd, l ∈ lines → bounds_above l idx bd → (bound <= bd)%Q)
      ∧ (vec_at (lowerBounds g) idx = Some (bound, factor, k) →
         (- infinity <= bound)%Q
         ∧ ∀ l bd, l ∈ lines → bounds_below l idx bd → (bd <= bound)%Q).
Proof.
  intros H. unfold processCON in H.
  cbn [String.eqb Ascii.eqb Bool.eqb andb negb] in H.
  destruct (con_loop_tight lines [] 0 false (processVAR_bounds infinity n)
              b g H (tight_initial n)) as ([Hup Hlo] & Lu & Ll).
  simpl in Lu, Ll. rewrite length_replicate in Lu, Ll.
  split; [exact Lu|]. split; [exact Ll|].
  intros idx bound factor k. split; intros Hat.
  - exact (Hup _ _ Hat).
  - exact (Hlo _ _ Hat).
Qed.

(** ** The return value *)

Lemma status_known consense (b : bool) (sn : Z) :
  (b, sn) = (if String.eqb consense "E" then (true, 0)
             else if String.eqb consense "L" then (true, -1)
             else if String.eqb consense "G" then (true, 1)
             else (false, junk)) →
  b = true ↔ known_sense consense.
Proof.
  unfold known_sense.
  destruct (String.eqb_spec consense "E") as [->|HE].
  { intros E. injection E as -> _. split; auto. }
  destruct (String.eqb_spec consense "L") as [->|HL].
  { intros E. injection E as -> _. split; auto. }
  destruct (String.eqb_spec consense "G") as [->|HG].
  { intros E. injection E as -> _. split; auto. }
  intros E. injection E as -> _. split; [discriminate|].
  intros [H|[H|H]]; contradiction.
Qed.

Lemma con_loop_status lines : ∀ cd r g b g',
  con_loop junk Obj lines cd r g = Some (b, g') →
  match last lines with
  | Some l => b = true ↔ known_sense (cl_sense l)
  | None => b = r
  end.
Proof.
  induction lines as [|l lines IH]; intros cd r g b g' H.
  - simpl in H. injection H as <- _. reflexivity.
  - cbn [con_loop] in H. cbv zeta in H.
    destruct (getConstraints junk Obj (cl_sense l) (cl_rhs l) (cl_coef l)
                (cd + 1) g) as [[b1 g1]|] eqn:E1; [|discriminate].
    cbn [mbind option_bind fst snd] in H.
    specialize (IH _ _ _ _ _ H). rewrite last_cons.
    destruct (last lines) as [l'|]; [exact IH|]. subst b.
    destruct (getConstraints_inv _ _ _ _ _ _ _ _ _ E1)
      as (row & sn & up & lo & _ & Esn & _).
    exact (status_known _ _ _ Esn).
Qed.

(** [processCON] returns the status of the last constraint alone: it
    returns true exactly when the section starts with [CON], lists at least
    one constraint, and the sense of the last one is [E], [L] or [G].  A
    sense that the format does not know on an earlier line goes
    unnoticed. *)
Theorem con_status_last section lines g b g' :
  processCON junk Obj section lines g = Some (b, g') →
  b = true ↔
  section = "CON" ∧ ∃ l, last lines = Some l ∧ known_sense (cl_sense l).
Proof.
  unfold processCON. destruct (String.eqb_spec section "CON") as [->|Hs];
    cbn [negb].
  - intros H. apply con_loop_status in H.
    destruct (last lines) as [l|].
    + rewrite H. split.
      * intros Hk. split; [reflexivity|]. exists l. auto.
      * intros (_ & l' & E & Hk). injection E as <-. exact Hk.
    + subst b. split; [discriminate|].
      intros (_ & l' & E & _). discriminate.
  - intros H. injection H as <- _. split; [discriminate|].
    intros [E _]. contradiction.
Qed.

End Bounds.

(** The section with four constraints on two variables: the upper bound 3
    of variable 0 comes from constraint 0, [2 x0 <= 6]. *)
Lemma bounds_justified_witness :
  (vec_at (upperBounds (globals_of bounds_result)) 0
   = Some (3%Q, 2%Q, 0) →
   (3%Q, 2%Q, 0) = (infinity_1e100, 1%Q, -1)
   ∨ ∃ c, vec_at (constraints (globals_of bounds_result)) 0 = Some c
          ∧ upper_bound_by c 0 2 3
          ∧ ∀ x, satisfies c x → (x 0%Z <= 3)%Q)
  ∧ (vec_at (lowerBounds (globals_of bounds_result)) 0
     = Some (3%Q, 2%Q, 0) →
     (3%Q, 2%Q, 0) = ((- infinity_1e100)%Q, 1%Q, -1)
     ∨ ∃ c, vec_at (constraints (globals_of bounds_result)) 0 = Some c
            ∧ lower_bound_by c 0 2 3
            ∧ ∀ x, satisfies c x → (3 <= x 0%Z)%Q).
Proof.
  apply (bounds_justified infinity_1e100 0 [] 2 lines_bounds true
           (globals_of bounds_result)).
  - unfold lines_bounds, known_sense.
    repeat (apply List.Forall_cons; [simpl; auto|]). apply List.Forall_nil.
  - vm_compute. reflexivity.
Defined.

Lemma bounds_tightest_witness :
  length (upperBounds (globals_of bounds_result)) = 2%nat
  ∧ length (lowerBounds (globals_of bounds_result)) = 2%nat
  ∧ ∀ idx bound factor k,
      (vec_at (upperBounds (globals_of bounds_result)) idx
       = Some (bound, factor, k) →
       (bound <= infinity_1e100)%Q
       ∧ ∀ l bd, l ∈ lines_bounds → bounds_above l idx bd →
                 (bound <= bd)%Q)
      ∧ (vec_at (lowerBounds (globals_of bounds_result)) idx
         = Some (bound, factor, k) →
         (- infinity_1e100 <= bound)%Q
         ∧ ∀ l bd, l ∈ lines_bounds → bounds_below l idx bd →
                   (bd <= bound)%Q).
Proof.
  apply (bounds_tightest infinity_1e100 0 [] 2 lines_bounds true
           (globals_of bounds_result)).
  vm_compute. reflexivity.
Defined.

(** The unknown sense [X] of the first line goes unnoticed. *)
Lemma con_status_last_witness :
  true = true ↔
  "CON" = "CON"
  ∧ ∃ l, last lines_unknown_sense = Some l ∧ known_sense (cl_sense l).
Proof.
  apply (con_status_last 0 [] "CON" lines_unknown_sense
           (processVAR_bounds infinity_1e100 2) true
           (globals_of unknown_sense_result)).
  vm_compute. reflexivity.
Defined.

End CompReadFacts.

(** * Soundness of the verifier for certificates of infeasibility *)

Module ChkProof.
Import Rat RatFacts Chk ChkSpec ChkExamples ChkFacts ChkSem ChkMore ChkSound.
Import ChkInv.

(** ** The start of a derivation *)

Lemma compact_empty : compact (∅ : SVectorGMP).
Proof. intros k a H. rewrite lookup_empty in H. discriminate. Qed.

Lemma compact_heap_insert s p v :
  compact_heap s → compact v →
  compact_heap (set_heap (<[p := v]> (heap s)) s).
Proof.
  intros Hc Hv q w Hq. simpl in Hq.
  destruct (decide (q = p)) as [->|Hne].
  - rewrite lookup_insert_eq in Hq. injection Hq as <-. exact Hv.
  - rewrite lookup_insert_ne in Hq by congruence. exact (Hc q w Hq).
Qed.

(** Reading a constraint that is accepted, in a state with compact
    vectors. *)
Lemma readConstraint_compact l p s sense p' eqObj s' w :
  readConstraint l p s = Done (true, sense, p', eqObj) s' →
  p ≠ objPtr → heap s !! p = Some w → compact_heap s →
  globals s' = globals s ∧ allocated s' = allocated s
  ∧ compact_heap s'
  ∧ (∀ q, q ≠ p → heap s' !! q = heap s !! q)
  ∧ is_Some (heap s' !! p')
  ∧ (p' = p ∨ p' = objPtr).
Proof.
  intros H Hne Hw Hc.
  pose proof (heap_only_readConstraint _ _ _ _ _ H) as G.
  apply readConstraint_sense in H as [_ H].
  split; [exact G|].
  destruct (cl_coef l) as [|pairs].
  - assert (Hobj : is_Some (heap s !! objPtr)).
    { unfold readConstraintCoefficients in H.
      rewrite (bind_eq _ _ _ _ _ (deref_run s p w Hw)) in H.
      rewrite (bind_eq _ _ _ _ _ (store_run s p ∅)) in H.
      apply bind_Done in H as (v & s1 & Hd & _).
      apply deref_Done in Hd as (a & [= <-] & Hv & _). simpl in Hv.
      rewrite lookup_insert_ne in Hv by exact Hne. eauto. }
    destruct Hobj as [vo Hvo].
    rewrite (readConstraintCoefficients_OBJ_run p s w vo Hne Hw Hvo) in H.
    injection H as <- _ <-. split; [reflexivity|].
    rewrite (compact_compactify vo) by exact (Hc _ _ Hvo).
    split; [|split; [|split; [|right; reflexivity]]].
    + intros q v Hq. simpl in Hq.
      destruct (decide (q = objPtr)) as [->|Hqo].
      * rewrite lookup_insert_eq in Hq. injection Hq as <-.
        exact (Hc _ _ Hvo).
      * rewrite lookup_insert_ne in Hq by congruence.
        destruct (decide (q = p)) as [->|Hqp].
        -- rewrite lookup_insert_eq in Hq. injection Hq as <-.
           apply compact_empty.
        -- rewrite lookup_insert_ne in Hq by congruence. exact (Hc q v Hq).
    + intros q Hq. simpl. destruct (decide (q = objPtr)) as [->|Hqo].
      * rewrite lookup_insert_eq. symmetry. exact Hvo.
      * rewrite !lookup_insert_ne by congruence. reflexivity.
    + simpl. rewrite lookup_insert_eq. eauto.
  - destruct (readConstraintCoefficients_Vec p pairs s (mk_is_Some _ _ Hw))
      as (s1 & Hrun & _ & Ha & Hq & Hp & Hres).
    rewrite Hrun in H. injection H as Hok <- <- <-.
    split; [exact Ha|]. split; [|split; [exact Hq|split; [exact Hp|auto]]].
    intros q v Hv. destruct (decide (q = p)) as [->|Hqp].
    + rewrite (Hres Hok) in Hv. injection Hv as <-.
      unfold vector_of. apply compactify_compact.
    + rewrite (Hq q Hqp) in Hv. exact (Hc q v Hv).
Qed.

Lemma derive_begin NDEBUG l s toDer s' :
  derive NDEBUG l s = Done (Some toDer) s' → compact_heap s →
  ∃ sense coef toDer0 s3 al vc,
    globals s3 = globals s
    ∧ allocated s3 = S (allocated s)
    ∧ compact_heap s3
    ∧ (∀ q, (q ≤ allocated s)%nat → heap s3 !! q = heap s !! q)
    ∧ _coefficients toDer0 = Some coef
    ∧ (coef ≤ allocated s3)%nat
    ∧ heap s3 !! coef = Some vc
    ∧ _falsehood toDer0
      = (if decide (vc = ∅)
         then falsehood_side sense (cl_rhs (dl_con l)) else false)
    ∧ _sense toDer0 = sense
    ∧ _rhs toDer0 = cl_rhs (dl_con l)
    ∧ _assumptionList toDer0 = ∅
    ∧ _trashed toDer0 = false
    ∧ derive_reason NDEBUG l toDer0 sense coef
                    (Z.of_nat (length (constraint s))) s3
      = Done (true, al) s'
    ∧ toDer = setMaxRefIdx (dl_refIdx l) (setassumptionList al toDer0).
Proof.
  intros H Hc. unfold derive in H.
  destruct (make_shared_run s) as (s1 & Hms & Hh1 & G1).
  rewrite (bind_eq _ _ _ _ _ Hms) in H.
  assert (Ha1 : allocated s1 = S (allocated s)).
  { unfold make_shared in Hms. cbv [bind get put ret] in Hms.
    injection Hms as <-. reflexivity. }
  set (q1 := S (allocated s)) in *.
  assert (Hc1 : compact_heap s1).
  { intros q v Hq. rewrite Hh1 in Hq.
    destruct (decide (q = q1)) as [->|Hne].
    - rewrite lookup_insert_eq in Hq. injection Hq as <-. apply compact_empty.
    - rewrite lookup_insert_ne in Hq by congruence. exact (Hc q v Hq). }
  apply bind_Done in H as ([[[ok sense] coef] eqObj] & s2 & Hrd & H).
  destruct ok; [|apply ret_Done in H as [[=] _]].
  change (negb true) with false in H. cbv iota in H.
  destruct (negb (String.eqb _ _)); [apply ret_Done in H as [[=] _]|].
  assert (Hq1 : heap s1 !! q1 = Some ∅).
  { rewrite Hh1. apply lookup_insert_eq. }
  destruct (readConstraint_compact _ _ _ _ _ _ _ _ Hrd ltac:(discriminate)
              Hq1 Hc1) as (G2 & Ha2 & Hc2 & Hf2 & [v2 Hv2] & Hcoef).
  rewrite (bind_eq _ _ _ _ _ (Constraint_new_run _ _ _ _ _ _ _ _ Hv2)) in H.
  rewrite (compact_compactify v2) in H by exact (Hc2 _ _ Hv2).
  rewrite insert_id in H by exact Hv2. rewrite set_heap_id in H.
  apply bind_Done in H as (s3' & s3'' & Hget & H).
  apply get_Done in Hget as [-> ->].
  apply bind_Done in H as ([acc al] & s4 & Hd & H).
  destruct acc; [|apply ret_Done in H as [[=] _]].
  apply ret_Done in H as [[= <-] <-].
  assert (Hcs : constraint s2 = constraint s).
  { apply globals_constraint. congruence. }
  rewrite Hcs in Hd.
  match type of Hd with
  | context [derive_reason _ _ ?c _ _ _] => set (toDer1 := c) in *
  end.
  exists sense, coef, toDer1, s2, al, v2.
  split; [congruence|]. split; [congruence|]. split; [exact Hc2|].
  split.
  { intros q Hq. rewrite Hf2 by (unfold q1; lia).
    rewrite Hh1. apply lookup_insert_ne. unfold q1. lia. }
  split; [unfold toDer1; destruct eqObj; reflexivity|].
  split.
  { rewrite Ha2, Ha1. destruct Hcoef as [->| ->]; unfold objPtr; lia. }
  split; [exact Hv2|].
  repeat split; try (unfold toDer1; destruct eqObj; reflexivity).
  exact Hd.
Qed.

(** ** Unsplitting *)

(** On compact vectors [canUnsplit] leaves the state alone; when it
    returns true, both cited constraints are not trashed and dominate the
    new constraint. *)
Lemma canUnsplit_inv toDer con1 a1 con2 a2 s al s' :
  compact_heap s →
  canUnsplit toDer con1 a1 con2 a2 s = Done (true, al) s' →
  s' = s
  ∧ ∃ c1 c2,
      vec_at (constraint s) con1 = Some c1
      ∧ vec_at (constraint s) con2 = Some c2
      ∧ _trashed c1 = false ∧ _trashed c2 = false
      ∧ dominates c1 toDer s = Done true s
      ∧ dominates c2 toDer s = Done true s
      ∧ al = (_assumptionList c1 ∖ {[a1]}) ∪ (_assumptionList c2 ∖ {[a2]}).
Proof.
  intros Hc H.
  pose proof (canUnsplit_scope _ _ _ _ _ _ _ _ H) as (c1' & c2' & E1 & E2 & Hal).
  unfold canUnsplit in H.
  apply bind_Done in H as (s0 & s1 & Hg & H). apply get_Done in Hg as [-> ->].
  apply bind_Done in H as (c1 & s1 & H1 & H). apply lift_Done in H1 as [H1 ->].
  apply bind_Done in H as (c2 & s1 & H2 & H). apply lift_Done in H2 as [H2 ->].
  apply bind_Done in H as (b1 & s1 & H3 & H). apply lift_Done in H3 as [H3 ->].
  apply bind_Done in H as (b2 & s1 & H4 & H). apply lift_Done in H4 as [H4 ->].
  rewrite H1 in E1. injection E1 as <-. rewrite H2 in E2. injection E2 as <-.
  destruct (_trashed c1) eqn:T1; [apply ret_Done in H as [[=] _]|].
  destruct (_trashed c2) eqn:T2; [apply ret_Done in H as [[=] _]|].
  apply bind_Done in H as (d1 & s1 & Hd1 & H).
  pose proof (dominates_compact _ _ _ _ _ Hc Hd1) as ->.
  apply bind_Done in H as (d2 & s2 & Hd2 & H).
  destruct d1; [|apply ret_Done in Hd2 as [<- <-];
                 apply ret_Done in H as [[=] _]].
  pose proof (dominates_compact _ _ _ _ _ Hc Hd2) as ->.
  destruct d2; [|apply ret_Done in H as [[=] _]].
  simpl andb in H. cbv iota zeta in H.
  assert (Hs : s' = s).
  { destruct (_trashed b1); [apply ret_Done in H as [[=] _]|].
    destruct (negb (-1 =? _sense b1 * _sense b2));
      [apply ret_Done in H as [[=] _]|].
    destruct (negb _); [apply ret_Done in H as [[=] _]|].
    apply bind_Done in H as (same & s3 & Hsame & H).
    assert (s3 = s) as ->.
    { destruct (bool_decide (_coefficients b1 = _coefficients b2)).
      - apply ret_Done in Hsame as [_ <-]. reflexivity.
      - apply svec_eq_at_compact in Hsame as [-> _]; [reflexivity|exact Hc]. }
    destruct same; [|apply ret_Done in H as [[=] _]].
    apply bind_Done in H as (v & s4 & Hv & H).
    apply deref_Done in Hv as (p1 & Hp1 & Hv & ->).
    apply bind_Done in H as (ok & s5 & Hok & H).
    apply lift_Done in Hok as [Hok ->].
    apply ret_Done in H as [_ <-]. reflexivity. }
  split; [exact Hs|]. exists c1, c2. auto 10.
Qed.

(** A constraint that dominates another one implies it. *)
Lemma dominates_valid s a b x :
  compact_heap s → dominates a b s = Done true s →
  is_Some (coefs s a) → is_Some (coefs s b) →
  (_falsehood a = true → ¬ satisfied s a x) →
  satisfied s a x → satisfied s b x.
Proof.
  intros Hc Hd [va Ha] [vb Hb] Hf Hsat.
  assert (Hca : compact va).
  { apply coefs_Some in Ha as (p & _ & Hp). exact (Hc _ _ Hp). }
  assert (Hcb : compact vb).
  { apply coefs_Some in Hb as (p & _ & Hp). exact (Hc _ _ Hp). }
  rewrite (dominates_run s a b va vb Ha Hb Hca Hcb) in Hd.
  injection Hd as Hd.
  destruct (_falsehood a); [destruct (Hf eq_refl Hsat)|].
  simpl in Hd. apply andb_true_iff in Hd as [E S].
  apply bool_decide_eq_true in E. subst vb.
  destruct Hsat as (v & Hv & Hh). rewrite Ha in Hv. injection Hv as <-.
  exists va. split; [exact Hb|].
  exact (implies_side_holds a b va x S Hh).
Qed.

(** ** Linear combinations *)

Lemma trash_trash c : trash (trash c) = trash c.
Proof. reflexivity. Qed.

Lemma vec_at_insert {A} (v : list A) (i j : Z) x y :
  vec_at v i = Some y →
  vec_at (<[Z.to_nat i := x]> v) j
  = if j =? i then Some x else vec_at v j.
Proof.
  unfold vec_at. intros H.
  destruct (Z.leb_spec 0 i); [|discriminate].
  apply lookup_lt_Some in H.
  destruct (Z.eqb_spec j i) as [->|Hne].
  - destruct (Z.leb_spec 0 i); [|lia]. apply list_lookup_insert_eq. exact H.
  - destruct (Z.leb_spec 0 j); [|reflexivity].
    apply list_lookup_insert_ne. lia.
Qed.

(** The loop of [readLinComb] trashes constraints and changes nothing else
    of the list. *)
Lemma lincomb_loop_constraints p idx ms : ∀ r rhs al s res s',
  lincomb_loop p idx ms r rhs al s = Done res s' →
  length (constraint s') = length (constraint s)
  ∧ relationToProveType s' = relationToProveType s
  ∧ ∀ i con, vec_at (constraint s) i = Some con →
             vec_at (constraint s') i = Some con
             ∨ vec_at (constraint s') i = Some (trash con).
Proof.
  induction ms as [|[index a] ms IH]; intros r rhs al s res s' H.
  - apply ret_Done in H as [_ <-]. auto.
  - simpl in H.
    apply bind_Done in H as (s0 & s1 & Hg & H). apply get_Done in Hg as [-> ->].
    apply bind_Done in H as (con & s1 & Hc & H).
    apply lift_Done in Hc as [Hc ->].
    destruct (_trashed con) eqn:Ht; [exact (IH _ _ _ _ _ _ H)|].
    apply bind_Done in H as (c & s1 & Hd & H).
    apply deref_Done in Hd as (q & Hq & Hv & ->).
    apply bind_Done in H as (v & s1 & Hd & H).
    apply deref_Done in Hd as (q' & [= <-] & Hv' & ->).
    apply bind_Done in H as (u & s1 & Hst & H).
    rewrite store_run in Hst. injection Hst as _ <-.
    apply bind_Done in H as (u' & s2 & Htr & H).
    destruct (IH _ _ _ _ _ _ H) as (Hlen & Hrtp & Hcs).
    destruct ((_refIdx con <=? idx) && (0 <=? _refIdx con)).
    + injection Htr as _ <-. simpl in Hlen, Hrtp, Hcs.
      rewrite length_insert in Hlen.
      split; [exact Hlen|]. split; [exact Hrtp|].
      intros i con' Hi.
      pose proof (vec_at_insert (constraint s) index i (trash con) con Hc)
        as Hins.
      destruct (Z.eqb_spec i index) as [->|Hne].
      * rewrite Hc in Hi. injection Hi as <-.
        destruct (Hcs _ _ Hins) as [E|E]; right; exact E.
      * rewrite <- Hins in Hi. exact (Hcs _ _ Hi).
    + apply ret_Done in Htr as [_ <-]. simpl in Hlen, Hrtp, Hcs. auto.
Qed.

Lemma Constraint_canonicalize_run c s p v :
  _coefficients c = Some p → heap s !! p = Some v →
  Constraint_canonicalize c s
  = Done tt (set_heap (<[p := canonicalize v]> (heap s)) s).
Proof.
  intros Hp Hv. unfold Constraint_canonicalize. rewrite Hp.
  rewrite (bind_eq _ _ _ _ _ (deref_run s p v Hv)).
  simpl. unfold bind at 1. simpl. apply store_run.
Qed.

(** What an accepted [lin] or [rnd] step does to the state. *)
Lemma derive_lin_frame NDEBUG rnd terms bracket toDer0 idx s3 al s' coef vc :
  derive_lin NDEBUG rnd terms bracket toDer0 idx s3 = Done (true, al) s' →
  compact_heap s3 →
  _coefficients toDer0 = Some coef → (coef ≤ allocated s3)%nat →
  heap s3 !! coef = Some vc →
  allocated s' = S (allocated s3)
  ∧ isInt s' = isInt s3
  ∧ relationToProveType s' = relationToProveType s3
  ∧ compact_heap s'
  ∧ length (constraint s') = length (constraint s3)
  ∧ (∀ i con, vec_at (constraint s3) i = Some con →
              vec_at (constraint s') i = Some con
              ∨ vec_at (constraint s') i = Some (trash con))
  ∧ ∀ q v, (q ≤ allocated s3)%nat → heap s3 !! q = Some v →
           ∃ v', heap s' !! q = Some v' ∧ similar v v'.
Proof.
  intros H Hc Hcoef Hle Hvc. unfold derive_lin in H.
  destruct (make_shared_run s3) as (s4 & Hms & Hh4 & G4).
  rewrite (bind_eq _ _ _ _ _ Hms) in H.
  assert (Ha4 : allocated s4 = S (allocated s3)).
  { unfold make_shared in Hms. cbv [bind get put ret] in Hms.
    injection Hms as <-. reflexivity. }
  set (q2 := S (allocated s3)) in *.
  assert (Hq2 : coef ≠ q2) by (unfold q2; lia).
  apply bind_Done in H as ([[[ok senseDer] rhsDer] al'] & s5 & Hlc & H).
  destruct ok; [|apply ret_Done in H as [[=] _]].
  change (negb true) with false in H. cbv iota in H.
  destruct (is_close bracket); [|apply ret_Done in H as [[=] _]].
  change (negb true) with false in H. cbv iota in H.
  assert (Hcs4 : constraint s4 = constraint s3).
  { apply globals_constraint, G4. }
  assert (Hi4 : isInt s4 = isInt s3).
  { unfold globals in G4. injection G4 as _ _ _ G4 _. exact G4. }
  assert (Hr4 : relationToProveType s4 = relationToProveType s3).
  { unfold globals in G4. injection G4 as _ _ _ _ _ _ G4 _. exact G4. }
  apply readLinComb_inv in Hlc as (mult & Hm & Hl).
  destruct (lincomb_loop_frame _ _ _ _ _ _ _ _ _ Hl) as (Hfr & Hal5 & Hi5).
  destruct (lincomb_loop_constraints _ _ _ _ _ _ _ _ _ Hl)
    as (Hlen5 & Hr5 & Hcs5).
  simpl in Hfr, Hal5, Hi5, Hlen5, Hr5, Hcs5.
  assert (Hv5 : ∃ v5, heap s5 !! q2 = Some v5).
  { unfold Constraint_new in H. apply bind_Done in H as (d & t & Hn & _).
    apply bind_Done in Hn as (v & t' & Hd & _).
    apply deref_Done in Hd as (a & [= <-] & Hv & _). eauto. }
  destruct Hv5 as [v5 Hv5].
  rewrite (bind_eq _ _ _ _ _
             (Constraint_new_run _ _ _ _ _ _ _ _ Hv5)) in H.
  set (v6 := compactify v5) in *.
  set (s6 := set_heap (<[q2 := v6]> (heap s5)) s5) in *.
  set (derived := mkConstraint EmptyString senseDer rhsDer (Some q2) (-1)
                    (_isAssumption toDer0) (_assumptionList toDer0)
                    (if decide (v6 = ∅) then falsehood_side senseDer rhsDer
                     else false) false false) in *.
  assert (Hold5 : ∀ q, (q ≤ allocated s3)%nat → heap s5 !! q = heap s3 !! q).
  { intros q Hq. rewrite Hfr by (unfold q2; lia).
    rewrite lookup_insert_ne by (unfold q2; lia).
    rewrite Hh4. apply lookup_insert_ne. unfold q2. lia. }
  assert (Hc6 : compact_heap s6).
  { intros q v Hq. simpl in Hq. destruct (decide (q = q2)) as [->|Hne].
    - rewrite lookup_insert_eq in Hq. injection Hq as <-.
      apply compactify_compact.
    - rewrite lookup_insert_ne in Hq by congruence.
      rewrite Hfr in Hq by exact Hne.
      rewrite lookup_insert_ne in Hq by congruence.
      rewrite Hh4 in Hq. rewrite lookup_insert_ne in Hq by congruence.
      exact (Hc q v Hq). }
  assert (Hv6 : heap s6 !! q2 = Some v6) by (simpl; apply lookup_insert_eq).
  assert (Hvc6 : heap s6 !! coef = Some vc).
  { simpl. rewrite lookup_insert_ne by congruence.
    rewrite Hold5 by exact Hle. exact Hvc. }
  apply bind_Done in H as ([rounded' derived'] & s7 & Hrnd & H).
  destruct rounded'; [|apply ret_Done in H as [[=] _]].
  change (negb true) with false in H. cbv iota in H.
  assert (Hd' : s7 = s6 ∧ _coefficients derived' = Some q2).
  { destruct rnd.
    - assert (Hco : coefs s6 derived = Some v6) by exact Hv6.
      destruct (round_inv _ _ _ _ _ Hrnd Hco) as (-> & -> & _).
      destruct (rounded_fields derived) as (R1 & _).
      split; [reflexivity|]. rewrite R1. reflexivity.
    - apply ret_Done in Hrnd as [[= <-] <-]. auto. }
  destruct Hd' as (-> & Hco').
  apply bind_Done in H as (d & s8 & Hd & H).
  pose proof (dominates_compact _ _ _ _ _ Hc6 Hd) as ->.
  assert (Hfin : ∀ s9,
            allocated s9 = S (allocated s3) → isInt s9 = isInt s3 →
            relationToProveType s9 = relationToProveType s3 →
            compact_heap s9 → constraint s9 = constraint s5 →
            (∀ q v, (q ≤ allocated s3)%nat → heap s3 !! q = Some v →
                    ∃ v', heap s9 !! q = Some v' ∧ similar v v') →
            (d <- dominates derived' toDer0 ;; ret (d, al')) s9
            = Done (true, al) s' →
            allocated s' = S (allocated s3)
            ∧ isInt s' = isInt s3
            ∧ relationToProveType s' = relationToProveType s3
            ∧ compact_heap s'
            ∧ length (constraint s') = length (constraint s3)
            ∧ (∀ i con, vec_at (constraint s3) i = Some con →
                        vec_at (constraint s') i = Some con
                        ∨ vec_at (constraint s') i = Some (trash con))
            ∧ ∀ q v, (q ≤ allocated s3)%nat → heap s3 !! q = Some v →
                     ∃ v', heap s' !! q = Some v' ∧ similar v v').
  { intros s9 A9 I9 R9 C9 K9 F9 Hfinal.
    apply bind_Done in Hfinal as (d9 & t & Hd9 & Hfinal).
    pose proof (dominates_compact _ _ _ _ _ C9 Hd9) as ->.
    apply ret_Done in Hfinal as [_ <-].
    split; [exact A9|]. split; [exact I9|]. split; [exact R9|].
    split; [exact C9|]. rewrite K9.
    split; [rewrite Hlen5, Hcs4; reflexivity|].
    split; [|exact F9].
    intros i con Hi. apply Hcs5. rewrite Hcs4. exact Hi. }
  destruct d.
  - change (negb true) with false in H. cbv iota in H.
    rewrite (bind_eq _ _ _ _ _ (eq_refl : ret tt s6 = Done tt s6)) in H.
    refine (Hfin s6 _ _ _ Hc6 _ _ H).
    + simpl. rewrite Hal5. exact Ha4.
    + simpl. rewrite Hi5. exact Hi4.
    + simpl. rewrite Hr5. exact Hr4.
    + reflexivity.
    + intros q v Hq Hv. exists v. split; [|apply similar_refl].
      simpl. rewrite lookup_insert_ne by (unfold q2; lia).
      rewrite Hold5 by exact Hq. exact Hv.
  - change (negb false) with true in H. cbv iota in H.
    apply bind_Done in H as (u & s8 & Hcanon & H).
    apply bind_Done in Hcanon as (u1 & t1 & Hc1 & Hcanon).
    rewrite (Constraint_canonicalize_run derived' s6 q2 v6 Hco' Hv6) in Hc1.
    injection Hc1 as _ <-.
    erewrite (Constraint_canonicalize_run toDer0 _ coef vc Hcoef) in Hcanon.
    2:{ simpl. rewrite lookup_insert_ne by congruence.
        rewrite lookup_insert_ne by congruence.
        rewrite Hold5 by exact Hle. exact Hvc. }
    injection Hcanon as _ <-.
    refine (Hfin _ _ _ _ _ _ _ H).
    + simpl. rewrite Hal5. exact Ha4.
    + simpl. rewrite Hi5. exact Hi4.
    + simpl. rewrite Hr5. exact Hr4.
    + apply compact_heap_insert; [apply compact_heap_insert|].
      * exact Hc6.
      * apply compact_canonicalize, compactify_compact.
      * apply compact_canonicalize. exact (Hc _ _ Hvc).
    + reflexivity.
    + intros q v Hq Hv. simpl.
      destruct (decide (q = coef)) as [->|Hne].
      * rewrite lookup_insert_eq. exists (canonicalize vc).
        split; [reflexivity|]. rewrite Hvc in Hv. injection Hv as <-.
        apply similar_canonicalize.
      * rewrite lookup_insert_ne by congruence.
        rewrite lookup_insert_ne by (unfold q2; lia).
        rewrite lookup_insert_ne by (unfold q2; lia).
        rewrite Hold5 by exact Hq. exists v.
        split; [exact Hv|apply similar_refl].
Qed.

(** ** States that come later *)

Lemma similar_trans u v w : similar u v → similar v w → similar u w.
Proof. intros H1 H2 x. rewrite H2. apply H1. Qed.

Lemma extends_refl s : extends s s.
Proof.
  split; [lia|]. split; [reflexivity|]. split; [reflexivity|].
  intros q v _ Hv. exists v. split; [exact Hv|apply similar_refl].
Qed.

Lemma extends_trans s1 s2 s3 : extends s1 s2 → extends s2 s3 → extends s1 s3.
Proof.
  intros (A1 & I1 & R1 & H1) (A2 & I2 & R2 & H2).
  split; [lia|]. split; [congruence|]. split; [congruence|].
  intros q v Hq Hv. destruct (H1 q v Hq Hv) as (v' & Hv' & S1).
  destruct (H2 q v' ltac:(lia) Hv') as (v'' & Hv'' & S2).
  exists v''. split; [exact Hv''|]. eapply similar_trans; eassumption.
Qed.

Lemma satisfied_extends s s' con q v x :
  extends s s' → _coefficients con = Some q → (q ≤ allocated s)%nat →
  heap s !! q = Some v →
  satisfied s con x ↔ satisfied s' con x.
Proof.
  intros (_ & _ & _ & H) Hq Hle Hv.
  destruct (H q v Hle Hv) as (v' & Hv' & Hsim).
  unfold satisfied, coefs. rewrite Hq. simpl. rewrite Hv, Hv'. split.
  - intros (w & [= <-] & Hh). exists v'. split; [reflexivity|].
    rewrite (similar_holds _ _ _ _ _ Hsim). exact Hh.
  - intros (w & [= <-] & Hh). exists v. split; [reflexivity|].
    rewrite <- (similar_holds _ _ _ _ _ Hsim). exact Hh.
Qed.

Lemma extend_old A n P i x : i ≠ n → extend A n P i x ↔ A i x.
Proof.
  intros Hne. unfold extend. destruct (Z.eqb_spec i n); [contradiction|].
  reflexivity.
Qed.

Lemma extend_new A n P x : extend A n P n x ↔ P x.
Proof. unfold extend. rewrite Z.eqb_refl. reflexivity. Qed.

Lemma vec_at_lt {A} (v : list A) i x :
  vec_at v i = Some x → 0 ≤ i < Z.of_nat (length v).
Proof.
  unfold vec_at. destruct (Z.leb_spec 0 i) as [Hi|Hi]; [|discriminate].
  intros Hx. apply lookup_lt_Some in Hx. lia.
Qed.

Section Step.

Variable good : SVectorGMP → Prop.
Variable sides : list Q.

Local Abbreviation entry_ok := (entry_ok good sides).
Local Abbreviation inv := (inv good sides).

(** A constraint that was in order stays in order in a later state. *)
Lemma entry_ok_extends A A' s s' i con :
  entry_ok A s i con → extends s s' →
  (length (constraint s) ≤ length (constraint s'))%nat →
  vec_at (constraint s) i = Some con →
  (∀ j x, 0 ≤ j < Z.of_nat (length (constraint s)) → A' j x ↔ A j x) →
  entry_ok A' s' i con.
Proof.
  intros ((q & v & Hq & Hle & Hv) & Hb & Hc & Hd & Hf & He) Hext Hlen Hi HA.
  pose proof (vec_at_lt _ _ _ Hi) as Hir.
  assert (Hsat : ∀ x, satisfied s con x ↔ satisfied s' con x).
  { intros x. eapply satisfied_extends; eassumption. }
  split.
  { destruct Hext as (Hal & _ & _ & Hh).
    destruct (Hh q v Hle Hv) as (v' & Hv' & _).
    exists q, v'. split; [exact Hq|]. split; [lia|exact Hv']. }
  split; [intros Hfl x Hx; apply (Hb Hfl x), Hsat, Hx|].
  split; [intros x; rewrite (HA i x Hir), Hc; apply Hsat|].
  split.
  { intros x Hg Hall. apply Hsat, (Hd x Hg). intros a Ha.
    apply (HA a x (Hf a Ha)), Hall, Ha. }
  split; [intros a Ha; specialize (Hf a Ha); lia|exact He].
Qed.

(** What [commit] does when the relation to prove is [infeas]. *)
Lemma commit_infeas last toDer s r s' :
  relationToProveType s = INFEAS →
  commit last toDer s = Done r s' →
  heap s' = heap s ∧ allocated s' = allocated s ∧ isInt s' = isInt s
  ∧ relationToProveType s' = INFEAS
  ∧ ((r = None
      ∧ (constraint s' = constraint s ++ [toDer]
         ∨ constraint s' = constraint s ++ [trash toDer]))
     ∨ (r = Some true ∧ _assumptionList toDer = ∅
        ∧ _falsehood toDer = true)).
Proof.
  intros Hr H. unfold commit in H.
  apply bind_Done in H as (u & s1 & Hp & H).
  unfold push_constraint in Hp. injection Hp as _ <-.
  apply bind_Done in H as (s0 & s2 & Hg & H). apply get_Done in Hg as [-> ->].
  apply bind_Done in H as (proved & s2 & Hpr & H).
  assert (Hpr' : s2 = set_constraint (constraint s ++ [toDer]) s
                 ∧ (proved = true →
                    _assumptionList toDer = ∅ ∧ _falsehood toDer = true)).
  { destruct (bool_decide (_assumptionList toDer = ∅)) eqn:Ea.
    - apply bool_decide_eq_true in Ea. simpl in Hpr. rewrite Hr in Hpr.
      simpl in Hpr. destruct (_falsehood toDer).
      + apply ret_Done in Hpr as [<- <-]. auto.
      + apply ret_Done in Hpr as [<- <-]. split; [reflexivity|discriminate].
    - apply ret_Done in Hpr as [<- <-]. split; [reflexivity|discriminate]. }
  destruct Hpr' as [-> Hpr'].
  destruct proved.
  - apply ret_Done in H as [<- <-]. simpl.
    repeat split; try assumption. right. destruct (Hpr' eq_refl). auto.
  - apply bind_Done in H as (u' & s3 & Htr & H).
    apply ret_Done in H as [<- <-].
    destruct (negb last && (0 <=? _refIdx toDer)
              && (_refIdx toDer
                  <? Z.of_nat (length (constraint
                       (set_constraint (constraint s ++ [toDer]) s))))).
    + injection Htr as _ <-. simpl.
      repeat split; try assumption. left. split; [reflexivity|]. right.
      rewrite length_app. simpl.
      replace (Z.to_nat (Z.of_nat (length (constraint s) + 1) - 1))
        with (length (constraint s) + 0)%nat by lia.
      rewrite insert_app_r. reflexivity.
    + apply ret_Done in Htr as [_ <-]. simpl.
      repeat split; try assumption. left. auto.
Qed.

Lemma satisfied_heap s s' c x :
  heap s' = heap s → satisfied s' c x ↔ satisfied s c x.
Proof. intros H. unfold satisfied, coefs. rewrite H. reflexivity. Qed.

Lemma vec_at_app_inv {A} (v : list A) y i x :
  vec_at (v ++ [y]) i = Some x →
  vec_at v i = Some x ∨ (i = Z.of_nat (length v) ∧ x = y).
Proof.
  unfold vec_at. destruct (Z.leb_spec 0 i) as [Hi|Hi]; [|discriminate].
  intros Hx. apply lookup_app_Some in Hx as [Hx|[Hl Hx]]; [left; exact Hx|].
  right. destruct (Z.to_nat i - length v)%nat as [|k] eqn:E.
  - injection Hx as <-. split; [lia|reflexivity].
  - simpl in Hx. rewrite lookup_nil in Hx. discriminate.
Qed.

Lemma vec_at_Some_lt {A} (v : list A) i :
  0 ≤ i < Z.of_nat (length v) → is_Some (vec_at v i).
Proof.
  intros Hi. unfold vec_at. destruct (Z.leb_spec 0 i); [|lia].
  apply lookup_lt_is_Some. lia.
Qed.

(** The end of an iteration: the new constraint is appended, and the
    invariant holds again or the run is over with a falsehood that depends
    on no assumption. *)
Lemma inv_commit A s s1 toDer last r s2 :
  inv A s → extends s s1 → compact_heap s1 →
  length (constraint s1) = length (constraint s) →
  (∀ i con, vec_at (constraint s) i = Some con →
            vec_at (constraint s1) i = Some con
            ∨ vec_at (constraint s1) i = Some (trash con)) →
  _trashed toDer = false →
  (∃ q v, _coefficients toDer = Some q ∧ (q ≤ allocated s1)%nat
          ∧ heap s1 !! q = Some v) →
  (_falsehood toDer = true → ∀ x, ¬ satisfied s1 toDer x) →
  (∀ x, good x →
        (∀ a, a ∈ _assumptionList toDer →
              extend A (Z.of_nat (length (constraint s)))
                     (satisfied s1 toDer) a x) →
        satisfied s1 toDer x) →
  (∀ a, a ∈ _assumptionList toDer →
        0 ≤ a ≤ Z.of_nat (length (constraint s))) →
  vec_at sides (Z.of_nat (length (constraint s))) = Some (_rhs toDer) →
  commit last toDer s1 = Done r s2 →
  (r = None →
   inv (extend A (Z.of_nat (length (constraint s))) (satisfied s1 toDer)) s2
   ∧ length (constraint s2) = S (length (constraint s))
   ∧ isInt s2 = isInt s)
  ∧ (r ≠ None → ∀ x, ¬ good x).
Proof.
  intros (Hc & Hr & Hent) Hext Hc1 Hlen Hcs Htr Ha Hb Hd Hf He Hcommit.
  set (n := Z.of_nat (length (constraint s))) in *.
  set (A' := extend A n (satisfied s1 toDer)) in *.
  assert (Hr1 : relationToProveType s1 = INFEAS).
  { destruct Hext as (_ & _ & -> & _). exact Hr. }
  destruct (commit_infeas _ _ _ _ _ Hr1 Hcommit)
    as (Hh2 & Ha2 & Hi2 & Hr2 & Hcase).
  split.
  2:{ intros Hne x Hg.
      destruct Hcase as [[-> _]|(_ & Hemp & Hfl)]; [contradiction|].
      apply (Hb Hfl x), (Hd x Hg). intros a Hin. rewrite Hemp in Hin.
      set_solver. }
  intros ->. destruct Hcase as [[_ Hcs2]|[[=] _]].
  assert (Hext2 : extends s s2).
  { apply (extends_trans s s1 s2 Hext).
    split; [lia|]. split; [exact Hi2|]. split; [congruence|].
    intros q v _ Hv. exists v. rewrite Hh2. split; [exact Hv|].
    apply similar_refl. }
  assert (Hlen2 : length (constraint s2) = S (length (constraint s))).
  { destruct Hcs2 as [-> | ->]; rewrite length_app; simpl; lia. }
  split; [|split; [exact Hlen2|destruct Hext as (_ & <- & _); exact Hi2]].
  split.
  { intros q v Hq. rewrite Hh2 in Hq. exact (Hc1 q v Hq). }
  split; [exact Hr2|].
  intros i con Hi.
  assert (Hold : ∀ con0, vec_at (constraint s) i = Some con0 →
            (con = con0 ∨ con = trash con0) →
            if _trashed con
            then _coefficients con = None ∧ _assumptionList con = ∅
            else entry_ok A' s2 i con).
  { intros con0 Hi0 [-> | ->]; [|simpl; auto].
    specialize (Hent i con0 Hi0).
    destruct (_trashed con0); [exact Hent|].
    apply (entry_ok_extends A A' s s2 i con0 Hent Hext2); [lia|exact Hi0|].
    intros j x Hj. apply extend_old. unfold n. lia. }
  assert (Hsplit : vec_at (constraint s1) i = Some con
                   ∨ (i = n ∧ (con = toDer ∨ con = trash toDer))).
  { destruct Hcs2 as [E|E]; rewrite E in Hi;
      apply vec_at_app_inv in Hi as [Hi|[Hi ->]]; auto;
      right; (split; [unfold n; rewrite <- Hlen; exact Hi|auto]). }
  destruct Hsplit as [Hi1|[-> Hnew]].
  - pose proof (vec_at_lt _ _ _ Hi1) as Hir. rewrite Hlen in Hir.
    destruct (vec_at_Some_lt (constraint s) i Hir) as [con0 Hi0].
    apply (Hold con0 Hi0).
    destruct (Hcs i con0 Hi0) as [E|E]; rewrite E in Hi1;
      injection Hi1 as <-; auto.
  - destruct Hnew as [-> | ->]; [|simpl; auto].
    rewrite Htr.
    assert (Hsat : ∀ x, satisfied s2 toDer x ↔ satisfied s1 toDer x).
    { intros x. apply satisfied_heap, Hh2. }
    split.
    { destruct Ha as (q & v & Hq & Hle & Hv). exists q, v.
      rewrite Hh2, Ha2. auto. }
    split; [intros Hfl x Hx; apply (Hb Hfl x), Hsat, Hx|].
    split; [intros x; unfold A'; rewrite extend_new; symmetry; apply Hsat|].
    split; [intros x Hg Hall; apply Hsat, (Hd x Hg), Hall|].
    split; [|exact He].
    intros a Hin. specialize (Hf a Hin). rewrite Hlen2. lia.
Qed.

Lemma flagged_unsat s c q (v0 v : SVectorGMP) x :
  _coefficients c = Some q → heap s !! q = Some v → similar v0 v →
  _falsehood c = (if decide (v0 = ∅)
                  then falsehood_side (_sense c) (_rhs c) else false) →
  _falsehood c = true → ¬ satisfied s c x.
Proof.
  intros Hq Hv Hsim Hfl Ht (w & Hw & Hh). unfold coefs in Hw.
  rewrite Hq in Hw. simpl in Hw. rewrite Hv in Hw. injection Hw as <-.
  rewrite (similar_holds _ _ _ _ _ Hsim) in Hh.
  rewrite Hfl in Ht.
  rewrite (falsehood_not_satisfied _ _ v0 x Ht) in Hh. discriminate.
Qed.

Lemma satisfied_set s c r al x :
  satisfied s (setMaxRefIdx r (setassumptionList al c)) x ↔ satisfied s c x.
Proof. split; apply satisfied_fields; reflexivity. Qed.

Lemma entry_satisfied A s s' i con x :
  entry_ok A s i con → extends s s' →
  satisfied s con x ↔ satisfied s' con x.
Proof.
  intros ((q & v & Hq & Hle & Hv) & _) Hext.
  eapply satisfied_extends; eassumption.
Qed.

Lemma entry_of_coefs A s i con :
  inv A s → vec_at (constraint s) i = Some con →
  is_Some (_coefficients con) → entry_ok A s i con.
Proof.
  intros (_ & _ & Hent) Hi [p Hp]. specialize (Hent i con Hi).
  destruct (_trashed con); [|exact Hent].
  destruct Hent as [E _]. congruence.
Qed.

(** The premises of [inv_commit] hold after an accepted step that is no
    [sol] step. *)
Lemma derive_ok NDEBUG A l s toDer s1 :
  inv A s →
  derive NDEBUG l s = Done (Some toDer) s1 →
  dl_reason l ≠ Sol_tok →
  vec_at sides (Z.of_nat (length (constraint s)))
  = Some (cl_rhs (dl_con l)) →
  (∀ con1 asm1 con2 asm2,
     dl_reason l = Uns_tok con1 asm1 con2 asm2 →
     ∃ q, vec_at sides asm1 = Some q ∧ isInteger q = true) →
  (∀ x, good x → integral_point (isInt s) x) →
  pure_integer (isInt s) →
  extends s s1 ∧ compact_heap s1
  ∧ length (constraint s1) = length (constraint s)
  ∧ (∀ i con, vec_at (constraint s) i = Some con →
              vec_at (constraint s1) i = Some con
              ∨ vec_at (constraint s1) i = Some (trash con))
  ∧ _trashed toDer = false
  ∧ (∃ q v, _coefficients toDer = Some q ∧ (q ≤ allocated s1)%nat
            ∧ heap s1 !! q = Some v)
  ∧ (_falsehood toDer = true → ∀ x, ¬ satisfied s1 toDer x)
  ∧ (∀ x, good x →
          (∀ a, a ∈ _assumptionList toDer →
                extend A (Z.of_nat (length (constraint s)))
                       (satisfied s1 toDer) a x) →
          satisfied s1 toDer x)
  ∧ (∀ a, a ∈ _assumptionList toDer →
          0 ≤ a ≤ Z.of_nat (length (constraint s)))
  ∧ vec_at sides (Z.of_nat (length (constraint s))) = Some (_rhs toDer).
Proof.
  intros Hinv H Hnosol Hside Huns Hgood Hpure.
  pose proof Hinv as (Hc & Hr & Hent).
  destruct (derive_begin _ _ _ _ _ H Hc)
    as (sense & coef & toDer0 & s3 & al & vc & G3 & A3 & C3 & F3 & Hco & Hle3
        & Hvc & Hfl0 & Hse & Hrh & Hal0 & Htr0 & Hdr & ->).
  set (n := Z.of_nat (length (constraint s))) in *.
  assert (Hcs3 : constraint s3 = constraint s).
  { apply globals_constraint, G3. }
  assert (Hi3 : isInt s3 = isInt s).
  { unfold globals in G3. injection G3 as _ _ _ G3 _. exact G3. }
  assert (Hr3 : relationToProveType s3 = relationToProveType s).
  { unfold globals in G3. injection G3 as _ _ _ _ _ _ G3 _. exact G3. }
  assert (Hext3 : extends s s3).
  { split; [lia|]. split; [exact Hi3|]. split; [exact Hr3|].
    intros q v Hq Hv. exists v. rewrite F3 by exact Hq.
    split; [exact Hv|apply similar_refl]. }
  assert (Hfl0' : _falsehood toDer0
                  = (if decide (vc = ∅)
                     then falsehood_side (_sense toDer0) (_rhs toDer0)
                     else false)).
  { rewrite Hfl0, Hse, Hrh. reflexivity. }
  (* what is common to the reasons *)
  assert (Hfin : ∀ al',
            al' = al → extends s3 s1 → compact_heap s1 →
            length (constraint s1) = length (constraint s3) →
            (∀ i con, vec_at (constraint s3) i = Some con →
                      vec_at (constraint s1) i = Some con
                      ∨ vec_at (constraint s1) i = Some (trash con)) →
            (∀ x, good x →
                  (∀ a, a ∈ al → extend A n (satisfied s1 toDer0) a x) →
                  satisfied s1 toDer0 x) →
            (∀ a, a ∈ al → 0 ≤ a ≤ n) →
            extends s s1 ∧ compact_heap s1
            ∧ length (constraint s1) = length (constraint s)
            ∧ (∀ i con, vec_at (constraint s) i = Some con →
                        vec_at (constraint s1) i = Some con
                        ∨ vec_at (constraint s1) i = Some (trash con))
            ∧ _trashed (setMaxRefIdx (dl_refIdx l)
                          (setassumptionList al toDer0)) = false
            ∧ (∃ q v, _coefficients (setMaxRefIdx (dl_refIdx l)
                          (setassumptionList al toDer0)) = Some q
                      ∧ (q ≤ allocated s1)%nat ∧ heap s1 !! q = Some v)
            ∧ (_falsehood (setMaxRefIdx (dl_refIdx l)
                             (setassumptionList al toDer0)) = true →
               ∀ x, ¬ satisfied s1 (setMaxRefIdx (dl_refIdx l)
                                      (setassumptionList al toDer0)) x)
            ∧ (∀ x, good x →
                    (∀ a, a ∈ _assumptionList
                                (setMaxRefIdx (dl_refIdx l)
                                   (setassumptionList al toDer0)) →
                          extend A n
                            (satisfied s1 (setMaxRefIdx (dl_refIdx l)
                                             (setassumptionList al toDer0)))
                            a x) →
                    satisfied s1 (setMaxRefIdx (dl_refIdx l)
                                    (setassumptionList al toDer0)) x)
            ∧ (∀ a, a ∈ _assumptionList
                          (setMaxRefIdx (dl_refIdx l)
                             (setassumptionList al toDer0)) →
                    0 ≤ a ≤ n)
            ∧ vec_at sides n
              = Some (_rhs (setMaxRefIdx (dl_refIdx l)
                              (setassumptionList al toDer0)))).
  { intros al' -> Hext1 Hc1 Hlen1 Hcs1 Hvalid Hrange.
    destruct (proj2 (proj2 (proj2 Hext1)) coef vc Hle3 Hvc)
      as (v1 & Hv1 & Hsim).
    split; [exact (extends_trans _ _ _ Hext3 Hext1)|].
    split; [exact Hc1|]. split; [congruence|].
    split; [intros i con Hi; apply Hcs1; rewrite Hcs3; exact Hi|].
    split; [exact Htr0|].
    split.
    { exists coef, v1. split; [exact Hco|].
      split; [destruct Hext1 as (Hal & _); lia|exact Hv1]. }
    split.
    { intros Hfl x Hx. apply satisfied_set in Hx.
      exact (flagged_unsat s1 toDer0 coef vc v1 x Hco Hv1 Hsim Hfl0' Hfl Hx). }
    split.
    { intros x Hg Hall. apply satisfied_set. apply (Hvalid x Hg).
      intros a Ha. specialize (Hall a Ha). unfold extend in *.
      destruct (a =? n); [|exact Hall].
      exact (proj1 (satisfied_set _ _ _ _ _) Hall). }
    split; [exact Hrange|].
    simpl. rewrite Hrh. exact Hside. }
  assert (Hlin : ∀ (rnd : bool) (terms : list (Z * Q)),
            dl_reason l = (if rnd then Rnd_tok terms else Lin_tok terms) →
            derive_lin NDEBUG rnd terms (dl_close l) toDer0 n s3
            = Done (true, al) s1 →
            extends s s1 ∧ compact_heap s1
            ∧ length (constraint s1) = length (constraint s)
            ∧ (∀ i con, vec_at (constraint s) i = Some con →
                        vec_at (constraint s1) i = Some con
                        ∨ vec_at (constraint s1) i = Some (trash con))
            ∧ _trashed (setMaxRefIdx (dl_refIdx l)
                          (setassumptionList al toDer0)) = false
            ∧ (∃ q v, _coefficients (setMaxRefIdx (dl_refIdx l)
                          (setassumptionList al toDer0)) = Some q
                      ∧ (q ≤ allocated s1)%nat ∧ heap s1 !! q = Some v)
            ∧ (_falsehood (setMaxRefIdx (dl_refIdx l)
                             (setassumptionList al toDer0)) = true →
               ∀ x, ¬ satisfied s1 (setMaxRefIdx (dl_refIdx l)
                                      (setassumptionList al toDer0)) x)
            ∧ (∀ x, good x →
                    (∀ a, a ∈ _assumptionList
                                (setMaxRefIdx (dl_refIdx l)
                                   (setassumptionList al toDer0)) →
                          extend A n
                            (satisfied s1 (setMaxRefIdx (dl_refIdx l)
                                             (setassumptionList al toDer0)))
                            a x) →
                    satisfied s1 (setMaxRefIdx (dl_refIdx l)
                                    (setassumptionList al toDer0)) x)
            ∧ (∀ a, a ∈ _assumptionList
                          (setMaxRefIdx (dl_refIdx l)
                             (setassumptionList al toDer0)) →
                    0 ≤ a ≤ n)
            ∧ vec_at sides n
              = Some (_rhs (setMaxRefIdx (dl_refIdx l)
                              (setassumptionList al toDer0)))).
  { intros rnd terms Er' Hd.
    destruct (derive_lin_frame _ _ _ _ _ _ _ _ _ _ _ Hd C3 Hco Hle3 Hvc)
      as (A1 & I1 & R1 & C1 & L1 & K1 & F1).
    pose proof (derive_lin_scope _ _ _ _ _ _ _ _ _ Hd) as Hal.
    assert (Hscope : ∀ i a con b,
              (i, a) ∈ terms → is_zero a = false →
              vec_at (constraint s) i = Some con →
              b ∈ _assumptionList con → b ∈ al).
    { intros i a con b Hin Hnz Hi Hb. rewrite Hal.
      apply cited_scope_spec. exists i, a. split; [exact Hin|].
      split; [exact Hnz|]. unfold scope_at. rewrite Hcs3, Hi. exact Hb. }
    apply (Hfin al eq_refl).
    - split; [lia|]. split; [exact I1|]. split; [exact R1|exact F1].
    - exact C1.
    - exact L1.
    - exact K1.
    - intros x Hg Hall.
      apply (proj1 (satisfied_set s1 toDer0 (dl_refIdx l) al x)).
      apply (step_sound NDEBUG l rnd terms s _ s1 x Er' H).
      + intros i con q Hi Hq.
        destruct (entry_of_coefs A s i con Hinv Hi (mk_is_Some _ _ Hq))
          as ((q' & v & Hq' & Hle & _) & _).
        congruence.
      + intros i a con Hin Hnz Hi Htr.
        pose proof (Hent i con Hi) as He. rewrite Htr in He.
        destruct He as (_ & _ & _ & Hd' & Hf' & _).
        apply (Hd' x Hg). intros b Hb.
        apply (extend_old A n (satisfied s1 toDer0)).
        * specialize (Hf' b Hb). unfold n. lia.
        * apply Hall. exact (Hscope i a con b Hin Hnz Hi Hb).
      + intros _ w Hw Hkeys.
        assert (Hall' : ∀ k a, w !! k = Some a →
                               vec_at (isInt s) k = Some true).
        { intros k a Hk. destruct (Hkeys k (mk_is_Some _ _ Hk)) as [t Ht].
          rewrite (Hpure k t Ht) in Ht. exact Ht. }
        split; [|exact Hall'].
        intros k a b Hk Hb. exact (Hgood x Hg k b Hb (Hall' k a Hk)).
    - intros a Ha. rewrite Hal in Ha.
      apply cited_scope_spec in Ha as (i & c & Hin & Hnz & Hj).
      unfold scope_at in Hj. rewrite Hcs3 in Hj.
      destruct (vec_at (constraint s) i) as [con|] eqn:Hi; simpl in Hj;
        [|set_solver].
      pose proof (Hent i con Hi) as He.
      destruct (_trashed con).
      + destruct He as [_ E]. rewrite E in Hj. set_solver.
      + destruct He as (_ & _ & _ & _ & Hf' & _). specialize (Hf' a Hj).
        unfold n. lia. }
  unfold derive_reason in Hdr.
  destruct (dl_reason l) as [|terms|terms|con1 asm1 con2 asm2| |kind] eqn:Er.
  - (* asm *)
    apply ret_Done in Hdr as [[= _ <-] <-].
    apply (Hfin {[n]} eq_refl (extends_refl s3) C3 eq_refl).
    + intros i con Hi. left. exact Hi.
    + intros x _ Hall. apply (extend_new A n). apply Hall. set_solver.
    + intros a Ha. apply elem_of_singleton in Ha. lia.
  - exact (Hlin false terms eq_refl Hdr).
  - exact (Hlin true terms eq_refl Hdr).
  - (* uns *)
    destruct ((con1 <? 0) || (n <=? con1));
      [apply ret_Done in Hdr as [[=] _]|].
    destruct ((con2 <? 0) || (n <=? con2));
      [apply ret_Done in Hdr as [[=] _]|].
    apply bind_Done in Hdr as ([ok al'] & s4 & Hcu & Hdr). simpl in Hdr.
    destruct ok; simpl in Hdr; [|apply ret_Done in Hdr as [[=] _]].
    apply ret_Done in Hdr as [[= _ ->] <-].
    destruct (canUnsplit_inv _ _ _ _ _ _ _ _ C3 Hcu)
      as (-> & c1 & c2 & H1 & H2 & T1 & T2 & D1 & D2 & Hal).
    destruct (canUnsplit_branches _ _ _ _ _ _ _ _ C3 Hcu)
      as (b1 & b2 & v & Hb1 & Hb2 & Hv1 & Hv2 & Hs & Hint).
    destruct (Huns _ _ _ _ eq_refl) as (q & Hq & Hqi).
    rewrite Hcs3 in H1, H2, Hb1, Hb2.
    pose proof (Hent con1 c1 H1) as E1. rewrite T1 in E1.
    pose proof (Hent con2 c2 H2) as E2. rewrite T2 in E2.
    assert (F1 : entry_ok A s asm1 b1).
    { apply (entry_of_coefs A s asm1 b1 Hinv Hb1).
      apply coefs_Some in Hv1 as (p & Hp & _). eauto. }
    assert (F2 : entry_ok A s asm2 b2).
    { apply (entry_of_coefs A s asm2 b2 Hinv Hb2).
      apply coefs_Some in Hv2 as (p & Hp & _). eauto. }
    assert (Hr1 : isInteger (_rhs b1) = true).
    { destruct F1 as (_ & _ & _ & _ & _ & He). rewrite Hq in He.
      injection He as <-. exact Hqi. }
    assert (Hder : is_Some (coefs s3 toDer0)).
    { exists vc. unfold coefs. rewrite Hco. exact Hvc. }
    assert (Hcase : ∀ c b con asm,
              entry_ok A s con c → entry_ok A s asm b →
              dominates c toDer0 s3 = Done true s3 →
              (∀ a, a ∈ _assumptionList c → a ≠ asm → a ∈ al) →
              ∀ x, good x →
                   (∀ a, a ∈ al → extend A n (satisfied s3 toDer0) a x) →
                   satisfied s3 b x → satisfied s3 toDer0 x).
    { intros c b con asm Ec Eb Hdom Hsub x Hg Hall Hsat.
      assert (Hc' : is_Some (coefs s3 c)).
      { destruct Ec as ((p & w & Hp & Hle & Hw) & _).
        destruct (proj2 (proj2 (proj2 Hext3)) p w Hle Hw) as (w' & Hw' & _).
        exists w'. unfold coefs. rewrite Hp. exact Hw'. }
      apply (dominates_valid s3 c toDer0 x C3 Hdom Hc' Hder).
      - intros Hfl Hx. apply (entry_satisfied A s s3 con c x Ec Hext3) in Hx.
        destruct Ec as (_ & Hb' & _). exact (Hb' Hfl x Hx).
      - apply (entry_satisfied A s s3 con c x Ec Hext3).
        pose proof Ec as (_ & _ & _ & Hd' & Hf' & _).
        apply (Hd' x Hg). intros a Ha.
        destruct (decide (a = asm)) as [->|Hne].
        + pose proof Eb as (_ & _ & Hc'' & _). apply Hc''.
          apply (entry_satisfied A s s3 asm b x Eb Hext3).
          exact Hsat.
        + apply (extend_old A n (satisfied s3 toDer0)).
          * specialize (Hf' a Ha). unfold n. lia.
          * apply Hall, Hsub; assumption. }
    apply (Hfin al eq_refl (extends_refl s3) C3 eq_refl).
    + intros i con Hi. left. exact Hi.
    + intros x Hg Hall.
      assert (Hx : integral_on v x).
      { intros k a b Hk Hb. apply (Hgood x Hg k b Hb).
        rewrite <- Hi3. exact (proj1 (Hint k a Hk)). }
      destruct (branches_cover s3 b1 b2 v x Hv1 Hv2 Hs
                  (λ k a Hk, proj2 (Hint k a Hk)) Hx Hr1) as [S1|S2].
      * apply (Hcase c1 b1 con1 asm1 E1 F1 D1); try assumption.
        intros a Ha Hne. rewrite Hal. set_solver.
      * apply (Hcase c2 b2 con2 asm2 E2 F2 D2); try assumption.
        intros a Ha Hne. rewrite Hal. set_solver.
    + intros a Ha. rewrite Hal in Ha.
      destruct E1 as (_ & _ & _ & _ & Hf1 & _).
      destruct E2 as (_ & _ & _ & _ & Hf2 & _).
      apply elem_of_union in Ha as [Ha|Ha];
        apply elem_of_difference in Ha as [Ha _];
        [specialize (Hf1 a Ha)|specialize (Hf2 a Ha)]; unfold n; lia.
  - contradiction.
  - apply ret_Done in Hdr as [[=] _].
Qed.

(** The loop of [processDER]: when it returns true from a state in which
    the invariant holds, there is no point of interest. *)
Lemma der_loop_sound NDEBUG lines : ∀ A s s',
  der_loop NDEBUG lines s = Done true s' →
  inv A s →
  (∀ (j : nat) l, lines !! j = Some l →
                  vec_at sides (Z.of_nat (length (constraint s) + j))
                  = Some (cl_rhs (dl_con l))) →
  integer_branches sides lines → no_sol_step lines →
  (∀ x, good x → integral_point (isInt s) x) →
  pure_integer (isInt s) →
  ∀ x, ¬ good x.
Proof.
  induction lines as [|l lines IH];
    intros A s s' H Hinv Hsides Hbr Hsol Hgood Hpure; simpl in H.
  - apply bind_Done in H as (s0 & s1 & _ & H).
    apply bind_Done in H as (c & s2 & _ & H).
    apply ret_Done in H as [[=] _].
  - apply bind_Done in H as ([toDer|] & s1 & Hd & H);
      [|apply ret_Done in H as [[=] _]].
    apply bind_Done in H as (r & s2 & Hc & H).
    assert (Hside : vec_at sides (Z.of_nat (length (constraint s)))
                    = Some (cl_rhs (dl_con l))).
    { specialize (Hsides 0%nat l eq_refl).
      rewrite Nat.add_0_r in Hsides. exact Hsides. }
    destruct (derive_ok NDEBUG A l s toDer s1 Hinv Hd
                (Hsol l ltac:(left))
                Hside
                (λ c1 a1 c2 a2 E, Hbr l c1 a1 c2 a2 ltac:(left) E)
                Hgood Hpure)
      as (Hext & Hc1 & Hlen & Hcs & Htr & Ha & Hb & Hv & Hf & He).
    destruct (inv_commit A s s1 toDer _ r s2 Hinv Hext Hc1 Hlen Hcs Htr Ha Hb
                Hv Hf He Hc) as [Hnone Hsome].
    destruct r as [b|].
    + apply Hsome. discriminate.
    + destruct (Hnone eq_refl) as (Hinv2 & Hlen2 & Hi2).
      apply (IH _ s2 s' H Hinv2).
      * intros j l' Hj. rewrite Hlen2.
        replace (S (length (constraint s)) + j)%nat
          with (length (constraint s) + S j)%nat by lia.
        apply Hsides. exact Hj.
      * intros l' c1 a1 c2 a2 Hin. apply Hbr. right. exact Hin.
      * intros l' Hin. apply Hsol. right. exact Hin.
      * rewrite Hi2. exact Hgood.
      * rewrite Hi2. exact Hpure.
Qed.

End Step.

(** ** The sections before [DER] *)

Lemma ready_initial : ready initial.
Proof.
  split.
  { intros p v Hp. simpl in Hp. apply lookup_singleton_Some in Hp as [_ <-].
    apply compact_empty. }
  split; [simpl; rewrite lookup_singleton_eq; eauto|].
  intros i con Hi. unfold vec_at in Hi. simpl in Hi.
  destruct (0 <=? i); [rewrite lookup_nil in Hi|]; discriminate.
Qed.

(** A state that differs in neither vectors nor constraints. *)
Lemma ready_same s s' :
  heap s' = heap s → allocated s' = allocated s →
  constraint s' = constraint s → ready s → ready s'.
Proof.
  intros Hh Ha Hcs (Hc & Ho & Hb).
  split; [intros p v Hp; rewrite Hh in Hp; exact (Hc p v Hp)|].
  split; [rewrite Hh; exact Ho|].
  intros i con Hi. rewrite Hcs in Hi.
  destruct (Hb i con Hi) as (T & S & q & v & Hq & Hle & Hv & Hf).
  split; [exact T|]. split; [exact S|]. exists q, v.
  rewrite Hh, Ha. auto.
Qed.

Lemma processVAR_ready names s s' :
  processVAR names s = Done true s' →
  ready s → ready s' ∧ constraint s' = constraint s ∧ variable s' = names.
Proof.
  intros H Hr. unfold processVAR in H.
  apply bind_Done in H as (u & s1 & Hm & H). injection Hm as _ <-.
  apply ret_Done in H as [_ <-].
  split; [apply (ready_same s); auto|split; reflexivity].
Qed.

Lemma processINT_ready indices s s' :
  processINT indices s = Done true s' →
  ready s →
  ready s' ∧ constraint s' = constraint s
  ∧ ((∀ k, 0 ≤ k < Z.of_nat (length (variable s)) → k ∈ indices) →
     pure_integer (isInt s')).
Proof.
  intros H Hr. unfold processINT in H.
  apply bind_Done in H as (s0 & s1 & Hg & H). apply get_Done in Hg as [-> ->].
  apply bind_Done in H as (v & s1 & Hl & H). apply lift_Done in Hl as [Hl ->].
  apply bind_Done in H as (u & s1 & Hm & H). injection Hm as _ <-.
  apply ret_Done in H as [_ <-].
  split; [apply (ready_same s); auto|]. split; [reflexivity|].
  intros Hall k b Hk. simpl in Hk.
  apply mark_integers_spec in Hl as (Hlen & _ & Hmark).
  rewrite length_replicate in Hlen.
  pose proof (vec_at_lt _ _ _ Hk) as Hr'. rewrite Hlen in Hr'.
  rewrite (Hmark k false) in Hk.
  - injection Hk as <-. simpl. apply bool_decide_eq_true, Hall, Hr'.
  - unfold vec_at. destruct (Z.leb_spec 0 k); [|lia].
    apply lookup_replicate. split; [reflexivity|lia].
Qed.

(** Reading into the objective vector. *)
Lemma readObjective_compact tok s ok p e s' :
  readConstraintCoefficients objPtr tok s = Done (ok, p, e) s' →
  ok = true → compact_heap s →
  compact_heap s' ∧ is_Some (heap s' !! objPtr)
  ∧ globals s' = globals s.
Proof.
  intros H -> Hc.
  pose proof (heap_only_readConstraintCoefficients _ _ _ _ _ H) as G.
  split; [|split; [|exact G]].
  - destruct tok as [|pairs].
    + unfold readConstraintCoefficients in H.
      apply bind_Done in H as (w & s1 & Hd & H).
      apply deref_Done in Hd as (a & [= <-] & Hw & ->).
      rewrite (bind_eq _ _ _ _ _ (store_run s objPtr ∅)) in H.
      erewrite (bind_eq _ _ _ _ _ (deref_run _ objPtr ∅ _)) in H.
      rewrite (bind_eq _ _ _ _ _ (store_run _ objPtr _)) in H.
      apply ret_Done in H as [_ <-].
      apply compact_heap_insert; [apply compact_heap_insert|];
        [exact Hc|apply compact_empty|apply compactify_compact].
    + assert (Hp : is_Some (heap s !! objPtr)).
      { unfold readConstraintCoefficients in H.
        apply bind_Done in H as (w & s1 & Hd & _).
        apply deref_Done in Hd as (a & [= <-] & Hw & _). eauto. }
      destruct (readConstraintCoefficients_Vec objPtr pairs s Hp)
        as (s1 & Hrun & _ & _ & Hq & _ & Hres).
      rewrite Hrun in H. injection H as Hok _ _ <-.
      intros q v Hv. destruct (decide (q = objPtr)) as [->|Hne].
      * rewrite (Hres Hok) in Hv. injection Hv as <-.
        unfold vector_of. apply compactify_compact.
      * rewrite (Hq q Hne) in Hv. exact (Hc q v Hv).
  - destruct tok as [|pairs].
    + unfold readConstraintCoefficients in H.
      apply bind_Done in H as (w & s1 & Hd & H).
      apply deref_Done in Hd as (a & [= <-] & Hw & ->).
      rewrite (bind_eq _ _ _ _ _ (store_run s objPtr ∅)) in H.
      erewrite (bind_eq _ _ _ _ _ (deref_run _ objPtr ∅ _)) in H.
      rewrite (bind_eq _ _ _ _ _ (store_run _ objPtr _)) in H.
      apply ret_Done in H as [_ <-]. simpl. rewrite lookup_insert_eq. eauto.
    + assert (Hp : is_Some (heap s !! objPtr)).
      { unfold readConstraintCoefficients in H.
        apply bind_Done in H as (w & s1 & Hd & _).
        apply deref_Done in Hd as (a & [= <-] & Hw & _). eauto. }
      destruct (readConstraintCoefficients_Vec objPtr pairs s Hp)
        as (s1 & Hrun & _ & _ & _ & Hp1 & _).
      rewrite Hrun in H. injection H as _ _ _ <-. exact Hp1.
  Unshelve. all: simpl; apply lookup_insert_eq.
Qed.

Lemma processOBJ_ready obj s s' :
  processOBJ obj s = Done true s' →
  ready s → constraint s = [] →
  ready s' ∧ constraint s' = [] ∧ isInt s' = isInt s.
Proof.
  unfold processOBJ. intros H (Hc & _ & _) Hnil.
  assert (Hgo : ∀ min,
    (r <- readConstraintCoefficients objPtr obj.2 ;;
     let '(returnStatement, _, _) := r in
     v <- deref (Some objPtr) ;;
     s <- get ;;
     integral <- lift (integral_loop (isInt s) (entries v) true) ;;
     modify (set_objective min integral) ;;;
     ret returnStatement) s = Done true s' →
    ready s' ∧ constraint s' = [] ∧ isInt s' = isInt s).
  { intros min Hg.
    apply bind_Done in Hg as ([[r p] e] & s1 & Hrd & Hg).
    apply bind_Done in Hg as (v & s2 & Hd & Hg).
    apply deref_Done in Hd as (a & _ & _ & ->).
    apply bind_Done in Hg as (s0 & s3 & Hget & Hg).
    apply get_Done in Hget as [-> ->].
    apply bind_Done in Hg as (i & s4 & Hl & Hg).
    apply lift_Done in Hl as [_ ->].
    apply bind_Done in Hg as (u & s5 & Hm & Hg). injection Hm as _ <-.
    apply ret_Done in Hg as [-> <-].
    destruct (readObjective_compact _ _ _ _ _ _ Hrd eq_refl Hc)
      as (Hc1 & Ho1 & G1).
    pose proof (globals_constraint _ _ G1) as Hcs1.
    assert (Hn1 : constraint s1 = []) by congruence.
    split; [|split; [exact Hn1|]].
    2:{ simpl. unfold globals in G1. injection G1 as _ _ _ G1 _. exact G1. }
    split; [exact Hc1|]. split; [exact Ho1|].
    intros j con Hj. simpl in Hj. rewrite Hn1 in Hj.
    unfold vec_at in Hj. destruct (0 <=? j); [rewrite lookup_nil in Hj|];
      discriminate. }
  destruct (String.eqb obj.1 "min"); [exact (Hgo _ H)|].
  destruct (String.eqb obj.1 "max"); [|apply ret_Done in H as [[=] _]].
  exact (Hgo _ H).
Qed.

Lemma base_ok_later s s' con :
  base_ok s con →
  (allocated s ≤ allocated s')%nat →
  (∀ q, (q ≤ allocated s)%nat → heap s' !! q = heap s !! q) →
  base_ok s' con.
Proof.
  intros (T & S & q & v & Hq & Hle & Hv & Hf) Ha Hh.
  split; [exact T|]. split; [exact S|]. exists q, v.
  rewrite (Hh q Hle). split; [exact Hq|]. split; [lia|]. auto.
Qed.

Lemma con_loop_ready lines : ∀ r s s',
  con_loop lines r s = Done true s' →
  ready s →
  ready s'
  ∧ length (constraint s') = (length (constraint s) + length lines)%nat
  ∧ numberOfConstraints s' = numberOfConstraints s
  ∧ relationToProveType s' = relationToProveType s
  ∧ isInt s' = isInt s
  ∧ _rhs <$> constraint s' = (_rhs <$> constraint s) ++ (cl_rhs <$> lines).
Proof.
  induction lines as [|l lines IH]; intros r s s' H Hr; simpl in H.
  - apply ret_Done in H as [_ <-]. simpl. rewrite Nat.add_0_r, app_nil_r.
    auto 10.
  - pose proof Hr as (Hc & Ho & Hb).
    destruct (make_shared_run s) as (s1 & Hms & Hh1 & G1).
    rewrite (bind_eq _ _ _ _ _ Hms) in H.
    assert (Ha1 : allocated s1 = S (allocated s)).
    { unfold make_shared in Hms. cbv [bind get put ret] in Hms.
      injection Hms as <-. reflexivity. }
    set (q1 := S (allocated s)) in *.
    assert (Hc1 : compact_heap s1).
    { intros q v Hq. rewrite Hh1 in Hq.
      destruct (decide (q = q1)) as [->|Hne].
      - rewrite lookup_insert_eq in Hq. injection Hq as <-.
        apply compact_empty.
      - rewrite lookup_insert_ne in Hq by congruence. exact (Hc q v Hq). }
    apply bind_Done in H as ([[[ok sense] coef] eqObj] & s2 & Hrd & H).
    destruct ok; [|apply ret_Done in H as [[=] _]].
    assert (Hq1 : heap s1 !! q1 = Some ∅).
    { rewrite Hh1. apply lookup_insert_eq. }
    destruct (readConstraint_compact _ _ _ _ _ _ _ _ Hrd ltac:(discriminate)
                Hq1 Hc1) as (G2 & Ha2 & Hc2 & Hf2 & [v2 Hv2] & Hcoef).
    rewrite (bind_eq _ _ _ _ _ (Constraint_new_run _ _ _ _ _ _ _ _ Hv2)) in H.
    rewrite (compact_compactify v2) in H by exact (Hc2 _ _ Hv2).
    rewrite insert_id in H by exact Hv2. rewrite set_heap_id in H.
    apply bind_Done in H as (u & s3 & Hp & H).
    unfold push_constraint in Hp. injection Hp as _ <-.
    assert (Hcs2 : constraint s2 = constraint s).
    { apply globals_constraint. congruence. }
    assert (Hold : ∀ q, (q ≤ allocated s)%nat → heap s2 !! q = heap s !! q).
    { intros q Hq. rewrite Hf2 by (unfold q1; lia).
      rewrite Hh1. apply lookup_insert_ne. unfold q1. lia. }
    match type of H with
    | con_loop _ _ ?t = _ => set (s3 := t) in *
    end.
    assert (Hr3 : ready s3).
    { split; [exact Hc2|]. split.
      { simpl. destruct Ho as [vo Hvo]. exists vo.
        rewrite Hold by (unfold objPtr; lia). exact Hvo. }
      intros i con Hi. simpl in Hi. rewrite Hcs2 in Hi.
      apply vec_at_app_inv in Hi as [Hi|[_ ->]].
      - apply (base_ok_later s); [exact (Hb i con Hi)|simpl; lia|exact Hold].
      - split; [reflexivity|]. split; [reflexivity|].
        exists coef, v2. split; [reflexivity|].
        split; [simpl; destruct Hcoef as [->| ->]; unfold objPtr; lia|].
        split; [exact Hv2|reflexivity]. }
    destruct (IH _ _ _ H Hr3) as (Hr' & Hlen & Hn & Hrtp & Hint & Hrhs).
    split; [exact Hr'|].
    assert (G12 : globals s2 = globals s) by congruence.
    split.
    { rewrite Hlen. simpl. rewrite Hcs2, length_app. simpl. lia. }
    split.
    { rewrite Hn. simpl. unfold globals in G12.
      injection G12 as _ G12 _. exact G12. }
    split.
    { rewrite Hrtp. simpl. unfold globals in G12.
      injection G12 as _ _ _ _ _ _ G12 _. exact G12. }
    split.
    { rewrite Hint. simpl. unfold globals in G12.
      injection G12 as _ _ _ G12 _. exact G12. }
    rewrite Hrhs. simpl. rewrite Hcs2, fmap_app, <- app_assoc. reflexivity.
Qed.

Lemma processCON_ready lines s s' :
  processCON lines s = Done true s' →
  ready s → constraint s = [] →
  ready s'
  ∧ Z.of_nat (length (constraint s')) = numberOfConstraints s'
  ∧ isInt s' = isInt s
  ∧ _rhs <$> constraint s' = cl_rhs <$> lines.
Proof.
  intros H Hr Hnil. unfold processCON in H.
  apply bind_Done in H as (u & s1 & Hm & H). injection Hm as _ <-.
  destruct (con_loop_ready _ _ _ _ H) as (Hr' & Hlen & Hn & _ & Hint & Hrhs).
  { apply (ready_same s); auto. }
  split; [exact Hr'|].
  split; [rewrite Hlen, Hn; simpl; rewrite Hnil; reflexivity|].
  split; [exact Hint|]. rewrite Hrhs. simpl. rewrite Hnil. reflexivity.
Qed.

Lemma processRTP_ready s s' :
  processRTP Infeas_tok s = Done true s' →
  ready s →
  ready s' ∧ constraint s' = constraint s
  ∧ numberOfConstraints s' = numberOfConstraints s
  ∧ relationToProveType s' = INFEAS
  ∧ isInt s' = isInt s.
Proof.
  intros H Hr. simpl in H.
  apply bind_Done in H as (u & s1 & Hm & H). injection Hm as _ <-.
  apply ret_Done in H as [_ <-].
  split; [apply (ready_same s); auto|]. auto.
Qed.

Lemma processSOL_ready s s' :
  processSOL [] s = Done true s' →
  ready s →
  ready s' ∧ constraint s' = constraint s
  ∧ numberOfConstraints s' = numberOfConstraints s
  ∧ relationToProveType s' = relationToProveType s
  ∧ isInt s' = isInt s.
Proof.
  intros H (Hc & Ho & Hb). unfold processSOL in H.
  apply bind_Done in H as (u & s1 & Hm & H). injection Hm as _ <-.
  match type of H with
  | bind make_shared _ ?t = _ => set (s1 := t) in *
  end.
  destruct (make_shared_run s1) as (s2 & Hms & Hh2 & G2).
  rewrite (bind_eq _ _ _ _ _ Hms) in H.
  assert (Ha2 : allocated s2 = S (allocated s)).
  { unfold make_shared in Hms. cbv [bind get put ret] in Hms.
    injection Hms as <-. reflexivity. }
  simpl sol_loop in H.
  rewrite (bind_eq _ _ _ _ _ (eq_refl : ret true s2 = Done true s2)) in H.
  change (negb true) with false in H. cbv iota in H.
  apply bind_Done in H as (s0 & s3 & Hg & H). apply get_Done in Hg as [-> ->].
  assert (Hs' : s' = s2).
  { repeat match type of H with
           | (if ?b then _ else _) _ = _ => destruct b
           end;
      apply ret_Done in H as [_ <-]; reflexivity. }
  subst s'.
  assert (Hcs : constraint s2 = constraint s).
  { apply globals_constraint in G2. rewrite G2. reflexivity. }
  split.
  { split.
    { intros q v Hq. rewrite Hh2 in Hq.
      destruct (decide (q = S (allocated s1))) as [->|Hne].
      - rewrite lookup_insert_eq in Hq. injection Hq as <-.
        apply compact_empty.
      - rewrite lookup_insert_ne in Hq by congruence. exact (Hc q v Hq). }
    split.
    { rewrite Hh2. rewrite lookup_insert_ne by discriminate. exact Ho. }
    intros i con Hi. rewrite Hcs in Hi.
    apply (base_ok_later s); [exact (Hb i con Hi)|lia|].
    intros q Hq. rewrite Hh2. apply lookup_insert_ne. simpl. lia. }
  split; [exact Hcs|].
  unfold globals in G2. split; [|split].
  - injection G2 as _ G2 _. rewrite G2. reflexivity.
  - injection G2 as _ _ _ _ _ _ G2 _. rewrite G2. reflexivity.
  - injection G2 as _ _ _ G2 _. rewrite G2. reflexivity.
Qed.

(** ** From the certificate to the invariant *)

Lemma main_stages MAJOR MINOR NDEBUG cert :
  verdict (main MAJOR MINOR NDEBUG cert) = Some OKAY →
  ∃ s2 s3 s4 s5 s6 s7 s8,
    processVAR (cVAR cert) initial = Done true s2
    ∧ processINT (cINT cert) s2 = Done true s3
    ∧ processOBJ (cOBJ cert) s3 = Done true s4
    ∧ processCON (cCON cert) s4 = Done true s5
    ∧ processRTP (cRTP cert) s5 = Done true s6
    ∧ processSOL (cSOL cert) s6 = Done true s7
    ∧ processDER NDEBUG (cDER cert) s7 = Done true s8.
Proof.
  intros H. apply verdict_Some in H as [sf H]. unfold main in H.
  apply stage_OKAY in H as (s1 & Hver & H).
  apply ret_Done in Hver as [_ <-].
  apply stage_OKAY in H as (s2 & H2 & H).
  apply stage_OKAY in H as (s3 & H3 & H).
  apply stage_OKAY in H as (s4 & H4 & H).
  apply stage_OKAY in H as (s5 & H5 & H).
  apply stage_OKAY in H as (s6 & H6 & H).
  apply stage_OKAY in H as (s7 & H7 & H).
  apply stage_OKAY in H as (s8 & H8 & _).
  exists s2, s3, s4, s5, s6, s7, s8. auto 10.
Qed.

Lemma ready_inv s lines :
  ready s → relationToProveType s = INFEAS →
  Z.of_nat (length (constraint s)) = numberOfConstraints s →
  inv (feasible s) (sides_of s lines) (meaning s) s.
Proof.
  intros (Hc & _ & Hb) Hr Hn.
  split; [exact Hc|]. split; [exact Hr|].
  intros i con Hi.
  destruct (Hb i con Hi) as (T & S & q & v & Hq & Hle & Hv & Hf).
  rewrite T.
  split; [exists q, v; auto|].
  split.
  { intros Hfl x.
    exact (flagged_unsat s con q v v x Hq Hv (similar_refl v) Hf Hfl). }
  split.
  { intros x. unfold meaning. split.
    - intros (con' & Hi' & Hs). rewrite Hi in Hi'. injection Hi' as <-.
      exact Hs.
    - intros Hs. exists con. auto. }
  split.
  { intros x [Hfeas _] _.
    pose proof (vec_at_lt _ _ _ Hi) as Hir. rewrite Hn in Hir.
    destruct (Hfeas i Hir) as (con' & c & Hi' & Hc' & Hh).
    rewrite Hi in Hi'. injection Hi' as <-. exists c. auto. }
  split; [intros a Ha; rewrite S in Ha; set_solver|].
  unfold sides_of, vec_at in *.
  destruct (0 <=? i); [|discriminate].
  apply lookup_app_l_Some. rewrite list_lookup_fmap, Hi. reflexivity.
Qed.

(** An accepted certificate of infeasibility is right, when every
    variable is an integer variable, no solution is listed, no step takes
    a bound from a solution, and the first assumption of every [uns] step
    has an integer right-hand side: when [main] returns [OKAY] for
    [RTP infeas], no point with integer values satisfies all constraints
    of the section [CON]. *)
Theorem infeasibility_sound MAJOR MINOR NDEBUG cert :
  verdict (main MAJOR MINOR NDEBUG cert) = Some OKAY →
  cRTP cert = Infeas_tok →
  cSOL cert = [] →
  all_integer cert →
  no_sol_step (cDER cert) →
  integer_branches (sides cert) (cDER cert) →
  ∃ s0, after_SOL cert = Some s0 ∧ ∀ x, ¬ feasible s0 x.
Proof.
  intros Hok Hrtp Hsol Hall Hnosol Hbr.
  destruct (main_stages _ _ _ _ Hok)
    as (s2 & s3 & s4 & s5 & s6 & s0 & s8 & H2 & H3 & H4 & H5 & H6 & H7 & H8).
  exists s0. split.
  { unfold after_SOL, after_RTP.
    rewrite (bind_eq _ _ _ _ _ H2). change (negb true) with false. cbv iota.
    rewrite (bind_eq _ _ _ _ _ H3). change (negb true) with false. cbv iota.
    rewrite (bind_eq _ _ _ _ _ H4). change (negb true) with false. cbv iota.
    rewrite (bind_eq _ _ _ _ _ H5). change (negb true) with false. cbv iota.
    rewrite (bind_eq _ _ _ _ _ H6). simpl. rewrite H7. reflexivity. }
  destruct (processVAR_ready _ _ _ H2 ready_initial) as (R2 & C2 & V2).
  destruct (processINT_ready _ _ _ H3 R2) as (R3 & C3 & P3).
  destruct (processOBJ_ready _ _ _ H4 R3 ltac:(rewrite C3, C2; reflexivity))
    as (R4 & C4 & I4).
  destruct (processCON_ready _ _ _ H5 R4 C4) as (R5 & N5 & I5 & S5).
  rewrite Hrtp in H6.
  destruct (processRTP_ready _ _ H6 R5) as (R6 & C6 & N6 & T6 & I6).
  rewrite Hsol in H7.
  destruct (processSOL_ready _ _ H7 R6) as (R7 & C7 & N7 & T7 & I7).
  assert (Hsides : sides_of s0 (cDER cert) = sides cert).
  { unfold sides_of, sides. rewrite C7, C6, S5. reflexivity. }
  assert (Hpure : pure_integer (isInt s0)).
  { rewrite I7, I6, I5, I4. apply P3. rewrite V2. exact Hall. }
  assert (Hinv : inv (feasible s0) (sides_of s0 (cDER cert)) (meaning s0) s0).
  { apply ready_inv; [exact R7|congruence|congruence]. }
  unfold processDER in H8.
  apply bind_Done in H8 as (s & t & Hg & H8). apply get_Done in Hg as [-> ->].
  rewrite T7, T6 in H8. simpl in H8.
  apply (der_loop_sound (feasible s0) (sides_of s0 (cDER cert)) NDEBUG
           (cDER cert) (meaning s0) s0 s8 H8 Hinv).
  - intros j l Hj. unfold sides_of, vec_at.
    destruct (Z.leb_spec 0 (Z.of_nat (length (constraint s0) + j))); [|lia].
    rewrite Nat2Z.id. rewrite lookup_app_r by (rewrite length_fmap; lia).
    rewrite length_fmap.
    replace (length (constraint s0) + j - length (constraint s0))%nat
      with j by lia.
    rewrite list_lookup_fmap, Hj. reflexivity.
  - rewrite Hsides. exact Hbr.
  - exact Hnosol.
  - intros x [_ Hint]. exact Hint.
  - exact Hpure.
Qed.

(** The certificate for [2 x >= 1], [2 x <= 1] with an integer [x]. *)
Lemma infeasibility_sound_witness :
  ∃ s0, after_SOL cert_parity = Some s0 ∧ ∀ x, ¬ feasible s0 x.
Proof.
  apply (infeasibility_sound 1 1 true cert_parity).
  - vm_compute. reflexivity.
  - reflexivity.
  - reflexivity.
  - intros k Hk. simpl in Hk. assert (k = 0) as -> by lia.
    apply list_elem_of_here.
  - intros l Hl. simpl in Hl.
    repeat (apply elem_of_cons in Hl as [->|Hl]; [discriminate|]).
    apply elem_of_nil in Hl. destruct Hl.
  - intros l c1 a1 c2 a2 Hl Hr. simpl in Hl.
    repeat (apply elem_of_cons in Hl as [->|Hl];
            [try discriminate|]).
    + injection Hr as <- <- <- <-. exists 0%Q. split; reflexivity.
    + apply elem_of_nil in Hl. destruct Hl.
Defined.

End ChkProof.
